(* ===== verification/_CoqProject ===== *)
-Q . S2P
Prelude.v
RustInt.v
Stun.v
Types.v
Chan.v
Rpc.v
Consts.v
UdpClient.v
RelayInv.v
UdpPooled.v
PooledInv.v
PooledProps.v
UdpClientProps.v
TcpClients.v
TcpProps.v
Manager.v
ManagerProps.v
ProxyManager.v
FrontLaws.v
ProxyProps.v
PooledFront.v
PooledHandler.v
ManagerBackend.v
EndpointApi.v
Register.v
Services.v
RelayLeaks.v
StunTests.v
Timed.v
RelayTimers.v
EndpointTimers.v
PooledTimers.v
TcpTimers.v
Scenarios.v
SystemScenarios.v
TimedScenarios.v
FrontScenarios.v
