(* ===== verification/Prelude.v ===== *)
(** * rrr-proxy: a verification development

    rrr-proxy relays the media of WebRTC sessions between clients and media servers.  An HTTP
    interface allocates and deletes ports for sessions; UDP is relayed either over a port per
    session or over a fixed pool of ports shared by all sessions, TCP over a port per target; an
    agent keeps the proxy registered with a registrar over a websocket.  This development models
    the crate's own code, from the parser that inspects untrusted datagrams to the requests of the
    HTTP interface, and proves what makes each part correct.

    ** The program and the files that model it

    - [Stun.v]: src/proxy/stun.rs, the parser that reads the ICE ufrag out of a STUN binding
      request, with the slices, indexing and UTF-8 validation it uses.  [StunTests.v]: its unit
      tests, run on the model.
    - [UdpClient.v]: src/proxy/udp_client.rs, the relay of one client's flow ([ProxyClient]), the
      handlers that own relays, and the per-session endpoint ([ProxyEndpoint]).  [RelayInv.v] holds
      the invariant of an owner and its relays, [UdpClientProps.v] the properties.
    - [UdpPooled.v]: src/proxy/udp_pooled.rs, the pooled endpoint.  [PooledInv.v] and
      [PooledProps.v]: its invariant and properties.  [RelayLeaks.v]: neither kind of endpoint
      leaks relays.  [PooledHandler.v]: the handler behind which a pooled endpoint runs.
    - [TcpClients.v], [TcpProps.v]: src/proxy/tcp_clients.rs, TCP relays and endpoints.
    - [Timed.v]: tasks against a clock.  [RelayTimers.v], [EndpointTimers.v], [PooledTimers.v] and
      [TcpTimers.v]: the idle timeouts of UDP relays, per-session endpoints, pooled flows and TCP
      connections.
    - [Manager.v], [ManagerProps.v]: src/proxy.rs, the manager task that [ProxyManager::new] spawns
      and the [_impl] functions, composed with its queue and the endpoint tasks ([sys_step]).  The
      state also records what the system answered when endpoints were asked for ([sy_given]), so
      that theorems can say which port and target an endpoint was given.
    - [Rpc.v]: a request on a task's queue and its answer on a oneshot channel, between which other
      tasks go on and the caller may be dropped.  The front asks the manager this way, and a pooled
      endpoint's handler its task.
    - [ProxyManager.v]: src/proxy.rs, the front [struct ProxyManager], against the interfaces
      [ManagerApi] and [PoolApi].  [FrontLaws.v]: what these promise, as classes of laws.
      [ProxyProps.v], [PooledFront.v]: what the front does, given the laws.
      [ManagerBackend.v] and [PooledHandler.v] are the implementations that keep the laws: the
      system of manager, queue and endpoint tasks, and a pooled endpoint behind its control channel.
    - [EndpointApi.v]: src/manager/endpoint.rs, the HTTP handlers, their lock, the layers around them
      and the metrics layer, as the service of one request.
    - [Register.v]: src/manager/register.rs, src/manager/load.rs, the registration agent, its
      heartbeat, the signal handler and load reports.  [Services.v]: src/main.rs and the service of
      src/manager/pmetrics.rs.
    - [Consts.v]: src/lib.rs, the configuration.  [Types.v]: the shared data of src/proxy.rs,
      src/manager/models.rs and src/manager/pmetrics.rs.
    - [RustInt.v]: machine integers, big-endian bytes, decimal parsing and printing.  [Chan.v]: the
      interface of [tokio::sync::mpsc] and the laws the tasks rely on.
    - [Scenarios.v], [SystemScenarios.v], [TimedScenarios.v], [FrontScenarios.v]: concrete runs, which
      show that the theorems' hypotheses are met and exhibit the counterexamples.

    ** How tasks are modelled

    Every task of the program is a [loop] around a [select!].  A round of the loop is a function
    from the branch that was picked, with what the operating system answered, to the new state, the
    effects (datagrams sent, bytes moved, counters, messages to the manager) and whether the loop
    goes on ([relay_select], [endpoint_select], [pooled_select], [tcp_select], [tcp_ep_select],
    [handle_msg]).  A task with the tasks it spawned is a transition system given by a partial step
    function ([ep_step], [pooled_step], [tcp_ep_step], [sys_step]): a step is a round of the loop,
    a step of one of the spawned tasks, the report of an ended task, or a cancellation.  Theorems
    about tasks hold in every state reachable by such steps, hence for every interleaving and every
    behaviour of the network.  A step that would have to wait (a full or an empty channel) is
    [None].  Handling an event is atomic, although it awaits: between its awaits the handler holds
    its task's state, and other tasks share with it only channels and sockets.  Where an event can
    have had effects before it waits, a cancellation may also find the task there, that is, in
    [socket.send] of a relay's socket or past it ([waiting], [endpoint_waits], [pooled_waits]).
    [select!] drops the branches it did not pick; only in the TCP relay do these hold data, so there
    a direction is modelled by the point its future stands at.

    A relay is known by a number; an owner's [world] maps the numbers to relays and holds the
    channel they report on.  A dropped handler aborts its relay, which is then cancelled at some
    later step.  A socket is its local port and its connected peer.

    A request ends as a [fate]: it returned, it panicked, or it was dropped at one of its awaits,
    which the HTTP timeout does; a dropped request leaves the state as it was at that await.  What
    the request asked of a task before it was dropped may still be done.  While a caller waits, the
    callee's system takes the steps of a script; a theorem that says what holds after a request
    quantifies over the scripts, and where an endpoint may end meanwhile, it says so ([news]).

    A timed run ([Timed.v]) takes the same steps, except that the branch of a sleep waits for its
    time, and that time does not pass a sleep that is over.  The theorems on untimed runs hold for
    timed ones ([timed_run_erases]).  Which steps are rounds, at which the sleep starts anew, is
    read off the code ([relay_round], [ep_round], [tcp_round]); which carry traffic is said of
    datagrams and bytes ([pooled_carries], [tcp_carries]).  A run that keeps a loop busy
    ([busy_step]) has traffic within every timeout, and no time passes while a relay has a message
    of its control channel to take note of.

    Fallible code returns [result] (Ok or Err) and code that may panic [outcome].  Machine integers
    are [Z] with their wrap-around or overflow check written out.  Error texts are kept where the
    code compares or returns them.

    ** What is proved

    - Parser: [local_ufrag] never panics, accepts exactly the well-formed binding requests and
      inverts the encoder of the test suite.  It runs with the packet's length as fuel, which
      [local_ufrag_total] shows to be enough: every attribute takes at least its header.
    - Pooled endpoints: forwarding is authorised by a binding request and a live session; the
      tables implement the history of control messages; clients, relays and routes agree in every
      reachable state; no relay leaks; stale ends do no harm; a waiting datagram gets handled.
    - Per-session endpoints: they forward to the session's target only, answer the right client,
      end when no client is left, tell the manager once, leak no relay.
    - TCP: a relay only copies, loses nothing when writes are taken whole and no direction is
      interrupted; endpoints leave established connections alone.
    - Timeouts: pooled flows and TCP connections that carry traffic within every timeout are not cut
      off as idle; endpoints that get no datagram, and connections that finish no round, end in
      bounded time, and time never gets stuck.
    - Manager: the endpoints listed are exactly the tasks not killed, on the ports handed out and for
      the targets resolved when they were asked for, in states the endpoint theorems speak of;
      finished ones are forgotten; requests on every branch.
    - Front: a port answered is that of an endpoint task, not killed, for the target asked for
      (front, manager and tasks together, [allocation_is_served]); after a pooled allocation a
      client's binding request at the answered port reaches the target
      ([pooled_allocation_is_served]); every pooled session the front knows is routed, whichever
      requests are dropped; what deletions do: one that follows a pooled allocation restores the
      front's table, and the socket's routes but for sessions that share the ufrag
      ([pooled_delete_undoes_allocation]); a session the front has forgotten stays where it is until
      it is allocated again ([forgotten_session_stays_routed]); when a request panics.
    - HTTP: what becomes of every request, with its status, in the per-session mode.
    - Process: when it panics (in its start, or with a service), fails, serves and ends; retries are
      bounded when the configured maximum is below 65535.

    Counterexamples are theorems too: a per-session endpoint can kill a live flow
    ([stale_end_kills_live_relay]) and cuts off a flow that only the media server feeds
    ([one_way_flow_is_cut]), a TCP relay can lose bytes ([tcp_relay_can_lose_bytes]), the manager can
    hand out a dead endpoint ([dead_endpoints_are_handed_out]), a dropped request can leave a route that deletions do
    not remove ([dropped_requests_strand_routes]), the retry bound fails at its largest value
    ([registration_bound_overflows]), the per-session front never forgets a session
    ([session_table_only_grows]).

    ** What is not modelled

    Sockets, the resolver, websockets, signals, the system's load, JSON, the clock of tower's
    timeout, axum's matching of routes and tower's limits, and the Prometheus exporter with its
    buckets are not part of the repository; what they answer is an argument of the definitions.
    Logging is left out, and so is [fix_box], which turns an error into
    another box of its text: errors are their texts here.  In timed runs a handler's
    step takes no time; the clocks of the heartbeat and of the drain at shutdown are not part of
    them. *)

From Stdlib Require Export Ascii.
From stdpp Require Export base option list gmap strings.
From Stdlib Require Export ZArith Lia.

(** ** Results, panics and their notations *)

(** [Result<T, E>]. *)
Inductive result (E A : Type) : Type :=
| Ok (a : A)
| Err (e : E).
Arguments Ok {E A} _.
Arguments Err {E A} _.

(** A computation that may panic ([unwrap] of an error, an index out of range). *)
Inductive outcome (A : Type) : Type :=
| Ret (a : A)
| Panic.
Arguments Ret {A} _.
Arguments Panic {A}.

#[global] Instance result_eq_dec {E A} `{EqDecision E, EqDecision A} : EqDecision (result E A).
Proof. solve_decision. Defined.
#[global] Instance outcome_eq_dec {A} `{EqDecision A} : EqDecision (outcome A).
Proof. solve_decision. Defined.

Definition is_ok {E A} (r : result E A) : bool :=
  match r with Ok _ => true | Err _ => false end.

(** [Result::ok]. *)
Definition result_ok {E A} (r : result E A) : option A :=
  match r with Ok a => Some a | Err _ => None end.

(** [Result::unwrap_or]. *)
Definition unwrap_or {E A} (r : result E A) (d : A) : A :=
  match r with Ok a => a | Err _ => d end.

(** [Result::unwrap]: panics on an error. *)
Definition unwrap {E A} (r : result E A) : outcome A :=
  match r with Ok a => Ret a | Err _ => Panic end.

(** [Result::map_err]. *)
Definition map_err {E F A} (f : E -> F) (r : result E A) : result F A :=
  match r with Ok a => Ok a | Err e => Err (f e) end.

(** [Option::ok_or]. *)
Definition ok_or {E A} (o : option A) (e : E) : result E A :=
  match o with Some a => Ok a | None => Err e end.

Declare Scope rust_scope.
Delimit Scope rust_scope with rust.

(** [let? x := e in k] is [let x = e?; k]; [let! x := e in k] runs [e], which may panic. *)
Notation "'let?' x ':=' e 'in' k" :=
  (match e with Ok x => k | Err err => Err err end)
  (at level 10, x pattern, e at level 200, k at level 200) : rust_scope.
Notation "'let!' x ':=' e 'in' k" :=
  (match e with Ret x => k | Panic => Panic end)
  (at level 10, x pattern, e at level 200, k at level 200) : rust_scope.

(** ** Automation *)

(** Splits every conjunction and existential of the context. *)
Ltac split_hyps :=
  repeat match goal with
         | H : _ /\ _ |- _ => destruct H
         | H : exists _, _ |- _ => destruct H
         end.

(** ** Event loops

    Every task of the program is a [loop { select! { .. } }].  [select!] picks one of the ready
    branches, so a loop is modelled by the function that handles the branch picked, and a run by
    the sequence of the branches that were picked. *)
Inductive loop_ctl (S : Type) : Type :=
| Continue (s : S)
| Break (s : S).
Arguments Continue {S} _.
Arguments Break {S} _.

Definition ctl_state {S} (c : loop_ctl S) : S :=
  match c with Continue s | Break s => s end.

(** ** Transition systems given by a partial step function *)
Section Reach.
Context {S L : Type} (step : S -> L -> option S).

Inductive reachable (init : S) : S -> Prop :=
| reach_init : reachable init init
| reach_step s l s' : reachable init s -> step s l = Some s' -> reachable init s'.

Fixpoint run (s : S) (ls : list L) : option S :=
  match ls with
  | [] => Some s
  | l :: ls' => match step s l with Some s' => run s' ls' | None => None end
  end.

Lemma run_app s ls1 ls2 :
  run s (ls1 ++ ls2) = match run s ls1 with Some s' => run s' ls2 | None => None end.
Proof.
  revert s. induction ls1 as [|l ls1 IH]; intros s; [done|]. cbn.
  destruct (step s l); [apply IH | done].
Qed.

Lemma run_snoc s ls l s' :
  run s (ls ++ [l]) = Some s' -> exists m, run s ls = Some m /\ step m l = Some s'.
Proof.
  rewrite run_app. destruct (run s ls) as [m|]; [|done]. cbn.
  destruct (step m l) eqn:E; [|done]. intros [= <-]. eauto.
Qed.

Lemma run_step s ls m l s' : run s ls = Some m -> step m l = Some s' -> run s (ls ++ [l]) = Some s'.
Proof. intros Hm Hl. rewrite run_app, Hm. cbn. by rewrite Hl. Qed.

Lemma run_reachable init ls s : run init ls = Some s -> reachable init s.
Proof.
  revert s. induction ls as [|l ls IH] using rev_ind; intros s H.
  - cbn in H. simplify_eq. constructor.
  - apply run_snoc in H as (m & Hm & Hs). econstructor; eauto.
Qed.

Lemma reachable_inv (I : S -> Prop) init :
  I init -> (forall s l s', I s -> step s l = Some s' -> I s') ->
  forall s, reachable init s -> I s.
Proof. intros H0 Hs s Hr. induction Hr; eauto. Qed.

(** An invariant of a run that may mention the labels it took. *)
Lemma run_hist_inv (I : list L -> S -> Prop) init :
  I [] init -> (forall h s l s', I h s -> step s l = Some s' -> I (h ++ [l]) s') ->
  forall ls s, run init ls = Some s -> I ls s.
Proof.
  intros H0 Hs ls. induction ls as [|l ls IH] using rev_ind; intros s H.
  - cbn in H. by simplify_eq.
  - apply run_snoc in H as (m & Hm & Hstep). eapply Hs; eauto.
Qed.
End Reach.

(** ** Hash maps *)

(** [map.values().any(p)]. *)
Definition values_any {K V} `{Countable K} (p : V -> bool) (m : gmap K V) : bool :=
  existsb p (map snd (map_to_list m)).

Lemma values_any_spec {K V} `{Countable K} (p : V -> bool) (m : gmap K V) :
  values_any p m = true <-> exists k v, m !! k = Some v /\ p v = true.
Proof.
  unfold values_any. rewrite existsb_exists. split.
  - intros (v & Hin & Hp). apply in_map_iff in Hin as ([k v'] & <- & Hin).
    apply list_elem_of_In, elem_of_map_to_list in Hin. eauto.
  - intros (k & v & Hm & Hp). exists v. split; [|done].
    apply in_map_iff. exists (k, v). split; [done|].
    by apply list_elem_of_In, elem_of_map_to_list.
Qed.

Lemma values_any_false {K V} `{Countable K} (p : V -> bool) (m : gmap K V) :
  values_any p m = false <-> forall k v, m !! k = Some v -> p v = false.
Proof.
  rewrite <- not_true_iff_false, values_any_spec. split.
  - intros Hn k v Hm. apply not_true_is_false. intros Hp. apply Hn. eauto.
  - intros Hall (k & v & Hm & Hp). rewrite (Hall _ _ Hm) in Hp. done.
Qed.

(** [map.retain(|_, v| p v)]. *)
Definition retain {K V} `{Countable K} (p : V -> bool) (m : gmap K V) : gmap K V :=
  filter (fun kv : K * V => p kv.2 = true) m.

Lemma lookup_retain_Some {K V} `{Countable K} (p : V -> bool) (m : gmap K V) k v :
  retain p m !! k = Some v <-> m !! k = Some v /\ p v = true.
Proof. apply map_lookup_filter_Some. Qed.

Lemma lookup_retain_None {K V} `{Countable K} (p : V -> bool) (m : gmap K V) k :
  (forall v, m !! k = Some v -> p v = false) -> retain p m !! k = None.
Proof.
  intros Hp. destruct (retain p m !! k) as [v|] eqn:E; [|done].
  apply lookup_retain_Some in E as [Hm Ht]. rewrite (Hp _ Hm) in Ht. done.
Qed.
