(* ===== verification/RustInt.v ===== *)
(** * Machine integers

    The integer types of the source, as [Z] with their bounds: checked, wrapping and bitwise
    operations, big-endian bytes, [str::parse::<uN>] and the decimal [Display]. *)

From S2P Require Import Prelude.
Local Open Scope Z_scope.

Definition U16_MAX : Z := 2 ^ 16 - 1.
Definition U32_MAX : Z := 2 ^ 32 - 1.
Definition U64_MAX : Z := 2 ^ 64 - 1.
(** The targets are 64-bit (x86-64, aarch64). *)
Definition USIZE_MAX : Z := U64_MAX.

(** [u16::try_from(usize)]. *)
Definition u16_try_from (n : Z) : result unit Z :=
  if (0 <=? n) && (n <=? U16_MAX) then Ok n else Err tt.

(** [u16::checked_add]. *)
Definition u16_checked_add (a b : Z) : option Z :=
  if a + b <=? U16_MAX then Some (a + b) else None.

(** [usize::wrapping_add]. *)
Definition usize_wrapping_add (a b : Z) : Z := (a + b) mod 2 ^ 64.

(** [!n] on a [usize]. *)
Definition usize_not (n : Z) : Z := Z.lxor n USIZE_MAX.

(** ** Bytes *)

Abbreviation byte := Byte.byte.

Definition byte_val (b : byte) : Z := Z.of_N (Byte.to_N b).

Definition byte_of (z : Z) : byte := default Byte.x00 (Byte.of_N (Z.to_N (z mod 256))).

#[global] Instance byte_eq_dec : EqDecision byte := Byte.byte_eq_dec.

Lemma byte_val_range b : 0 <= byte_val b < 256.
Proof.
  unfold byte_val. pose proof (Byte.to_N_bounded b). lia.
Qed.

Lemma byte_val_of z : byte_val (byte_of z) = z mod 256.
Proof.
  unfold byte_val, byte_of.
  pose proof (Z.mod_pos_bound z 256 ltac:(lia)) as Hb.
  destruct (Byte.of_N (Z.to_N (z mod 256))) as [b|] eqn:E; cbn.
  - apply Byte.to_of_N in E. rewrite E. lia.
  - apply Byte.of_N_None_iff in E. lia.
Qed.

Lemma byte_val_inj a b : byte_val a = byte_val b -> a = b.
Proof.
  unfold byte_val. intros H. apply N2Z.inj in H.
  pose proof (Byte.of_to_N a) as Ha. pose proof (Byte.of_to_N b) as Hb.
  rewrite H in Ha. congruence.
Qed.

(** [u16::from_be_bytes([hi, lo])]. *)
Definition u16_from_be_bytes (hi lo : byte) : Z := 256 * byte_val hi + byte_val lo.

(** [u16::to_be_bytes]. *)
Definition u16_to_be_bytes (n : Z) : list byte := [byte_of (n / 256); byte_of n].

Lemma u16_from_be_bytes_range hi lo : 0 <= u16_from_be_bytes hi lo <= U16_MAX.
Proof.
  unfold u16_from_be_bytes, U16_MAX.
  pose proof (byte_val_range hi). pose proof (byte_val_range lo). lia.
Qed.

Lemma u16_from_to_be n :
  0 <= n <= U16_MAX -> u16_from_be_bytes (byte_of (n / 256)) (byte_of n) = n.
Proof.
  unfold U16_MAX, u16_from_be_bytes. intros Hn. rewrite !byte_val_of.
  rewrite (Z.mod_small (n / 256)); [|split; [apply Z.div_pos|apply Z.div_lt_upper_bound]; lia].
  pose proof (Z.div_mod n 256). lia.
Qed.

Lemma u16_to_from_be hi lo : u16_to_be_bytes (u16_from_be_bytes hi lo) = [hi; lo].
Proof.
  pose proof (byte_val_range hi). pose proof (byte_val_range lo).
  unfold u16_to_be_bytes, u16_from_be_bytes.
  f_equal; [|f_equal]; apply byte_val_inj; rewrite byte_val_of.
  - rewrite (Z.mul_comm 256), Z.div_add_l by lia.
    rewrite (Z.div_small (byte_val lo)) by lia. rewrite Z.mod_small; lia.
  - rewrite (Z.add_comm (256 * _)), (Z.mul_comm 256), Z_mod_plus_full. by apply Z.mod_small.
Qed.

(** The rounding of a length to the next multiple of four, [(n + 3) & !3]. *)
Definition pad4 (n : Z) : Z := Z.land (n + 3) (usize_not 3).

Lemma pad4_spec n : 0 <= n <= U16_MAX -> pad4 n = 4 * ((n + 3) / 4).
Proof.
  intros Hn. unfold pad4, U16_MAX in *.
  assert (Hnot : usize_not 3 = Z.shiftl (Z.ones 62) 2) by reflexivity.
  rewrite Hnot. rewrite <- (Z.mul_comm ((n + 3) / 4) 4).
  change 4 with (2 ^ 2) at 2. rewrite <- Z.shiftl_mul_pow2 by lia.
  replace ((n + 3) / 4) with (Z.shiftr (n + 3) 2) by (rewrite Z.shiftr_div_pow2; [done|lia]).
  apply Z.bits_inj'. intros i Hi. rewrite Z.land_spec.
  destruct (decide (i < 2)) as [Hlt|Hge].
  - rewrite !Z.shiftl_spec_low by lia. apply andb_false_r.
  - rewrite !Z.shiftl_spec by lia. rewrite Z.shiftr_spec by lia.
    replace (i - 2 + 2) with i by lia.
    destruct (decide (i < 64)).
    + rewrite Z.ones_spec_low by lia. apply andb_true_r.
    + rewrite (Z.bits_above_log2 (n + 3) i); [done|lia|].
      apply Z.log2_lt_pow2; [lia|]. apply (Z.lt_le_trans _ (2 ^ 17)); [lia|].
      apply Z.pow_le_mono_r; lia.
Qed.

Lemma pad4_bounds n : 0 <= n <= U16_MAX -> n <= pad4 n <= n + 3 /\ pad4 n mod 4 = 0.
Proof.
  intros Hn. rewrite pad4_spec by done.
  pose proof (Z.div_mod (n + 3) 4). pose proof (Z.mod_pos_bound (n + 3) 4).
  split; [lia|]. rewrite Z.mul_comm. apply Z_mod_mult.
Qed.

(** ** Decimal numbers *)

(** [char::to_digit(10)]. *)
Definition to_digit (c : ascii) : option Z :=
  let n := Z.of_nat (nat_of_ascii c) in
  if (48 <=? n) && (n <=? 57) then Some (n - 48) else None.

Definition digit_char (d : Z) : ascii := ascii_of_nat (Z.to_nat (48 + d)).

Inductive int_error : Type := Empty | InvalidDigit | PosOverflow.

#[global] Instance int_error_eq_dec : EqDecision int_error.
Proof. solve_decision. Defined.

Fixpoint parse_digits (max acc : Z) (s : string) : result int_error Z :=
  match s with
  | EmptyString => Ok acc
  | String c s' =>
      match to_digit c with
      | None => Err InvalidDigit
      | Some d =>
          if max <? 10 * acc + d then Err PosOverflow else parse_digits max (10 * acc + d) s'
      end
  end.

(** [str::parse::<uN>] for an unsigned type whose largest value is [max]. *)
Definition parse_uint (max : Z) (s : string) : result int_error Z :=
  match s with
  | EmptyString => Err Empty
  | String c s' =>
      if (c =? "+")%char then
        match s' with EmptyString => Err InvalidDigit | _ => parse_digits max 0 s' end
      else parse_digits max 0 s
  end.

Definition parse_u16 := parse_uint U16_MAX.
Definition parse_u32 := parse_uint U32_MAX.
Definition parse_u64 := parse_uint U64_MAX.
Definition parse_usize := parse_uint USIZE_MAX.

(** The value of a string of digits, without a bound. *)
Fixpoint digits_value (acc : Z) (s : string) : option Z :=
  match s with
  | EmptyString => Some acc
  | String c s' =>
      match to_digit c with
      | None => None
      | Some d => digits_value (10 * acc + d) s'
      end
  end.

Lemma to_digit_range c d : to_digit c = Some d -> 0 <= d <= 9.
Proof. unfold to_digit. intros H. case_match; [simplify_eq; lia | done]. Qed.

Lemma to_digit_char d : 0 <= d <= 9 -> to_digit (digit_char d) = Some d.
Proof.
  intros Hd. assert (Hc : d = 0 \/ d = 1 \/ d = 2 \/ d = 3 \/ d = 4 \/ d = 5 \/ d = 6 \/ d = 7
    \/ d = 8 \/ d = 9) by lia.
  repeat (destruct Hc as [->|Hc]; [reflexivity|]). by subst.
Qed.

Lemma digits_value_le s acc n : 0 <= acc -> digits_value acc s = Some n -> acc <= n.
Proof.
  revert acc. induction s as [|c s IH]; cbn; intros acc Ha H; [by simplify_eq|].
  destruct (to_digit c) as [d|] eqn:Ed; [|done].
  apply to_digit_range in Ed. apply IH in H; lia.
Qed.

Lemma parse_digits_ok max s acc n :
  0 <= acc <= max ->
  parse_digits max acc s = Ok n <-> digits_value acc s = Some n /\ n <= max.
Proof.
  revert acc. induction s as [|c s IH]; cbn; intros acc Ha.
  - split; [intros [= <-]; split; [done|lia] | by intros [[= <-] _]].
  - destruct (to_digit c) as [d|] eqn:Ed; [|by split; [|intros []]].
    apply to_digit_range in Ed. destruct (Z.ltb_spec max (10 * acc + d)) as [Hlt|Hge].
    + split; [done|]. intros [Hv Hn]. apply digits_value_le in Hv; lia.
    + apply IH. lia.
Qed.

(** The strings [parse] accepts: an optional [+], at least one digit, the value in range. *)
Lemma parse_uint_ok max s n :
  0 <= max ->
  parse_uint max s = Ok n <->
  exists ds, ds <> EmptyString /\ (s = ds \/ s = String "+" ds)
             /\ digits_value 0 ds = Some n /\ n <= max.
Proof.
  intros Hm. destruct s as [|c s]; cbn.
  { split; [done|]. intros (ds & Hne & [<-|Hs] & _); done. }
  destruct (Ascii.eqb_spec c "+") as [->|Hc].
  - split.
    + destruct s as [|c' s]; [done|]. rewrite parse_digits_ok by lia. intros [Hv Hn].
      exists (String c' s). naive_solver.
    + intros (ds & Hne & [<-|[= ->]] & Hv & Hn); [done|].
      destruct ds; [done|]. by apply parse_digits_ok; [lia|].
  - change (match to_digit c with
            | Some d => if max <? 10 * 0 + d then Err PosOverflow
                        else parse_digits max (10 * 0 + d) s
            | None => Err InvalidDigit end)
      with (parse_digits max 0 (String c s)).
    rewrite parse_digits_ok by lia. split.
    + intros [Hv Hn]. exists (String c s). naive_solver.
    + intros (ds & Hne & [<-|[= ??]] & Hv & Hn); done.
Qed.

Lemma parse_uint_range max s n : 0 <= max -> parse_uint max s = Ok n -> 0 <= n <= max.
Proof.
  intros Hm (ds & _ & _ & Hv & Hn)%parse_uint_ok; [|done].
  apply digits_value_le in Hv; lia.
Qed.

(** [Display] of an unsigned integer; twenty digits are enough for a [u64]. *)
Fixpoint to_decimal (fuel : nat) (n : Z) (acc : string) : string :=
  match fuel with
  | O => acc
  | S fuel' =>
      let acc' := String (digit_char (n mod 10)) acc in
      if n <? 10 then acc' else to_decimal fuel' (n / 10) acc'
  end.

Definition uint_to_string (n : Z) : string := to_decimal 20 n EmptyString.

Lemma digits_value_to_decimal fuel n acc s :
  0 <= n < 10 ^ Z.of_nat fuel -> 0 <= acc ->
  exists k, digits_value acc (to_decimal fuel n s) = digits_value (acc * 10 ^ k + n) s /\ 0 <= k.
Proof.
  revert n s. induction fuel as [|fuel IH]; intros n s Hn Ha.
  { exists 0. cbn in Hn. cbn. split; [f_equal; lia|lia]. }
  pose proof (Z.mod_pos_bound n 10 ltac:(lia)) as Hm.
  cbn [to_decimal]. destruct (Z.ltb_spec n 10) as [Hlt|Hge].
  - exists 1. split; [|lia]. cbn [digits_value]. rewrite to_digit_char by lia.
    rewrite (Z.mod_small n) by lia. f_equal. lia.
  - rewrite Nat2Z.inj_succ, Z.pow_succ_r in Hn by lia.
    destruct (IH (n / 10) (String (digit_char (n mod 10)) s)) as (k & Hk & Hk0); [|done|].
    + split; [apply Z.div_pos; lia|apply Z.div_lt_upper_bound; lia].
    + exists (k + 1). split; [|lia]. rewrite Hk. cbn [digits_value].
      rewrite to_digit_char by lia. f_equal. rewrite Z.pow_add_r by lia.
      pose proof (Z.div_mod n 10). lia.
Qed.

Lemma to_decimal_digit_head fuel n s :
  (0 < fuel)%nat -> 0 <= n ->
  exists d s', to_decimal fuel n s = String (digit_char d) s' /\ 0 <= d <= 9.
Proof.
  revert n s. induction fuel as [|fuel IH]; intros n s Hf Hn; [lia|].
  pose proof (Z.mod_pos_bound n 10 ltac:(lia)). cbn [to_decimal].
  destruct (n <? 10); [eexists _, _; split; [done|lia]|].
  destruct fuel as [|fuel]; [cbn; eexists _, _; split; [done|lia]|].
  apply IH; [lia|apply Z.div_pos; lia].
Qed.

Lemma digit_char_not_plus d : 0 <= d <= 9 -> (digit_char d =? "+")%char = false.
Proof.
  intros Hd. apply Ascii.eqb_neq. intros Hc. apply (f_equal to_digit) in Hc.
  rewrite to_digit_char in Hc by done. done.
Qed.

(** Printing a number and parsing it gives the number back. *)
Lemma parse_uint_to_string max n :
  0 <= n <= max -> max < 10 ^ 20 -> parse_uint max (uint_to_string n) = Ok n.
Proof.
  intros Hn Hm. unfold uint_to_string.
  destruct (to_decimal_digit_head 20 n EmptyString) as (d & s' & Hs & Hd); [lia|lia|].
  destruct (digits_value_to_decimal 20 n 0 EmptyString) as (k & Hk & _);
    [change (10 ^ Z.of_nat 20) with (10 ^ 20); lia|lia|].
  rewrite Hs in *. cbn [parse_uint]. rewrite digit_char_not_plus by done.
  apply parse_digits_ok; [lia|]. rewrite Hk. cbn. split; [f_equal; lia|lia].
Qed.
