(* ===== verification/Stun.v ===== *)
(** * STUN: the ufrag that routes a pooled datagram (src/proxy/stun.rs)

    [local_ufrag] reads an untrusted datagram.  Indexing, slicing and the loop are modelled with
    the panics Rust would raise, so that their absence is a theorem ([local_ufrag_total]).  The
    specification [routes_as] describes the accepted packets declaratively; [local_ufrag_iff]
    proves the scanner equivalent to it. *)

From S2P Require Import Prelude RustInt.
Local Open Scope Z_scope.
Local Open Scope rust_scope.

(** ** Slices *)

(** [s[i]]. *)
Definition index {A} (l : list A) (i : nat) : outcome A :=
  match l !! i with Some a => Ret a | None => Panic end.

(** [s.get(a..b)]. *)
Definition get_range {A} (l : list A) (a b : nat) : option (list A) :=
  if (a <=? b)%nat && (b <=? length l)%nat then Some (take (b - a) (drop a l)) else None.

(** [s[a..b]]. *)
Definition slice {A} (l : list A) (a b : nat) : outcome (list A) :=
  match get_range l a b with Some s => Ret s | None => Panic end.

(** [s.get(a..)]. *)
Definition get_from {A} (l : list A) (a : nat) : option (list A) := get_range l a (length l).

(** [s[a..]]. *)
Definition slice_from {A} (l : list A) (a : nat) : outcome (list A) := slice l a (length l).

(** [s.split(p)]: the pieces between the elements that satisfy [p]. *)
Fixpoint split {A} (p : A -> bool) (l : list A) : list (list A) :=
  match l with
  | [] => [[]]
  | a :: l' =>
      if p a then [] :: split p l'
      else match split p l' with [] => [[a]] | s :: ss => (a :: s) :: ss end
  end.

Lemma get_range_Some {A} (l : list A) a b s :
  get_range l a b = Some s <-> (a <= b <= length l)%nat /\ s = take (b - a) (drop a l).
Proof.
  unfold get_range. destruct (Nat.leb_spec a b), (Nat.leb_spec b (length l)); cbn;
    split; intros; split_hyps; simplify_eq; try split; try lia; done.
Qed.

Lemma get_range_None {A} (l : list A) a b :
  get_range l a b = None <-> ~ (a <= b <= length l)%nat.
Proof.
  unfold get_range. destruct (Nat.leb_spec a b), (Nat.leb_spec b (length l)); cbn;
    split; intros; split_hyps; simplify_eq; try lia; done.
Qed.

Lemma get_from_Some {A} (l : list A) a s :
  get_from l a = Some s <-> (a <= length l)%nat /\ s = drop a l.
Proof.
  unfold get_from. rewrite get_range_Some.
  rewrite take_ge by (rewrite length_drop; lia). intuition lia.
Qed.

Lemma slice_Ret {A} (l : list A) a b :
  (a <= b <= length l)%nat -> slice l a b = Ret (take (b - a) (drop a l)).
Proof.
  intros H. unfold slice. destruct (get_range l a b) as [s|] eqn:E.
  - apply get_range_Some in E as [_ ->]. done.
  - by apply get_range_None in E.
Qed.

(** ** UTF-8 (the validation of [std::str::from_utf8]) *)

Definition in_range (lo hi : Z) (b : byte) : bool := (lo <=? byte_val b) && (byte_val b <=? hi).
Definition is_cont (b : byte) : bool := in_range 0x80 0xBF b.

Fixpoint utf8_valid (bs : list byte) : bool :=
  match bs with
  | [] => true
  | b0 :: r0 =>
      if in_range 0 0x7F b0 then utf8_valid r0 else
      match r0 with
      | [] => false
      | b1 :: r1 =>
          if in_range 0xC2 0xDF b0 then is_cont b1 && utf8_valid r1 else
          match r1 with
          | [] => false
          | b2 :: r2 =>
              if in_range 0xE0 0xEF b0 then
                ((in_range 0xE0 0xE0 b0 && in_range 0xA0 0xBF b1)
                 || (in_range 0xE1 0xEC b0 && is_cont b1)
                 || (in_range 0xED 0xED b0 && in_range 0x80 0x9F b1)
                 || (in_range 0xEE 0xEF b0 && is_cont b1))
                && is_cont b2 && utf8_valid r2
              else
                match r2 with
                | [] => false
                | b3 :: r3 =>
                    ((in_range 0xF0 0xF0 b0 && in_range 0x90 0xBF b1)
                     || (in_range 0xF1 0xF3 b0 && is_cont b1)
                     || (in_range 0xF4 0xF4 b0 && in_range 0x80 0x8F b1))
                    && is_cont b2 && is_cont b3 && utf8_valid r3
                end
          end
      end
  end.

(** A [str] is the string of its UTF-8 bytes. *)
Definition str_of (bs : list byte) : string := String.string_of_list_byte bs.

Definition from_utf8 (bs : list byte) : result unit string :=
  if utf8_valid bs then Ok (str_of bs) else Err tt.

Lemma utf8_valid_ascii bs : forallb (in_range 0 0x7F) bs = true -> utf8_valid bs = true.
Proof.
  induction bs as [|b bs IH]; [done|]. cbn. intros [Hb Hbs]%andb_prop.
  rewrite Hb. auto.
Qed.

Lemma str_of_inj a b : str_of a = str_of b -> a = b.
Proof.
  unfold str_of. intros H. rewrite <- (String.list_byte_of_string_of_list_byte a).
  rewrite H. apply String.list_byte_of_string_of_list_byte.
Qed.

(** ** The scanner *)

Definition HEADER_LEN : nat := 20.
Definition ATTR_HEADER_LEN : nat := 4.
Definition BINDING_REQUEST : Z := 0x0001.
Definition ATTR_USERNAME : Z := 0x0006.
Definition MAGIC_COOKIE : list byte := [Byte.x21; Byte.x12; Byte.xa4; Byte.x42].

Definition is_colon (b : byte) : bool := bool_decide (b = Byte.x3a).

(** The body of the [if attr_type == ATTR_USERNAME] block. *)
Definition username_ufrag (value : list byte) : option string :=
  match split is_colon value with
  | [] => None
  | ufrag :: _ =>
      match from_utf8 ufrag with
      | Ok ufrag => if bool_decide (ufrag = EmptyString) then None else Some ufrag
      | Err _ => None
      end
  end.

(** How the attribute loop ends; [OutOfFuel] is excluded by [scan_attrs_total]. *)
Inductive scan_result : Type :=
| Scanned (r : option string)
| OutOfFuel.

(** [while attrs.len() >= ATTR_HEADER_LEN { .. }].  Every round drops at least four bytes, so the
    length of the section is enough fuel. *)
Fixpoint scan_attrs (fuel : nat) (attrs : list byte) : outcome scan_result :=
  match fuel with
  | O => Ret OutOfFuel
  | S fuel' =>
      if (length attrs <? ATTR_HEADER_LEN)%nat then Ret (Scanned None) else
      let! a0 := index attrs 0 in
      let! a1 := index attrs 1 in
      let! a2 := index attrs 2 in
      let! a3 := index attrs 3 in
      let attr_type := u16_from_be_bytes a0 a1 in
      let attr_len := u16_from_be_bytes a2 a3 in
      match get_range attrs ATTR_HEADER_LEN (ATTR_HEADER_LEN + Z.to_nat attr_len) with
      | None => Ret (Scanned None)
      | Some value =>
          if attr_type =? ATTR_USERNAME then Ret (Scanned (username_ufrag value))
          else
            match get_from attrs (ATTR_HEADER_LEN + Z.to_nat (pad4 attr_len)) with
            | None => Ret (Scanned None)
            | Some attrs' => scan_attrs fuel' attrs'
            end
      end
  end.

Definition local_ufrag (packet : list byte) : outcome (option string) :=
  if (length packet <? HEADER_LEN)%nat then Ret None else
  let! cookie := slice packet 4 8 in
  if negb (bool_decide (cookie = MAGIC_COOKIE)) then Ret None else
  let! p0 := index packet 0 in
  let! p1 := index packet 1 in
  if negb (u16_from_be_bytes p0 p1 =? BINDING_REQUEST) then Ret None else
  let! p2 := index packet 2 in
  let! p3 := index packet 3 in
  let msg_len := u16_from_be_bytes p2 p3 in
  if negb (Z.land msg_len 3 =? 0) || negb (HEADER_LEN + Z.to_nat msg_len =? length packet)%nat
  then Ret None else
  let! attrs := slice_from packet HEADER_LEN in
  let! r := scan_attrs (S (length attrs)) attrs in
  match r with Scanned r => Ret r | OutOfFuel => Panic end.

(** What the callers bind: the [Option<&str>], where a panic would end the task. *)
Definition ufrag_of (packet : list byte) : option string :=
  match local_ufrag packet with Ret r => r | Panic => None end.

(** ** The encoder of the test suite ([binding_request] of the tests) *)

Definition encode_attr (ty : Z) (value : list byte) : list byte :=
  u16_to_be_bytes ty ++ u16_to_be_bytes (Z.of_nat (length value)) ++ value ++
  replicate (Z.to_nat (pad4 (Z.of_nat (length value))) - length value) Byte.x00.

(** A binding request that carries [attrs], with transaction id [tid]. *)
Definition encode_request (tid : list byte) (attrs : list (Z * list byte)) : list byte :=
  let body := concat (map (fun a => encode_attr a.1 a.2) attrs) in
  u16_to_be_bytes BINDING_REQUEST ++ u16_to_be_bytes (Z.of_nat (length body)) ++
  MAGIC_COOKIE ++ tid ++ body.

(** The tests' [binding_request(username)]. *)
Definition binding_request (username : list byte) : list byte :=
  encode_request (replicate 12 Byte.x07) [(ATTR_USERNAME, username)].

(** ** The specification *)

(** The value of the first USERNAME attribute of an attribute section. *)
Inductive first_username : list byte -> list byte -> Prop :=
| fu_here value rest :
    Z.of_nat (length value) <= U16_MAX ->
    first_username
      (u16_to_be_bytes ATTR_USERNAME ++ u16_to_be_bytes (Z.of_nat (length value)) ++ value ++ rest)
      value
| fu_skip ty value pad rest username :
    0 <= ty <= U16_MAX -> ty <> ATTR_USERNAME ->
    Z.of_nat (length value) <= U16_MAX ->
    Z.of_nat (length value + length pad) = pad4 (Z.of_nat (length value)) ->
    first_username rest username ->
    first_username
      (u16_to_be_bytes ty ++ u16_to_be_bytes (Z.of_nat (length value)) ++ value ++ pad ++ rest)
      username.

(** [packet] is a binding request whose USERNAME selects [ufrag]. *)
Definition routes_as (packet : list byte) (ufrag : string) : Prop :=
  exists tid attrs username ufrag_bytes,
    length tid = 12%nat
    /\ packet = u16_to_be_bytes BINDING_REQUEST ++ u16_to_be_bytes (Z.of_nat (length attrs)) ++
                MAGIC_COOKIE ++ tid ++ attrs
    /\ Z.of_nat (length attrs) <= U16_MAX /\ Z.of_nat (length attrs) mod 4 = 0
    /\ first_username attrs username
    /\ (username = ufrag_bytes \/ (exists peer, username = ufrag_bytes ++ Byte.x3a :: peer))
    /\ (Byte.x3a ∉ ufrag_bytes) /\ ufrag_bytes <> []
    /\ utf8_valid ufrag_bytes = true
    /\ ufrag = str_of ufrag_bytes.

(** ** Lemmas *)

Lemma is_colon_true b : is_colon b = true <-> b = Byte.x3a.
Proof. apply bool_decide_eq_true. Qed.

Lemma split_head v :
  exists h ss, split is_colon v = h :: ss /\ (Byte.x3a ∉ h)
               /\ (v = h \/ (exists peer, v = h ++ Byte.x3a :: peer)).
Proof.
  induction v as [|b v (h & ss & Hs & Hn & Hv)]; cbn.
  { eexists _, _. split; [done|]. split; [set_solver|by left]. }
  destruct (is_colon b) eqn:Eb.
  - apply is_colon_true in Eb as ->. eexists [], _. split; [done|].
    split; [set_solver|]. right. by exists v.
  - assert (b <> Byte.x3a) by (intros ->; done).
    rewrite Hs. eexists _, _. split; [done|].
    split; [by apply not_elem_of_cons|]. destruct Hv as [->|[peer ->]]; [by left|right; by exists peer].
Qed.

Lemma app_colon_inj (a b : list byte) x y :
  Byte.x3a ∉ a -> Byte.x3a ∉ b -> a ++ Byte.x3a :: x = b ++ Byte.x3a :: y -> a = b.
Proof.
  revert b. induction a as [|c a IH]; intros [|d b] Ha Hb H; simplify_eq/=; try set_solver.
  f_equal. apply IH; set_solver.
Qed.

Lemma ufrag_prefix_unique v a b :
  Byte.x3a ∉ a -> Byte.x3a ∉ b ->
  (v = a \/ (exists x, v = a ++ Byte.x3a :: x)) -> (v = b \/ (exists y, v = b ++ Byte.x3a :: y)) ->
  a = b.
Proof.
  intros Ha Hb [->|[x ->]] [E|[y E]]; subst; try done.
  - exfalso. apply Ha. set_solver.
  - exfalso. apply Hb. set_solver.
  - by eapply app_colon_inj.
Qed.

Lemma str_of_empty bs : str_of bs = EmptyString <-> bs = [].
Proof.
  split; [|by intros ->]. intros H. by apply (str_of_inj bs []).
Qed.

Lemma username_ufrag_iff v u :
  username_ufrag v = Some u <->
  exists ub, (v = ub \/ (exists peer, v = ub ++ Byte.x3a :: peer))
             /\ (Byte.x3a ∉ ub) /\ ub <> [] /\ utf8_valid ub = true /\ u = str_of ub.
Proof.
  unfold username_ufrag, from_utf8.
  destruct (split_head v) as (h & ss & -> & Hn & Hv). split.
  - intros H. exists h. destruct (utf8_valid h); [|done].
    case_bool_decide as He; [done|]. simplify_eq. rewrite str_of_empty in He. done.
  - intros (ub & Hub & Hnb & Hne & Hutf & ->).
    rewrite <- (ufrag_prefix_unique v h ub) by done.
    rewrite <- (ufrag_prefix_unique v h ub) in Hutf, Hne by done.
    rewrite Hutf. rewrite bool_decide_eq_false_2; [done|]. by rewrite str_of_empty.
Qed.

(** One round of the loop on a section of at least four bytes. *)
Lemma scan_attrs_cons fuel a0 a1 a2 a3 rest :
  scan_attrs (S fuel) (a0 :: a1 :: a2 :: a3 :: rest) =
  let n := Z.to_nat (u16_from_be_bytes a2 a3) in
  let p := Z.to_nat (pad4 (u16_from_be_bytes a2 a3)) in
  if decide (n <= length rest)%nat then
    if u16_from_be_bytes a0 a1 =? ATTR_USERNAME
    then Ret (Scanned (username_ufrag (take n rest)))
    else if decide (p <= length rest)%nat then scan_attrs fuel (drop p rest)
    else Ret (Scanned None)
  else Ret (Scanned None).
Proof.
  cbn -[u16_from_be_bytes get_range get_from pad4 decide Z.eqb username_ufrag].
  destruct (get_range _ _ _) as [value|] eqn:Ev.
  - apply get_range_Some in Ev as [Hr ->]. unfold ATTR_HEADER_LEN in *. cbn [length] in Hr.
    rewrite decide_True by lia.
    cbn [Nat.sub drop]. rewrite Nat.sub_0_r.
    destruct (_ =? _); [done|].
    destruct (get_from _ _) as [s|] eqn:Es.
    + apply get_from_Some in Es as [Hl ->]. cbn [length] in Hl. by rewrite decide_True by lia.
    + apply get_range_None in Es. cbn [length] in Es. rewrite decide_False; [done|lia].
  - apply get_range_None in Ev. unfold ATTR_HEADER_LEN in *. cbn [length] in Ev.
    rewrite decide_False; [done|lia].
Qed.

Lemma scan_attrs_short fuel attrs :
  (length attrs < 4)%nat -> scan_attrs (S fuel) attrs = Ret (Scanned None).
Proof.
  intros H. cbn [scan_attrs]. unfold ATTR_HEADER_LEN.
  destruct (Nat.ltb_spec (length attrs) 4); [done|lia].
Qed.

Lemma section_cases (attrs : list byte) :
  (length attrs < 4)%nat \/ (exists a0 a1 a2 a3 rest, attrs = a0 :: a1 :: a2 :: a3 :: rest).
Proof.
  destruct attrs as [|a0 [|a1 [|a2 [|a3 rest]]]]; cbn; try (left; lia).
  right. by eexists _, _, _, _, _.
Qed.

(** The loop never panics and the length of the section bounds its rounds. *)
Lemma scan_attrs_total fuel attrs :
  (length attrs < fuel)%nat -> exists r, scan_attrs fuel attrs = Ret (Scanned r).
Proof.
  revert attrs. induction fuel as [|fuel IH]; intros attrs Hf; [lia|].
  destruct (section_cases attrs) as [Hs|(a0 & a1 & a2 & a3 & rest & ->)].
  { rewrite scan_attrs_short by done. eauto. }
  rewrite scan_attrs_cons. cbn -[u16_from_be_bytes decide Z.eqb].
  repeat case_decide; [|eauto|eauto].
  all: destruct (_ =? _); [eauto|].
  - apply IH. cbn in Hf. rewrite length_drop. lia.
  - eauto.
Qed.

Lemma first_username_inv a0 a1 a2 a3 rest v :
  first_username (a0 :: a1 :: a2 :: a3 :: rest) v ->
  let n := Z.to_nat (u16_from_be_bytes a2 a3) in
  let p := Z.to_nat (pad4 (u16_from_be_bytes a2 a3)) in
  (n <= length rest)%nat /\
  ((u16_from_be_bytes a0 a1 = ATTR_USERNAME /\ v = take n rest)
   \/ (u16_from_be_bytes a0 a1 <> ATTR_USERNAME /\ (p <= length rest)%nat
       /\ first_username (drop p rest) v)).
Proof.
  assert (HU : 0 <= ATTR_USERNAME <= U16_MAX) by done.
  intros H. inversion H as [value r Hl|ty value pad r username Hty Hne Hl Hp Hr]; subst;
    cbv zeta; rewrite !u16_from_to_be by lia; rewrite Nat2Z.id, !length_app.
  - split; [lia|]. left. split; [done|]. by rewrite take_app_length.
  - split; [lia|]. right. split; [done|]. rewrite <- Hp, Nat2Z.id. split; [lia|].
    rewrite app_assoc, <- length_app. by rewrite drop_app_length.
Qed.

Lemma u16_bytes_eq a0 a1 n :
  u16_from_be_bytes a0 a1 = n -> u16_to_be_bytes n = [a0; a1].
Proof. intros <-. apply u16_to_from_be. Qed.

Lemma first_username_here a0 a1 a2 a3 rest :
  let n := Z.to_nat (u16_from_be_bytes a2 a3) in
  u16_from_be_bytes a0 a1 = ATTR_USERNAME -> (n <= length rest)%nat ->
  first_username (a0 :: a1 :: a2 :: a3 :: rest) (take n rest).
Proof.
  intros n Ht Hn. pose proof (u16_from_be_bytes_range a2 a3).
  pose proof (fu_here (take n rest) (drop n rest)) as Hh.
  rewrite length_take_le in Hh by done.
  rewrite (u16_bytes_eq _ _ _ Ht) in Hh. rewrite (u16_bytes_eq a2 a3) in Hh by lia.
  rewrite take_drop in Hh. apply Hh. lia.
Qed.

Lemma first_username_skip a0 a1 a2 a3 rest v :
  let p := Z.to_nat (pad4 (u16_from_be_bytes a2 a3)) in
  u16_from_be_bytes a0 a1 <> ATTR_USERNAME -> (p <= length rest)%nat ->
  first_username (drop p rest) v ->
  first_username (a0 :: a1 :: a2 :: a3 :: rest) v.
Proof.
  intros p Ht Hp Hr. pose proof (u16_from_be_bytes_range a2 a3) as Hb.
  pose proof (pad4_bounds _ Hb) as [Hpad _].
  set (n := Z.to_nat (u16_from_be_bytes a2 a3)).
  assert (Hn : (n <= p)%nat) by lia.
  pose proof (fu_skip (u16_from_be_bytes a0 a1) (take n rest) (take (p - n) (drop n rest))
    (drop p rest) v (u16_from_be_bytes_range a0 a1) Ht) as Hs.
  rewrite !length_take_le in Hs by (rewrite ?length_drop; lia).
  rewrite u16_to_from_be, (u16_bytes_eq a2 a3) in Hs by lia.
  replace (drop p rest) with (drop (p - n) (drop n rest)) in Hs at 2
    by (rewrite drop_drop; f_equal; lia).
  rewrite !take_drop in Hs. apply Hs; [lia| |done].
  replace (Z.of_nat n) with (u16_from_be_bytes a2 a3) by lia. lia.
Qed.

Lemma first_username_length attrs v : first_username attrs v -> (4 <= length attrs)%nat.
Proof. intros H. inversion H; subst; cbn; lia. Qed.

(** The loop finds exactly the first USERNAME. *)
Lemma scan_attrs_iff fuel attrs u :
  (length attrs < fuel)%nat ->
  scan_attrs fuel attrs = Ret (Scanned (Some u)) <->
  exists v, first_username attrs v /\ username_ufrag v = Some u.
Proof.
  revert attrs. induction fuel as [|fuel IH]; intros attrs Hf; [lia|].
  destruct (section_cases attrs) as [Hs|(a0 & a1 & a2 & a3 & rest & ->)].
  { rewrite scan_attrs_short by done. split; [done|].
    intros (v & Hv%first_username_length & _). lia. }
  rewrite scan_attrs_cons. cbn -[u16_from_be_bytes decide Z.eqb]. cbn in Hf. split.
  - repeat case_decide; try done.
    all: destruct (Z.eqb_spec (u16_from_be_bytes a0 a1) ATTR_USERNAME); try done.
    1,3: intros [= H']; eauto using first_username_here.
    rewrite IH by (rewrite length_drop; lia). intros (v & Hv & Hu).
    eauto using first_username_skip.
  - intros (v & [Hn [[Ht ->]|(Ht & Hp & Hv)]]%first_username_inv & Hu).
    + rewrite decide_True by done. rewrite Ht. cbn. by rewrite Hu.
    + rewrite decide_True by done. destruct (Z.eqb_spec (u16_from_be_bytes a0 a1) ATTR_USERNAME);
        [done|]. rewrite decide_True by done. apply IH; [rewrite length_drop; lia|eauto].
Qed.

Lemma packet_cases (p : list byte) :
  (length p < 20)%nat \/
  (exists t0 t1 l0 l1 c0 c1 c2 c3 tid attrs, length tid = 12%nat
     /\ p = t0 :: t1 :: l0 :: l1 :: c0 :: c1 :: c2 :: c3 :: tid ++ attrs).
Proof.
  destruct (Nat.ltb_spec (length p) 20) as [Hs|Hl]; [by left|right].
  destruct p as [|t0 [|t1 [|l0 [|l1 [|c0 [|c1 [|c2 [|c3 r]]]]]]]]; cbn in Hl; try lia.
  exists t0, t1, l0, l1, c0, c1, c2, c3, (take 12 r), (drop 12 r).
  rewrite length_take, take_drop. split; [lia|done].
Qed.

(** The header checks, on a datagram of at least [HEADER_LEN] bytes. *)
Definition header_ok (t0 t1 l0 l1 : byte) (cookie attrs : list byte) : bool :=
  bool_decide (cookie = MAGIC_COOKIE)
  && (u16_from_be_bytes t0 t1 =? BINDING_REQUEST)
  && (Z.land (u16_from_be_bytes l0 l1) 3 =? 0)
  && (Z.to_nat (u16_from_be_bytes l0 l1) =? length attrs)%nat.

Lemma local_ufrag_eq t0 t1 l0 l1 c0 c1 c2 c3 tid attrs :
  length tid = 12%nat ->
  local_ufrag (t0 :: t1 :: l0 :: l1 :: c0 :: c1 :: c2 :: c3 :: tid ++ attrs) =
  if header_ok t0 t1 l0 l1 [c0; c1; c2; c3] attrs
  then match scan_attrs (S (length attrs)) attrs with
       | Ret (Scanned r) => Ret r
       | _ => Panic
       end
  else Ret None.
Proof.
  intros Ht. set (p := t0 :: _).
  assert (Hlen : length p = (20 + length attrs)%nat) by (cbn; rewrite length_app; lia).
  assert (Hc : slice p 4 8 = Ret [c0; c1; c2; c3]) by (rewrite slice_Ret; [done|lia]).
  assert (Hr : slice_from p 20 = Ret attrs).
  { unfold slice_from. rewrite Hlen, slice_Ret by lia. f_equal. cbn [p drop].
    rewrite drop_app_length' by done. rewrite take_ge; [done|lia]. }
  unfold local_ufrag, header_ok, HEADER_LEN. rewrite Hlen, Hc, Hr.
  destruct (Nat.ltb_spec (20 + length attrs) 20); [lia|].
  change (index p 0) with (Ret t0). change (index p 1) with (Ret t1).
  change (index p 2) with (Ret l0). change (index p 3) with (Ret l1). cbv iota beta.
  replace (20 + Z.to_nat (u16_from_be_bytes l0 l1) =? 20 + length attrs)%nat
    with (Z.to_nat (u16_from_be_bytes l0 l1) =? length attrs)%nat
    by (destruct (Nat.eqb_spec (Z.to_nat (u16_from_be_bytes l0 l1)) (length attrs));
        symmetry; [apply Nat.eqb_eq|apply Nat.eqb_neq]; lia).
  by destruct (bool_decide _), (_ =? BINDING_REQUEST), (_ =? 0), (Nat.eqb _ _).
Qed.

Lemma land3_mod4 n : 0 <= n -> (Z.land n 3 =? 0) = true <-> n mod 4 = 0.
Proof.
  intros Hn. change 3 with (Z.ones 2). rewrite Z.land_ones by lia. apply Z.eqb_eq.
Qed.

Lemma header_ok_true t0 t1 l0 l1 cookie attrs :
  header_ok t0 t1 l0 l1 cookie attrs = true <->
  cookie = MAGIC_COOKIE /\ [t0; t1] = u16_to_be_bytes BINDING_REQUEST
  /\ [l0; l1] = u16_to_be_bytes (Z.of_nat (length attrs))
  /\ Z.of_nat (length attrs) <= U16_MAX /\ Z.of_nat (length attrs) mod 4 = 0.
Proof.
  pose proof (u16_from_be_bytes_range l0 l1) as Hl.
  unfold header_ok. rewrite !andb_true_iff, bool_decide_eq_true, Z.eqb_eq, land3_mod4, Nat.eqb_eq
    by lia. split.
  - intros [[[-> <-] Hm] Hn]. rewrite <- Hn, Z2Nat.id, !u16_to_from_be by lia.
    repeat split; try done; lia.
  - intros (-> & Ht & Hlb & Hmax & Hm). injection Ht as -> ->. injection Hlb as -> ->.

    rewrite !u16_from_to_be by (unfold BINDING_REQUEST, U16_MAX in *; lia).
    by rewrite Nat2Z.id.
Qed.

Lemma local_ufrag_returns packet : exists r, local_ufrag packet = Ret r.
Proof.
  destruct (packet_cases packet) as [Hs|(?&?&?&?&?&?&?&?&?&?&Ht&->)].
  - unfold local_ufrag, HEADER_LEN. destruct (Nat.ltb_spec (length packet) 20); [eauto|lia].
  - rewrite local_ufrag_eq by done. destruct (header_ok _ _ _ _ _ _); [|eauto].
    destruct (scan_attrs_total (S (length x8)) x8) as [r ->]; [lia|eauto].
Qed.

(** ** Properties *)

(** C16: on any datagram whatever, [local_ufrag] ends without an index out of range: the untrusted
    input cannot panic the receive loop, and the attribute loop always terminates. *)
Theorem local_ufrag_total packet : exists r, local_ufrag packet = Ret r.
Proof. apply local_ufrag_returns. Qed.

Lemma local_ufrag_routes packet u : local_ufrag packet = Ret (Some u) <-> routes_as packet u.
Proof.
  destruct (packet_cases packet) as [Hs|(t0&t1&l0&l1&c0&c1&c2&c3&tid&attrs&Ht&->)].
  { split.
    - unfold local_ufrag, HEADER_LEN. destruct (Nat.ltb_spec (length packet) 20); [done|lia].
    - intros (tid & attrs & ? & ? & Ht & -> & _). cbn in Hs. rewrite length_app in Hs. lia. }
  rewrite local_ufrag_eq by done. pose proof (scan_attrs_iff (S (length attrs)) attrs u) as Hiff.
  destruct (scan_attrs_total (S (length attrs)) attrs) as [r Hr]; [lia|]. rewrite Hr in *.
  assert (Hru : r = Some u <-> exists v, first_username attrs v /\ username_ufrag v = Some u).
  { rewrite <- Hiff by lia. naive_solver. }
  split.
  - destruct (header_ok _ _ _ _ _ _) eqn:Eh; [|done]. intros [= ->].
    apply header_ok_true in Eh as ([= -> -> -> ->] & [= -> ->] & [= -> ->] & Hmax & Hm).
    apply proj1 in Hru. destruct (Hru eq_refl) as (v & Hv & Hu%username_ufrag_iff).
    destruct Hu as (ub & Hub). exists tid, attrs, v, ub. naive_solver.
  - intros (tid' & attrs' & v & ub & Ht' & E & Hmax & Hm & Hv & Hub).
    injection E as -> -> -> -> -> -> -> -> E.
    apply app_inj_1 in E as [-> ->]; [|congruence].
    replace (header_ok _ _ _ _ _ _) with true by (symmetry; apply header_ok_true; done).
    f_equal. apply Hru. exists v. split; [done|]. apply username_ufrag_iff. naive_solver.
Qed.

(** C3: [local_ufrag] accepts exactly the packets of the specification: a well-formed STUN binding
    request (type, cookie, length a multiple of four that covers the datagram) whose first USERNAME
    attribute has, before its first [:], a nonempty valid UTF-8 prefix; that prefix is the result.
    Everything else yields [None]. *)
Theorem local_ufrag_iff packet u : local_ufrag packet = Ret (Some u) <-> routes_as packet u.
Proof. apply local_ufrag_routes. Qed.

Definition encode_attrs (attrs : list (Z * list byte)) : list byte :=
  concat (map (fun a => encode_attr a.1 a.2) attrs).

(** An attribute whose type and length fit their fields. *)
Definition attr_fits (a : Z * list byte) : Prop :=
  0 <= a.1 <= U16_MAX /\ Z.of_nat (length a.2) <= U16_MAX.

Lemma length_encode_attr ty v :
  Z.of_nat (length v) <= U16_MAX ->
  Z.of_nat (length (encode_attr ty v)) = 4 + pad4 (Z.of_nat (length v)).
Proof.
  intros Hl. unfold encode_attr. rewrite !length_app, length_replicate.
  change (length (u16_to_be_bytes ty)) with 2%nat.
  change (length (u16_to_be_bytes (Z.of_nat (length v)))) with 2%nat.
  destruct (pad4_bounds (Z.of_nat (length v))) as [Hp _]; lia.
Qed.

Lemma encode_attrs_mod4 attrs :
  Forall attr_fits attrs -> Z.of_nat (length (encode_attrs attrs)) mod 4 = 0.
Proof.
  induction 1 as [|[ty v] attrs [_ Hv] _ IH]; [done|]. unfold encode_attrs in *.
  cbn [map concat fst snd] in *. rewrite length_app, Nat2Z.inj_add, length_encode_attr by done.
  destruct (pad4_bounds (Z.of_nat (length v))) as [_ Hp]; [lia|].
  replace (4 + _) with (pad4 (Z.of_nat (length v)) + 1 * 4) by lia.
  rewrite Z.add_mod, IH, Z_mod_plus_full, Hp by lia. done.
Qed.

Lemma first_username_encode pre v post :
  Forall (fun a => attr_fits a /\ a.1 <> ATTR_USERNAME) pre ->
  Z.of_nat (length v) <= U16_MAX ->
  first_username (encode_attrs (pre ++ (ATTR_USERNAME, v) :: post)) v.
Proof.
  intros Hpre Hv. induction Hpre as [|[ty w] pre [[Hty Hw] Hne] _ IH];
    unfold encode_attrs in *; cbn [map concat app fst snd] in *.
  - unfold encode_attr. rewrite <- !app_assoc. by apply fu_here.
  - unfold encode_attr at 1. rewrite <- !app_assoc.
    destruct (pad4_bounds (Z.of_nat (length w))) as [Hp _]; [lia|]. apply fu_skip; try done.
    rewrite length_replicate. lia.
Qed.

(** C17: round trip with the encoder: whatever attributes precede it (none of them a USERNAME) and
    follow it, a USERNAME [local:remote] encoded in a binding request is read back as [local]. *)
Theorem local_ufrag_encode tid pre ub peer post :
  length tid = 12%nat ->
  Forall (fun a => attr_fits a /\ a.1 <> ATTR_USERNAME) pre -> Forall attr_fits post ->
  Z.of_nat (length (ub ++ Byte.x3a :: peer)) <= U16_MAX ->
  Z.of_nat (length (encode_attrs (pre ++ (ATTR_USERNAME, ub ++ Byte.x3a :: peer) :: post)))
    <= U16_MAX ->
  Byte.x3a ∉ ub -> ub <> [] -> utf8_valid ub = true ->
  local_ufrag (encode_request tid (pre ++ (ATTR_USERNAME, ub ++ Byte.x3a :: peer) :: post))
  = Ret (Some (str_of ub)).
Proof.
  intros Ht Hpre Hpost Hlen Hmax Hcol Hne Hutf. apply local_ufrag_routes.
  exists tid, (encode_attrs (pre ++ (ATTR_USERNAME, ub ++ Byte.x3a :: peer) :: post)),
    (ub ++ Byte.x3a :: peer), ub.
  repeat split; try done.
  - apply encode_attrs_mod4, Forall_app. split; [|constructor; done].
    eapply Forall_impl; [exact Hpre|]. by intros a [].
  - by apply first_username_encode.
  - right. by exists peer.
Qed.

Lemma local_ufrag_encode_witness :
  local_ufrag (encode_request (replicate 12 Byte.x07)
    ([(0x24, [Byte.x01; Byte.x02; Byte.x03; Byte.x04; Byte.x05])]
     ++ (ATTR_USERNAME, [Byte.x75; Byte.x31] ++ Byte.x3a :: [Byte.x72]) :: []))
  = Ret (Some (str_of [Byte.x75; Byte.x31])).
Proof.
  apply (local_ufrag_encode _ [(0x24, [Byte.x01; Byte.x02; Byte.x03; Byte.x04; Byte.x05])]).
  - reflexivity.
  - repeat constructor; vm_compute; congruence.
  - constructor.
  - vm_compute. congruence.
  - vm_compute. congruence.
  - apply (bool_decide_unpack _). exact I.
  - done.
  - reflexivity.
Defined.

Lemma ufrag_of_Some packet u : ufrag_of packet = Some u <-> local_ufrag packet = Ret (Some u).
Proof.
  unfold ufrag_of. destruct (local_ufrag_returns packet) as [r ->]. naive_solver.
Qed.

(** Media is rejected on its header: RTP, RTCP and DTLS packets have the two top bits of the first
    byte set or a first byte of at least 20, a binding request starts with a zero byte. *)
Lemma local_ufrag_first_byte b packet : b <> Byte.x00 -> local_ufrag (b :: packet) = Ret None.
Proof.
  intros Hb. destruct (local_ufrag_returns (b :: packet)) as [[u|] Hr]; [|done].
  apply local_ufrag_routes in Hr as (tid & attrs & v & ub & _ & E & _).
  exfalso. injection E as E _. by apply Hb.
Qed.
