(* ===== verification/Types.v ===== *)
(** * Shared data (src/proxy.rs, src/manager/models.rs, src/manager/pmetrics.rs)

    Addresses, sessions, endpoints, the messages of the tasks, the HTTP bodies, the metrics and
    the observable effects of the tasks. *)

From S2P Require Import Prelude RustInt.
Local Open Scope Z_scope.

(** [std::net::SocketAddr]; an address is its 32-bit or 128-bit number. *)
Inductive SocketAddr : Type :=
| SocketAddrV4 (ip port : Z)
| SocketAddrV6 (ip port flowinfo scope_id : Z).

#[global] Instance SocketAddr_eq_dec : EqDecision SocketAddr.
Proof. solve_decision. Defined.
#[global] Instance SocketAddr_countable : Countable SocketAddr.
Proof.
  apply (inj_countable'
    (fun a => match a with
              | SocketAddrV4 ip port => inl (ip, port)
              | SocketAddrV6 ip port f s => inr (ip, port, f, s) end)
    (fun s => match s with
              | inl (ip, port) => SocketAddrV4 ip port
              | inr (ip, port, f, s) => SocketAddrV6 ip port f s end)).
  by intros [].
Defined.

(** [struct Session]. *)
Record Session : Type := mkSession { s_port : Z; s_session_id : string }.

#[global] Instance Session_eq_dec : EqDecision Session.
Proof. solve_decision. Defined.
#[global] Instance Session_countable : Countable Session.
Proof.
  apply (inj_countable' (fun s => (s_port s, s_session_id s)) (fun p => mkSession p.1 p.2)).
  by intros [].
Defined.

(** [struct Endpoint]. *)
Record Endpoint : Type := mkEndpoint { e_port : Z; e_ip : string; e_session_id : string }.

#[global] Instance Endpoint_eq_dec : EqDecision Endpoint.
Proof. solve_decision. Defined.
#[global] Instance Endpoint_countable : Countable Endpoint.
Proof.
  apply (inj_countable' (fun e => (e_port e, e_ip e, e_session_id e))
           (fun p => mkEndpoint p.1.1 p.1.2 p.2)).
  by intros [].
Defined.

(** [Endpoint::new]. *)
Definition Endpoint_new (port : Z) (ip session_id : string) : Endpoint :=
  mkEndpoint port ip session_id.

(** [impl Display for Endpoint]. *)
Definition Endpoint_to_string (e : Endpoint) : string :=
  String.append (e_ip e) (String.append ":" (uint_to_string (e_port e))).

(** [Endpoint::socket_addr]; [lookup] is the resolver of the host, [ToSocketAddrs] for
    [(&str, u16)]. *)
Definition socket_addr (lookup : string -> Z -> result string (list SocketAddr)) (e : Endpoint)
  : result string SocketAddr :=
  match lookup (e_ip e) (e_port e) with
  | Err err => Err err
  | Ok [] => Err "Can not resolve endpoint address"%string
  | Ok (a :: _) => Ok a
  end.

(** [enum ProxyClientMsg]. *)
Inductive ProxyClientMsg : Type :=
| ClientEnded (addr : SocketAddr)
| DataSent
| Die.

#[global] Instance ProxyClientMsg_eq_dec : EqDecision ProxyClientMsg.
Proof. solve_decision. Defined.

(** [enum ProxyManagerMsg]; the [respond_to] channel of a request is its caller. *)
Inductive ProxyManagerMsg : Type :=
| CreateUdpProxy (endpoint : Endpoint)
| CreateTcpProxy (endpoint : Endpoint)
| CreateUdpProxyRs (port : Z)
| CreateTcpProxyRs (port : Z)
| UdpProxyErrorRs (error : string)
| TcpProxyErrorRs (error : string)
| DeleteUdpProxy (endpoint : Endpoint)
| DeleteTcpProxy (endpoint : Endpoint)
| DeleteUdpProxyRs
| DeleteTcpProxyRs
| UdpEndpointEnded (endpoint : Endpoint)
| TcpEndpointEnded (endpoint : Endpoint).

(** [enum UdpProxyMode]. *)
Inductive UdpProxyMode : Type := PerSession | Pooled.

#[global] Instance UdpProxyMode_eq_dec : EqDecision UdpProxyMode.
Proof. solve_decision. Defined.

(** ** HTTP bodies *)

Record AllocateRequest : Type := mkAllocateRequest {
  target_udp_port : string;
  target_tcp_port : string;
  target_ssl_tcp_port : string;
  target_ip : string;
  session_id : string;
  ufrag : option string
}.

Record AllocateResponse : Type := mkAllocateResponse {
  proxy_udp_port : Z;
  proxy_tcp_port : Z;
  proxy_ssl_tcp_port : Z
}.

(** ** Registration bodies; [_type] is the fixed tag each sender writes. *)

Record LoadReport : Type := mkLoadReport { lr_type : string; lr_load : Z }.

Record RegisterRequest : Type := mkRegisterRequest {
  rr_type : string;
  rr_guid : string;
  rr_public_ipv4 : string;
  rr_public_ipv6 : string;
  rr_private_ip : string;
  rr_az : string
}.

Record DeregisterRequest : Type := mkDeregisterRequest {
  dr_type : string;
  dr_drain_period_sec : Z
}.

(** ** Metrics and effects *)

(** The counters of [pmetrics::globals]. *)
Inductive metric : Type :=
| IN_UDP_SOCKET_COUNTER
| OUT_UDP_SOCKET_COUNTER
| IDLE_IN_UDP_SOCKET
| IDLE_OUT_UDP_SOCKET
| TCP_CONNECTION_TO_SRV
| TCP_SOCKET_ALLOCATE
| IDLE_IN_TCP_CONNECTION
| IDLE_TCP_SERVER
| IN_CLIENT_UDP_MESSAGE
| IN_MS_UDP_MESSAGE
| IN_CLIENT_TCP_MESSAGE
| IN_MS_TCP_MESSAGE
| UNROUTED_POOLED_UDP_MESSAGE.

#[global] Instance metric_eq_dec : EqDecision metric.
Proof. solve_decision. Defined.

(** The name each counter is exported under. *)
Definition metric_name (m : metric) : string :=
  match m with
  | IN_UDP_SOCKET_COUNTER => "allocate_in_udp_socket_total"
  | OUT_UDP_SOCKET_COUNTER => "allocate_out_udp_socket_total"
  | IDLE_IN_UDP_SOCKET => "idle_in_udp_socket_total"
  | IDLE_OUT_UDP_SOCKET => "idle_out_udp_socket_total"
  | TCP_CONNECTION_TO_SRV => "tcp_connections_to_ms_total"
  | TCP_SOCKET_ALLOCATE => "allocate_tcp_server_total"
  | IDLE_IN_TCP_CONNECTION => "idle_in_tcp_connection_total"
  | IDLE_TCP_SERVER => "idle_tcp_server_total"
  | IN_CLIENT_UDP_MESSAGE => "udp_client_income_message_total"
  | IN_MS_UDP_MESSAGE => "udp_mediaserver_income_message_total"
  | IN_CLIENT_TCP_MESSAGE => "tcp_client_income_message_total"
  | IN_MS_TCP_MESSAGE => "tcp_mediaserver_income_message_total"
  | UNROUTED_POOLED_UDP_MESSAGE => "udp_pooled_unrouted_message_total"
  end%string.

(** A UDP socket: its local port and, once connected, its peer. *)
Record UdpSocket : Type := mkUdpSocket { us_port : Z; us_peer : option SocketAddr }.

#[global] Instance UdpSocket_eq_dec : EqDecision UdpSocket.
Proof. solve_decision. Defined.

(** What the outside world sees of a task: datagrams that left a socket, counter increments and
    end-of-endpoint messages to the manager. *)
Inductive effect : Type :=
| Count (m : metric)
| UdpSend (socket : UdpSocket) (to : option SocketAddr) (data : list byte)
| TellManager (msg : ProxyManagerMsg).

(** How often a log increments the counter [m]. *)
Definition counted (m : metric) (log : list effect) : nat :=
  length (List.filter (fun e => match e with Count m' => bool_decide (m' = m) | _ => false end) log).

(** The receive buffers of the tasks hold [4 * 1024] bytes; a longer datagram loses its tail. *)
Definition BUF_LEN : nat := 4 * 1024.
Definition recv_buf (datagram : list byte) : list byte := take BUF_LEN datagram.

(** ** Lemmas *)

Lemma metric_name_inj m1 m2 : metric_name m1 = metric_name m2 -> m1 = m2.
Proof. by destruct m1, m2. Qed.

Lemma recv_buf_short d : (length d <= BUF_LEN)%nat -> recv_buf d = d.
Proof. apply take_ge. Qed.
