(* ===== verification/Chan.v ===== *)
(** * The channels the tasks use

    [tokio::sync::mpsc] is not part of the repository: [Mpsc] is the interface of its bounded
    channels the tasks are written against, [MpscLaws] the documented behaviour they rely on (a
    bounded first-in first-out queue; [close] refuses new messages and keeps those queued).  The
    theorems about tasks hold for every implementation of the interface; [queue_mpsc] is one, used
    to evaluate the definitions on concrete inputs. *)

From S2P Require Import Prelude.

(** What [Sender::send(..).await] does now: it delivers, fails because the channel is closed, or
    waits because the channel is full. *)
Inductive send_result (C : Type) : Type :=
| Sent (c : C)
| SendClosed
| SendPending.
Arguments Sent {C} _.
Arguments SendClosed {C}.
Arguments SendPending {C}.

(** What [Receiver::recv().await] does now: it returns a message, returns [None] on a closed empty
    channel, or waits. *)
Inductive recv_result (C A : Type) : Type :=
| Received (a : A) (c : C)
| RecvNone
| RecvPending.
Arguments Received {C A} _ _.
Arguments RecvNone {C A}.
Arguments RecvPending {C A}.

Class Mpsc : Type := {
  chan : Type -> Type;
  mpsc_channel {A} : nat -> chan A;
  mpsc_send {A} : chan A -> A -> send_result (chan A);
  mpsc_recv {A} : chan A -> recv_result (chan A) A;
  mpsc_close {A} : chan A -> chan A;
  mpsc_is_closed {A} : chan A -> bool;
  (** the messages queued and the capacity *)
  chan_contents {A} : chan A -> list A;
  chan_capacity {A} : chan A -> nat
}.

Class MpscLaws `{Mpsc} : Prop := {
  channel_contents {A} n : chan_contents (mpsc_channel (A := A) n) = [];
  channel_open {A} n : mpsc_is_closed (mpsc_channel (A := A) n) = false;
  channel_capacity {A} n : chan_capacity (mpsc_channel (A := A) n) = n;
  send_closed {A} (c : chan A) a : mpsc_is_closed c = true -> mpsc_send c a = SendClosed;
  send_full {A} (c : chan A) a :
    mpsc_is_closed c = false -> chan_capacity c <= length (chan_contents c) ->
    mpsc_send c a = SendPending;
  send_room {A} (c : chan A) a :
    mpsc_is_closed c = false -> length (chan_contents c) < chan_capacity c ->
    exists c', mpsc_send c a = Sent c' /\ chan_contents c' = chan_contents c ++ [a]
               /\ mpsc_is_closed c' = false /\ chan_capacity c' = chan_capacity c;
  recv_some {A} (c : chan A) a l :
    chan_contents c = a :: l ->
    exists c', mpsc_recv c = Received a c' /\ chan_contents c' = l
               /\ mpsc_is_closed c' = mpsc_is_closed c /\ chan_capacity c' = chan_capacity c;
  recv_none {A} (c : chan A) :
    chan_contents c = [] ->
    mpsc_recv c = if mpsc_is_closed c then RecvNone else RecvPending;
  close_contents {A} (c : chan A) : chan_contents (mpsc_close c) = chan_contents c;
  close_closed {A} (c : chan A) : mpsc_is_closed (mpsc_close c) = true;
  close_capacity {A} (c : chan A) : chan_capacity (mpsc_close c) = chan_capacity c
}.

Section Derived.
Context `{MpscLaws}.

Lemma send_Sent {A} (c c' : chan A) a :
  mpsc_send c a = Sent c' ->
  mpsc_is_closed c = false /\ chan_contents c' = chan_contents c ++ [a]
  /\ mpsc_is_closed c' = false /\ chan_capacity c' = chan_capacity c
  /\ length (chan_contents c) < chan_capacity c.
Proof.
  intros Hs. destruct (mpsc_is_closed c) eqn:Ec.
  { rewrite send_closed in Hs; done. }
  destruct (decide (length (chan_contents c) < chan_capacity c)) as [Hlt|Hge].
  - destruct (send_room c a Ec Hlt) as (c2 & Hc2 & Hrest). rewrite Hs in Hc2.
    injection Hc2 as <-. naive_solver.
  - rewrite send_full in Hs; [done|done|lia].
Qed.

Lemma send_SendClosed {A} (c : chan A) a : mpsc_send c a = SendClosed -> mpsc_is_closed c = true.
Proof.
  intros Hs. destruct (mpsc_is_closed c) eqn:Ec; [done|].
  destruct (decide (length (chan_contents c) < chan_capacity c)) as [Hlt|Hge].
  - destruct (send_room c a Ec Hlt) as (c2 & Hc2 & _). congruence.
  - rewrite send_full in Hs; [done|done|lia].
Qed.

Lemma send_SendPending {A} (c : chan A) a :
  mpsc_send c a = SendPending ->
  mpsc_is_closed c = false /\ chan_capacity c <= length (chan_contents c).
Proof.
  intros Hs. destruct (mpsc_is_closed c) eqn:Ec.
  { rewrite send_closed in Hs; done. }
  split; [done|].
  destruct (decide (length (chan_contents c) < chan_capacity c)) as [Hlt|Hge]; [|lia].
  destruct (send_room c a Ec Hlt) as (c2 & Hc2 & _). congruence.
Qed.

Lemma recv_Received {A} (c c' : chan A) a :
  mpsc_recv c = Received a c' ->
  chan_contents c = a :: chan_contents c'
  /\ mpsc_is_closed c' = mpsc_is_closed c /\ chan_capacity c' = chan_capacity c.
Proof.
  intros Hr. destruct (chan_contents c) as [|b l] eqn:Ec.
  - rewrite recv_none in Hr by done. by destruct (mpsc_is_closed c).
  - destruct (recv_some c b l Ec) as (c2 & Hc2 & <- & ? & ?).
    rewrite Hr in Hc2. by simplify_eq.
Qed.
End Derived.

(** ** A concrete channel *)

Record queue (A : Type) : Type := mkQueue { q_items : list A; q_cap : nat; q_closed : bool }.
Arguments mkQueue {A} _ _ _.
Arguments q_items {A} _.
Arguments q_cap {A} _.
Arguments q_closed {A} _.

Definition queue_mpsc : Mpsc := {|
  chan := queue;
  mpsc_channel A n := mkQueue [] n false;
  mpsc_send A c a :=
    if q_closed c then SendClosed
    else if decide (length (q_items c) < q_cap c)
    then Sent (mkQueue (q_items c ++ [a]) (q_cap c) false)
    else SendPending;
  mpsc_recv A c :=
    match q_items c with
    | a :: l => Received a (mkQueue l (q_cap c) (q_closed c))
    | [] => if q_closed c then RecvNone else RecvPending
    end;
  mpsc_close A c := mkQueue (q_items c) (q_cap c) true;
  mpsc_is_closed A c := q_closed c;
  chan_contents A c := q_items c;
  chan_capacity A c := q_cap c
|}.

Lemma queue_mpsc_laws : @MpscLaws queue_mpsc.
Proof.
  split; cbn -[decide]; try done.
  - intros A c a ->. done.
  - intros A c a -> Hl. by rewrite decide_False by lia.
  - intros A c a -> Hl. rewrite decide_True by lia.
    eexists. repeat split.
  - intros A c a l ->. eexists. repeat split.
  - intros A c ->. done.
Qed.
