(* ===== verification/Rpc.v ===== *)
(** * Requests to a task over its queue

    The front asks the manager task and the pooled endpoints the same way: it sends a message on the
    task's bounded queue and awaits the answer on a oneshot channel of its own.  Meanwhile the task
    and its neighbours go on, and the caller may be dropped at either of its two awaits (the HTTP
    timeout drops the request's future); a message that was sent is then handled all the same, at a
    later time, and its answer goes nowhere.  This file models such a call over any first-in
    first-out server and proves what its caller may rely on. *)

From S2P Require Import Prelude.

(** What becomes of an await: a value, or the future that awaits is dropped. *)
Inductive awaited (A : Type) : Type :=
| Answer (a : A)
| Interrupted.
Arguments Answer {A} _.
Arguments Interrupted {A}.

(** A server: its steps and those of its neighbours, [send] on its queue ([None] while it is full),
    the messages queued, and the history of those handled with their replies.  [sv_take] is a step
    that makes it handle a message. *)
Class Server (S L Msg Rep : Type) : Type := {
  sv_step : S -> L -> option S;
  sv_send : S -> Msg -> option S;
  sv_take : L;
  sv_queue : S -> list Msg;
  sv_handled : S -> list (Msg * Rep)
}.

(** What the environment does during a call: the neighbours' steps before the message is queued and
    after, and whether the caller is dropped, before or after it sent. *)
Inductive patience : Type := Waits | DropsBeforeSend | DropsAfterSend.

Record script (L : Type) : Type := mkScript {
  sc_before : list L;
  sc_during : list L;
  sc_patience : patience
}.
Arguments mkScript {L} _ _ _.
Arguments sc_before {L} _.
Arguments sc_during {L} _.
Arguments sc_patience {L} _.

Section Rpc.
Context {S L Msg Rep : Type} `{Server S L Msg Rep}.

(** A step that is not possible does not happen. *)
Definition try_step (s : S) (l : L) : S := default s (sv_step s l).

Definition try_steps (s : S) (ls : list L) : S := fold_left try_step ls s.

(** [tx.send(msg).await]: on a full queue it waits until the server takes a message. *)
Definition push (s : S) (msg : Msg) : S :=
  match sv_send s msg with
  | Some s' => s'
  | None => let s := try_step s sv_take in default s (sv_send s msg)
  end.

(** The reply to the message that was handled as the [i]th. *)
Definition reply_at (i : nat) (s : S) : option Rep := snd <$> (sv_handled s !! i).

(** Awaiting it. *)
Fixpoint await_reply (i : nat) (ls : list L) (s : S) : S :=
  match reply_at i s with
  | Some _ => s
  | None => match ls with [] => s | l :: ls => await_reply i ls (try_step s l) end
  end.

(** A call.  When the script says nothing more, the server takes the messages of its queue. *)
Definition rpc (sc : script L) (s : S) (msg : Msg) : awaited (option Rep) * S :=
  let s := try_steps s (sc_before sc) in
  match sc_patience sc with
  | DropsBeforeSend => (Interrupted, s)
  | DropsAfterSend => (Interrupted, try_steps (push s msg) (sc_during sc))
  | Waits =>
      let s := push s msg in
      let i := length (sv_handled s) + length (sv_queue s) - 1 in
      let s' := await_reply i (sc_during sc ++ replicate (length (sv_queue s)) sv_take) s in
      (Answer (reply_at i s'), s')
  end.

(** ** What a call promises *)

(** The laws of a server in the states [sv_inv]: messages are appended by [send] or by neighbours
    and handled in order, one at a time; a full queue has a message, which [sv_take] handles, and
    then there is room for a message that may be sent. *)
Class ServerLaws (sv_inv : S -> Prop) (sendable : Msg -> Prop) : Prop := {
  send_law s msg s' :
    sv_inv s -> sv_send s msg = Some s' ->
    sv_inv s' /\ sv_queue s' = sv_queue s ++ [msg] /\ sv_handled s' = sv_handled s;
  step_law s l s' :
    sv_inv s -> sv_step s l = Some s' ->
    sv_inv s' /\
    ((exists msg rep, sv_queue s = msg :: sv_queue s' /\ sv_handled s' = sv_handled s ++ [(msg, rep)])
     \/ sv_handled s' = sv_handled s /\ exists more, sv_queue s' = sv_queue s ++ more);
  take_law s :
    sv_inv s -> sv_queue s <> [] ->
    exists s', sv_step s sv_take = Some s' /\ sv_handled s' <> sv_handled s;
  room_law s msg :
    sv_inv s -> sendable msg -> sv_send s msg = None ->
    sv_queue s <> [] /\ forall s', sv_step s sv_take = Some s' -> is_Some (sv_send s' msg)
}.

(** Some steps and sends lead from one state to another. *)
Inductive moves : S -> S -> Prop :=
| moves_refl s : moves s s
| moves_step s1 s2 l s3 : moves s1 s2 -> sv_step s2 l = Some s3 -> moves s1 s3
| moves_send s1 s2 msg s3 : moves s1 s2 -> sv_send s2 msg = Some s3 -> moves s1 s3.

Lemma moves_trans s1 s2 s3 : moves s1 s2 -> moves s2 s3 -> moves s1 s3.
Proof. intros H1 H2. revert H1. induction H2; eauto using moves. Qed.

Lemma try_step_moves s l : moves s (try_step s l).
Proof. unfold try_step. destruct (sv_step s l) eqn:E; [by econstructor; [constructor|]|constructor]. Qed.

Lemma try_steps_moves ls s : moves s (try_steps s ls).
Proof.
  unfold try_steps. revert s. induction ls as [|l ls IH]; intros s; [constructor|]. cbn.
  eapply moves_trans; [apply try_step_moves|apply IH].
Qed.

Context (sv_inv : S -> Prop) (sendable : Msg -> Prop) `{!ServerLaws sv_inv sendable}.

Lemma moves_inv s s' : moves s s' -> sv_inv s -> sv_inv s'.
Proof.
  induction 1 as [|s1 s2 l s3 _ IH Hs|s1 s2 msg s3 _ IH Hs]; [done|..]; intros Hi.
  - by destruct (step_law _ _ _ (IH Hi) Hs).
  - by destruct (send_law _ _ _ (IH Hi) Hs).
Qed.

(** History only grows. *)
Lemma moves_handled s s' :
  moves s s' -> sv_inv s -> exists news, sv_handled s' = sv_handled s ++ news.
Proof.
  induction 1 as [|s1 s2 l s3 Hm IH Hs|s1 s2 msg s3 Hm IH Hs]; intros Hi.
  - exists []. by rewrite app_nil_r.
  - destruct (IH Hi) as [news E]. pose proof (moves_inv _ _ Hm Hi) as Hi2.
    destruct (step_law _ _ _ Hi2 Hs) as [_ [(msg & rep & _ & ->)|[-> _]]]; rewrite E; [|by exists news].
    exists (news ++ [(msg, rep)]). by rewrite app_assoc.
  - destruct (IH Hi) as [news E]. pose proof (moves_inv _ _ Hm Hi) as Hi2.
    destruct (send_law _ _ _ Hi2 Hs) as (_ & _ & ->). by exists news.
Qed.

Lemma push_spec s msg :
  sv_inv s -> sendable msg -> exists s1, moves s s1 /\ sv_send s1 msg = Some (push s msg).
Proof.
  intros Hi Hmsg. unfold push. destruct (sv_send s msg) as [s'|] eqn:E.
  - exists s. split; [constructor|done].
  - destruct (room_law _ _ Hi Hmsg E) as [Hq Hroom]. destruct (take_law _ Hi Hq) as (s1 & Hs1 & _).
    unfold try_step. rewrite Hs1. cbn. destruct (Hroom _ Hs1) as [s2 Hs2]. rewrite Hs2.
    exists s1. split; [by econstructor; [constructor|]|done].
Qed.

(** The message is queued, and will be handled as the [i]th. *)
Definition pending (i : nat) (msg : Msg) (s : S) : Prop :=
  exists before after, sv_queue s = before ++ msg :: after /\
    i = length (sv_handled s) + length before.

Lemma pending_reply i msg s : pending i msg s -> reply_at i s = None.
Proof.
  intros (before & after & _ & ->). unfold reply_at. rewrite lookup_ge_None_2; [done|lia].
Qed.

(** A step handles the message, with the reply it gives in the state it is taken, or leaves it
    pending. *)
Lemma pending_step i msg s l s' :
  sv_inv s -> pending i msg s -> sv_step s l = Some s' ->
  pending i msg s' \/
  exists rep, sv_handled s' = sv_handled s ++ [(msg, rep)] /\ reply_at i s' = Some rep /\
    length (sv_handled s) = i.
Proof.
  intros Hi (before & after & Hq & ->) Hs.
  destruct (step_law _ _ _ Hi Hs) as [_ [(m & rep & Hq' & Hh)|[Hh [more Hq']]]].
  - rewrite Hq in Hq'. destruct before as [|m' before]; simplify_eq/=.
    + right. exists rep. split; [done|]. split; [|lia]. unfold reply_at.
      rewrite Hh, Nat.add_0_r, lookup_app_r, Nat.sub_diag by lia. done.
    + left. exists before, after. split; [done|]. rewrite Hh, length_app. cbn. lia.
  - left. exists before, (after ++ more). rewrite Hq', Hq, Hh, <- app_assoc. done.
Qed.

Lemma await_take i msg s n :
  sv_inv s -> pending i msg s -> i < length (sv_handled s) + n ->
  exists s1 l rep, moves s s1 /\ sv_inv s1 /\
    sv_step s1 l = Some (await_reply i (replicate n sv_take) s) /\
    sv_handled (await_reply i (replicate n sv_take) s) = sv_handled s1 ++ [(msg, rep)] /\
    reply_at i (await_reply i (replicate n sv_take) s) = Some rep /\ length (sv_handled s1) = i.
Proof.
  revert s. induction n as [|n IH]; intros s Hi Hp Hlt.
  { destruct Hp as (before & after & _ & ->). lia. }
  cbn [replicate await_reply]. rewrite (pending_reply _ _ _ Hp).
  assert (Hq : sv_queue s <> []) by (destruct Hp as (before & after & -> & _); by destruct before).
  destruct (take_law _ Hi Hq) as (s' & Hs & Hne). unfold try_step. rewrite Hs. cbn.
  pose proof (step_law _ _ _ Hi Hs) as [Hi' Hcase].
  destruct (pending_step _ _ _ _ _ Hi Hp Hs) as [Hp'|(rep & Hh & Hr & Hlen)].
  - destruct Hcase as [(m & rep & _ & Hh)|[E _]]; [|done].
    destruct (IH s' Hi' Hp') as (s1 & l & r & Hm & ?); [rewrite Hh, length_app; cbn; lia|].
    exists s1, l, r. split; [|done]. eapply moves_trans; [|exact Hm].
    by econstructor; [constructor|].
  - assert (E : await_reply i (replicate n sv_take) s' = s')
      by (destruct n; cbn; by rewrite Hr).
    rewrite E. exists s, sv_take, rep. split_and!; [constructor|done..].
Qed.

Lemma await_spec i msg s ls n :
  sv_inv s -> pending i msg s -> i < length (sv_handled s) + n ->
  let s' := await_reply i (ls ++ replicate n sv_take) s in
  exists s1 l rep, moves s s1 /\ sv_inv s1 /\ sv_step s1 l = Some s' /\
    sv_handled s' = sv_handled s1 ++ [(msg, rep)] /\ reply_at i s' = Some rep /\
    length (sv_handled s1) = i.
Proof.
  revert s. induction ls as [|l ls IH]; intros s Hi Hp Hlt; [by apply await_take|].
  cbn [app await_reply]. rewrite (pending_reply _ _ _ Hp). unfold try_step.
  destruct (sv_step s l) as [s'|] eqn:Hs; cbn; [|by apply IH].
  pose proof (step_law _ _ _ Hi Hs) as [Hi' Hcase].
  destruct (pending_step _ _ _ _ _ Hi Hp Hs) as [Hp'|(rep & Hh & Hr & Hlen)].
  - destruct (IH s' Hi' Hp') as (s1 & l' & r & Hm & ?).
    { destruct Hcase as [(m & rep & _ & ->)|[-> _]]; [rewrite length_app|]; lia. }
    exists s1, l', r. split; [|done]. eapply moves_trans; [|exact Hm].
    by econstructor; [constructor|].
  - assert (E : await_reply i (ls ++ replicate n sv_take) s' = s')
      by (destruct (ls ++ _); cbn; by rewrite Hr).
    rewrite E. exists s, l, rep. split_and!; [constructor|done..].
Qed.

(** A call that is not dropped is answered, with what the server replies to its message in the state
    in which the message is its turn; the call ends with that step.  Whatever becomes of the call,
    it leads to a state the server may be in. *)
Lemma rpc_spec sc s msg a s' :
  sv_inv s -> sendable msg -> rpc sc s msg = (a, s') ->
  sv_inv s' /\ moves s s' /\
  match a with
  | Interrupted => sc_patience sc <> Waits
  | Answer r => exists s1 l rep, r = Some rep /\ moves s s1 /\ sv_inv s1 /\
      sv_step s1 l = Some s' /\ sv_handled s' = sv_handled s1 ++ [(msg, rep)]
  end.
Proof.
  intros Hi Hmsg Hc. unfold rpc in Hc. pose proof (try_steps_moves (sc_before sc) s) as Hm0.
  set (s0 := try_steps s (sc_before sc)) in *.
  pose proof (moves_inv _ _ Hm0 Hi) as Hi0. destruct (sc_patience sc).
  - destruct (push_spec s0 msg Hi0 Hmsg) as (s1 & Hm1 & Hs1). set (s2 := push s0 msg) in *.
    assert (Hm2 : moves s s2) by (eapply moves_trans; [exact Hm0|]; by eapply moves_send).
    pose proof (moves_inv _ _ Hm2 Hi) as Hi2.
    destruct (send_law _ _ _ (moves_inv _ _ Hm1 Hi0) Hs1) as (_ & Hq & Hh).
    assert (Hp : pending (length (sv_handled s2) + length (sv_queue s2) - 1) msg s2).
    { exists (sv_queue s1), []. split; [done|]. rewrite Hq, length_app. cbn. lia. }
    destruct (await_spec _ _ _ (sc_during sc) (length (sv_queue s2)) Hi2 Hp)
      as (s3 & l & rep & Hm3 & Hi3 & Hs3 & Hh3 & Hr & _); [rewrite Hq, length_app; cbn; lia|].
    rewrite Hr in Hc. simplify_eq.
    assert (Hm4 : moves s s3) by (by eapply moves_trans).
    split; [by destruct (step_law _ _ _ Hi3 Hs3)|]. split; [by eapply moves_step|].
    exists s3, l, rep. by split_and!.
  - simplify_eq. by split_and!.
  - destruct (push_spec s0 msg Hi0 Hmsg) as (s1 & Hm1 & Hs1). simplify_eq.
    assert (Hm : moves s (try_steps (push s0 msg) (sc_during sc))).
    { eapply moves_trans; [|apply try_steps_moves]. eapply moves_trans; [exact Hm0|].
      by eapply moves_send. }
    split_and!; [by eapply moves_inv|done|done].
Qed.

(** ** Servers with one sender *)

(** The messages sent so far, handled or not. *)
Definition asked (s : S) : list Msg := map fst (sv_handled s) ++ sv_queue s.

(** No one else sends. *)
Definition sole_sender : Prop :=
  forall s l s', sv_inv s -> sv_step s l = Some s' -> asked s' = asked s.

Lemma sole_steps s ls :
  sole_sender -> sv_inv s -> sv_inv (try_steps s ls) /\ asked (try_steps s ls) = asked s.
Proof.
  intros Hsole. unfold try_steps. revert s. induction ls as [|l ls IH]; intros s Hi; [done|]. cbn.
  assert (Hone : sv_inv (try_step s l) /\ asked (try_step s l) = asked s).
  { unfold try_step. destruct (sv_step s l) as [s'|] eqn:Hs; cbn; [|done].
    split; [by destruct (step_law _ _ _ Hi Hs)|by eapply Hsole]. }
  destruct Hone as [Hi' <-]. by apply IH.
Qed.

Lemma sole_await i s ls : sole_sender -> sv_inv s -> asked (await_reply i ls s) = asked s.
Proof.
  intros Hsole. revert s. induction ls as [|l ls IH]; intros s Hi; cbn; destruct (reply_at i s); [done..|].
  destruct (sole_steps s [l] Hsole Hi) as [Hi' <-]. by apply IH.
Qed.

Lemma asked_send s msg s' : sv_inv s -> sv_send s msg = Some s' -> asked s' = asked s ++ [msg].
Proof.
  intros Hi Hs. destruct (send_law _ _ _ Hi Hs) as (_ & Hq & Hh). unfold asked.
  by rewrite Hq, Hh, app_assoc.
Qed.

Lemma sole_push s msg : sole_sender -> sv_inv s -> sendable msg -> asked (push s msg) = asked s ++ [msg].
Proof.
  intros Hsole Hi Hmsg. unfold push. destruct (sv_send s msg) as [s'|] eqn:E; [by eapply asked_send|].
  destruct (room_law _ _ Hi Hmsg E) as [Hq Hroom]. destruct (take_law _ Hi Hq) as (s1 & Hs1 & _).
  unfold try_step. rewrite Hs1. cbn. destruct (Hroom _ Hs1) as [s2 Hs2]. rewrite Hs2. cbn.
  destruct (step_law _ _ _ Hi Hs1) as [Hi1 _]. rewrite <- (Hsole _ _ _ Hi Hs1).
  by eapply asked_send.
Qed.

(** An answered call adds its message and finds all before it handled; a dropped one may have sent
    it. *)
Lemma rpc_asked sc s msg a s' :
  sole_sender -> sv_inv s -> sendable msg -> rpc sc s msg = (a, s') ->
  match a with
  | Interrupted => asked s' = asked s \/ asked s' = asked s ++ [msg]
  | Answer _ => asked s' = asked s ++ [msg] /\ sv_queue s' = []
  end.
Proof.
  intros Hsole Hi Hmsg Hc. unfold rpc in Hc.
  destruct (sole_steps s (sc_before sc) Hsole Hi) as [Hi0 E0]. rewrite <- E0.
  set (s0 := try_steps s (sc_before sc)) in *. clearbody s0.
  destruct (push_spec s0 msg Hi0 Hmsg) as (s1 & Hm1 & Hs1).
  pose proof (moves_inv _ _ Hm1 Hi0) as Hi1.
  destruct (send_law _ _ _ Hi1 Hs1) as (Hi2 & Hq & Hh).
  pose proof (sole_push s0 msg Hsole Hi0 Hmsg) as E2. set (s2 := push s0 msg) in *. clearbody s2.
  destruct (sc_patience sc).
  - assert (Hp : pending (length (sv_handled s2) + length (sv_queue s2) - 1) msg s2).
    { exists (sv_queue s1), []. split; [done|]. rewrite Hq, length_app. cbn. lia. }
    destruct (await_spec _ _ _ (sc_during sc) (length (sv_queue s2)) Hi2 Hp)
      as (s3 & l & rep & Hm3 & Hi3 & Hs3 & Hh3 & Hr & Hlen); [rewrite Hq, length_app; cbn; lia|].
    pose proof (sole_await (length (sv_handled s2) + length (sv_queue s2) - 1) s2
      (sc_during sc ++ replicate (length (sv_queue s2)) sv_take) Hsole Hi2) as E3.
    simplify_eq. rewrite E3. split; [done|]. apply length_zero_iff_nil.
    apply (f_equal length) in E3. unfold asked in E3. rewrite Hh3 in E3.
    rewrite !length_app, !length_map, length_app, Hlen in E3. cbn in E3.
    rewrite Hq, length_app in *. cbn in *. lia.
  - simplify_eq. by left.
  - simplify_eq. right. rewrite <- E2. by apply sole_steps.
Qed.

(** ** What holds of a view of the server *)

(** A view [v] of the state that changes only when a message that [concerns] it is handled. *)
Context {V : Type} (v : S -> V) (concerns : Msg -> bool).

Definition view_law : Prop :=
  (forall s msg s', sv_inv s -> sv_send s msg = Some s' -> v s' = v s) /\
  (forall s l s', sv_inv s -> sv_step s l = Some s' -> v s' = v s \/
     exists msg rep, sv_handled s' = sv_handled s ++ [(msg, rep)] /\ concerns msg = true).

(** How many messages that concern the view a state's history has since [n]. *)
Definition concerning (h : list (Msg * Rep)) : nat := length (List.filter (fun x => concerns x.1) h).

Lemma concerning_app h1 h2 : concerning (h1 ++ h2) = concerning h1 + concerning h2.
Proof. unfold concerning. by rewrite List.filter_app, length_app. Qed.

Lemma view_kept s s' :
  view_law -> moves s s' -> sv_inv s ->
  concerning (sv_handled s) <= concerning (sv_handled s') /\
  (v s' = v s \/ concerning (sv_handled s) < concerning (sv_handled s')).
Proof.
  intros [Hsend Hstep]. induction 1 as [|s1 s2 l s3 Hm IH Hs|s1 s2 msg s3 Hm IH Hs]; intros Hi.
  - auto.
  - destruct (IH Hi) as [Hle Hcase]. pose proof (moves_inv _ _ Hm Hi) as Hi2.
    assert (Hgrow : concerning (sv_handled s2) <= concerning (sv_handled s3)).
    { destruct (step_law _ _ _ Hi2 Hs) as [_ [(m & rep & _ & ->)|[-> _]]];
        rewrite ?concerning_app; lia. }
    split; [lia|]. destruct (Hstep _ _ _ Hi2 Hs) as [->|(m & rep & Hh & Hc)].
    + destruct Hcase; [by left|right; lia].
    + right. rewrite Hh, concerning_app. unfold concerning at 3. cbn. rewrite Hc. cbn. lia.
  - destruct (IH Hi) as [Hle Hcase]. pose proof (moves_inv _ _ Hm Hi) as Hi2.
    destruct (send_law _ _ _ Hi2 Hs) as (_ & _ & ->). by rewrite (Hsend _ _ _ Hi2 Hs).
Qed.
End Rpc.
