(* ===== verification/Consts.v ===== *)
(** * Configuration (src/lib.rs, [mod consts])

    Every constant is read from the environment once; [var] is [std::env::var], an error when the
    variable is not set or is not Unicode. *)

From S2P Require Import Prelude RustInt.
Local Open Scope Z_scope.
Local Open Scope string_scope.

Section Env.
  Context (var : string -> result unit string).

Definition REGISTER_ENDPOINT : string :=
  match var "REGISTER_ENDPOINT" with
  | Ok reg_endpoint => reg_endpoint
  | Err _ => "ws://localhost:5555"
  end.

Definition SERVICE_PORT : Z :=
  match var "SERVICE_PORT" with
  | Ok service_port => unwrap_or (parse_u16 service_port) 3333
  | Err _ => 3333
  end.

Definition METRICS_PORT : Z :=
  match var "METRICS_PORT" with
  | Ok metrics_port => unwrap_or (parse_u16 metrics_port) 9321
  | Err _ => 9321
  end.

Definition TRAFFIC_WAIT_TIMEOUT : Z :=
  match var "TRAFFIC_WAIT_TIMEOUT" with
  | Ok wait_timeout => unwrap_or (parse_u64 wait_timeout) 5
  | Err _ => 5
  end.

Definition HTTP_REQUEST_TIMEOUT : Z :=
  match var "HTTP_REQUEST_TIMEOUT" with
  | Ok wait_timeout => unwrap_or (parse_u64 wait_timeout) 1000
  | Err _ => 1000
  end.

Definition HTTP_REQUEST_CONCURRENT_NUM : Z :=
  match var "HTTP_REQUEST_CONCURRENT_NUM" with
  | Ok concurrent_num => unwrap_or (parse_usize concurrent_num) 128
  | Err _ => 128
  end.

Definition PUBLIC_IPV4 : string :=
  match var "PUBLIC_IPV4" with Ok ipv4 => ipv4 | Err _ => "127.0.0.1" end.

Definition PUBLIC_IPV6 : string :=
  match var "PUBLIC_IPV6" with Ok ipv6 => ipv6 | Err _ => "::1" end.

Definition PRIVATE_IP : string :=
  match var "PRIVATE_IP" with Ok ip => ip | Err _ => "192.168.49.1:3333" end.

Definition AVAILABILITY_ZONE : string :=
  match var "AVAILABILITY_ZONE" with Ok az => az | Err _ => "a" end.

(** [new_v4] is the fresh UUID the [uuid] crate prints. *)
Definition PROXY_GUID (new_v4 : string) : string :=
  match var "PROXY_GUID" with Ok guid => guid | Err _ => new_v4 end.

Definition HEARTBIT_DELAY : Z :=
  match var "HEARTBIT_DELAY" with
  | Ok delay => unwrap_or (parse_u64 delay) 10000
  | Err _ => 10000
  end.

Definition UDP_CHANNEL_SIZE : Z :=
  match var "UDP_CHANNEL_SIZE" with
  | Ok delay => unwrap_or (parse_usize delay) 10
  | Err _ => 10
  end.

Definition GRACEFULLL_SHUTDOWN_DELAY : Z :=
  match var "GRACEFULLL_SHUTDOWN_DELAY" with
  | Ok delay => unwrap_or (parse_u32 delay) 10
  | Err _ => 10
  end.

Definition MAX_REGISTRATION_ATTEMPTS : Z :=
  match var "MAX_REGISTRATION_ATTEMPTS" with
  | Ok attempts => unwrap_or (parse_u16 attempts) 10000
  | Err _ => 10000
  end.

Definition METRICS_EXPOSE_PATH : string :=
  match var "METRICS_EXPOSE_PATH" with
  | Ok expose_path => expose_path
  | Err _ => "/actuator/prometheus"
  end.

Definition ALLOCATE_PATH : string :=
  match var "ALLOCATE_PATH" with
  | Ok allocate_path => allocate_path
  | Err _ => "/api/v1/proxy-ports"
  end.

Definition DELETE_PATH : string :=
  match var "DELETE_PATH" with
  | Ok delete_path => delete_path
  | Err _ => "/api/v1/proxy-ports/{port}/{session_id}"
  end.

Definition UDP_POOL_SIZE : Z :=
  match var "UDP_POOL_SIZE" with
  | Ok size => unwrap_or (parse_usize size) 0
  | Err _ => 0
  end.

Definition UDP_POOL_BASE_PORT : Z :=
  match var "UDP_POOL_BASE_PORT" with
  | Ok port => unwrap_or (parse_u16 port) 0
  | Err _ => 0
  end.

Definition STATUS_PATH : string :=
  match var "STATUS_PATH" with
  | Ok status_path => status_path
  | Err _ => "/api/v1/status"
  end.
End Env.
