(* ===== verification/UdpClient.v ===== *)
(** * UDP relays and per-session endpoints (src/proxy/udp_client.rs)

    A relay ([ProxyClient]) is a task that carries one client's flow to one target: its socket is
    connected to the target, and what the target answers goes back to the client through the
    owner's socket.  The owner, a per-session [ProxyEndpoint] or a pooled endpoint, keeps a
    [ProxyClientHandler] per client address.  All relays of an owner live in a [world], with the
    channel the relays report their end on.  Code of the owner that awaits is written in the monad
    [task]: it changes the world, emits effects, and may have to wait ([None]).

    The answers of the operating system (a bind, a connect, a send) are arguments. *)

From S2P Require Import Prelude RustInt Types Chan.
Local Open Scope Z_scope.

Section UdpClient.
Context `{Mpsc}.

(** ** Relays *)

(** [struct ProxyClient]; its [msg_tx] is the sending side of the world's [w_client], and its
    [control_tx] and [control_rx] the two sides of [pc_control]. *)
Record ProxyClient : Type := mkProxyClient {
  pc_socket : UdpSocket;
  pc_target_socket : UdpSocket;
  pc_addr : SocketAddr;
  pc_control : chan ProxyClientMsg
}.

(** [ProxyClient::new]. *)
Definition ProxyClient_new (socket target_socket : UdpSocket) (addr : SocketAddr)
  : ProxyClient * list effect :=
  (mkProxyClient socket target_socket addr (mpsc_channel 10), [Count OUT_UDP_SOCKET_COUNTER]).

Definition set_control (c : ProxyClient) (ch : chan ProxyClientMsg) : ProxyClient :=
  mkProxyClient (pc_socket c) (pc_target_socket c) (pc_addr c) ch.

(** The branches of the relay's [select!]: its socket received, its control channel is ready, or
    the traffic timeout elapsed. *)
Inductive relay_event : Type :=
| RelayRecv (received : result string (list byte)) (sent : result string unit)
| RelayControl
| RelayIdle.

(** One round of [ProxyClient::run]; [None] when the branch is not ready. *)
Definition relay_select (self : ProxyClient) (ev : relay_event)
  : option (loop_ctl ProxyClient * list effect) :=
  match ev with
  | RelayRecv (Ok datagram) sent =>
      let data := recv_buf datagram in
      match sent with
      | Ok _ =>
          Some (Continue self,
                [Count IN_MS_UDP_MESSAGE; UdpSend (pc_target_socket self) (Some (pc_addr self)) data])
      | Err _ => Some (Break self, [Count IN_MS_UDP_MESSAGE])
      end
  | RelayRecv (Err _) _ => Some (Break self, [])
  | RelayControl =>
      match mpsc_recv (pc_control self) with
      | Received DataSent ch => Some (Continue (set_control self ch), [Count IN_CLIENT_UDP_MESSAGE])
      | Received Die ch => Some (Break (set_control self ch), [])
      | Received (ClientEnded _) ch => Some (Break (set_control self ch), [])
      | RecvNone => Some (Break self, [])
      | RecvPending => None
      end
  | RelayIdle => Some (Break self, [Count IDLE_OUT_UDP_SOCKET])
  end.

(** A relay task: in its loop; past it, with its control channel closed and its [ClientEnded]
    still to be sent; or gone. *)
Inductive relay_status : Type := Looping | Reporting | Finished.

#[local] Instance relay_status_eq_dec : EqDecision relay_status.
Proof. solve_decision. Defined.

(** [rl_aborted]: its [JoinHandle] was aborted; the task is cancelled at an await after that. *)
Record relay : Type := mkRelay {
  rl_client : ProxyClient;
  rl_status : relay_status;
  rl_aborted : bool
}.

(** [RlSelect]: a round of the loop; when it breaks, the control channel is closed.  [RlReport]:
    the [ClientEnded] is sent.  [RlCancel]: an aborted task is dropped, and its receiver with it. *)
Inductive relay_label : Type := RlSelect (ev : relay_event) | RlReport | RlCancel.

(** The tasks' side of [ProxyClient::run], with the channel [client_tx] it reports on. *)
Definition relay_step (r : relay) (lbl : relay_label) (client_tx : chan ProxyClientMsg)
  : option (relay * chan ProxyClientMsg * list effect) :=
  match lbl, rl_status r with
  | RlSelect ev, Looping =>
      match relay_select (rl_client r) ev with
      | Some (Continue c, effs) => Some (mkRelay c Looping (rl_aborted r), client_tx, effs)
      | Some (Break c, effs) =>
          let c := set_control c (mpsc_close (pc_control c)) in
          Some (mkRelay c Reporting (rl_aborted r), client_tx, effs)
      | None => None
      end
  | RlReport, Reporting =>
      match mpsc_send client_tx (ClientEnded (pc_addr (rl_client r))) with
      | Sent ch => Some (mkRelay (rl_client r) Finished (rl_aborted r), ch, [])
      | SendClosed => Some (mkRelay (rl_client r) Finished (rl_aborted r), client_tx, [])
      | SendPending => None
      end
  | RlCancel, (Looping | Reporting) =>
      if rl_aborted r then
        let c := set_control (rl_client r) (mpsc_close (pc_control (rl_client r))) in
        Some (mkRelay c Finished true, client_tx, [])
      else None
  | _, _ => None
  end.

(** ** The world of an owner and its code's monad *)

Record world : Type := mkWorld {
  w_relays : gmap nat relay;
  w_next : nat;
  w_client : chan ProxyClientMsg
}.

(** [mpsc::channel::<ProxyClientMsg>(10)], and no relay yet. *)
Definition world_init : world := mkWorld ∅ 0 (mpsc_channel 10).

Definition set_relay (rid : nat) (r : relay) (w : world) : world :=
  mkWorld (<[rid := r]> (w_relays w)) (w_next w) (w_client w).

Definition set_client (ch : chan ProxyClientMsg) (w : world) : world :=
  mkWorld (w_relays w) (w_next w) ch.

(** A step of a relay; [alive]: its owner still holds the receiver of [w_client], which refuses
    messages once the owner is gone. *)
Definition world_step (alive : bool) (w : world) (rid : nat) (lbl : relay_label)
  : option (world * list effect) :=
  let client_tx := if alive then w_client w else mpsc_close (w_client w) in
  match w_relays w !! rid with
  | None => None
  | Some r =>
      match relay_step r lbl client_tx with
      | Some (r', ch, effs) =>
          Some (set_client (if alive then ch else w_client w) (set_relay rid r' w), effs)
      | None => None
      end
  end.

Definition task (A : Type) : Type := world -> option (A * world * list effect).

Definition task_ret {A} (a : A) : task A := fun w => Some (a, w, []).

Definition task_bind {A B} (m : task A) (k : A -> task B) : task B :=
  fun w =>
    match m w with
    | None => None
    | Some (a, w1, e1) =>
        match k a w1 with
        | None => None
        | Some (b, w2, e2) => Some (b, w2, e1 ++ e2)
        end
    end.

Definition emit (e : effect) : task unit := fun w => Some (tt, w, [e]).

Definition modify (f : world -> world) : task unit := fun w => Some (tt, f w, []).

Notation "'let*' x ':=' m 'in' k" := (task_bind m (fun x => k))
  (at level 10, x pattern, m at level 200, k at level 200).

(** ** Handlers *)

(** [struct ProxyClientHandler]: the relay's socket, and the relay whose control channel [sender]
    feeds and whose task [handler] joins. *)
Record ProxyClientHandler : Type := mkProxyClientHandler {
  h_socket : UdpSocket;
  h_sender : nat;
  h_handler : nat
}.

Definition abort_relay (rid : nat) (w : world) : world :=
  match w_relays w !! rid with
  | Some r => set_relay rid (mkRelay (rl_client r) (rl_status r) true) w
  | None => w
  end.

(** [Drop for ProxyClientHandler]. *)
Definition handler_drop (h : ProxyClientHandler) : world -> world := abort_relay (h_handler h).

(** [sender.is_closed()] on a handler's control channel. *)
Definition sender_is_closed (h : ProxyClientHandler) (w : world) : bool :=
  match w_relays w !! h_sender h with
  | Some r => mpsc_is_closed (pc_control (rl_client r))
  | None => true
  end.

(** [sender.send(msg).await] on a relay's control channel. *)
Definition control_send (rid : nat) (msg : ProxyClientMsg) : task (result string unit) :=
  fun w =>
    match w_relays w !! rid with
    | None => Some (Err "channel closed"%string, w, [])
    | Some r =>
        match mpsc_send (pc_control (rl_client r)) msg with
        | Sent ch =>
            let r' := mkRelay (set_control (rl_client r) ch) (rl_status r) (rl_aborted r) in
            Some (Ok tt, set_relay rid r' w, [])
        | SendClosed => Some (Err "channel closed"%string, w, [])
        | SendPending => None
        end
    end.

(** [ProxyClient::send]; [sent] is the answer of [socket.send(data)]. *)
Definition ProxyClient_send (sent : result string unit) (socket : UdpSocket) (data : list byte)
  (sender : nat) : task (result string unit) :=
  match sent with
  | Err e => task_ret (Err e)
  | Ok _ =>
      let* _ := emit (UdpSend socket (us_peer socket) data) in
      control_send sender DataSent
  end.

(** Where [ProxyClient::send] stands while it waits for room in the control channel: the datagram
    has left. *)
Definition send_waits (socket : UdpSocket) (data : list byte) (sender : nat) : task unit :=
  fun w =>
    match control_send sender DataSent w with
    | None => Some (tt, w, [UdpSend socket (us_peer socket) data])
    | Some _ => None
    end.

(** What the operating system answers [allocate_handler]: the port of the new socket, and whether
    connecting it succeeds. *)
Record alloc_answers : Type := mkAlloc {
  aa_bind : result string Z;
  aa_connect : result string unit
}.

(** [tokio::spawn(client.run())]. *)
Definition spawn_relay (c : ProxyClient) : task nat :=
  fun w =>
    Some (w_next w,
          mkWorld (<[w_next w := mkRelay c Looping false]> (w_relays w)) (S (w_next w)) (w_client w),
          []).

Definition allocate_handler (remote_addr client_addr : SocketAddr) (target_socket : UdpSocket)
  (ans : alloc_answers) : task (result string ProxyClientHandler) :=
  match aa_bind ans with
  | Err e => task_ret (Err e)
  | Ok port =>
      match aa_connect ans with
      | Err _ => task_ret (Err "Something went wrong"%string)
      | Ok _ =>
          let socket := mkUdpSocket port (Some remote_addr) in
          let (client, effs) := ProxyClient_new socket target_socket client_addr in
          let* _ := (fun w => Some (tt, w, effs)) in
          let* rid := spawn_relay client in
          task_ret (Ok (mkProxyClientHandler socket rid rid))
      end
  end.

(** ** The per-session endpoint *)

(** [struct ProxyEndpoint]; its [msg_tx] goes to the manager. *)
Record ProxyEndpoint : Type := mkProxyEndpoint {
  pe_udp_socket : UdpSocket;
  pe_endpoint : Endpoint;
  pe_remote_addr : SocketAddr;
  pe_clients : gmap SocketAddr ProxyClientHandler
}.

(** [ProxyEndpoint::new]. *)
Definition ProxyEndpoint_new (udp_socket : UdpSocket) (endpoint : Endpoint)
  (remote_addr : SocketAddr) : ProxyEndpoint * list effect :=
  (mkProxyEndpoint udp_socket endpoint remote_addr ∅, [Count IN_UDP_SOCKET_COUNTER]).

Definition set_clients (self : ProxyEndpoint) (clients : gmap SocketAddr ProxyClientHandler)
  : ProxyEndpoint :=
  mkProxyEndpoint (pe_udp_socket self) (pe_endpoint self) (pe_remote_addr self) clients.

(** [self.clients.remove(&addr)]: the removed handler is dropped. *)
Definition remove_client (self : ProxyEndpoint) (addr : SocketAddr) : task ProxyEndpoint :=
  match pe_clients self !! addr with
  | None => task_ret self
  | Some h =>
      let* _ := modify (handler_drop h) in
      task_ret (set_clients self (delete addr (pe_clients self)))
  end.

Definition get_or_create_client (self : ProxyEndpoint) (addr : SocketAddr)
  (target_socket : UdpSocket) (ans : alloc_answers)
  : task (result string (ProxyClientHandler * ProxyEndpoint)) :=
  match pe_clients self !! addr with
  | Some h => task_ret (Ok (h, self))
  | None =>
      let* r := allocate_handler (pe_remote_addr self) addr target_socket ans in
      match r with
      | Err e => task_ret (Err e)
      | Ok h => task_ret (Ok (h, set_clients self (<[addr := h]> (pe_clients self))))
      end
  end.

(** The branches of the endpoint's [select!]: a datagram or an error of its socket, a message of a
    relay, or the traffic timeout. *)
Inductive endpoint_event : Type :=
| EpRecv (received : result string (list byte * SocketAddr)) (ans : alloc_answers)
         (sent : result string unit)
| EpClientMsg
| EpIdle.

(** [if self.clients.len() == 0 { break; }]. *)
Definition break_if_empty (self : ProxyEndpoint) : loop_ctl ProxyEndpoint :=
  if bool_decide (size (pe_clients self) = 0%nat) then Break self else Continue self.

(** [client_rx.recv()]. *)
Definition client_recv : task (option ProxyClientMsg) :=
  fun w =>
    match mpsc_recv (w_client w) with
    | Received msg ch => Some (Some msg, set_client ch w, [])
    | RecvNone => Some (None, w, [])
    | RecvPending => None
    end.

(** One round of [ProxyEndpoint::run]. *)
Definition endpoint_select (self : ProxyEndpoint) (ev : endpoint_event)
  : task (loop_ctl ProxyEndpoint) :=
  match ev with
  | EpRecv (Err _) _ _ => task_ret (Break self)
  | EpRecv (Ok (datagram, addr)) ans sent =>
      let data := recv_buf datagram in
      let* _ := emit (Count IN_CLIENT_UDP_MESSAGE) in
      let* r := get_or_create_client self addr (pe_udp_socket self) ans in
      match r with
      | Err _ => task_ret (Break self)
      | Ok (client, self) =>
          let* s := ProxyClient_send sent (h_socket client) data (h_sender client) in
          match s with
          | Ok _ => task_ret (Continue self)
          | Err _ => let* self := remove_client self addr in task_ret (break_if_empty self)
          end
      end
  | EpClientMsg =>
      let* m := client_recv in
      match m with
      | Some (ClientEnded addr) =>
          let* self := remove_client self addr in task_ret (break_if_empty self)
      | Some _ => task_ret (Break self)
      | None => task_ret (Break self)
      end
  | EpIdle =>
      let* _ := emit (Count IDLE_IN_UDP_SOCKET) in
      task_ret (Break self)
  end.

(** Where a task may stand when it is cancelled: between two rounds; with a received datagram, in
    [socket.send] of its client's relay, or past it while the relay's control channel is full.  A
    new relay's channel has room, and a cancelled allocation or first send leaves what a failed one
    leaves. *)
Inductive waiting : Type :=
| AtSelect
| AtSend (datagram : list byte) (addr : SocketAddr)
| AtControl (datagram : list byte) (addr : SocketAddr).

(** The datagram in hand there. *)
Definition waiting_with (wt : waiting) : option (list byte * SocketAddr) :=
  match wt with AtSelect => None | AtSend d addr | AtControl d addr => Some (d, addr) end.

(** A client's relay at one of the waits of [ProxyClient::send]. *)
Definition relay_waits (h : option ProxyClientHandler) (wt : waiting) : task unit :=
  match wt, h with
  | AtSelect, _ => task_ret tt
  | AtSend _ _, Some _ => emit (Count IN_CLIENT_UDP_MESSAGE)
  | AtControl datagram _, Some h =>
      let* _ := emit (Count IN_CLIENT_UDP_MESSAGE) in
      send_waits (h_socket h) (recv_buf datagram) (h_sender h)
  | _, None => fun _ => None
  end.

(** Where a round of the endpoint may be waiting when the task is cancelled. *)
Definition endpoint_waits (self : ProxyEndpoint) (wt : waiting) : task unit :=
  relay_waits (a ← waiting_with wt; pe_clients self !! a.2) wt.

(** The endpoint's task: in its loop, past it with [UdpEndpointEnded] still to be sent, or gone. *)
Inductive endpoint_phase : Type := EpLooping | EpReporting | EpFinished.

#[local] Instance endpoint_phase_eq_dec : EqDecision endpoint_phase.
Proof. solve_decision. Defined.

Record ep_sys : Type := mkEpSys {
  es_self : ProxyEndpoint;
  es_world : world;
  es_phase : endpoint_phase;
  es_log : list effect
}.

(** [EsReport sent]: the end of [run]; [sent] tells whether the manager still listens.  When [run]
    returns, the endpoint is dropped and its handlers with it.  [EsCancel]: the manager's [kill]
    takes effect, the task and the endpoint are dropped where it stands, which [wt] tells. *)
Inductive ep_label : Type :=
| EsSelect (ev : endpoint_event)
| EsReport (sent : bool)
| EsCancel (wt : waiting)
| EsRelay (rid : nat) (lbl : relay_label).

Definition drop_handlers (hs : list ProxyClientHandler) (w : world) : world :=
  foldr handler_drop w hs.

Definition ep_drop (s : ep_sys) (told : list effect) : ep_sys :=
  mkEpSys (set_clients (es_self s) ∅)
    (drop_handlers (map snd (map_to_list (pe_clients (es_self s)))) (es_world s))
    EpFinished (es_log s ++ told).

Definition ep_step (s : ep_sys) (lbl : ep_label) : option ep_sys :=
  match lbl with
  | EsSelect ev =>
      match es_phase s with
      | EpLooping =>
          match endpoint_select (es_self s) ev (es_world s) with
          | Some (Continue self, w, effs) => Some (mkEpSys self w EpLooping (es_log s ++ effs))
          | Some (Break self, w, effs) => Some (mkEpSys self w EpReporting (es_log s ++ effs))
          | None => None
          end
      | _ => None
      end
  | EsReport sent =>
      match es_phase s with
      | EpReporting =>
          let told := if sent : bool then [TellManager (UdpEndpointEnded (pe_endpoint (es_self s)))]
                      else [] in
          Some (ep_drop s told)
      | _ => None
      end
  | EsCancel wt =>
      match es_phase s with
      | EpLooping =>
          match endpoint_waits (es_self s) wt (es_world s) with
          | Some (_, _, effs) => Some (ep_drop s effs)
          | None => None
          end
      | EpReporting => match wt with AtSelect => Some (ep_drop s []) | _ => None end
      | EpFinished => None
      end
  | EsRelay rid lbl =>
      match world_step (bool_decide (es_phase s <> EpFinished)) (es_world s) rid lbl with
      | Some (w, effs) => Some (mkEpSys (es_self s) w (es_phase s) (es_log s ++ effs))
      | None => None
      end
  end.

(** The endpoint as [ProxyEndpointHandler::new] spawns it. *)
Definition ep_init (udp_socket : UdpSocket) (endpoint : Endpoint) (remote_addr : SocketAddr)
  : ep_sys :=
  let (self, effs) := ProxyEndpoint_new udp_socket endpoint remote_addr in
  mkEpSys self world_init EpLooping effs.

(** ** Inverting tasks *)

Lemma task_bind_Some {A B} (m : task A) (k : A -> task B) w b w2 e :
  task_bind m k w = Some (b, w2, e) <->
  exists a w1 e1 e2, m w = Some (a, w1, e1) /\ k a w1 = Some (b, w2, e2) /\ e = e1 ++ e2.
Proof.
  unfold task_bind. split.
  - destruct (m w) as [[[a w1] e1]|]; [|done]. destruct (k a w1) as [[[b' w2'] e2]|] eqn:E; [|done].
    intros [= <- <- <-]. by exists a, w1, e1, e2.
  - by intros (a & w1 & e1 & e2 & -> & -> & ->).
Qed.

Lemma task_ret_Some {A} (a b : A) w w' e :
  task_ret a w = Some (b, w', e) <-> b = a /\ w' = w /\ e = [].
Proof. unfold task_ret. naive_solver. Qed.

Lemma modify_Some f w u w' e : modify f w = Some (u, w', e) <-> u = tt /\ w' = f w /\ e = [].
Proof. unfold modify. naive_solver. Qed.

Lemma emit_Some ef w u w' e : emit ef w = Some (u, w', e) <-> u = tt /\ w' = w /\ e = [ef].
Proof. unfold emit. naive_solver. Qed.

Lemma relay_waits_Some h wt w u w' e :
  relay_waits h wt w = Some (u, w', e) ->
  w' = w /\ (e = [] \/ exists h0 d addr, h = Some h0 /\ waiting_with wt = Some (d, addr) /\
    (e = [Count IN_CLIENT_UDP_MESSAGE] \/
     e = [Count IN_CLIENT_UDP_MESSAGE; UdpSend (h_socket h0) (us_peer (h_socket h0)) (recv_buf d)])).
Proof.
  destruct wt as [|d addr|d addr], h as [h|]; cbn [relay_waits waiting_with]; intros Hs; try done.
  - apply task_ret_Some in Hs as (_ & -> & ->). by split; [|left].
  - apply task_ret_Some in Hs as (_ & -> & ->). by split; [|left].
  - apply emit_Some in Hs as (_ & -> & ->). split; [done|right]. eauto 10.
  - apply task_bind_Some in Hs as (a & w1 & e1 & e2 & (_ & -> & ->)%emit_Some & Hs & ->).
    unfold send_waits in Hs. destruct (control_send _ _ _); [done|]. injection Hs as _ <- <-.
    split; [done|right]. eauto 10.
Qed.

End UdpClient.

(** [inv_task H] takes a successful task apart into its steps. *)
Ltac inv_task H :=
  repeat (match type of H with
  | task_bind _ _ _ = Some _ =>
      let a := fresh "a" in let w := fresh "w" in let e1 := fresh "e" in let e2 := fresh "e" in
      let H1 := fresh "Hm" in
      apply task_bind_Some in H as (a & w & e1 & e2 & H1 & H & ->); inv_task H1
  | task_ret _ _ = Some _ =>
      let Ha := fresh "Ha" in
      apply task_ret_Some in H as (Ha & -> & ->);
      first [ match type of Ha with ?x = _ => is_var x; subst x end | simplify_eq ]
  | modify _ _ = Some _ => apply modify_Some in H as (-> & -> & ->)
  | emit _ _ = Some _ => apply emit_Some in H as (-> & -> & ->)
  end).

Notation "'let*' x ':=' m 'in' k" := (task_bind m (fun x => k))
  (at level 10, x pattern, m at level 200, k at level 200) : rust_scope.
