(* ===== verification/RelayInv.v ===== *)
(** * Invariants of an owner and its relays

    Both kinds of owner (per-session and pooled endpoints) keep a map from client addresses to
    relay handlers.  [owns sock hs w] says that the map [hs] of an owner with socket [sock] agrees
    with the relays of the world [w]; every step of a relay and every operation of an owner
    preserves it. *)

From S2P Require Import Prelude RustInt Types Chan UdpClient.

Section RelayInv.
Context `{MpscLaws}.

Implicit Types (w : world) (r : relay) (h : ProxyClientHandler).

(** The control channel is closed exactly when the relay has left its loop, and holds at most its
    capacity. *)
Definition relay_ok r : Prop :=
  (mpsc_is_closed (pc_control (rl_client r)) = true <-> rl_status r <> Looping)
  /\ chan_capacity (pc_control (rl_client r)) = 10
  /\ length (chan_contents (pc_control (rl_client r))) <= 10.

Definition world_ok w : Prop :=
  (forall rid r, w_relays w !! rid = Some r -> rid < w_next w /\ relay_ok r)
  /\ mpsc_is_closed (w_client w) = false.

(** The end of a relay that has left its loop is on its way to the owner. *)
Definition end_reported w (addr : SocketAddr) r : Prop :=
  rl_status r = Reporting \/ ClientEnded addr ∈ chan_contents (w_client w).

Definition handler_ok (sock : UdpSocket) w (addr : SocketAddr) h : Prop :=
  exists r, w_relays w !! h_handler h = Some r /\ h_sender h = h_handler h
    /\ pc_addr (rl_client r) = addr /\ pc_socket (rl_client r) = h_socket h
    /\ pc_target_socket (rl_client r) = sock /\ rl_aborted r = false
    /\ (rl_status r <> Looping -> end_reported w addr r).

Definition owns (sock : UdpSocket) (hs : gmap SocketAddr ProxyClientHandler) w : Prop :=
  world_ok w /\ forall addr h, hs !! addr = Some h -> handler_ok sock w addr h.

(** ** Generic updates *)

Lemma owns_init sock : owns sock ∅ world_init.
Proof.
  split; [split|].
  - intros rid r Hr. cbn in Hr. by rewrite lookup_empty in Hr.
  - apply channel_open.
  - intros addr h Hh. by rewrite lookup_empty in Hh.
Qed.

Lemma owns_sub sock hs hs' w :
  owns sock hs w -> (forall addr h, hs' !! addr = Some h -> hs !! addr = Some h) ->
  owns sock hs' w.
Proof. intros [Hw Hh] Hsub. split; [done|]. eauto. Qed.

Lemma owns_distinct sock hs w a b h h' :
  owns sock hs w -> hs !! a = Some h -> hs !! b = Some h' -> h_handler h = h_handler h' -> a = b.
Proof.
  intros [_ Hh] Ha Hb E. destruct (Hh _ _ Ha) as (r & Hr & _ & <- & _).
  destruct (Hh _ _ Hb) as (r' & Hr' & _ & <- & _). congruence.
Qed.

(** A relay is replaced by one with the same identity, and the client channel only grows. *)
Lemma owns_update sock hs w rid r r' ch :
  owns sock hs w -> w_relays w !! rid = Some r ->
  pc_addr (rl_client r') = pc_addr (rl_client r) ->
  pc_socket (rl_client r') = pc_socket (rl_client r) ->
  pc_target_socket (rl_client r') = pc_target_socket (rl_client r) ->
  rl_aborted r' = rl_aborted r -> relay_ok r' ->
  (forall m, m ∈ chan_contents (w_client w) -> m ∈ chan_contents ch) ->
  mpsc_is_closed ch = false ->
  (rl_aborted r = false -> rl_status r' = Finished ->
   rl_status r = Finished \/ ClientEnded (pc_addr (rl_client r)) ∈ chan_contents ch) ->
  owns sock hs (set_client ch (set_relay rid r' w)).
Proof.
  intros [[Hrel Hopen] Hh] Hr Ha Hs Ht Hab Hok Hgrow Hch Hfin.
  destruct (Hrel _ _ Hr) as [Hlt _]. split; [split; [|done]|].
  - intros rid' r'' Hl. cbn in Hl. rewrite lookup_insert in Hl. case_decide; simplify_eq; [done|].
    apply (Hrel _ _ Hl).
  - intros addr h Hl. destruct (Hh _ _ Hl) as (r0 & Hr0 & Hsd & Haddr & Hsock & Htgt & Hnab & Hend).
    unfold handler_ok, end_reported in *. cbn. rewrite lookup_insert.
    case_decide as E; simplify_eq.
    + exists r'. repeat split; try congruence. intros Hne.
      destruct (rl_status r') eqn:Es; [done|by left|]. right.
      destruct Hfin as [Hf|Hin]; [done|done| |done].
      destruct Hend as [Hrep|Hin]; [by rewrite Hf|congruence|auto].
    + exists r0. repeat split; try done. intros Hne. destruct (Hend Hne); [by left|right; auto].
Qed.

(** A round of the loop keeps the relay's identity and leaves its channel as open as it was. *)
Lemma relay_select_frame c ev ctl effs :
  relay_select c ev = Some (ctl, effs) ->
  let c' := ctl_state ctl in
  pc_addr c' = pc_addr c /\ pc_socket c' = pc_socket c
  /\ pc_target_socket c' = pc_target_socket c
  /\ mpsc_is_closed (pc_control c') = mpsc_is_closed (pc_control c)
  /\ chan_capacity (pc_control c') = chan_capacity (pc_control c)
  /\ length (chan_contents (pc_control c')) <= length (chan_contents (pc_control c)).
Proof.
  intros Hs. unfold relay_select in Hs.
  repeat case_match; simplify_eq; cbn; try done.
  all: match goal with Hr : mpsc_recv _ = Received _ _ |- _ => apply recv_Received in Hr as (Hc & ? & ?) end.
  all: rewrite Hc; cbn; split_and!; try done; lia.
Qed.

Lemma relay_ok_left c st ab :
  chan_capacity (pc_control c) = 10 -> length (chan_contents (pc_control c)) <= 10 ->
  st <> Looping -> relay_ok (mkRelay (set_control c (mpsc_close (pc_control c))) st ab).
Proof.
  intros Hc Hl Hne. split_and!; cbn; [|by rewrite close_capacity|by rewrite close_contents].
  by rewrite close_closed.
Qed.

(** Every step of a relay preserves the owner's invariant. *)
Lemma owns_relay_step sock hs w rid lbl w' effs :
  owns sock hs w -> world_step true w rid lbl = Some (w', effs) -> owns sock hs w'.
Proof.
  intros Ho Hs. unfold world_step in Hs.
  destruct (w_relays w !! rid) as [r|] eqn:Er; [|done].
  destruct (relay_step r lbl (w_client w)) as [[[r' ch] e]|] eqn:Es; [|done]. simplify_eq.
  assert (Hok := proj2 (proj1 (proj1 Ho) _ _ Er)). assert (Hopen := proj2 (proj1 Ho)).
  destruct Hok as (Hcl & Hcap & Hlen). unfold relay_step in Es.
  destruct lbl as [ev| |], (rl_status r) eqn:Est; try done.
  - destruct (relay_select (rl_client r) ev) as [[ctl e']|] eqn:Esel; [|done].
    apply relay_select_frame in Esel as (Ha & Hsk & Ht & Hc & Hk & Hn).
    destruct ctl as [c|c]; simplify_eq/=; eapply owns_update; try done; cbn.
    + split_and!; cbn; [by rewrite Hc|by rewrite Hk|lia].
    + apply relay_ok_left; [by rewrite Hk|lia|done].
  - destruct (mpsc_send _ _) as [ch'| |] eqn:Esnd; simplify_eq.
    + apply send_Sent in Esnd as (_ & Hc & Ho' & _ & _). eapply owns_update; try done; cbn.
      * split_and!; cbn; [naive_solver|done|done].
      * intros m Hm. rewrite Hc. set_solver.
      * intros _ _. right. rewrite Hc. set_solver.
    + apply send_SendClosed in Esnd. congruence.
  - destruct (rl_aborted r) eqn:Eab; [|done]. simplify_eq.
    eapply owns_update; try done; cbn; [by apply relay_ok_left|congruence].
  - destruct (rl_aborted r) eqn:Eab; [|done]. simplify_eq.
    eapply owns_update; try done; cbn; [by apply relay_ok_left|congruence].
Qed.

(** The same of the relays an owner left behind. *)
Lemma owns_relay_step_dead sock w rid lbl w' effs :
  owns sock ∅ w -> world_step false w rid lbl = Some (w', effs) -> owns sock ∅ w'.
Proof.
  intros [[Hrel Hopen] _] Hs. unfold world_step in Hs.
  destruct (w_relays w !! rid) as [r|] eqn:Er; [|done].
  destruct (relay_step r lbl _) as [[[r' ch] e]|] eqn:Es; [|done]. simplify_eq.
  assert (Hok : relay_ok r').
  { destruct (proj2 (Hrel _ _ Er)) as (Hcl & Hcap & Hlen). unfold relay_step in Es.
    destruct lbl as [ev| |], (rl_status r) eqn:Est; try done.
    - destruct (relay_select (rl_client r) ev) as [[ctl e']|] eqn:Esel; [|done].
      apply relay_select_frame in Esel as (Ha & Hsk & Ht & Hc & Hk & Hn).
      destruct ctl as [c|c]; simplify_eq/=.
      + split_and!; cbn; [by rewrite Hc|by rewrite Hk|lia].
      + apply relay_ok_left; [by rewrite Hk|lia|done].
    - destruct (mpsc_send _ _) as [ch'| |]; simplify_eq; split_and!; cbn; naive_solver.
    - destruct (rl_aborted r); [|done]. simplify_eq. by apply relay_ok_left.
    - destruct (rl_aborted r); [|done]. simplify_eq. by apply relay_ok_left. }
  split; [split; [|done]|intros a h Hl; by rewrite lookup_empty in Hl].
  intros rid' r'' Hl. cbn in Hl. rewrite lookup_insert in Hl. case_decide; simplify_eq; [|eauto].
  split; [apply (Hrel _ _ Er)|done].
Qed.

(** ** Dropping handlers *)

Lemma owns_abort sock hs w rid :
  owns sock hs w -> (forall addr h, hs !! addr = Some h -> h_handler h <> rid) ->
  owns sock hs (abort_relay rid w).
Proof.
  intros [[Hrel Hopen] Hh] Hne. unfold abort_relay.
  destruct (w_relays w !! rid) as [r|] eqn:Er; [|done]. split; [split; [|done]|].
  - intros rid' r' Hl. cbn in Hl. rewrite lookup_insert in Hl.
    case_decide; simplify_eq; apply (Hrel _ _ Er) || apply (Hrel _ _ Hl).
  - intros addr h Hl. destruct (Hh _ _ Hl) as (r0 & Hr0 & Hrest). exists r0. cbn.
    rewrite lookup_insert_ne by (intros E; by apply (Hne _ _ Hl)). done.
Qed.

Lemma owns_delete sock hs w addr h :
  owns sock hs w -> hs !! addr = Some h ->
  owns sock (delete addr hs) (handler_drop h w).
Proof.
  intros Ho Hl. apply owns_abort.
  - eapply owns_sub; [done|]. intros a h' Ha. by apply lookup_delete_Some in Ha as [_ ?].
  - intros a h' Ha E. apply lookup_delete_Some in Ha as [Hne Ha].
    apply Hne. by eapply owns_distinct.
Qed.

Lemma owns_drop_handlers sock hs w ds :
  owns sock hs w ->
  (forall d addr h, d ∈ ds -> hs !! addr = Some h -> h_handler h <> h_handler d) ->
  owns sock hs (drop_handlers ds w).
Proof.
  intros Ho Hne. induction ds as [|d ds IH]; cbn; [done|].
  apply owns_abort; [apply IH|]; set_solver.
Qed.

Lemma abort_relay_client rid w : w_client (abort_relay rid w) = w_client w.
Proof. unfold abort_relay. by destruct (w_relays w !! rid). Qed.

(** An aborted relay stays aborted, whatever else happens to it. *)
Definition aborted w (rid : nat) : Prop :=
  match w_relays w !! rid with Some r => rl_aborted r = true | None => True end.

Lemma abort_relay_aborted rid rid' w : rid = rid' \/ aborted w rid -> aborted (abort_relay rid' w) rid.
Proof.
  unfold aborted, abort_relay. intros Hor.
  destruct (w_relays w !! rid') as [r|] eqn:E; cbn.
  - rewrite lookup_insert. case_decide; [done|]. by destruct Hor.
  - destruct Hor as [->|Ha]; [by rewrite E|done].
Qed.

Lemma drop_handlers_aborted ds w d : d ∈ ds -> aborted (drop_handlers ds w) (h_handler d).
Proof.
  induction ds as [|d' ds IH]; [set_solver|]. intros [->|Hd]%elem_of_cons.
  - by apply abort_relay_aborted; left.
  - apply abort_relay_aborted. right. by apply IH.
Qed.

(** ** Spawning, sending, receiving *)

(** A relay is spawned under a fresh number. *)
Lemma owns_spawn sock hs w c w' rid effs :
  owns sock hs w -> relay_ok (mkRelay c Looping false) ->
  spawn_relay c w = Some (rid, w', effs) ->
  owns sock hs w' /\ w_relays w' !! rid = Some (mkRelay c Looping false)
  /\ (forall a h, hs !! a = Some h -> h_handler h <> rid) /\ effs = [].
Proof.
  intros [[Hrel Hopen] Hh] Hok Hs. unfold spawn_relay in Hs. simplify_eq.
  assert (Hne : forall a h, hs !! a = Some h -> h_handler h <> w_next w).
  { intros a h Hl E. destruct (Hh _ _ Hl) as (r & Hr & _).
    destruct (Hrel _ _ Hr) as [Hlt _]. lia. }
  split; [split; [split; [|done]|]|]; cbn.
  - intros rid r Hl. cbn in Hl. rewrite lookup_insert in Hl. case_decide; simplify_eq.
    + split; [lia|done].
    + destruct (Hrel _ _ Hl). split; [lia|done].
  - intros a h Hl. destruct (Hh _ _ Hl) as (r & Hr & Hrest). exists r. cbn.
    rewrite lookup_insert_ne by (intros E; by apply (Hne _ _ Hl)). done.
  - rewrite lookup_insert_eq. done.
Qed.

Lemma owns_alloc sock hs w remote addr ans h w' effs :
  owns sock hs w ->
  allocate_handler remote addr sock ans w = Some (Ok h, w', effs) ->
  owns sock hs w' /\ handler_ok sock w' addr h /\ us_peer (h_socket h) = Some remote
  /\ (forall a h', hs !! a = Some h' -> h_handler h' <> h_handler h)
  /\ effs = [Count OUT_UDP_SOCKET_COUNTER].
Proof.
  intros Ho Ha. unfold allocate_handler in Ha.
  destruct (aa_bind ans) as [port|]; [|done]. destruct (aa_connect ans); [|done].
  unfold task_bind, task_ret, ProxyClient_new in Ha.
  destruct (spawn_relay _ w) as [[[rid w1] e]|] eqn:Es; [|done]. simplify_eq.
  eapply owns_spawn in Es as (Ho' & Hr & Hne & ->); [|done|].
  - split; [done|]. split; [|done]. eexists. by repeat split.
  - split_and!; cbn; [rewrite channel_open; naive_solver|apply channel_capacity|].
    rewrite channel_contents. cbn. lia.
Qed.

Lemma alloc_err w remote addr sock ans e w' effs :
  allocate_handler remote addr sock ans w = Some (Err e, w', effs) -> w' = w /\ effs = [].
Proof.
  unfold allocate_handler, task_bind, task_ret, ProxyClient_new, spawn_relay. intros Ha.
  by repeat case_match; simplify_eq.
Qed.

Lemma alloc_not_blocked w remote addr sock ans : allocate_handler remote addr sock ans w <> None.
Proof.
  unfold allocate_handler, task_bind, task_ret, ProxyClient_new, spawn_relay.
  by repeat case_match; simplify_eq.
Qed.

Lemma owns_insert sock hs w addr h :
  owns sock hs w -> handler_ok sock w addr h -> owns sock (<[addr := h]> hs) w.
Proof.
  intros [Hw Hh] Hok. split; [done|]. intros a h' Hl. rewrite lookup_insert in Hl.
  case_decide; simplify_eq; auto.
Qed.

(** Feeding a control channel changes nothing else. *)
Lemma owns_control_send sock hs w rid msg res w' effs :
  owns sock hs w -> control_send rid msg w = Some (res, w', effs) ->
  owns sock hs w' /\ effs = [] /\ w_client w' = w_client w.
Proof.
  intros Ho Hs. unfold control_send in Hs.
  destruct (w_relays w !! rid) as [r|] eqn:Er; [|by simplify_eq].
  destruct (mpsc_send _ _) as [ch| |] eqn:Esnd; simplify_eq; [|done].
  apply send_Sent in Esnd as (Hop & Hcs & Hc & Hk & Hroom).
  destruct (proj2 (proj1 (proj1 Ho) _ _ Er)) as (Hcl & Hcap & Hlen). split; [|done].
  change (set_relay rid _ w) with (set_client (w_client w) (set_relay rid
    (mkRelay (set_control (rl_client r) ch) (rl_status r) (rl_aborted r)) w)).
  eapply owns_update; try done; cbn; [|apply Ho|naive_solver].
  split_and!; cbn; [|by rewrite Hk|rewrite Hcs, length_app; cbn; lia]. by rewrite Hc, <- Hcl, Hop.
Qed.

Lemma owns_ProxyClient_send sock hs w sent s data rid res w' effs :
  owns sock hs w -> ProxyClient_send sent s data rid w = Some (res, w', effs) ->
  owns sock hs w' /\ w_client w' = w_client w
  /\ (effs = [] \/ sent = Ok tt /\ effs = [UdpSend s (us_peer s) data]).
Proof.
  intros Ho Hs. unfold ProxyClient_send, task_bind, task_ret, emit in Hs.
  destruct sent as [[]|]; [|by simplify_eq; auto].
  destruct (control_send _ _ w) as [[[r w1] e]|] eqn:Ec; [|done]. simplify_eq.
  eapply owns_control_send in Ec as (? & -> & ?); [|done]. auto.
Qed.

(** Taking a message off the client channel; if it is the end of a client the owner still has,
    that client's relay is running. *)
Lemma owns_recv sock hs w msg ch :
  owns sock hs w -> mpsc_recv (w_client w) = Received msg ch ->
  (forall addr h r, msg = ClientEnded addr -> hs !! addr = Some h ->
     w_relays w !! h_handler h = Some r -> rl_status r = Looping) ->
  owns sock hs (set_client ch w).
Proof.
  intros [[Hrel Hopen] Hh] Hr Hlive. apply recv_Received in Hr as (Hc & Ho & _).
  split; [split; [done|cbn; congruence]|].
  intros addr h Hl. destruct (Hh _ _ Hl) as (r & Hrl & Hsd & Ha & Hs & Ht & Hab & Hend).
  exists r. repeat split; try done. intros Hne. unfold end_reported in *. cbn.
  destruct (Hend Hne) as [Hrep|Hin]; [by left|]. rewrite Hc in Hin.
  apply elem_of_cons in Hin as [<-|Hin]; [|by right].
  exfalso. apply Hne. by eapply Hlive.
Qed.

Lemma sender_is_closed_status sock hs w addr h :
  owns sock hs w -> hs !! addr = Some h ->
  exists r, w_relays w !! h_handler h = Some r
            /\ (sender_is_closed h w = true <-> rl_status r <> Looping).
Proof.
  intros [[Hrel _] Hh] Hl. destruct (Hh _ _ Hl) as (r & Hr & Hsd & _). exists r.
  split; [done|]. unfold sender_is_closed. rewrite Hsd, Hr. apply (Hrel _ _ Hr).
Qed.

(** An owner waits on a handler's control channel only while the relay runs and has messages to
    take off it; once the relay has taken one, the owner need not wait any more. *)
Lemma control_send_blocked sock hs w addr h msg :
  owns sock hs w -> hs !! addr = Some h -> control_send (h_sender h) msg w = None ->
  exists w' effs, world_step true w (h_handler h) (RlSelect RelayControl) = Some (w', effs)
    /\ forall msg', control_send (h_sender h) msg' w' <> None.
Proof.
  intros [[Hrel _] Hh] Hl Hs. destruct (Hh _ _ Hl) as (r & Hr & Hsd & _).
  destruct (Hrel _ _ Hr) as [_ (Hcl & Hcap & Hlen)]. unfold control_send in Hs. unfold world_step.
  rewrite Hsd, Hr in *. destruct (mpsc_send _ _) eqn:Esnd; try done.
  apply send_SendPending in Esnd as [Hop Hfull].
  assert (Hst : rl_status r = Looping) by (destruct (rl_status r); naive_solver congruence).
  destruct (chan_contents (pc_control (rl_client r))) as [|m l] eqn:Ec; [cbn in *; lia|].
  destruct (recv_some _ _ _ Ec) as (ch & Hch & Hl' & Hc' & Hk'). cbn in Hlen.
  unfold relay_step. rewrite Hst. cbn. rewrite Hch.
  assert (Hgo : forall c st, (pc_control c = ch \/ pc_control c = mpsc_close ch) ->
    forall w', w_relays w' !! h_handler h = Some (mkRelay c st (rl_aborted r)) ->
    forall msg', control_send (h_handler h) msg' w' <> None).
  { intros c st Hcc w' Hw' msg'. unfold control_send. rewrite Hw'. cbn.
    destruct (mpsc_send (pc_control c) msg') eqn:E; [done|done|]. exfalso.
    apply send_SendPending in E as [Eo Ef]. destruct Hcc as [Hcc|Hcc]; rewrite Hcc in *.
    - rewrite Hk', Hl', Hcap in Ef. lia.
    - by rewrite close_closed in Eo. }
  destruct m; cbn; eexists _, _; (split; [done|]); (eapply Hgo; [|apply lookup_insert_eq]); cbn; auto.
Qed.

(** A spawned relay's channel has room. *)
Lemma alloc_send_not_blocked remote addr sock ans w h w' effs msg :
  allocate_handler remote addr sock ans w = Some (Ok h, w', effs) ->
  control_send (h_sender h) msg w' <> None.
Proof.
  unfold allocate_handler. destruct (aa_bind ans); [|done]. destruct (aa_connect ans); [|done].
  cbn. intros [= <- <- <-]. unfold control_send. cbn. rewrite lookup_insert_eq. cbn.
  destruct (send_room (mpsc_channel 10) msg) as (ch & -> & _); [apply channel_open| |done].
  rewrite channel_contents, channel_capacity. cbn. lia.
Qed.

End RelayInv.
