(* ===== verification/UdpPooled.v ===== *)
(** * Pooled UDP endpoints (src/proxy/udp_pooled.rs)

    A pooled endpoint shares one socket between many sessions.  Its tables say which ufrag each
    session uses and which target each ufrag leads to; the first datagram of a client must be a
    STUN binding request with a known ufrag, and opens a relay to that ufrag's target.  Its
    operations are tasks over the [world] of its relays; [pooled_step] is one round of [run], or a
    step of one of its relays. *)

From S2P Require Import Prelude RustInt Stun Types Chan UdpClient.
Local Open Scope rust_scope.

Section UdpPooled.
Context `{Mpsc}.

(** [enum PooledUdpMsg], without the reply channels. *)
Inductive PooledUdpMsg : Type :=
| AddRoute (session_id ufrag : string) (target : SocketAddr)
| RemoveSession (session_id : string).

(** What [respond_to] receives. *)
Inductive pooled_reply : Type :=
| RouteAdded
| SessionFound (found : bool).

(** [struct PooledClient]. *)
Record PooledClient : Type := mkPooledClient {
  pcl_handler : ProxyClientHandler;
  pcl_ufrag : string
}.

(** [struct PooledUdpEndpoint]; its [control_rx] feeds [LControl]. *)
Record PooledUdpEndpoint : Type := mkPooled {
  pu_udp_socket : UdpSocket;
  pu_routes : gmap string SocketAddr;
  pu_sessions : gmap string string;
  pu_clients : gmap SocketAddr PooledClient
}.

(** [PooledUdpEndpoint::new]. *)
Definition PooledUdpEndpoint_new (udp_socket : UdpSocket) : PooledUdpEndpoint * list effect :=
  (mkPooled udp_socket ∅ ∅ ∅, [Count IN_UDP_SOCKET_COUNTER]).

Definition set_routes (self : PooledUdpEndpoint) (routes : gmap string SocketAddr) :=
  mkPooled (pu_udp_socket self) routes (pu_sessions self) (pu_clients self).
Definition set_sessions (self : PooledUdpEndpoint) (sessions : gmap string string) :=
  mkPooled (pu_udp_socket self) (pu_routes self) sessions (pu_clients self).
Definition set_pooled_clients (self : PooledUdpEndpoint) (clients : gmap SocketAddr PooledClient) :=
  mkPooled (pu_udp_socket self) (pu_routes self) (pu_sessions self) clients.

(** ** Clients *)

(** [self.clients.remove(&addr)]: the removed client's handler is dropped. *)
Definition pooled_remove_client (self : PooledUdpEndpoint) (addr : SocketAddr)
  : task PooledUdpEndpoint :=
  match pu_clients self !! addr with
  | None => task_ret self
  | Some c =>
      let* _ := modify (handler_drop (pcl_handler c)) in
      task_ret (set_pooled_clients self (delete addr (pu_clients self)))
  end.

(** [self.clients.insert(addr, c)]: a client it replaces is dropped. *)
Definition pooled_insert_client (self : PooledUdpEndpoint) (addr : SocketAddr) (c : PooledClient)
  : task PooledUdpEndpoint :=
  let* _ := match pu_clients self !! addr with
            | None => task_ret tt
            | Some old => modify (handler_drop (pcl_handler old))
            end in
  task_ret (set_pooled_clients self (<[addr := c]> (pu_clients self))).

(** [drop_clients]: [self.clients.retain(|_, client| client.ufrag != *ufrag)]. *)
Definition drop_clients (self : PooledUdpEndpoint) (ufrag : string) : task PooledUdpEndpoint :=
  let of_ufrag := fun c => bool_decide (pcl_ufrag c = ufrag) in
  let dropped := map (fun kv => pcl_handler kv.2)
                   (map_to_list (retain of_ufrag (pu_clients self))) in
  let* _ := modify (drop_handlers dropped) in
  task_ret (set_pooled_clients self (retain (fun c => negb (of_ufrag c)) (pu_clients self))).

(** [forget_ufrag_if_unused]. *)
Definition forget_ufrag_if_unused (self : PooledUdpEndpoint) (ufrag : string)
  : task PooledUdpEndpoint :=
  if values_any (fun u => bool_decide (u = ufrag)) (pu_sessions self) then task_ret self
  else drop_clients (set_routes self (delete ufrag (pu_routes self))) ufrag.

(** [on_control], with the reply it sends.  The known copy of the ufrag that the code looks up is
    the same string. *)
Definition on_control (self : PooledUdpEndpoint) (msg : PooledUdpMsg)
  : task (PooledUdpEndpoint * pooled_reply) :=
  match msg with
  | AddRoute session_id ufrag target =>
      let rerouted := pu_routes self !! ufrag in
      let self := set_routes self (<[ufrag := target]> (pu_routes self)) in
      let* self :=
        match rerouted with
        | Some previous =>
            if bool_decide (previous <> target) then drop_clients self ufrag else task_ret self
        | None => task_ret self
        end in
      let replaced := pu_sessions self !! session_id in
      let self := set_sessions self (<[session_id := ufrag]> (pu_sessions self)) in
      let* self :=
        match replaced with
        | Some previous =>
            if bool_decide (previous <> ufrag) then forget_ufrag_if_unused self previous
            else task_ret self
        | None => task_ret self
        end in
      task_ret (self, RouteAdded)
  | RemoveSession session_id =>
      match pu_sessions self !! session_id with
      | Some ufrag =>
          let self := set_sessions self (delete session_id (pu_sessions self)) in
          let* self := forget_ufrag_if_unused self ufrag in
          task_ret (self, SessionFound true)
      | None => task_ret (self, SessionFound false)
      end
  end.

(** ** Datagrams *)

(** The operating system's answers to [on_datagram]: the send to an existing relay's target, the
    allocation of a new relay, the send to its target. *)
Record datagram_answers : Type := mkAnswers {
  da_sent : result string unit;
  da_alloc : alloc_answers;
  da_sent_new : result string unit
}.

(** [stun::local_ufrag(data).and_then(|u| self.routes.get_key_value(u))]. *)
Definition find_route (self : PooledUdpEndpoint) (data : list byte) : option (string * SocketAddr) :=
  match ufrag_of data with
  | None => None
  | Some u =>
      match pu_routes self !! u with
      | None => None
      | Some target => Some (u, target)
      end
  end.

(** The second half of [on_datagram]: routing a datagram whose client has no live relay. *)
Definition route_afresh (self : PooledUdpEndpoint) (data : list byte) (addr : SocketAddr)
  (ans : datagram_answers) : task PooledUdpEndpoint :=
  match find_route self data with
  | None =>
      let* _ := emit (Count UNROUTED_POOLED_UDP_MESSAGE) in
      task_ret self
  | Some (ufrag, target) =>
      let* r := allocate_handler target addr (pu_udp_socket self) (da_alloc ans) in
      match r with
      | Err _ => task_ret self
      | Ok handler =>
          let* s := ProxyClient_send (da_sent_new ans) (h_socket handler) data (h_sender handler) in
          match s with
          | Ok _ => pooled_insert_client self addr (mkPooledClient handler ufrag)
          | Err _ => let* _ := modify (handler_drop handler) in task_ret self
          end
      end
  end.

Definition on_datagram (self : PooledUdpEndpoint) (data : list byte) (addr : SocketAddr)
  (ans : datagram_answers) : task PooledUdpEndpoint :=
  let* _ := emit (Count IN_CLIENT_UDP_MESSAGE) in
  match pu_clients self !! addr with
  | Some client =>
      let* s := ProxyClient_send (da_sent ans) (h_socket (pcl_handler client)) data
                  (h_sender (pcl_handler client)) in
      match s with
      | Ok _ => task_ret self
      | Err _ =>
          let* self := pooled_remove_client self addr in
          route_afresh self data addr ans
      end
  | None => route_afresh self data addr ans
  end.

(** The [client_rx.recv()] branch: the end of a relay, which may be an older one of the address. *)
Definition on_client_msg (self : PooledUdpEndpoint) (msg : ProxyClientMsg)
  : task PooledUdpEndpoint :=
  match msg with
  | ClientEnded addr =>
      fun w =>
        match pu_clients self !! addr with
        | Some c =>
            if sender_is_closed (pcl_handler c) w then pooled_remove_client self addr w
            else task_ret self w
        | None => task_ret self w
        end
  | _ => task_ret self
  end.

(** ** The endpoint's task and its relays *)

Record pooled_sys : Type := mkPooledSys {
  ps_self : PooledUdpEndpoint;
  ps_world : world;
  ps_running : bool;
  ps_log : list effect
}.

(** Where the task may be waiting when it is aborted: between two rounds, or in [on_datagram]. *)
Definition pooled_waits (self : PooledUdpEndpoint) (wt : waiting) : task unit :=
  relay_waits (a ← waiting_with wt; pcl_handler <$> pu_clients self !! a.2) wt.

(** The branches of [run]'s [select!], with what the socket and the control channel gave, and the
    steps of the relays.  [LControl None] is the closed control channel; [LAbort] is the abort of
    the task when its [PooledUdpEndpointHandler] is dropped, and where the task stood. *)
Inductive pooled_label : Type :=
| LDatagram (datagram : list byte) (addr : SocketAddr) (ans : datagram_answers)
| LRecvError
| LClient
| LControl (msg : option PooledUdpMsg)
| LAbort (wt : waiting)
| LRelay (rid : nat) (lbl : relay_label).

(** One round of [PooledUdpEndpoint::run]. *)
Definition pooled_select (self : PooledUdpEndpoint) (lbl : pooled_label)
  : task (loop_ctl PooledUdpEndpoint) :=
  match lbl with
  | LDatagram datagram addr ans =>
      let* self := on_datagram self (recv_buf datagram) addr ans in task_ret (Continue self)
  | LRecvError => task_ret (Continue self)
  | LClient =>
      let* m := client_recv in
      match m with
      | Some msg => let* self := on_client_msg self msg in task_ret (Continue self)
      | None => fun _ => None
      end
  | LControl (Some msg) =>
      let* r := on_control self msg in task_ret (Continue r.1)
  | LControl None => task_ret (Break self)
  | LAbort wt => let* _ := pooled_waits self wt in task_ret (Break self)
  | LRelay _ _ => fun _ => None
  end.

(** The end of the task: the endpoint is dropped, and its clients with it. *)
Definition pooled_drop (self : PooledUdpEndpoint) (w : world) (log : list effect) : pooled_sys :=
  let handlers := map (fun kv => pcl_handler kv.2) (map_to_list (pu_clients self)) in
  mkPooledSys (set_pooled_clients self ∅) (drop_handlers handlers w) false log.

Definition pooled_step (s : pooled_sys) (lbl : pooled_label) : option pooled_sys :=
  match lbl with
  | LRelay rid l =>
      match world_step (ps_running s) (ps_world s) rid l with
      | Some (w, effs) => Some (mkPooledSys (ps_self s) w (ps_running s) (ps_log s ++ effs))
      | None => None
      end
  | _ =>
      if ps_running s then
        match pooled_select (ps_self s) lbl (ps_world s) with
        | Some (Continue self, w, effs) => Some (mkPooledSys self w true (ps_log s ++ effs))
        | Some (Break self, w, effs) => Some (pooled_drop self w (ps_log s ++ effs))
        | None => None
        end
      else None
  end.

(** The endpoint as [PooledUdpEndpointHandler::bind] spawns it. *)
Definition pooled_init (udp_socket : UdpSocket) : pooled_sys :=
  let (self, effs) := PooledUdpEndpoint_new udp_socket in mkPooledSys self world_init true effs.

End UdpPooled.
