(* ===== verification/PooledInv.v ===== *)
(** * Invariants of the pooled endpoint

    [pooled_ok]: a ufrag has a route exactly when a session uses it, every client's relay is
    connected to the current target of the client's ufrag, and the clients agree with the relays
    ([owns]).  Every round of the endpoint and every step of a relay preserves it. *)

From S2P Require Import Prelude RustInt Stun Types Chan UdpClient RelayInv UdpPooled.

Section PooledInv.
Context `{MpscLaws}.

Implicit Types (self : PooledUdpEndpoint) (w : world) (c : PooledClient).

Definition handlers self : gmap SocketAddr ProxyClientHandler := pcl_handler <$> pu_clients self.

(** A session uses the ufrag [u]. *)
Definition in_use self (u : string) : Prop := exists sid, pu_sessions self !! sid = Some u.

(** Every used ufrag has a route; a route is used, or is the one about to be forgotten. *)
Definition tables_upto (p : option string) self : Prop :=
  (forall u, in_use self u -> is_Some (pu_routes self !! u)) /\
  (forall u, is_Some (pu_routes self !! u) -> in_use self u \/ p = Some u).

Definition tables_ok self : Prop :=
  forall u, is_Some (pu_routes self !! u) <-> in_use self u.

Definition client_ok self c : Prop :=
  exists t, pu_routes self !! pcl_ufrag c = Some t /\ us_peer (h_socket (pcl_handler c)) = Some t.

Definition clients_ok self : Prop :=
  forall addr c, pu_clients self !! addr = Some c -> client_ok self c.

Definition pooled_owns self w : Prop := owns (pu_udp_socket self) (handlers self) w.

Definition pooled_ok self w : Prop := tables_ok self /\ clients_ok self /\ pooled_owns self w.

(** [self'] has no client and no route [self] lacks. *)
Definition shrinks self self' : Prop :=
  pu_udp_socket self' = pu_udp_socket self
  /\ (forall u t, pu_routes self' !! u = Some t -> pu_routes self !! u = Some t)
  /\ (forall addr c, pu_clients self' !! addr = Some c -> pu_clients self !! addr = Some c).

Lemma handlers_lookup self addr h :
  handlers self !! addr = Some h <-> exists c, pu_clients self !! addr = Some c /\ pcl_handler c = h.
Proof. unfold handlers. rewrite lookup_fmap, fmap_Some. naive_solver. Qed.

(** ** Removing, inserting and dropping clients *)

Lemma remove_client_spec self addr w self' w' e :
  pooled_owns self w -> pooled_remove_client self addr w = Some (self', w', e) ->
  self' = set_pooled_clients self (delete addr (pu_clients self))
  /\ pooled_owns self' w' /\ e = [].
Proof.
  unfold pooled_owns. intros Ho Hr. unfold pooled_remove_client in Hr.
  destruct (pu_clients self !! addr) as [c|] eqn:Ec; inv_task Hr.
  - split; [done|]. split; [|done]. unfold handlers. cbn. rewrite fmap_delete.
    eapply owns_delete; [done|]. apply handlers_lookup. eauto.
  - rewrite delete_id by done. by destruct self.
Qed.

Lemma drop_clients_spec self u w self' w' e :
  pooled_owns self w -> drop_clients self u w = Some (self', w', e) ->
  self' = set_pooled_clients self
            (retain (fun c => negb (bool_decide (pcl_ufrag c = u))) (pu_clients self))
  /\ pooled_owns self' w' /\ e = [].
Proof.
  unfold pooled_owns. intros Ho Hd. unfold drop_clients in Hd. inv_task Hd.
  split; [done|]. split; [|done].
  assert (Hsub : forall addr h, handlers (set_pooled_clients self
      (retain (fun c => negb (bool_decide (pcl_ufrag c = u))) (pu_clients self))) !! addr = Some h ->
      handlers self !! addr = Some h).
  { intros addr h (c & Hc & Hh)%handlers_lookup. apply handlers_lookup. exists c.
    by apply lookup_retain_Some in Hc as [? _]. }
  apply owns_drop_handlers; [by eapply owns_sub|].
  intros d addr h Hd Hh Heq. apply handlers_lookup in Hh as (c' & Hc' & <-).
  apply list_elem_of_fmap in Hd as ([a c] & -> & Hin). apply elem_of_map_to_list in Hin.
  apply lookup_retain_Some in Hin as [Hc Hu].
  apply lookup_retain_Some in Hc' as [Hc' Hn].
  assert (a = addr) as ->.
  { eapply (owns_distinct _ (handlers self)); [exact Ho|apply handlers_lookup; eauto..|by cbn in *]. }
  rewrite Hc in Hc'. simplify_eq. cbn in Hu. by rewrite Hu in Hn.
Qed.

(** ** The control messages *)

Lemma forget_spec self u w self' w' e :
  pooled_owns self w -> forget_ufrag_if_unused self u w = Some (self', w', e) ->
  pooled_owns self' w' /\ e = [] /\
  ((in_use self u /\ self' = self) \/
   (~ in_use self u /\
    self' = mkPooled (pu_udp_socket self) (delete u (pu_routes self)) (pu_sessions self)
              (retain (fun c => negb (bool_decide (pcl_ufrag c = u))) (pu_clients self)))).
Proof.
  unfold forget_ufrag_if_unused. intros Ho Hf.
  destruct (values_any _ _) eqn:Ev.
  - inv_task Hf. split; [done|]. split; [done|]. left. split; [|done].
    apply values_any_spec in Ev as (sid & v & Hs & Hv). apply bool_decide_eq_true in Hv as ->.
    by exists sid.
  - apply drop_clients_spec in Hf as (-> & Ho' & ->); [|exact Ho].
    split; [done|]. split; [done|]. right. split; [|done].
    intros (sid & Hs). apply (proj1 (values_any_false _ _) Ev) in Hs.
    by apply bool_decide_eq_false in Hs.
Qed.

Lemma forget_ok self u w self' w' e :
  pooled_owns self w -> tables_upto (Some u) self -> clients_ok self ->
  forget_ufrag_if_unused self u w = Some (self', w', e) ->
  pooled_ok self' w' /\ e = [] /\ pu_sessions self' = pu_sessions self /\ shrinks self self'.
Proof.
  intros Ho [Ht1 Ht2] Hc Hf. apply forget_spec in Hf as (Ho' & -> & Hcase); [|done].
  destruct Hcase as [[Hu ->]|[Hu ->]].
  - split; [|done]. split; [|done]. intros v. naive_solver.
  - split; [|split; [done|split; [done|split; [done|split]]]]; [split; [|split; [|done]]| |]; cbn.
    3: { intros v t Hl. by apply lookup_delete_Some in Hl as [_ ?]. }
    3: { intros addr c Hl. by apply lookup_retain_Some in Hl as [? _]. }
    + intros v. cbn. unfold in_use in *. cbn. rewrite lookup_delete. case_decide as E; subst.
      * split; [by intros []|]. naive_solver.
      * naive_solver.
    + intros addr c Hl. cbn in Hl. apply lookup_retain_Some in Hl as [Hl Hn].
      apply negb_true_iff, bool_decide_eq_false in Hn.
      destruct (Hc _ _ Hl) as (t & Hr & Hp). exists t. cbn.
      by rewrite lookup_delete_ne by congruence.
Qed.

(** The first half of [AddRoute]: setting the route and dropping the clients of the old target. *)
Lemma add_route_clients self u t w self' w' e :
  pooled_owns self w -> clients_ok self ->
  (match pu_routes self !! u with
   | Some previous =>
       if bool_decide (previous <> t)
       then drop_clients (set_routes self (<[u := t]> (pu_routes self))) u
       else task_ret (set_routes self (<[u := t]> (pu_routes self)))
   | None => task_ret (set_routes self (<[u := t]> (pu_routes self)))
   end) w = Some (self', w', e) ->
  pooled_owns self' w' /\ clients_ok self' /\ e = []
  /\ pu_routes self' = <[u := t]> (pu_routes self) /\ pu_sessions self' = pu_sessions self
  /\ pu_udp_socket self' = pu_udp_socket self
  /\ (forall addr c, pu_clients self' !! addr = Some c -> pu_clients self !! addr = Some c).
Proof.
  intros Ho Hc Hs.
  assert (Hkeep : (forall v, pu_routes self !! u = Some v -> v = t) ->
            clients_ok (set_routes self (<[u := t]> (pu_routes self)))).
  { intros Hv addr c Hl. destruct (Hc _ _ Hl) as (t' & Hr & Hp). exists t'. cbn. split; [|done].
    rewrite lookup_insert. case_decide; [|done]. subst. by rewrite (Hv t'). }
  destruct (pu_routes self !! u) as [previous|] eqn:Er.
  - case_bool_decide as Hne.
    + apply drop_clients_spec in Hs as (-> & Ho' & ->); [|exact Ho].
      split_and!; try done.
      * intros addr c Hl. cbn in Hl. apply lookup_retain_Some in Hl as [Hl Hn].
        apply negb_true_iff, bool_decide_eq_false in Hn.
        destruct (Hc _ _ Hl) as (t' & Hr & Hp). exists t'. cbn.
        by rewrite lookup_insert_ne by congruence.
      * intros addr c Hl. cbn in Hl. by apply lookup_retain_Some in Hl as [? _].
    + inv_task Hs. split_and!; try done. apply Hkeep. by intros v [= <-].
  - inv_task Hs. split_and!; try done. by apply Hkeep.
Qed.

(** The second half of [AddRoute]: setting the session leaves only its previous ufrag to check. *)
Lemma add_session_tables self0 self sid u t :
  tables_ok self0 -> pu_routes self = <[u := t]> (pu_routes self0) ->
  pu_sessions self = pu_sessions self0 ->
  let self1 := set_sessions self (<[sid := u]> (pu_sessions self)) in
  in_use self1 u /\ tables_upto (pu_sessions self0 !! sid) self1.
Proof.
  intros Ht Hr Hs self1. split; [exists sid; apply lookup_insert_eq|]. split.
  - intros v (sid' & Hv). cbn in *. rewrite Hr. apply lookup_insert_is_Some.
    rewrite Hs, lookup_insert in Hv. case_decide; simplify_eq; [by left|].
    destruct (decide (u = v)); [by left|right]. split; [done|]. apply Ht. by exists sid'.
  - intros v Hv. cbn in Hv. rewrite Hr in Hv. apply lookup_insert_is_Some in Hv as [<-|[Hne Hv]].
    + left. exists sid. apply lookup_insert_eq.
    + apply Ht in Hv as (sid' & Hv). destruct (decide (sid' = sid)) as [->|Hd]; [by right|].
      left. exists sid'. cbn. by rewrite Hs, lookup_insert_ne.
Qed.

Lemma tables_upto_in_use self p :
  tables_upto p self -> (forall u, p = Some u -> in_use self u) -> tables_ok self.
Proof. intros [H1 H2] Hp u. split; [|apply H1]. intros Hu. destruct (H2 u Hu); auto. Qed.

Lemma in_use_delete self sid u v :
  pu_sessions self !! sid = Some u -> v <> u ->
  in_use self v -> in_use (set_sessions self (delete sid (pu_sessions self))) v.
Proof.
  intros Hs Hne (sid' & Hv). exists sid'. cbn. rewrite lookup_delete_ne; [done|].
  intros <-. congruence.
Qed.

(** What a control message does: the sessions are updated as asked, the endpoint stays
    well-formed, nothing is sent. *)
Lemma on_control_ok self msg w r w' e :
  pooled_ok self w -> on_control self msg w = Some (r, w', e) ->
  pooled_ok r.1 w' /\ e = [] /\
  pu_sessions r.1 = match msg with
                    | AddRoute sid u _ => <[sid := u]> (pu_sessions self)
                    | RemoveSession sid => delete sid (pu_sessions self)
                    end /\
  shrinks match msg with
          | AddRoute _ u t => set_routes self (<[u := t]> (pu_routes self))
          | RemoveSession _ => self
          end r.1.
Proof.
  intros (Ht & Hc & Ho) Hs. destruct msg as [sid u t|sid]; cbn [on_control] in Hs.
  - inv_task Hs. eapply add_route_clients in Hm as (Ho1 & Hc1 & -> & Hr1 & Hs1 & Hk1 & Hsub);
      [|done|done].
    assert (Hshr : shrinks (set_routes self (<[u := t]> (pu_routes self))) a)
      by (split; [done|split; [by rewrite Hr1|done]]).
    destruct (add_session_tables self a sid u t) as [Hin Ht1]; try done. rewrite Hs1 in *.
    destruct (pu_sessions self !! sid) as [previous|].
    + case_bool_decide as Hne.
      * eapply forget_ok in Hm0 as (Hok & -> & Hs2 & Hk2 & Hr2 & Hc2); [|exact Ho1|done|exact Hc1].
        split_and!; try done. destruct Hshr as (? & ? & ?). split; [cbn in *; congruence|].
        split; cbn; eauto.
      * inv_task Hm0. split_and!; try done. split; [|done]. eapply tables_upto_in_use; [done|].
        intros v [= <-]. by rewrite Hne.
    + inv_task Hm0. split_and!; try done. split; [|done]. by eapply tables_upto_in_use.
  - destruct (pu_sessions self !! sid) as [u|] eqn:Es; inv_task Hs.
    + eapply forget_ok in Hm as (Hok & -> & Hs2 & Hk2); [|exact Ho| |exact Hc]; [done|].
      split; cbn.
      * intros v (sid' & Hv). cbn in *. apply Ht. apply lookup_delete_Some in Hv as [_ Hv].
        by exists sid'.
      * intros v Hv. destruct (decide (v = u)) as [->|Hne]; [by right|]. left.
        apply (in_use_delete self sid u); [done|done|]. by apply Ht.
    + split; [done|]. split; [done|]. cbn. by rewrite delete_id.
Qed.

(** ** Datagrams *)

Lemma find_route_Some self data u t :
  find_route self data = Some (u, t) <-> ufrag_of data = Some u /\ pu_routes self !! u = Some t.
Proof. unfold find_route. repeat case_match; naive_solver. Qed.

(** The effects a datagram has on the outside: it was counted, and what was forwarded left over a
    socket connected to the current target of a routed ufrag. *)
Definition forwards_to self (data : list byte) (u : string) (eff : effect) : Prop :=
  match eff with
  | UdpSend sk to d => d = data /\ to = us_peer sk
                       /\ exists t, pu_routes self !! u = Some t /\ us_peer sk = Some t
  | Count _ => True
  | TellManager _ => False
  end.

Lemma route_afresh_ok self data addr ans w self' w' e :
  pooled_ok self w -> pu_clients self !! addr = None ->
  route_afresh self data addr ans w = Some (self', w', e) ->
  pooled_ok self' w' /\ pu_routes self' = pu_routes self /\ pu_sessions self' = pu_sessions self
  /\ match find_route self data with
     | None => self' = self /\ w' = w /\ e = [Count UNROUTED_POOLED_UDP_MESSAGE]
     | Some (u, t) =>
         Forall (forwards_to self data u) e
         /\ (self' = self \/ exists h, self' = set_pooled_clients self
                                (<[addr := mkPooledClient h u]> (pu_clients self)))
     end.
Proof.
  intros (Ht & Hc & Ho) Hna Hs. unfold route_afresh in Hs.
  destruct (find_route self data) as [[u t]|] eqn:Ef; [|by inv_task Hs; split_and!].
  apply find_route_Some in Ef as [_ Hr]. inv_task Hs. destruct a as [h|err].
  - eapply owns_alloc in Hm as (Ho1 & Hh & Hp & Hne & ->); [|exact Ho]. inv_task Hs.
    eapply owns_ProxyClient_send in Hm as (Ho2 & _ & He); [|exact (owns_insert _ _ _ _ _ Ho1 Hh)].
    assert (Hfw : Forall (forwards_to self data u) (Count OUT_UDP_SOCKET_COUNTER :: e)).
    { constructor; [done|]. destruct He as [->|[_ ->]]; [constructor|].
      apply Forall_singleton. by split_and!; [..|exists t]. }
    assert (Hnh : handlers self !! addr = None) by (unfold handlers; by rewrite lookup_fmap, Hna).
    destruct a as [|err].
    + unfold pooled_insert_client in Hs. rewrite Hna in Hs. inv_task Hs. cbn [app].
      rewrite !app_nil_r. split_and!; try done; [|right; eauto].
      split; [done|]. split; [|unfold pooled_owns, handlers; cbn; by rewrite fmap_insert].
      intros a' c Hl. cbn in Hl. rewrite lookup_insert in Hl. case_decide; simplify_eq; [|eauto].
      by exists t.
    + inv_task Hs. cbn [app]. rewrite !app_nil_r. split_and!; try done; [|by left].
      split; [done|]. split; [done|]. unfold pooled_owns in *.
      rewrite <- (delete_insert_id (handlers self) addr h Hnh).
      eapply owns_delete; [done|]. apply lookup_insert_eq.
  - apply alloc_err in Hm as [-> ->]. inv_task Hs. split_and!; try done. by left.
Qed.

(** The ufrags a datagram of [addr] may be routed by: the one its client was admitted with, and
    the one it presents. *)
Definition admitted self (data : list byte) (addr : SocketAddr) (u : string) : Prop :=
  ufrag_of data = Some u \/ exists c, pu_clients self !! addr = Some c /\ pcl_ufrag c = u.

Definition forward_ok self (data : list byte) (addr : SocketAddr) (eff : effect) : Prop :=
  match eff with
  | UdpSend sk to d =>
      d = data /\ to = us_peer sk
      /\ exists u t, admitted self data addr u /\ pu_routes self !! u = Some t
                     /\ us_peer sk = Some t
  | Count _ => True
  | TellManager _ => False
  end.

Lemma forwards_forward_ok self self0 data addr u e :
  pu_routes self = pu_routes self0 -> admitted self0 data addr u ->
  Forall (forwards_to self data u) e -> Forall (forward_ok self0 data addr) e.
Proof.
  intros Hr Ha Hf. eapply Forall_impl; [exact Hf|]. intros [| |]; cbn; [done| |done].
  rewrite Hr. naive_solver.
Qed.

(** [on_datagram] keeps the endpoint well-formed and forwards only to admitted ufrags' targets; a
    client it adds was admitted by this datagram. *)
Lemma on_datagram_ok self data addr ans w self' w' e :
  pooled_ok self w -> on_datagram self data addr ans w = Some (self', w', e) ->
  pooled_ok self' w' /\ pu_routes self' = pu_routes self /\ pu_sessions self' = pu_sessions self
  /\ Forall (forward_ok self data addr) e
  /\ (forall a c, pu_clients self' !! a = Some c ->
        pu_clients self !! a = Some c \/ a = addr /\ ufrag_of data = Some (pcl_ufrag c)).
Proof.
  intros Hok Hs. unfold on_datagram in Hs. inv_task Hs. cbn [app].
  assert (Hafresh : forall self0 wa wb ea eb,
    pooled_ok self0 wa -> pu_clients self0 !! addr = None ->
    pu_routes self0 = pu_routes self -> pu_sessions self0 = pu_sessions self ->
    (forall a c, pu_clients self0 !! a = Some c -> pu_clients self !! a = Some c) ->
    Forall (forward_ok self data addr) ea ->
    route_afresh self0 data addr ans wa = Some (self', wb, eb) ->
    pooled_ok self' wb /\ pu_routes self' = pu_routes self
    /\ pu_sessions self' = pu_sessions self
    /\ Forall (forward_ok self data addr) (Count IN_CLIENT_UDP_MESSAGE :: ea ++ eb)
    /\ (forall a c, pu_clients self' !! a = Some c ->
          pu_clients self !! a = Some c \/ a = addr /\ ufrag_of data = Some (pcl_ufrag c))).
  { intros self0 wa wb ea eb Hok0 Hna Hr0 Hs0 Hsub He1 Hra.
    eapply route_afresh_ok in Hra as (Hok' & Hr & Hse & Hcase); [|done|done].
    split_and!; [done|congruence|congruence| |].
    - constructor; [done|]. apply Forall_app. split; [done|].
      destruct (find_route self0 data) as [[u t]|] eqn:Ef.
      + apply find_route_Some in Ef as [Hu _]. destruct Hcase as [Hf _].
        eapply forwards_forward_ok; [exact Hr0| |exact Hf]. by left.
      + destruct Hcase as (_ & _ & ->). by repeat constructor.
    - intros a c Hl. destruct (find_route self0 data) as [[u t]|] eqn:Ef.
      + apply find_route_Some in Ef as [Hu _].
        destruct Hcase as [_ [->|[h ->]]]; [auto|]. cbn in Hl. rewrite lookup_insert in Hl.
        case_decide; simplify_eq; cbn; auto.
      + destruct Hcase as (-> & _ & _). auto. }
  destruct (pu_clients self !! addr) as [c|] eqn:Ec; [|by eapply (Hafresh self w w' [])].
  inv_task Hs. destruct Hok as (Ht & Hc & Ho).
  eapply owns_ProxyClient_send in Hm as (Ho1 & _ & He); [|exact Ho].
  assert (Hfw : Forall (forward_ok self data addr) e).
  { destruct He as [->|[_ ->]]; [constructor|]. apply Forall_singleton. cbn.
    destruct (Hc _ _ Ec) as (t & Hr & Hp). split_and!; [done|done|].
    exists (pcl_ufrag c), t. split_and!; [|done|done]. right. eauto. }
  destruct a as [|err].
  - inv_task Hs. rewrite app_nil_r. split_and!; try done; [by constructor|]. auto.
  - inv_task Hs. apply remove_client_spec in Hm as (-> & Ho2 & ->); [|exact Ho1]. cbn [app].
    eapply Hafresh; [| | | | |exact Hfw|exact Hs]; try done; cbn.
    + split; [done|]. split; [|done]. intros a' c' Hl. cbn in Hl. apply lookup_delete_Some in Hl as [_ Hl].
      apply (Hc _ _ Hl).
    + apply lookup_delete_eq.
    + intros a' c' Hl. cbn in Hl. by apply lookup_delete_Some in Hl as [_ ?].
Qed.

(** ** The end of a relay *)

(** [client_rx.recv()] and its handling: the entry of the address goes only if its relay has left
    its loop; the tables are untouched. *)
Lemma on_client_msg_ok self w msg ch self' w' e :
  pooled_ok self w -> mpsc_recv (w_client w) = Received msg ch ->
  on_client_msg self msg (set_client ch w) = Some (self', w', e) ->
  pooled_ok self' w' /\ e = [] /\ pu_routes self' = pu_routes self
  /\ pu_sessions self' = pu_sessions self
  /\ (forall a c, pu_clients self' !! a = Some c -> pu_clients self !! a = Some c)
  /\ (forall a c, pu_clients self !! a = Some c -> sender_is_closed (pcl_handler c) w = false ->
        pu_clients self' !! a = Some c).
Proof.
  intros (Ht & Hc & Ho) Hr Hs.
  assert (Hkeep : (forall addr c, msg = ClientEnded addr -> pu_clients self !! addr = Some c ->
            sender_is_closed (pcl_handler c) w = false) ->
            pooled_ok self (set_client ch w)).
  { intros Hopen. split; [done|]. split; [done|]. eapply owns_recv; [exact Ho|exact Hr|].
    intros addr h r -> (c & Hc' & <-)%handlers_lookup Hr'.
    destruct (sender_is_closed_status _ _ _ addr (pcl_handler c) Ho) as (r' & Hr2 & Hcl);
      [apply handlers_lookup; eauto|].
    rewrite Hr' in Hr2. simplify_eq. rewrite (Hopen _ _ eq_refl Hc') in Hcl.
    destruct (rl_status r'); naive_solver. }
  destruct msg as [addr| |]; cbn in Hs; [|by inv_task Hs; split_and!; naive_solver..].
  destruct (pu_clients self !! addr) as [c|] eqn:Ec; [|inv_task Hs; split_and!; naive_solver].
  destruct (sender_is_closed _ _) eqn:Ecl; [|inv_task Hs; split_and!; naive_solver].
  unfold pooled_remove_client in Hs. rewrite Ec in Hs. inv_task Hs. cbn.
  assert (Hd : owns (pu_udp_socket self) (delete addr (handlers self)) (set_client ch w)).
  { eapply owns_recv; [|exact Hr|].
    - eapply owns_sub; [exact Ho|]. intros a h Hl. by apply lookup_delete_Some in Hl as [_ ?].
    - intros a h r [= ->] Hl. by rewrite lookup_delete_eq in Hl. }
  split_and!; try done.
  - split; [done|]. split.
    + intros a c' Hl. cbn in Hl. apply lookup_delete_Some in Hl as [_ Hl]. apply (Hc _ _ Hl).
    + unfold pooled_owns, handlers. cbn. rewrite fmap_delete. apply owns_abort; [exact Hd|].
      intros a h Hl E. apply lookup_delete_Some in Hl as [Hne Hl]. apply Hne.
      eapply (owns_distinct _ (handlers self)); [exact Ho|apply handlers_lookup; eauto|exact Hl|done].
  - intros a c' Hl. by apply lookup_delete_Some in Hl as [_ ?].
  - intros a c' Hl Hop. cbn. destruct (decide (a = addr)) as [->|Hne].
    + rewrite Ec in Hl. simplify_eq. unfold sender_is_closed in *. cbn in Ecl. congruence.
    + by rewrite lookup_delete_ne.
Qed.

(** ** Waiting *)

Lemma pooled_waits_ok self wt w u w' e :
  pooled_ok self w -> pooled_waits self wt w = Some (u, w', e) ->
  w' = w /\ match waiting_with wt with
             | Some (d, addr) => Forall (forward_ok self (recv_buf d) addr) e
             | None => e = []
             end.
Proof.
  intros (_ & Hc & _) (-> & Hcase)%relay_waits_Some. split; [done|].
  destruct Hcase as [->|(h & d & addr & Hh & Hw & He)]; [by destruct (waiting_with wt) as [[]|]|].
  rewrite Hw in Hh |- *. cbn in Hh. apply fmap_Some in Hh as (c & Ec & ->).
  destruct (Hc _ _ Ec) as (t & Hr & Hp).
  destruct He as [->| ->]; (constructor; [done|]); [constructor|]. apply Forall_singleton.
  split_and!; [done|done|]. exists (pcl_ufrag c), t. split_and!; [|done|done]. right. eauto.
Qed.

(** ** The whole system *)

Definition sys_ok (s : pooled_sys) : Prop :=
  pooled_ok (ps_self s) (ps_world s) /\ (ps_running s = false -> pu_clients (ps_self s) = ∅).

Lemma pooled_init_ok sock : sys_ok (pooled_init sock).
Proof.
  split; [|done]. split; [|split].
  - intros u. cbn. unfold in_use. cbn. split.
    + intros [t Ht]. by rewrite lookup_empty in Ht.
    + intros [sid Hs]. by rewrite lookup_empty in Hs.
  - intros addr c Hl. cbn in Hl. by rewrite lookup_empty in Hl.
  - unfold pooled_owns, handlers. cbn. rewrite fmap_empty. apply owns_init.
Qed.

Lemma pooled_drop_ok self w log : pooled_ok self w -> sys_ok (pooled_drop self w log).
Proof.
  intros (Ht & Hc & Ho). split; [|done]. split; [done|]. split.
  - intros addr c Hl. cbn in Hl. by rewrite lookup_empty in Hl.
  - unfold pooled_owns, handlers. cbn. rewrite fmap_empty.
    apply owns_drop_handlers; [|intros d a h _ Hl; by rewrite lookup_empty in Hl].
    eapply owns_sub; [exact Ho|]. intros a h Hl. by rewrite lookup_empty in Hl.
Qed.

Lemma client_recv_Some w m w' e :
  client_recv w = Some (Some m, w', e) ->
  exists ch, mpsc_recv (w_client w) = Received m ch /\ w' = set_client ch w /\ e = [].
Proof. unfold client_recv. destruct (mpsc_recv _) eqn:E; naive_solver. Qed.

Lemma pooled_step_ok s lbl s' : sys_ok s -> pooled_step s lbl = Some s' -> sys_ok s'.
Proof.
  intros Hok Hs. unfold pooled_step in Hs. destruct lbl as [d addr ans| | |[msg|]|waiting|rid l].
  7: { destruct (world_step _ _ rid l) as [[w effs]|] eqn:Ew; [|done]. simplify_eq.
       destruct Hok as ((Ht & Hc & Ho) & Hdead). split; [|done]. split; [done|]. split; [done|].
       unfold pooled_owns in *. destruct (ps_running s); [by eapply owns_relay_step|].
       assert (Hn : handlers (ps_self s) = ∅) by (unfold handlers; by rewrite Hdead, fmap_empty).
       cbn. rewrite Hn in *. by eapply owns_relay_step_dead. }
  all: destruct Hok as [Hok _]; destruct (ps_running s); [|done].
  all: destruct (pooled_select _ _ _) as [[[[self|self] w] effs]|] eqn:Esel; [| |done]; simplify_eq.
  all: cbn [pooled_select] in Esel; inv_task Esel; simplify_eq; try done.
  - eapply on_datagram_ok in Hm as (Hok' & _); [by split|exact Hok].
  - destruct a as [m|]; [|done]. inv_task Esel. simplify_eq.
    apply client_recv_Some in Hm as (ch & Hr & -> & ->).
    split; [apply (on_client_msg_ok _ _ _ _ _ _ _ Hok Hr Hm0)|done].
  - destruct a as [m|]; [|done]. inv_task Esel.
  - eapply on_control_ok in Hm as (Hok' & _); [by split|exact Hok].
  - by apply pooled_drop_ok.
  - apply pooled_waits_ok in Hm as [-> _]; [|exact Hok]. by apply pooled_drop_ok.
Qed.

Lemma pooled_reachable_ok sock s : reachable pooled_step (pooled_init sock) s -> sys_ok s.
Proof.
  apply reachable_inv; [apply pooled_init_ok|]. intros s1 l s2. apply pooled_step_ok.
Qed.

(** ** The socket *)

(** What a task returns has [Q]. *)
Definition yields {A} (m : task A) (Q : A -> Prop) : Prop :=
  forall w a w' e, m w = Some (a, w', e) -> Q a.

Lemma yields_ret {A} (a : A) (Q : A -> Prop) : Q a -> yields (task_ret a) Q.
Proof. intros Ha w b w' e Hm. by inv_task Hm. Qed.

Lemma yields_bind {A B} (m : task A) (k : A -> task B) P Q :
  yields m P -> (forall a, P a -> yields (k a) Q) -> yields (task_bind m k) Q.
Proof.
  intros Hm Hk w b w' e (a & w1 & e1 & e2 & H1 & H2 & _)%task_bind_Some. by eapply Hk, H2; eapply Hm.
Qed.

Lemma yields_then {A B} (m : task A) (k : A -> task B) Q : (forall a, yields (k a) Q) -> yields (task_bind m k) Q.
Proof. intros Hk. by eapply (yields_bind m k (fun _ => True)). Qed.

Definition same_socket self self' : Prop := pu_udp_socket self' = pu_udp_socket self.

Lemma yields_same {A} (m : task A) self self0 (get : A -> PooledUdpEndpoint) :
  same_socket self self0 -> yields m (fun a => same_socket self0 (get a)) ->
  yields m (fun a => same_socket self (get a)).
Proof. unfold same_socket. intros E Hm w a w' e Ha. rewrite <- E. by eapply Hm. Qed.

Lemma drop_clients_socket self u : yields (drop_clients self u) (same_socket self).
Proof. unfold drop_clients. apply yields_then. intros _. by apply yields_ret. Qed.

Lemma forget_socket self u : yields (forget_ufrag_if_unused self u) (same_socket self).
Proof.
  unfold forget_ufrag_if_unused. destruct (values_any _ _); [by apply yields_ret|].
  by apply (yields_same _ self (set_routes self (delete u (pu_routes self))) id), drop_clients_socket.
Qed.

Lemma on_control_socket self msg : yields (on_control self msg) (fun r => same_socket self r.1).
Proof.
  unfold on_control. destruct msg as [sid u t|sid].
  - eapply (yields_bind _ _ (same_socket self)).
    { set (self1 := set_routes _ _). apply (yields_same _ self self1 id); [done|].
      destruct (pu_routes self !! u); [case_bool_decide|]; [apply drop_clients_socket|by apply yields_ret..]. }
    intros self1 H1. eapply (yields_bind _ _ (same_socket self)).
    { set (self2 := set_sessions _ _). apply (yields_same _ self self2 id); [done|].
      destruct (pu_sessions self1 !! sid); [case_bool_decide|]; [apply forget_socket|by apply yields_ret..]. }
    intros self2 H2. by apply yields_ret.
  - destruct (pu_sessions self !! sid); [|by apply yields_ret].
    apply (yields_bind _ _ (same_socket self)); [|intros; by apply yields_ret].
    by apply (yields_same _ self (set_sessions self (delete sid (pu_sessions self))) id), forget_socket.
Qed.

Lemma remove_client_socket self addr : yields (pooled_remove_client self addr) (same_socket self).
Proof.
  unfold pooled_remove_client. destruct (pu_clients self !! addr); [|by apply yields_ret].
  apply yields_then. intros _. by apply yields_ret.
Qed.

Lemma on_datagram_socket self data addr ans : yields (on_datagram self data addr ans) (same_socket self).
Proof.
  assert (Hra : forall self, yields (route_afresh self data addr ans) (same_socket self)).
  { clear self. intros self. unfold route_afresh. destruct (find_route self data) as [[u t]|];
      apply yields_then; [|intros _; by apply yields_ret].
    intros [h|err]; [|by apply yields_ret]. apply yields_then. intros [|err]; [unfold pooled_insert_client|];
      apply yields_then; intros _; by apply yields_ret. }
  unfold on_datagram. apply yields_then. intros _. destruct (pu_clients self !! addr); [|apply Hra].
  apply yields_then. intros [|err]; [by apply yields_ret|].
  eapply yields_bind; [apply remove_client_socket|]. intros self1 H1.
  by apply (yields_same _ self self1 id), Hra.
Qed.

Lemma pooled_step_socket s lbl s' :
  pooled_step s lbl = Some s' -> pu_udp_socket (ps_self s') = pu_udp_socket (ps_self s).
Proof.
  intros Hs. unfold pooled_step in Hs. destruct lbl as [d addr ans| | |[msg|]|wt|rid l].
  7: { by destruct (world_step _ _ rid l) as [[w effs]|]; simplify_eq. }
  all: destruct (ps_running s); [|done].
  all: destruct (pooled_select _ _ _) as [[[[self|self] w] effs]|] eqn:Esel; [| |done]; simplify_eq.
  all: cbn [pooled_select] in Esel; inv_task Esel; simplify_eq; try done.
  - by apply on_datagram_socket in Hm.
  - destruct a as [m|]; [|done]. inv_task Esel. simplify_eq. destruct m as [addr| |]; cbn in Hm0; [|by apply task_ret_Some in Hm0 as (-> & _)..].
    destruct (pu_clients (ps_self s) !! addr) as [c|];
      [destruct (sender_is_closed _ _); [by apply remove_client_socket in Hm0|]|];
      by apply task_ret_Some in Hm0 as (-> & _).
  - destruct a as [m|]; [|done]. inv_task Esel.
  - by apply on_control_socket in Hm.
Qed.

Lemma pooled_run_socket sock ls s :
  run pooled_step (pooled_init sock) ls = Some s -> pu_udp_socket (ps_self s) = sock.
Proof.
  intros Hr%run_reachable. revert s Hr. apply reachable_inv; [done|].
  intros s l s' <- Hs. by eapply pooled_step_socket.
Qed.
End PooledInv.
