(* ===== verification/PooledProps.v ===== *)
(** * Properties of the pooled endpoint

    What a pooled endpoint promises, over every run of its loop interleaved with the steps of its
    relays and whatever the operating system answers: where datagrams may go, what the tables
    mean, what deleting a session does, and that the relays' life cycle neither leaks entries nor
    kills live flows nor blocks the loop for ever. *)

From S2P Require Import Prelude RustInt Stun Types Chan UdpClient RelayInv UdpPooled PooledInv.

Section PooledProps.
Context `{MpscLaws}.

Implicit Types (s : pooled_sys) (self : PooledUdpEndpoint) (w : world).

(** ** One step *)

(** What a step of the loop or of a relay does to the tables, the clients and the log. *)
Lemma pooled_step_cases s lbl s' :
  sys_ok s -> pooled_step s lbl = Some s' ->
  exists effs, ps_log s' = ps_log s ++ effs /\
  match lbl with
  | LDatagram d addr _ =>
      pu_routes (ps_self s') = pu_routes (ps_self s)
      /\ pu_sessions (ps_self s') = pu_sessions (ps_self s)
      /\ Forall (forward_ok (ps_self s) (recv_buf d) addr) effs
      /\ (forall a c, pu_clients (ps_self s') !! a = Some c ->
            pu_clients (ps_self s) !! a = Some c
            \/ a = addr /\ ufrag_of (recv_buf d) = Some (pcl_ufrag c))
  | LAbort waiting =>
      pu_routes (ps_self s') = pu_routes (ps_self s)
      /\ pu_sessions (ps_self s') = pu_sessions (ps_self s)
      /\ pu_clients (ps_self s') = ∅
      /\ match waiting_with waiting with
         | Some (d, addr) => Forall (forward_ok (ps_self s) (recv_buf d) addr) effs
         | None => effs = []
         end
  | LControl (Some msg) =>
      effs = []
      /\ pu_sessions (ps_self s') = match msg with
           | AddRoute sid u _ => <[sid := u]> (pu_sessions (ps_self s))
           | RemoveSession sid => delete sid (pu_sessions (ps_self s))
           end
      /\ shrinks match msg with
                 | AddRoute _ u t =>
                     set_routes (ps_self s) (<[u := t]> (pu_routes (ps_self s)))
                 | RemoveSession _ => ps_self s
                 end (ps_self s')
  | LRelay _ _ => ps_self s' = ps_self s
  | LRecvError | LClient | LControl None =>
      pu_routes (ps_self s') = pu_routes (ps_self s)
      /\ pu_sessions (ps_self s') = pu_sessions (ps_self s)
      /\ (forall a c, pu_clients (ps_self s') !! a = Some c ->
            pu_clients (ps_self s) !! a = Some c)
      /\ effs = []
  end.
Proof.
  intros Hok Hs. unfold pooled_step in Hs. destruct lbl as [d addr ans| | |[msg|]|waiting|rid l].
  7: { destruct (world_step _ _ rid l) as [[w effs]|] eqn:Ew; [|done]. simplify_eq. by exists effs. }
  all: destruct (ps_running s); [|done].
  all: destruct (pooled_select _ _ _) as [[[[self|self] w] effs]|] eqn:Esel; [| |done]; simplify_eq.
  all: exists effs; split; [done|].
  all: cbn [pooled_select] in Esel; inv_task Esel; simplify_eq; try done.
  - rewrite app_nil_r. apply (on_datagram_ok _ _ _ _ _ _ _ _ (proj1 Hok) Hm).
  - destruct a as [m|]; [|done]. inv_task Esel.
    apply client_recv_Some in Hm as (ch & Hr & -> & ->).
    pose proof (on_client_msg_ok _ _ _ _ _ _ _ (proj1 Hok) Hr Hm0) as (_ & -> & ? & ? & ? & _). done.
  - destruct a as [m|]; [|done]. inv_task Esel.
  - rewrite app_nil_r. apply (on_control_ok _ _ _ _ _ _ (proj1 Hok)) in Hm as (_ & -> & ? & ?). done.
  - apply pooled_waits_ok in Hm as [-> He]; [|apply Hok]. by rewrite app_nil_r.
Qed.

(** ** Where datagrams go *)

(** The datagram a step of the endpoint's own task has in hand. *)
Definition in_hand (lbl : pooled_label) : option (list byte * SocketAddr) :=
  match lbl with
  | LDatagram d addr _ => Some (d, addr)
  | LAbort wt => waiting_with wt
  | _ => None
  end.

(** Every client was admitted by a binding request that presented the client's ufrag. *)
Definition admitted_by (h : list pooled_label) (addr : SocketAddr) (u : string) : Prop :=
  exists lbl d, lbl ∈ h /\ in_hand lbl = Some (d, addr) /\ ufrag_of (recv_buf d) = Some u.

Definition hist_ok (h : list pooled_label) s : Prop :=
  sys_ok s /\ forall a c, pu_clients (ps_self s) !! a = Some c -> admitted_by h a (pcl_ufrag c).

Lemma admitted_snoc h l addr u : admitted_by h addr u -> admitted_by (h ++ [l]) addr u.
Proof. intros (l' & d & Hin & Hu). exists l', d. split; [set_solver|done]. Qed.

Lemma run_hist_ok sock ls s : run pooled_step (pooled_init sock) ls = Some s -> hist_ok ls s.
Proof.
  revert s. apply run_hist_inv.
  - split; [apply pooled_init_ok|]. intros a c Hl. cbn in Hl. by rewrite lookup_empty in Hl.
  - intros h s l s' [Hok Hadm] Hstep. split; [by eapply pooled_step_ok|]. intros a c Hl.
    destruct (pooled_step_cases _ _ _ Hok Hstep) as (effs & _ & Hcase).
    assert (Hold : forall a c, pu_clients (ps_self s) !! a = Some c ->
                     admitted_by (h ++ [l]) a (pcl_ufrag c)) by eauto using admitted_snoc.
    destruct l as [d addr ans| | |[msg|]|waiting|rid l];
      try (destruct Hcase as (_ & _ & Hc & _); by apply Hold, Hc); last (apply Hold; by rewrite <- Hcase).
    + destruct Hcase as (_ & _ & _ & Hc). destruct (Hc _ _ Hl) as [Hc'|[-> Hu]]; [auto|].
      exists (LDatagram d addr ans), d. split; [set_solver|done].
    + destruct Hcase as (_ & _ & _ & _ & Hc). apply Hold. destruct msg; by apply Hc.
    + destruct Hcase as (_ & _ & Hc & _). by rewrite Hc, lookup_empty in Hl.
Qed.

Lemma own_step_forwards s lbl s' :
  sys_ok s -> pooled_step s lbl = Some s' -> (forall rid l, lbl <> LRelay rid l) ->
  exists effs, ps_log s' = ps_log s ++ effs /\
  forall sk to data, UdpSend sk to data ∈ effs ->
    exists d addr, in_hand lbl = Some (d, addr)
      /\ forward_ok (ps_self s) (recv_buf d) addr (UdpSend sk to data).
Proof.
  intros Hok Hstep Hown. destruct (pooled_step_cases _ _ _ Hok Hstep) as (effs & Hlog & Hcase).
  exists effs. split; [done|]. intros sk to data Hin.
  destruct lbl as [d addr ans| | |[msg|]|wt|rid l]; cbn [in_hand].
  all: try (destruct Hcase as (_ & _ & _ & ->); by apply elem_of_nil in Hin).
  - destruct Hcase as (_ & _ & Hf & _). rewrite Forall_forall in Hf. eauto.
  - destruct Hcase as (-> & _). by apply elem_of_nil in Hin.
  - destruct Hcase as (_ & _ & _ & Hf). destruct (waiting_with wt) as [[d addr]|];
      [|subst effs; by apply elem_of_nil in Hin]. rewrite Forall_forall in Hf. eauto.
  - by destruct (Hown rid l).
Qed.

(** C1: whatever the interleaving and the network, the endpoint's task only ever forwards a datagram
    it received, unchanged, to the target currently routed for a ufrag that a live session uses and
    that the sender presented in a STUN binding request, now or earlier. *)
Theorem forwarding_is_authorized sock ls s lbl s' :
  run pooled_step (pooled_init sock) ls = Some s ->
  pooled_step s lbl = Some s' -> (forall rid l, lbl <> LRelay rid l) ->
  exists effs, ps_log s' = ps_log s ++ effs /\
  forall sk to data, UdpSend sk to data ∈ effs ->
    exists d addr u t sid, in_hand lbl = Some (d, addr) /\ data = recv_buf d
      /\ to = Some t /\ us_peer sk = Some t
      /\ pu_routes (ps_self s) !! u = Some t /\ pu_sessions (ps_self s) !! sid = Some u
      /\ admitted_by (ls ++ [lbl]) addr u.
Proof.
  intros Hrun Hstep Hown. destruct (run_hist_ok _ _ _ Hrun) as [Hok Hadm].
  destruct (own_step_forwards _ _ _ Hok Hstep Hown) as (effs & Hlog & Hf).
  exists effs. split; [done|]. intros sk to data Hin.
  destruct (Hf _ _ _ Hin) as (d & addr & Hd & -> & -> & u & t & Ha & Hr & Hp).
  destruct (proj1 (proj1 (proj1 Hok) u)) as [sid Hsid]; [by exists t|].
  exists d, addr, u, t, sid. split_and!; try done. destruct Ha as [Hu|(c & Hc & <-)].
  - exists lbl, d. split; [set_solver|done].
  - by apply admitted_snoc, Hadm.
Qed.

(** ** What the tables mean *)

(** The control messages of a run, in order. *)
Definition controls (ls : list pooled_label) : list PooledUdpMsg :=
  omap (fun l => match l with LControl (Some m) => Some m | _ => None end) ls.

(** The ufrag a session has after the messages: that of its last [AddRoute], if it was not removed
    since. *)
Definition session_spec (h : list PooledUdpMsg) (sid : string) : option string :=
  fold_left (fun acc m => match m with
    | AddRoute sid' u _ => if bool_decide (sid' = sid) then Some u else acc
    | RemoveSession sid' => if bool_decide (sid' = sid) then None else acc
    end) h None.

(** The target of the last [AddRoute] for a ufrag. *)
Definition target_spec (h : list PooledUdpMsg) (u : string) : option SocketAddr :=
  fold_left (fun acc m => match m with
    | AddRoute _ u' t => if bool_decide (u' = u) then Some t else acc
    | RemoveSession _ => acc
    end) h None.

Definition tables_spec (h : list PooledUdpMsg) self : Prop :=
  (forall sid, pu_sessions self !! sid = session_spec h sid)
  /\ (forall u t, pu_routes self !! u = Some t -> target_spec h u = Some t).

Lemma controls_snoc ls l :
  controls (ls ++ [l]) =
  controls ls ++ match l with LControl (Some m) => [m] | _ => [] end.
Proof. unfold controls. rewrite omap_app. cbn. by destruct l as [| | |[|]| |]. Qed.

Lemma session_spec_snoc h m sid :
  session_spec (h ++ [m]) sid =
  match m with
  | AddRoute sid' u _ => if bool_decide (sid' = sid) then Some u else session_spec h sid
  | RemoveSession sid' => if bool_decide (sid' = sid) then None else session_spec h sid
  end.
Proof. unfold session_spec. by rewrite fold_left_app. Qed.

Lemma target_spec_snoc h m u :
  target_spec (h ++ [m]) u =
  match m with
  | AddRoute _ u' t => if bool_decide (u' = u) then Some t else target_spec h u
  | RemoveSession _ => target_spec h u
  end.
Proof. unfold target_spec. by rewrite fold_left_app. Qed.

Lemma tables_spec_control h self self' msg :
  tables_spec h self ->
  pu_sessions self' = match msg with
    | AddRoute sid u _ => <[sid := u]> (pu_sessions self)
    | RemoveSession sid => delete sid (pu_sessions self)
    end ->
  shrinks match msg with
    | AddRoute _ u t => set_routes self (<[u := t]> (pu_routes self))
    | RemoveSession _ => self
    end self' ->
  tables_spec (h ++ [msg]) self'.
Proof.
  intros [Hs Hr] Hs' (_ & Hr' & _). split.
  - intros sid. rewrite Hs', session_spec_snoc, <- Hs. destruct msg as [sid' u t|sid'].
    + rewrite lookup_insert. by repeat case_decide; case_bool_decide.
    + rewrite lookup_delete. by repeat case_decide; case_bool_decide.
  - intros u t Hl. rewrite target_spec_snoc. apply Hr' in Hl. destruct msg as [sid' u' t'|sid'].
    + cbn in Hl. rewrite lookup_insert in Hl.
      case_bool_decide; case_decide; simplify_eq; auto.
    + auto.
Qed.

Lemma run_tables_spec sock ls s :
  run pooled_step (pooled_init sock) ls = Some s ->
  sys_ok s /\ tables_spec (controls ls) (ps_self s).
Proof.
  revert s. apply (run_hist_inv pooled_step
    (fun ls s => sys_ok s /\ tables_spec (controls ls) (ps_self s))).
  - split; [apply pooled_init_ok|]. split; [done|]. intros u t Hl. cbn in Hl.
    by rewrite lookup_empty in Hl.
  - intros h s l s' [Hok Ht] Hstep. split; [by eapply pooled_step_ok|].
    destruct (pooled_step_cases _ _ _ Hok Hstep) as (effs & _ & Hcase).
    rewrite controls_snoc. destruct l as [d addr ans| | |[msg|]| |rid l];
      try (destruct Hcase as (Hr & Hs & _); rewrite app_nil_r; unfold tables_spec;
           by rewrite Hr, Hs).
    + destruct Hcase as (_ & Hs & Hsh). by eapply tables_spec_control.
    + by rewrite Hcase, app_nil_r.
Qed.

Lemma tables_spec_route h self sid u t :
  tables_ok self -> tables_spec h self ->
  session_spec h sid = Some u -> target_spec h u = Some t -> pu_routes self !! u = Some t.
Proof.
  intros Ht [Hs Hr] Hsid Htt. rewrite <- Hs in Hsid.
  destruct (proj2 (Ht u)) as [t' Hl]; [by exists sid|]. rewrite (Hr _ _ Hl) in Htt. congruence.
Qed.

(** C2: the tables refine the history of control messages: a session has the ufrag of its last
    [AddRoute] since its last removal, and a ufrag has a route exactly while some session has it,
    to the target of the last [AddRoute] that named the ufrag. *)
Theorem tables_refine_history sock ls s :
  run pooled_step (pooled_init sock) ls = Some s ->
  (forall sid, pu_sessions (ps_self s) !! sid = session_spec (controls ls) sid) /\
  (forall u t, pu_routes (ps_self s) !! u = Some t <->
     (exists sid, session_spec (controls ls) sid = Some u)
     /\ target_spec (controls ls) u = Some t).
Proof.
  intros Hrun. destruct (run_tables_spec _ _ _ Hrun) as [((Ht & _) & _) [Hs Hr]].
  split; [done|]. intros u t. split.
  - intros Hl. split; [|auto]. destruct (proj1 (Ht u)) as [sid Hsid]; [by exists t|].
    exists sid. by rewrite <- Hs.
  - intros [[sid Hsid] Htt]. by apply (tables_spec_route (controls ls) _ sid).
Qed.

(** C7: in every reachable state a ufrag has a route exactly when some session uses it, and every
    client entry has a relay of its own that was not aborted, for that client's address, fed by the
    entry's handler, connected to the current target of the entry's ufrag and answering through
    the pooled socket; if that relay has left its loop, it is about to report its end, or the report
    is in the endpoint's channel. *)
Theorem reachable_consistent sock s :
  reachable pooled_step (pooled_init sock) s ->
  (forall u, is_Some (pu_routes (ps_self s) !! u) <->
     exists sid, pu_sessions (ps_self s) !! sid = Some u) /\
  (forall addr c, pu_clients (ps_self s) !! addr = Some c ->
     exists t r, pu_routes (ps_self s) !! pcl_ufrag c = Some t
       /\ w_relays (ps_world s) !! h_handler (pcl_handler c) = Some r
       /\ h_sender (pcl_handler c) = h_handler (pcl_handler c)
       /\ pc_addr (rl_client r) = addr
       /\ pc_socket (rl_client r) = h_socket (pcl_handler c)
       /\ us_peer (pc_socket (rl_client r)) = Some t
       /\ pc_target_socket (rl_client r) = pu_udp_socket (ps_self s)
       /\ rl_aborted r = false
       /\ (rl_status r <> Looping ->
            rl_status r = Reporting \/ ClientEnded addr ∈ chan_contents (w_client (ps_world s)))).
Proof.
  intros ((Ht & Hc & Ho) & _)%pooled_reachable_ok. split; [exact Ht|]. intros addr c Hl.
  destruct (Hc _ _ Hl) as (t & Hr & Hp).
  destruct (proj2 Ho addr (pcl_handler c)) as (r & Hrl & Hsd & Ha & Hs & Htg & Hab & Hend);
    [apply handlers_lookup; eauto|].
  exists t, r. rewrite Hs. by split_and!.
Qed.

(** ** Control messages, exactly *)

Definition clients_of self (u : string) : list ProxyClientHandler :=
  map (fun kv => pcl_handler kv.2)
    (map_to_list (retain (fun c => bool_decide (pcl_ufrag c = u)) (pu_clients self))).

Definition clients_without self (u : string) : gmap SocketAddr PooledClient :=
  retain (fun c => negb (bool_decide (pcl_ufrag c = u))) (pu_clients self).

Lemma drop_clients_eq self u w :
  drop_clients self u w =
  Some (set_pooled_clients self (clients_without self u), drop_handlers (clients_of self u) w, []).
Proof. done. Qed.

Lemma forget_in_use self u w :
  in_use self u -> forget_ufrag_if_unused self u w = Some (self, w, []).
Proof.
  intros (sid & Hs). unfold forget_ufrag_if_unused.
  replace (values_any _ _) with true; [done|]. symmetry. apply values_any_spec.
  exists sid, u. split; [done|]. by apply bool_decide_eq_true.
Qed.

Lemma forget_unused self u w :
  ~ in_use self u ->
  forget_ufrag_if_unused self u w =
  Some (mkPooled (pu_udp_socket self) (delete u (pu_routes self)) (pu_sessions self)
          (clients_without self u), drop_handlers (clients_of self u) w, []).
Proof.
  intros Hn. unfold forget_ufrag_if_unused. replace (values_any _ _) with false; [done|].
  symmetry. apply values_any_false. intros sid v Hs. apply bool_decide_eq_false.
  intros ->. apply Hn. by exists sid.
Qed.

Lemma clients_of_elem self u addr c :
  pu_clients self !! addr = Some c -> pcl_ufrag c = u -> pcl_handler c ∈ clients_of self u.
Proof.
  intros Hl Hu. apply list_elem_of_fmap. exists (addr, c). split; [done|].
  apply elem_of_map_to_list, lookup_retain_Some. split; [done|]. by apply bool_decide_eq_true.
Qed.

Lemma clients_without_gone self u addr c :
  pu_clients self !! addr = Some c -> pcl_ufrag c = u -> clients_without self u !! addr = None.
Proof.
  intros Hl Hu. apply lookup_retain_None. intros v Hv. rewrite Hl in Hv. simplify_eq.
  by rewrite bool_decide_eq_true_2.
Qed.

Lemma clients_without_kept self u addr c :
  pu_clients self !! addr = Some c -> pcl_ufrag c <> u ->
  clients_without self u !! addr = Some c.
Proof.
  intros Hl Hu. apply lookup_retain_Some. split; [done|]. by rewrite bool_decide_eq_false_2.
Qed.

Lemma in_use_removed self sid u :
  pu_sessions self !! sid = Some u ->
  in_use (set_sessions self (delete sid (pu_sessions self))) u <->
  exists sid', sid' <> sid /\ pu_sessions self !! sid' = Some u.
Proof.
  intros Hs. unfold in_use. cbn. split.
  - intros (sid' & [Hne Hl]%lookup_delete_Some). eauto.
  - intros (sid' & Hne & Hl). exists sid'. by rewrite lookup_delete_ne.
Qed.

(** C19: deleting the last session of a ufrag revokes it: its route is gone, every client it
    admitted is dropped and that client's relay aborted; routes and clients of every other ufrag
    stay as they are. *)
Theorem remove_last_session s sid u :
  ps_running s = true -> pu_sessions (ps_self s) !! sid = Some u ->
  (forall sid', pu_sessions (ps_self s) !! sid' = Some u -> sid' = sid) ->
  exists s', pooled_step s (LControl (Some (RemoveSession sid))) = Some s' /\
    pu_sessions (ps_self s') = delete sid (pu_sessions (ps_self s)) /\
    pu_routes (ps_self s') = delete u (pu_routes (ps_self s)) /\
    (forall addr c, pu_clients (ps_self s) !! addr = Some c ->
       (pcl_ufrag c = u -> pu_clients (ps_self s') !! addr = None
                           /\ aborted (ps_world s') (h_handler (pcl_handler c))) /\
       (pcl_ufrag c <> u -> pu_clients (ps_self s') !! addr = Some c)).
Proof.
  intros Hrun Hs Hlast. unfold pooled_step. rewrite Hrun. cbn [pooled_select on_control].
  unfold task_bind at 1. rewrite Hs. unfold task_bind. rewrite forget_unused.
  - eexists. split; [done|]. cbn. split_and!; [done|done|]. intros addr c Hl. split.
    + intros Hu. split; [by eapply (clients_without_gone (ps_self s))|].
      apply drop_handlers_aborted. by eapply (clients_of_elem (ps_self s)).
    + by apply (clients_without_kept (ps_self s)).
  - rewrite in_use_removed by done. intros (sid' & Hne & Hl). by apply Hne, Hlast.
Qed.

(** Deleting a session whose ufrag another session shares only forgets the session: routes,
    clients and relays are exactly as before. *)
Theorem remove_shared_session s sid sid' u :
  ps_running s = true -> pu_sessions (ps_self s) !! sid = Some u ->
  sid' <> sid -> pu_sessions (ps_self s) !! sid' = Some u ->
  pooled_step s (LControl (Some (RemoveSession sid))) =
  Some (mkPooledSys (set_sessions (ps_self s) (delete sid (pu_sessions (ps_self s))))
          (ps_world s) true (ps_log s)).
Proof.
  intros Hrun Hs Hne Hs'. unfold pooled_step. rewrite Hrun. cbn [pooled_select on_control].
  unfold task_bind at 1. rewrite Hs. unfold task_bind. rewrite forget_in_use.
  - cbn. by rewrite app_nil_r.
  - apply in_use_removed; [done|]. eauto.
Qed.

Lemma add_session_in_use self sid u u' :
  (exists sid', sid' <> sid /\ pu_sessions self !! sid' = Some u') ->
  in_use (set_sessions self (<[sid := u]> (pu_sessions self))) u'.
Proof. intros (sid' & Hne & Hl). exists sid'. cbn. by rewrite lookup_insert_ne. Qed.

(** The second half of [AddRoute] on an endpoint whose route is set: it only forgets the session's
    previous ufrag, if that was its last session. *)
Lemma add_session_eq self sid u w :
  exists self' w',
  (let replaced := pu_sessions self !! sid in
   let self1 := set_sessions self (<[sid := u]> (pu_sessions self)) in
   match replaced with
   | Some previous =>
       if bool_decide (previous <> u) then forget_ufrag_if_unused self1 previous
       else task_ret self1
   | None => task_ret self1
   end) w = Some (self', w', [])
  /\ pu_sessions self' = <[sid := u]> (pu_sessions self)
  /\ pu_routes self' !! u = pu_routes self !! u
  /\ (forall addr c, pu_clients self' !! addr = Some c -> pu_clients self !! addr = Some c)
  /\ (forall addr c, pcl_ufrag c = u -> pu_clients self !! addr = Some c ->
        pu_clients self' !! addr = Some c)
  /\ (forall u', (exists sid', sid' <> sid /\ pu_sessions self !! sid' = Some u') ->
        pu_routes self' !! u' = pu_routes self !! u'
        /\ forall addr c, pcl_ufrag c = u' -> pu_clients self !! addr = Some c ->
             pu_clients self' !! addr = Some c)
  /\ (forall rid, aborted w rid -> aborted w' rid).
Proof.
  cbv zeta. destruct (pu_sessions self !! sid) as [previous|] eqn:Es.
  - case_bool_decide as Hne; [|eexists _, _; split; [done|]; by split_and!].
    set (self1 := set_sessions self (<[sid := u]> (pu_sessions self))).
    destruct (values_any (fun v => bool_decide (v = previous)) (pu_sessions self1)) eqn:Ev.
    + apply values_any_spec in Ev as (k & v & Hk & ->%bool_decide_eq_true).
      rewrite forget_in_use by (by exists k). eexists _, _. split; [done|]. by split_and!.
    + rewrite forget_unused.
      2: { intros (k & Hk). apply (proj1 (values_any_false _ _) Ev) in Hk.
           by apply bool_decide_eq_false in Hk. }
      eexists _, _. split; [done|]. cbn. split_and!; [done| | | | |].
      * by rewrite lookup_delete_ne.
      * intros addr c Hl. by apply lookup_retain_Some in Hl as [? _].
      * intros addr c Hu Hl. apply (clients_without_kept self1); [done|congruence].
      * intros u' Hu'. assert (u' <> previous).
        { intros ->. apply (add_session_in_use self sid u) in Hu' as (k & Hk).
          apply (proj1 (values_any_false _ _) Ev) in Hk. by apply bool_decide_eq_false in Hk. }
        rewrite lookup_delete_ne by done. split; [done|]. intros addr c Hu Hl.
        apply (clients_without_kept self1); [done|congruence].
      * intros rid Hab. induction (clients_of self1 previous) as [|d ds IH]; [done|].
        apply abort_relay_aborted. by right.
  - eexists _, _. split; [done|]. by split_and!.
Qed.

(** The first half of [AddRoute]. *)
Lemma add_route_eq self u t w :
  exists self' w',
  (match pu_routes self !! u with
   | Some previous =>
       if bool_decide (previous <> t)
       then drop_clients (set_routes self (<[u := t]> (pu_routes self))) u
       else task_ret (set_routes self (<[u := t]> (pu_routes self)))
   | None => task_ret (set_routes self (<[u := t]> (pu_routes self)))
   end) w = Some (self', w', [])
  /\ pu_sessions self' = pu_sessions self /\ pu_routes self' = <[u := t]> (pu_routes self)
  /\ (forall addr c, pu_clients self !! addr = Some c ->
       (pcl_ufrag c <> u -> pu_clients self' !! addr = Some c) /\
       (pcl_ufrag c = u -> pu_routes self !! u = Some t -> pu_clients self' !! addr = Some c) /\
       (pcl_ufrag c = u -> (exists t', pu_routes self !! u = Some t' /\ t' <> t) ->
          pu_clients self' !! addr = None /\ aborted w' (h_handler (pcl_handler c)))).
Proof.
  destruct (pu_routes self !! u) as [previous|] eqn:Er.
  - case_bool_decide as Hne.
    + rewrite drop_clients_eq. eexists _, _. split; [done|]. cbn. split_and!; [done|done|].
      intros addr c Hl. split_and!.
      * by apply (clients_without_kept self).
      * intros _ [= ->]. done.
      * intros Hu _. split; [by eapply (clients_without_gone self)|].
        apply drop_handlers_aborted. by eapply (clients_of_elem self).
    + eexists _, _. split; [done|]. cbn. split_and!; [done|done|]. intros addr c Hl.
      split_and!; [done|done|]. naive_solver.
  - eexists _, _. split; [done|]. cbn. split_and!; [done|done|]. naive_solver.
Qed.

(** [AddRoute] is always processed at once.  Afterwards the session has the ufrag and the ufrag
    leads to the target; clients the ufrag admitted stay if the target is unchanged and are dropped
    with their relays aborted if it moved; ufrags other sessions use keep their routes and
    clients. *)
Theorem add_route_effect s sid u t :
  ps_running s = true ->
  exists s', pooled_step s (LControl (Some (AddRoute sid u t))) = Some s' /\
    pu_sessions (ps_self s') = <[sid := u]> (pu_sessions (ps_self s)) /\
    pu_routes (ps_self s') !! u = Some t /\
    (forall addr c, pu_clients (ps_self s) !! addr = Some c -> pcl_ufrag c = u ->
       (pu_routes (ps_self s) !! u = Some t -> pu_clients (ps_self s') !! addr = Some c) /\
       ((exists t', pu_routes (ps_self s) !! u = Some t' /\ t' <> t) ->
          pu_clients (ps_self s') !! addr = None
          /\ aborted (ps_world s') (h_handler (pcl_handler c)))) /\
    (forall u', u' <> u -> (exists sid', sid' <> sid /\ pu_sessions (ps_self s) !! sid' = Some u') ->
       pu_routes (ps_self s') !! u' = pu_routes (ps_self s) !! u' /\
       forall addr c, pcl_ufrag c = u' -> pu_clients (ps_self s) !! addr = Some c ->
         pu_clients (ps_self s') !! addr = Some c).
Proof.
  intros Hrun. unfold pooled_step. rewrite Hrun. cbn [pooled_select on_control].
  destruct (add_route_eq (ps_self s) u t (ps_world s)) as (self1 & w1 & H1 & Hs1 & Hr1 & Hc1).
  destruct (add_session_eq self1 sid u w1) as (self2 & w2 & H2 & Hs2 & Hr2 & Hsub & Hc2 & Hf2 & Hab2).
  unfold task_bind. rewrite H1. cbv zeta in H2. rewrite H2. eexists. split; [done|]. cbn.
  split_and!.
  - by rewrite Hs2, Hs1.
  - by rewrite Hr2, Hr1, lookup_insert_eq.
  - intros addr c Hl Hu. destruct (Hc1 addr c Hl) as (_ & Hkeep & Hgone). split.
    + intros Ht. apply Hc2; auto.
    + intros Ht. destruct (Hgone Hu Ht) as [Hn Hab]. split; [|auto].
      destruct (pu_clients self2 !! addr) as [c'|] eqn:Ec'; [|done].
      apply Hsub in Ec'. congruence.
  - intros u' Hne Hu'. rewrite <- Hs1 in Hu'. destruct (Hf2 u' Hu') as [Hr Hc]. split.
    + by rewrite Hr, Hr1, lookup_insert_ne.
    + intros addr c Hu Hl. destruct (Hc1 addr c Hl) as [Hk _].
      apply Hc; [done|]. apply Hk. congruence.
Qed.

(** ** The end of relays *)

(** No client entry is left behind by a relay that ended: while its entry is there, either the
    relay is about to send [ClientEnded] or the message is waiting in the endpoint's channel. *)
Theorem ended_relay_is_reported sock s addr c r :
  reachable pooled_step (pooled_init sock) s ->
  pu_clients (ps_self s) !! addr = Some c ->
  w_relays (ps_world s) !! h_handler (pcl_handler c) = Some r -> rl_status r <> Looping ->
  rl_status r = Reporting \/ ClientEnded addr ∈ chan_contents (w_client (ps_world s)).
Proof.
  intros ((_ & _ & Ho) & _)%pooled_reachable_ok Hl Hr Hne.
  destruct (proj2 Ho addr (pcl_handler c)) as (r' & Hr' & _ & _ & _ & _ & _ & Hend);
    [apply handlers_lookup; eauto|].
  simplify_eq. by apply Hend.
Qed.

Lemma abort_other rid rid' w : rid <> rid' -> w_relays (abort_relay rid' w) !! rid = w_relays w !! rid.
Proof.
  intros Hne. unfold abort_relay. destruct (w_relays w !! rid'); [|done]. cbn.
  by rewrite lookup_insert_ne.
Qed.

(** C9: a [ClientEnded] the endpoint receives never touches a running relay, not even when the
    address of the message is that relay's: the entry stays and the relay is not aborted. *)
Theorem stale_end_is_harmless sock s s' addr c r :
  reachable pooled_step (pooled_init sock) s -> pooled_step s LClient = Some s' ->
  pu_clients (ps_self s) !! addr = Some c ->
  w_relays (ps_world s) !! h_handler (pcl_handler c) = Some r -> rl_status r = Looping ->
  pu_clients (ps_self s') !! addr = Some c /\
  w_relays (ps_world s') !! h_handler (pcl_handler c) = Some r.
Proof.
  intros Hok%pooled_reachable_ok Hs Hl Hr Hst. destruct Hok as ((_ & _ & Ho) & _).
  assert (Hopen : forall a c', pu_clients (ps_self s) !! a = Some c' ->
            sender_is_closed (pcl_handler c') (ps_world s) = true -> a <> addr).
  { intros a c' Hl' Hcl ->. rewrite Hl in Hl'. simplify_eq.
    destruct (sender_is_closed_status _ _ _ addr (pcl_handler c') Ho) as (r' & Hr' & Hiff);
      [apply handlers_lookup; eauto|]. simplify_eq. by apply Hiff in Hcl. }
  unfold pooled_step in Hs. destruct (ps_running s); [|done]. cbn [pooled_select] in Hs.
  unfold client_recv, task_bind in Hs.
  destruct (mpsc_recv _) as [m ch| |]; [|done..]. cbn in Hs.
  destruct m as [a| |]; cbn in Hs; [|by simplify_eq/=..].
  destruct (pu_clients (ps_self s) !! a) as [c'|] eqn:Ea; [|by simplify_eq/=].
  destruct (sender_is_closed _ _) eqn:Ecl; [|by simplify_eq/=].
  assert (Hne : a <> addr) by by eapply Hopen.
  unfold pooled_remove_client in Hs. rewrite Ea in Hs. cbn in Hs. simplify_eq. cbn.
  rewrite lookup_delete_ne by done. split; [done|]. unfold handler_drop.
  rewrite abort_other; [done|]. intros E. apply Hne. symmetry.
  eapply (owns_distinct _ _ _ _ _ (pcl_handler c) (pcl_handler c') Ho); [..|exact E];
    apply handlers_lookup; eauto.
Qed.

(** ** Delivery *)

(** Media of an open flow needs no parsing: a datagram of a client whose relay runs, with room
    in its control channel, is forwarded as received over the relay's socket, and the endpoint is
    as before. *)
Theorem open_flow_is_forwarded sock s addr c r d ans :
  reachable pooled_step (pooled_init sock) s -> ps_running s = true ->
  pu_clients (ps_self s) !! addr = Some c ->
  w_relays (ps_world s) !! h_handler (pcl_handler c) = Some r -> rl_status r = Looping ->
  (length (chan_contents (pc_control (rl_client r))) < 10)%nat ->
  da_sent ans = Ok tt ->
  exists s', pooled_step s (LDatagram d addr ans) = Some s' /\ ps_self s' = ps_self s /\
    ps_log s' = ps_log s ++ [Count IN_CLIENT_UDP_MESSAGE;
      UdpSend (h_socket (pcl_handler c)) (pu_routes (ps_self s) !! pcl_ufrag c) (recv_buf d)].
Proof.
  intros ((_ & Hc & Ho) & _)%pooled_reachable_ok Hrun Hl Hr Hst Hroom Hans.
  destruct (Hc _ _ Hl) as (t & Hrt & Hp). rewrite Hrt.
  destruct (proj2 Ho addr (pcl_handler c)) as (r' & Hr' & Hsd & _); [apply handlers_lookup; eauto|].
  destruct (proj2 (proj1 (proj1 Ho) _ _ Hr)) as (Hcl & Hcap & _).
  destruct (send_room (pc_control (rl_client r)) DataSent) as (ch & Hch & _); [|lia|].
  { destruct (mpsc_is_closed _); [|done]. destruct (proj1 Hcl eq_refl Hst). }
  unfold pooled_step. rewrite Hrun. cbn [pooled_select].
  unfold task_bind at 1. unfold on_datagram, emit, task_bind. rewrite Hl.
  unfold ProxyClient_send, task_bind, emit, control_send. rewrite Hans, Hsd, Hr, Hch, Hp.
  eexists. split; [done|]. done.
Qed.

(** The first binding request of an address, when the system allows a relay. *)
Lemma first_binding_request s addr d ans u t port :
  ps_running s = true -> pu_clients (ps_self s) !! addr = None ->
  ufrag_of (recv_buf d) = Some u -> pu_routes (ps_self s) !! u = Some t ->
  da_alloc ans = mkAlloc (Ok port) (Ok tt) -> da_sent_new ans = Ok tt ->
  exists s' h, pooled_step s (LDatagram d addr ans) = Some s' /\
    h_socket h = mkUdpSocket port (Some t) /\
    ps_self s' = set_pooled_clients (ps_self s)
                   (<[addr := mkPooledClient h u]> (pu_clients (ps_self s))) /\
    ps_log s' = ps_log s ++ [Count IN_CLIENT_UDP_MESSAGE; Count OUT_UDP_SOCKET_COUNTER;
                             UdpSend (h_socket h) (Some t) (recv_buf d)].
Proof.
  intros Hrun Hl Hu Hr Hal Hsn.
  destruct (send_room (mpsc_channel 10) DataSent) as (ch & Hch & _).
  { apply channel_open. }
  { rewrite channel_contents, channel_capacity. cbn. lia. }
  unfold pooled_step. rewrite Hrun. cbn [pooled_select].
  unfold on_datagram, task_bind at 1 2, emit. rewrite Hl. unfold route_afresh.
  replace (find_route _ _) with (Some (u, t)) by (symmetry; by apply find_route_Some).
  unfold allocate_handler. rewrite Hal. cbn.
  unfold task_bind, spawn_relay, task_ret, ProxyClient_send. rewrite Hsn.
  unfold task_bind, emit, control_send. cbn. rewrite lookup_insert_eq. cbn. rewrite Hch.
  unfold pooled_insert_client. rewrite Hl. cbn.
  eexists _, (mkProxyClientHandler _ _ _). by split_and!.
Qed.

(** C18: a flow opens on its first binding request: when the address has no client and the datagram
    presents a routed ufrag, then (the system allowing) a relay to the ufrag's current target is
    spawned, the datagram is forwarded over it and the address belongs to the ufrag from then on. *)
Theorem binding_request_opens_flow s addr d ans u t port :
  ps_running s = true -> pu_clients (ps_self s) !! addr = None ->
  ufrag_of (recv_buf d) = Some u -> pu_routes (ps_self s) !! u = Some t ->
  da_alloc ans = mkAlloc (Ok port) (Ok tt) -> da_sent_new ans = Ok tt ->
  exists s' h, pooled_step s (LDatagram d addr ans) = Some s' /\
    h_socket h = mkUdpSocket port (Some t) /\
    ps_self s' = set_pooled_clients (ps_self s)
                   (<[addr := mkPooledClient h u]> (pu_clients (ps_self s))) /\
    ps_log s' = ps_log s ++ [Count IN_CLIENT_UDP_MESSAGE; Count OUT_UDP_SOCKET_COUNTER;
                             UdpSend (h_socket h) (Some t) (recv_buf d)].
Proof. apply first_binding_request. Qed.

(** A datagram of an address with no client that presents no routed ufrag (not a binding
    request, or one for an unknown ufrag) is dropped: it is counted, and nothing else happens. *)
Theorem unroutable_is_dropped s addr d ans :
  ps_running s = true -> pu_clients (ps_self s) !! addr = None ->
  (forall u, ufrag_of (recv_buf d) = Some u -> pu_routes (ps_self s) !! u = None) ->
  pooled_step s (LDatagram d addr ans) =
  Some (mkPooledSys (ps_self s) (ps_world s) true
          (ps_log s ++ [Count IN_CLIENT_UDP_MESSAGE; Count UNROUTED_POOLED_UDP_MESSAGE])).
Proof.
  intros Hrun Hl Hu. unfold pooled_step. rewrite Hrun. cbn [pooled_select].
  unfold on_datagram, task_bind at 1 2, emit. rewrite Hl. unfold route_afresh, find_route.
  destruct (ufrag_of (recv_buf d)) as [u|]; [rewrite (Hu u) by done|]; done.
Qed.

(** ** No deadlock *)

Lemma ProxyClient_send_blocked sent sk data rid w :
  ProxyClient_send sent sk data rid w = None -> sent = Ok tt /\ control_send rid DataSent w = None.
Proof.
  unfold ProxyClient_send, task_bind, emit, task_ret. destruct sent as [[]|]; [|done].
  destruct (control_send _ _ _) as [[[]]|]; naive_solver.
Qed.

Lemma route_afresh_not_blocked self data addr ans w : route_afresh self data addr ans w <> None.
Proof.
  unfold route_afresh. destruct (find_route self data) as [[u t]|]; [|done].
  unfold task_bind at 1.
  destruct (allocate_handler _ _ _ _ _) as [[[[h|e] w1] e1]|] eqn:Ea; [|done|].
  2: { by apply alloc_not_blocked in Ea. }
  pose proof (alloc_send_not_blocked _ _ _ _ _ _ _ _ DataSent Ea) as Hnb.
  unfold task_bind at 1.
  destruct (ProxyClient_send _ _ _ _ _) as [[[[[]|e] w2] e2]|] eqn:Es; [| |].
  - unfold pooled_insert_client. by destruct (pu_clients self !! addr).
  - done.
  - by apply ProxyClient_send_blocked in Es as [_ Es].
Qed.

Lemma on_datagram_not_blocked self data addr ans w :
  (forall c, pu_clients self !! addr = Some c ->
     control_send (h_sender (pcl_handler c)) DataSent w <> None) ->
  on_datagram self data addr ans w <> None.
Proof.
  intros Hnb. unfold on_datagram, task_bind at 1, emit.
  pose proof (fun self w => route_afresh_not_blocked self data addr ans w) as Hra.
  destruct (pu_clients self !! addr) as [c|] eqn:Ec.
  - unfold task_bind at 1. destruct (ProxyClient_send _ _ _ _ _) as [[[[[]|e] w2] e2]|] eqn:Es.
    + done.
    + unfold pooled_remove_client. rewrite Ec. unfold task_bind, modify, task_ret.
      destruct (route_afresh _ _ _ _ _) as [[[]]|] eqn:Er; [done|]. by apply Hra in Er.
    + apply ProxyClient_send_blocked in Es as [_ Es]. by apply Hnb in Es.
  - destruct (route_afresh _ _ _ _ _) as [[[]]|] eqn:Er; [done|]. by apply Hra in Er.
Qed.

(** A datagram that has to wait waits where [pooled_waits] says. *)
Lemma datagram_waits self d addr ans w :
  pooled_select self (LDatagram d addr ans) w = None ->
  exists e, pooled_waits self (AtControl d addr) w = Some (tt, w, e).
Proof.
  cbn [pooled_select]. intros Hs.
  assert (Hn : on_datagram self (recv_buf d) addr ans w = None).
  { unfold task_bind in Hs. by destruct (on_datagram _ _ _ _ _) as [[[]]|]. }
  destruct (pu_clients self !! addr) as [c|] eqn:Ec.
  - destruct (control_send (h_sender (pcl_handler c)) DataSent w) eqn:Es.
    + destruct (on_datagram_not_blocked self (recv_buf d) addr ans w); [|done].
      intros c' Hc'. rewrite Ec in Hc'. simplify_eq. congruence.
    + eexists. unfold pooled_waits. change (_ ≫= _) with (pcl_handler <$> pu_clients self !! addr).
      rewrite Ec. cbn [relay_waits fmap option_fmap option_map]. unfold task_bind, emit, send_waits.
      by rewrite Es.
  - by destruct (on_datagram_not_blocked self (recv_buf d) addr ans w); [congruence|].
Qed.

(** C15: the receive loop cannot deadlock on its relays: whenever handling a datagram has to wait,
    it waits for the running relay of that address, that relay can take a message off its control
    channel, and right after it did, the datagram is handled. *)
Theorem blocked_datagram_progresses sock s d addr ans :
  reachable pooled_step (pooled_init sock) s -> ps_running s = true ->
  pooled_step s (LDatagram d addr ans) = None ->
  exists c s1 s2, pu_clients (ps_self s) !! addr = Some c /\
    pooled_step s (LRelay (h_handler (pcl_handler c)) (RlSelect RelayControl)) = Some s1 /\
    pooled_step s1 (LDatagram d addr ans) = Some s2.
Proof.
  intros ((_ & _ & Ho) & _)%pooled_reachable_ok Hrun Hnone.
  assert (Hstep : forall s', ps_running s' = true ->
    on_datagram (ps_self s') (recv_buf d) addr ans (ps_world s') <> None ->
    exists s2, pooled_step s' (LDatagram d addr ans) = Some s2).
  { intros s' Hr Hn. unfold pooled_step. rewrite Hr. cbn [pooled_select]. unfold task_bind.
    destruct (on_datagram _ _ _ _ _) as [[[self w] e]|]; [|done]. cbn. eauto. }
  destruct (pu_clients (ps_self s) !! addr) as [c|] eqn:Ec.
  - destruct (control_send (h_sender (pcl_handler c)) DataSent (ps_world s)) eqn:Es.
    { exfalso. destruct (Hstep s Hrun) as [s2 Hs2]; [|congruence].
      apply on_datagram_not_blocked. intros c' Hc'. rewrite Ec in Hc'. simplify_eq. congruence. }
    destruct (control_send_blocked _ _ _ addr (pcl_handler c) DataSent Ho) as (w1 & e1 & Hw & Hnb);
      [apply handlers_lookup; eauto|done|].
    exists c, (mkPooledSys (ps_self s) w1 (ps_running s) (ps_log s ++ e1)).
    destruct (Hstep (mkPooledSys (ps_self s) w1 (ps_running s) (ps_log s ++ e1)) Hrun) as [s2 Hs2].
    + apply on_datagram_not_blocked. intros c' Hc'. cbn in *. rewrite Ec in Hc'.
      simplify_eq. apply Hnb.
    + exists s2. split_and!; [done| |done]. cbn. by rewrite Hrun, Hw.
  - exfalso. destruct (Hstep s Hrun) as [s2 Hs2]; [|congruence].
    apply on_datagram_not_blocked. congruence.
Qed.
End PooledProps.
