(* ===== verification/UdpClientProps.v ===== *)
(** * Properties of relays and per-session endpoints

    A relay answers its own client only; a per-session endpoint forwards to its session's target
    only, tells the manager of its end at most once, and ends its relays with itself. *)

From S2P Require Import Prelude RustInt Types Chan UdpClient RelayInv.

Section UdpClientProps.
Context `{MpscLaws}.

Implicit Types (s : ep_sys) (self : ProxyEndpoint) (w : world).

(** ** Relays *)

(** C21: a relay sends only what its target answered, to its own client, through the owner's
    socket; an answer of at most 4096 bytes goes through unchanged, a longer one loses its tail. *)
Theorem relay_answers_its_client (c : ProxyClient) ev ctl effs sk to data :
  relay_select c ev = Some (ctl, effs) -> UdpSend sk to data ∈ effs ->
  sk = pc_target_socket c /\ to = Some (pc_addr c) /\
  exists answer, ev = RelayRecv (Ok answer) (Ok tt) /\ data = recv_buf answer /\
    ctl = Continue c /\ (length answer <= BUF_LEN -> data = answer).
Proof.
  intros Hs Hin. unfold relay_select in Hs.
  repeat case_match; simplify_eq; try set_solver.
  rewrite !elem_of_cons, elem_of_nil in Hin.
  destruct Hin as [|[|[]]]; simplify_eq. split_and!; [done|done|].
  match goal with u : unit |- _ => destruct u end.
  eexists. split_and!; [done|done|done|]. apply recv_buf_short.
Qed.

(** The life of a relay task: it takes rounds only in its loop; leaving the loop closes its
    control channel before [ClientEnded] is sent, [ClientEnded] is sent once and ends the task, and
    only an aborted relay is cancelled. *)
Theorem relay_life_cycle (r : relay) lbl tx r' tx' effs :
  relay_ok r -> mpsc_is_closed tx = false -> relay_step r lbl tx = Some (r', tx', effs) ->
  rl_aborted r' = rl_aborted r /\ relay_ok r' /\
  match lbl with
  | RlSelect _ => rl_status r = Looping /\ tx' = tx
      /\ (rl_status r' = Looping
          \/ rl_status r' = Reporting /\ mpsc_is_closed (pc_control (rl_client r')) = true)
  | RlReport => rl_status r = Reporting /\ rl_status r' = Finished
      /\ mpsc_is_closed (pc_control (rl_client r)) = true
      /\ chan_contents tx' = chan_contents tx ++ [ClientEnded (pc_addr (rl_client r))]
  | RlCancel => rl_aborted r = true /\ rl_status r' = Finished /\ tx' = tx
  end.
Proof.
  intros (Hcl & Hcap & Hlen) Htx Hs. unfold relay_step in Hs.
  destruct lbl as [ev| |], (rl_status r) eqn:Est; try done.
  - destruct (relay_select _ _) as [[ctl e]|] eqn:Esel; [|done].
    apply relay_select_frame in Esel as (_ & _ & _ & Hc & Hk & Hn).
    destruct ctl as [c|c]; simplify_eq/=; (split; [done|]); split.
    + split_and!; cbn; [by rewrite Hc|by rewrite Hk|lia].
    + auto.
    + apply relay_ok_left; [by rewrite Hk|lia|done].
    + split_and!; [done|done|]. right. split; [done|]. apply close_closed.
  - assert (Hclosed : mpsc_is_closed (pc_control (rl_client r)) = true) by (by apply Hcl).
    destruct (mpsc_send _ _) as [ch| |] eqn:Esnd; simplify_eq.
    + apply send_Sent in Esnd as (_ & Hc & _). split; [done|]. split; [|by split_and!].
      split_and!; cbn; naive_solver.
    + apply send_SendClosed in Esnd. congruence.
  - destruct (rl_aborted r); [|done]. simplify_eq. split; [done|]. split; [|done].
    by apply relay_ok_left.
  - destruct (rl_aborted r); [|done]. simplify_eq. split; [done|]. split; [|done].
    by apply relay_ok_left.
Qed.

(** ** The per-session endpoint *)

(** Every client's relay is connected to the session's target, and clients and relays agree. *)
Definition ep_ok self w : Prop :=
  owns (pe_udp_socket self) (pe_clients self) w /\
  forall addr h, pe_clients self !! addr = Some h -> us_peer (h_socket h) = Some (pe_remote_addr self).

(** What identifies an endpoint. *)
Definition same_endpoint self self' : Prop :=
  pe_udp_socket self' = pe_udp_socket self /\ pe_endpoint self' = pe_endpoint self
  /\ pe_remote_addr self' = pe_remote_addr self.

(** The datagram a round has in hand. *)
Definition event_in_hand (ev : endpoint_event) : option (list byte * SocketAddr) :=
  match ev with EpRecv (Ok received) _ _ => Some received | _ => None end.

(** The effects the endpoint may have with [received] in hand: only that datagram is sent, to the
    target. *)
Definition to_target self (received : option (list byte * SocketAddr)) (eff : effect) : Prop :=
  match eff with
  | UdpSend _ to data => to = Some (pe_remote_addr self) /\
      exists d addr, received = Some (d, addr) /\ data = recv_buf d
  | Count _ => True
  | TellManager _ => False
  end.

Lemma remove_client_ok self addr w self' w' e :
  ep_ok self w -> remove_client self addr w = Some (self', w', e) ->
  ep_ok self' w' /\ same_endpoint self self' /\ e = []
  /\ pe_clients self' = delete addr (pe_clients self).
Proof.
  intros [Ho Hp] Hr. unfold remove_client in Hr.
  destruct (pe_clients self !! addr) as [h|] eqn:Eh; inv_task Hr.
  - split_and!; try done. split; [by eapply owns_delete|].
    intros a h' Hl. cbn in *. apply lookup_delete_Some in Hl as [_ Hl]. by eapply Hp.
  - split_and!; try done. by rewrite delete_id.
Qed.

(** Taking the end of a client off the channel and removing the client. *)
Lemma recv_remove_ok self addr w ch self' w' e :
  ep_ok self w -> mpsc_recv (w_client w) = Received (ClientEnded addr) ch ->
  remove_client self addr (set_client ch w) = Some (self', w', e) ->
  ep_ok self' w' /\ same_endpoint self self' /\ e = []
  /\ pe_clients self' = delete addr (pe_clients self).
Proof.
  intros [Ho Hp] Hr Hs. unfold remove_client in Hs.
  assert (Hd : owns (pe_udp_socket self) (delete addr (pe_clients self)) (set_client ch w)).
  { eapply owns_recv; [|exact Hr|].
    - eapply owns_sub; [exact Ho|]. intros a h Hl. by apply lookup_delete_Some in Hl as [_ ?].
    - intros a h r [= ->] Hl. by rewrite lookup_delete_eq in Hl. }
  destruct (pe_clients self !! addr) as [h|] eqn:Eh; inv_task Hs.
  - split_and!; try done. split.
    + apply owns_abort; [exact Hd|]. intros a h' Hl E. cbn in Hl.
      apply lookup_delete_Some in Hl as [Hne Hl]. apply Hne.
      by eapply (owns_distinct _ _ w).
    + intros a h' Hl. cbn in *. apply lookup_delete_Some in Hl as [_ Hl]. by eapply Hp.
  - rewrite delete_id in * by done. split_and!; try done.
Qed.

Lemma get_or_create_ok self addr ans w r w' e :
  ep_ok self w -> get_or_create_client self addr (pe_udp_socket self) ans w = Some (r, w', e) ->
  Forall (fun eff => exists m, eff = Count m) e /\
  match r with
  | Err _ => w' = w
  | Ok (h, self') => ep_ok self' w' /\ same_endpoint self self'
      /\ pe_clients self' !! addr = Some h
  end.
Proof.
  intros [Ho Hp] Hg. unfold get_or_create_client in Hg.
  destruct (pe_clients self !! addr) as [h|] eqn:Eh; [by inv_task Hg; split|].
  inv_task Hg. destruct a as [h|err].
  - inv_task Hg. eapply owns_alloc in Hm as (Ho' & Hh & Hpeer & _ & ->); [|exact Ho].
    split; [apply Forall_singleton; eauto|]. split_and!; try done; [|apply lookup_insert_eq].
    split.
    + by apply owns_insert.
    + intros a' h' Hl. cbn in Hl. rewrite lookup_insert in Hl.
      case_decide; simplify_eq; [done|]. by eapply Hp.
  - inv_task Hg. apply alloc_err in Hm as [-> ->]. by split.
Qed.

Lemma endpoint_select_ok self ev w ctl w' e :
  ep_ok self w -> endpoint_select self ev w = Some (ctl, w', e) ->
  ep_ok (ctl_state ctl) w' /\ same_endpoint self (ctl_state ctl) /\
  Forall (to_target self (event_in_hand ev)) e.
Proof.
  intros Hok Hs. destruct ev as [[[d addr]|err] ans sent| |]; cbn [endpoint_select] in Hs.
  - inv_task Hs. apply get_or_create_ok in Hm as [He Hr]; [|done].
    assert (He' : Forall (to_target self (Some (d, addr))) (Count IN_CLIENT_UDP_MESSAGE :: e))
      by (constructor; [done|]; eapply Forall_impl; [exact He|]; by intros ? [m ->]).
    destruct a as [[h self1]|err].
    + destruct Hr as (Hok1 & Hsame & Hh). inv_task Hs.
      eapply owns_ProxyClient_send in Hm as (Ho2 & _ & Hse); [|apply Hok1].
      assert (Hok2 : ep_ok self1 w1) by (split; [exact Ho2|apply Hok1]).
      assert (Hse' : Forall (to_target self (Some (d, addr))) e1).
      { destruct Hse as [->|[-> ->]]; [constructor|]. apply Forall_singleton. cbn.
        rewrite (proj2 Hok1 _ _ Hh). destruct Hsame as (_ & _ & ->). eauto 10. }
      destruct a as [|err].
      * inv_task Hs. split_and!; [done|done|]. rewrite app_nil_r.
        apply (Forall_app_2 _ (_ :: e)); done.
      * inv_task Hs. apply remove_client_ok in Hm as (Hok3 & Hs3 & -> & _); [|done].
        unfold break_if_empty. assert (Hst : same_endpoint self a).
        { unfold same_endpoint in *. split_hyps; split_and!; congruence. }
        case_bool_decide; (split_and!; [done|done|]); rewrite !app_nil_r;
          apply (Forall_app_2 _ (_ :: e)); done.
    + inv_task Hs. subst. rewrite app_nil_r. done.
  - by inv_task Hs.
  - inv_task Hs. unfold client_recv in Hm.
    destruct (mpsc_recv (w_client w)) as [m ch| |] eqn:Er; [| |done]; simplify_eq.
    + assert (Hother : (forall addr, m <> ClientEnded addr) -> ep_ok self (set_client ch w)).
      { intros Hne. split; [|apply Hok]. eapply owns_recv; [apply Hok|exact Er|].
        intros addr h r ->. by destruct (Hne addr). }
      destruct m as [addr| |]; inv_task Hs; [|by split_and!; try done; apply Hother..].
      eapply recv_remove_ok in Hm as (Hok1 & Hs1 & -> & _); [|done|done].
      unfold break_if_empty. case_bool_decide; by split_and!.
    + by inv_task Hs.
  - by inv_task Hs; split_and!; [..|apply Forall_singleton].
Qed.

Lemma endpoint_waits_ok self wt w u w' e :
  ep_ok self w -> endpoint_waits self wt w = Some (u, w', e) ->
  Forall (to_target self (waiting_with wt)) e.
Proof.
  intros [_ Hp] (_ & [->|(h & d & addr & Hh & Hw & He)])%relay_waits_Some; [constructor|].
  rewrite Hw in Hh |- *. cbn in Hh. destruct He as [->| ->]; (constructor; [done|]); [constructor|].
  apply Forall_singleton. split; [by apply (Hp addr)|eauto].
Qed.

(** A round that has to wait, other than for its event, waits where [endpoint_waits] says. *)
Lemma round_waits self d addr ans sent w :
  endpoint_select self (EpRecv (Ok (d, addr)) ans sent) w = None ->
  exists e, endpoint_waits self (AtControl d addr) w = Some (tt, w, e).
Proof.
  cbn [endpoint_select]. unfold endpoint_waits.
  change (_ ≫= _) with (pe_clients self !! addr). cbn [relay_waits]. unfold get_or_create_client, ProxyClient_send.
  destruct (pe_clients self !! addr) as [h|] eqn:Eh.
  - unfold task_bind, emit, task_ret, send_waits.
    destruct (control_send (h_sender h) DataSent w) as [[[r w1] e1]|] eqn:Es; [|by eauto].
    unfold remove_client. rewrite Eh. by destruct sent, r; rewrite ?Es.
  - unfold task_bind, emit.
    destruct (allocate_handler (pe_remote_addr self) addr (pe_udp_socket self) ans w)
      as [[[[h|e] w1] e1]|] eqn:Ea; [|done|].
    2: { by apply alloc_not_blocked in Ea. }
    pose proof (alloc_send_not_blocked _ _ _ _ _ _ _ _ DataSent Ea) as Hnb.
    unfold task_bind, task_ret, remove_client. cbn. rewrite lookup_insert_eq.
    destruct sent; [|done]. by destruct (control_send _ _ _) as [[[[|] w2] e2]|] eqn:Es.
Qed.

Lemma ep_drop_ok s told : ep_ok (es_self s) (es_world s) ->
  ep_ok (es_self (ep_drop s told)) (es_world (ep_drop s told)).
Proof.
  intros [Ho Hp]. split; cbn.
  - apply owns_drop_handlers; [|intros d a h _ Hl; by rewrite lookup_empty in Hl].
    eapply owns_sub; [exact Ho|]. intros a h Hl. by rewrite lookup_empty in Hl.
  - intros a h Hl. by rewrite lookup_empty in Hl.
Qed.

(** ** Steps of the endpoint's task *)

Definition tells (log : list effect) : list effect :=
  List.filter (fun e => match e with TellManager _ => true | _ => false end) log.

Lemma tells_app l1 l2 : tells (l1 ++ l2) = tells l1 ++ tells l2.
Proof. apply List.filter_app. Qed.

Lemma tells_to_target self received e : Forall (to_target self received) e -> tells e = [].
Proof. induction 1 as [|x l Hx _ IH]; [done|]. by destruct x. Qed.

Lemma world_step_tells alive w rid lbl w' e : world_step alive w rid lbl = Some (w', e) -> tells e = [].
Proof.
  unfold world_step, relay_step, relay_select. intros Hs. by repeat case_match; simplify_eq/=.
Qed.

(** A finished endpoint has no client. *)
Definition ep_sys_ok (s : ep_sys) : Prop :=
  ep_ok (es_self s) (es_world s) /\ (es_phase s = EpFinished -> pe_clients (es_self s) = ∅).

Lemma ep_step_ok s lbl s' :
  ep_sys_ok s -> ep_step s lbl = Some s' -> ep_sys_ok s' /\ same_endpoint (es_self s) (es_self s') /\
  exists e, es_log s' = es_log s ++ e /\
  match lbl with
  | EsSelect ev =>
      es_phase s = EpLooping /\ es_phase s' <> EpFinished /\
      Forall (to_target (es_self s) (event_in_hand ev)) e
  | EsReport sent =>
      es_phase s = EpReporting /\ es_phase s' = EpFinished /\
      e = if sent then [TellManager (UdpEndpointEnded (pe_endpoint (es_self s)))] else []
  | EsCancel wt =>
      es_phase s <> EpFinished /\ es_phase s' = EpFinished /\
      Forall (to_target (es_self s) (waiting_with wt)) e
  | EsRelay _ _ => es_phase s' = es_phase s /\ tells e = []
  end.
Proof.
  intros [Hok Hdead] Hs. unfold ep_sys_ok. destruct lbl as [ev|sent|wt|rid l]; cbn in Hs.
  - destruct (es_phase s) eqn:Ep; [|done..].
    destruct (endpoint_select _ _ _) as [[[ctl w] e]|] eqn:Esel; [|done].
    apply endpoint_select_ok in Esel as (Hok' & Hsame & He); [|done].
    destruct ctl as [self|self]; simplify_eq; cbn; (split; [done|]; split; [done|]); eauto.
  - destruct (es_phase s) eqn:Ep; [done| |done]. simplify_eq.
    split; [by split; [apply ep_drop_ok|]|]. split; [done|]. cbn. destruct sent; eauto.
  - assert (He : exists e, s' = ep_drop s e /\ es_phase s <> EpFinished
                   /\ Forall (to_target (es_self s) (waiting_with wt)) e).
    { destruct (es_phase s) eqn:Ep; [|destruct wt; [|done..]|done].
      - destruct (endpoint_waits _ _ _) as [[[u w] e]|] eqn:Ew; [|done]. simplify_eq.
        apply endpoint_waits_ok in Ew; eauto.
      - simplify_eq. by exists []. }
    destruct He as (e & -> & Hp & He). split; [by split; [apply ep_drop_ok|]|]. split; [done|].
    by exists e.
  - destruct (world_step _ _ _ _) as [[w e]|] eqn:Ew; [|done]. simplify_eq. cbn.
    split; [split; [split; [|apply Hok]|done]|split; [done|]].
    { destruct Hok as [Ho _]. case_bool_decide as Ep; [by eapply owns_relay_step|].
      assert (E : pe_clients (es_self s) = ∅) by (apply Hdead; destruct (es_phase s); [by destruct Ep..|done]).
      cbn. rewrite E in *. by eapply owns_relay_step_dead. }
    exists e. split; [done|]. split; [done|]. by eapply world_step_tells.
Qed.

Lemma ep_init_ok sock e remote : ep_sys_ok (ep_init sock e remote).
Proof.
  split; [split|done]; [apply owns_init|]. intros addr h Hl. cbn in Hl. by rewrite lookup_empty in Hl.
Qed.

Definition told_inv (e : Endpoint) s : Prop :=
  match es_phase s with
  | EpFinished => tells (es_log s) = [] \/ tells (es_log s) = [TellManager (UdpEndpointEnded e)]
  | _ => tells (es_log s) = []
  end.

Lemma ep_reachable_ok sock e remote s :
  reachable ep_step (ep_init sock e remote) s ->
  ep_sys_ok s
  /\ same_endpoint (es_self (ep_init sock e remote)) (es_self s) /\ told_inv e s.
Proof.
  revert s. apply (reachable_inv ep_step (fun s => ep_sys_ok s
    /\ same_endpoint (es_self (ep_init sock e remote)) (es_self s) /\ told_inv e s)).
  { split; [apply ep_init_ok|]. by split. }
  intros s lbl s' (Hok & Hsame & Htold) Hs.
  destruct (ep_step_ok _ _ _ Hok Hs) as (Hok' & Hsame' & ef & Hlog & Hcase).
  assert (Hend : pe_endpoint (es_self s) = e) by apply Hsame.
  split; [done|]. split; [unfold same_endpoint in *; split_hyps; split_and!; congruence|].
  unfold told_inv in *. rewrite Hlog, tells_app. destruct lbl as [ev|sent|wt|rid l].
  - destruct Hcase as (Hp & Hp' & Hf%tells_to_target). rewrite Hf, app_nil_r, Hp in *.
    by destruct (es_phase s').
  - destruct Hcase as (Hp & -> & ->). rewrite Hp in Htold. rewrite Htold, Hend.
    destruct sent; [by right|by left].
  - destruct Hcase as (Hp & -> & Hf%tells_to_target). rewrite Hf, app_nil_r.
    destruct (es_phase s); [by left..|done].
  - destruct Hcase as (-> & ->). by rewrite app_nil_r.
Qed.

(** The datagram a step of the endpoint's own task has in hand. *)
Definition ep_in_hand (lbl : ep_label) : option (list byte * SocketAddr) :=
  match lbl with
  | EsSelect ev => event_in_hand ev
  | EsCancel wt => waiting_with wt
  | _ => None
  end.

(** C5: in the per-session mode every datagram an endpoint receives from any client leaves for the
    session's own target, as received, or not at all. *)
Theorem session_forwards_to_its_target sock e remote s lbl s' :
  reachable ep_step (ep_init sock e remote) s -> ep_step s lbl = Some s' ->
  (forall rid l, lbl <> EsRelay rid l) ->
  exists effs, es_log s' = es_log s ++ effs /\
  forall sk to data, UdpSend sk to data ∈ effs ->
    to = Some remote /\ exists d addr, ep_in_hand lbl = Some (d, addr) /\ data = recv_buf d.
Proof.
  intros Hr Hs Hown. destruct (ep_reachable_ok _ _ _ _ Hr) as (Hok & (_ & _ & Hrem) & _).
  destruct (ep_step_ok _ _ _ Hok Hs) as (_ & _ & effs & Hlog & Hcase).
  exists effs. split; [done|]. intros sk to data Hin.
  assert (Hf : to_target (es_self s) (ep_in_hand lbl) (UdpSend sk to data)).
  { destruct lbl as [ev|sent|wt|rid l]; cbn [ep_in_hand].
    1,3: destruct Hcase as (_ & _ & Hf); rewrite Forall_forall in Hf; by apply Hf.
    - destruct Hcase as (_ & _ & ->). destruct sent; set_solver.
    - by destruct (Hown rid l). }
  destruct Hf as [-> Hd]. by rewrite Hrem.
Qed.

(** C22: the manager hears of the end of an endpoint at most once, only when the endpoint is over,
    and by its own name; an endpoint that has left its loop can always report its end, and then the
    manager has been told. *)
Theorem endpoint_end_is_told_once sock e remote s :
  reachable ep_step (ep_init sock e remote) s ->
  (tells (es_log s) = [] \/
   es_phase s = EpFinished /\ tells (es_log s) = [TellManager (UdpEndpointEnded e)]) /\
  (es_phase s = EpReporting -> exists s', ep_step s (EsReport true) = Some s' /\
     es_phase s' = EpFinished /\ tells (es_log s') = [TellManager (UdpEndpointEnded e)]).
Proof.
  intros Hr. destruct (ep_reachable_ok _ _ _ _ Hr) as (_ & (_ & He & _) & Ht). unfold told_inv in Ht.
  split; [destruct (es_phase s); naive_solver|]. intros Hp. rewrite Hp in Ht. cbn. rewrite Hp.
  eexists. split; [done|]. split; [done|]. cbn. by rewrite tells_app, Ht, He.
Qed.

(** The end of a client is processed at once: the client is forgotten and its relay aborted,
    the other clients stay, and the endpoint ends exactly when no client is left. *)
Theorem client_end_is_processed s addr ch :
  es_phase s = EpLooping -> mpsc_recv (w_client (es_world s)) = Received (ClientEnded addr) ch ->
  exists s', ep_step s (EsSelect EpClientMsg) = Some s' /\
    pe_clients (es_self s') = delete addr (pe_clients (es_self s)) /\
    (forall h, pe_clients (es_self s) !! addr = Some h -> aborted (es_world s') (h_handler h)) /\
    (es_phase s' = EpReporting <-> pe_clients (es_self s') = ∅) /\
    (es_phase s' = EpLooping <-> pe_clients (es_self s') <> ∅) /\ es_log s' = es_log s.
Proof.
  intros Hp Hr. cbn. rewrite Hp. unfold task_bind, client_recv. rewrite Hr.
  unfold remove_client, task_bind, modify, task_ret.
  destruct (pe_clients (es_self s) !! addr) as [h|] eqn:Eh; unfold break_if_empty;
    (case_bool_decide as Es; [apply map_size_empty_inv in Es|];
     eexists; (split; [done|]); cbn in *; rewrite ?app_nil_r, ?delete_id by done).
  1,2: split_and!; try done; [by intros h' [= <-]; apply abort_relay_aborted; left|..].
  all: split_and!; try done; rewrite <- ?map_size_empty_iff in *; naive_solver.
Qed.

(** Any client may open a flow: on the first datagram of an address (the system allowing) a
    relay to the session's target is spawned, the datagram is forwarded over it as received, and
    the address is a client from then on. *)
Theorem first_datagram_opens_session_flow s addr d port :
  es_phase s = EpLooping -> pe_clients (es_self s) !! addr = None ->
  exists s' h,
    ep_step s (EsSelect (EpRecv (Ok (d, addr)) (mkAlloc (Ok port) (Ok tt)) (Ok tt))) = Some s' /\
    es_phase s' = EpLooping /\ h_socket h = mkUdpSocket port (Some (pe_remote_addr (es_self s))) /\
    pe_clients (es_self s') = <[addr := h]> (pe_clients (es_self s)) /\
    es_log s' = es_log s ++ [Count IN_CLIENT_UDP_MESSAGE; Count OUT_UDP_SOCKET_COUNTER;
      UdpSend (h_socket h) (Some (pe_remote_addr (es_self s))) (recv_buf d)].
Proof.
  intros Hp Hn. destruct (send_room (mpsc_channel 10) DataSent) as (ch & Hch & _).
  { apply channel_open. }
  { rewrite channel_contents, channel_capacity. cbn. lia. }
  cbn [ep_step endpoint_select]. rewrite Hp. unfold task_bind at 1. cbn [emit].
  unfold get_or_create_client. rewrite Hn. unfold allocate_handler. cbn.
  unfold task_bind, spawn_relay, task_ret, emit, control_send. cbn. rewrite lookup_insert_eq. cbn.
  rewrite Hch. eexists _, (mkProxyClientHandler _ _ _). by split_and!.
Qed.
End UdpClientProps.
