(* ===== verification/TcpClients.v ===== *)
(** * TCP relays and endpoints (src/proxy/tcp_clients.rs)

    A TCP relay ([ProxyTcpClient]) copies bytes both ways between a client's connection and one it
    opened to the session's target; a [ProxyTcpEndpoint] accepts the clients' connections and
    spawns a relay for each.

    [select!] polls the two copying directions together and drops the one that did not finish, so
    a direction is modelled with the point its future stands at ([rw_future]), and a poll of it
    takes one answer of the operating system. *)

From S2P Require Import Prelude RustInt Types Chan.
Local Open Scope Z_scope.

(** ** Copying in one direction *)

(** The [io::Error]s the code tells apart. *)
Inductive io_error : Type :=
| WouldBlock
| OtherError (e : string).

(** A future of [read_and_write]: before [try_read], or in [write_to_stream] with what it read. *)
Inductive rw_future : Type :=
| RwReading
| RwWriting (data : list byte).

#[global] Instance rw_future_eq_dec : EqDecision rw_future.
Proof. solve_decision. Defined.

(** What the operating system answers a poll: an error of [readable] or [writable], or the outcome
    of the [try_read] or [try_write] that follows. *)
Inductive rw_answer : Type :=
| NotReadable (e : string)
| TryRead (r : result io_error (list byte))
| NotWritable (e : string)
| TryWrite (r : result io_error nat).

(** A poll leaves the future pending, or finishes it; [written] entered the write stream. *)
Inductive rw_poll : Type :=
| RwPending (f : rw_future)
| RwReady (r : result string unit) (written : list byte).

(** A poll of [write_to_stream(stream, buf)]; [None] when the answer is not one a stream gives. *)
Definition write_to_stream (buf : list byte) (ans : rw_answer) : option rw_poll :=
  match ans with
  | NotWritable e => Some (RwReady (Err e) [])
  | TryWrite (Ok n) =>
      if (n <=? length buf)%nat then Some (RwReady (Ok tt) (take n buf)) else None
  | TryWrite (Err WouldBlock) => Some (RwPending (RwWriting buf))
  | TryWrite (Err (OtherError e)) => Some (RwReady (Err e) [])
  | _ => None
  end.

(** A poll of [read_and_write]. *)
Definition read_and_write (f : rw_future) (ans : rw_answer) : option rw_poll :=
  match f with
  | RwReading =>
      match ans with
      | NotReadable e => Some (RwReady (Err e) [])
      | TryRead (Ok []) => Some (RwReady (Err "socket is closed"%string) [])
      | TryRead (Ok data) =>
          if (length data <=? BUF_LEN)%nat then Some (RwPending (RwWriting data)) else None
      | TryRead (Err WouldBlock) => Some (RwReady (Ok tt) [])
      | TryRead (Err (OtherError _)) => Some (RwReady (Err "socket is closed"%string) [])
      | _ => None
      end
  | RwWriting buf => write_to_stream buf ans
  end.

(** ** The relay *)

(** Which stream is read. *)
Inductive side : Type := ClientSide | ServerSide.

#[global] Instance side_eq_dec : EqDecision side.
Proof. solve_decision. Defined.

Definition other (d : side) : side :=
  match d with ClientSide => ServerSide | ServerSide => ClientSide end.

(** What a TCP task does: bytes taken from a stream, bytes given to a stream, counters, messages. *)
Inductive tcp_effect : Type :=
| ReadFrom (d : side) (data : list byte)
| WroteTo (d : side) (data : list byte)
| TcpCount (m : metric)
| TcpTellManager (msg : ProxyManagerMsg).

(** [struct ProxyTcpClient]; its streams are the two sides, its [msg_tx] the sender of the world's
    channel. *)
Record ProxyTcpClient : Type := mkProxyTcpClient {
  tc_endpoint : Endpoint;
  tc_addr : SocketAddr
}.

(** The operating system's answers to [ProxyTcpClient::new]: the addresses the endpoint's name
    resolves to, and whether the connection opens. *)
Record new_answers : Type := mkNew {
  na_lookup : string -> result string (list SocketAddr);
  na_connect : SocketAddr -> result string unit
}.

(** [ProxyTcpClient::new]: both [unwrap]s panic. *)
Definition ProxyTcpClient_new (addr : SocketAddr) (endpoint : Endpoint) (ans : new_answers)
  : outcome (result string (ProxyTcpClient * list tcp_effect)) :=
  match na_lookup ans (Endpoint_to_string endpoint) with
  | Err _ => Panic
  | Ok [] => Panic
  | Ok (remote_adr :: _) =>
      match na_connect ans remote_adr with
      | Err e => Ret (Err e)
      | Ok _ => Ret (Ok (mkProxyTcpClient endpoint addr, [TcpCount TCP_CONNECTION_TO_SRV]))
      end
  end.

(** The two futures of the round of [select!] under way. *)
Record rw_pair : Type := mkPair { rw_client : rw_future; rw_server : rw_future }.

Definition fresh_pair : rw_pair := mkPair RwReading RwReading.

Definition rw_get (d : side) (p : rw_pair) : rw_future :=
  match d with ClientSide => rw_client p | ServerSide => rw_server p end.

Definition rw_set (d : side) (f : rw_future) (p : rw_pair) : rw_pair :=
  match d with
  | ClientSide => mkPair f (rw_server p)
  | ServerSide => mkPair (rw_client p) f
  end.

(** The counter of a direction. *)
Definition in_msg_counter (d : side) : metric :=
  match d with ClientSide => IN_CLIENT_TCP_MESSAGE | ServerSide => IN_MS_TCP_MESSAGE end.

(** What happens next in the round: a direction is polled, or the timeout elapsed. *)
Inductive tcp_event : Type :=
| TcpPoll (d : side) (ans : rw_answer)
| TcpIdle.

(** What a successful [try_read] took off its stream. *)
Definition read_effect (d : side) (f : rw_future) (ans : rw_answer) : list tcp_effect :=
  match f, ans with
  | RwReading, TryRead (Ok data) => [ReadFrom d data]
  | _, _ => []
  end.

(** What entered a stream. *)
Definition write_effect (d : side) (data : list byte) : list tcp_effect :=
  match data with [] => [] | _ => [WroteTo d data] end.

(** The loop of [ProxyTcpClient::run]: a finished direction ends the round, and the next round
    starts both directions afresh; an unsuccessful one and the timeout end the loop. *)
Definition tcp_select (p : rw_pair) (ev : tcp_event) : option (loop_ctl rw_pair * list tcp_effect) :=
  match ev with
  | TcpIdle => Some (Break p, [])
  | TcpPoll d ans =>
      match read_and_write (rw_get d p) ans with
      | None => None
      | Some (RwPending f) => Some (Continue (rw_set d f p), read_effect d (rw_get d p) ans)
      | Some (RwReady (Ok _) written) =>
          Some (Continue fresh_pair, write_effect (other d) written ++ [TcpCount (in_msg_counter d)])
      | Some (RwReady (Err _) written) => Some (Break p, write_effect (other d) written)
      end
  end.

Section TcpClients.
Context `{Mpsc}.

(** A relay task: in its loop, with [ClientEnded] still to be sent, or gone.  Its log is the order
    in which it moved bytes. *)
Inductive tcp_status : Type := TcpLooping | TcpReporting | TcpFinished.

#[local] Instance tcp_status_eq_dec : EqDecision tcp_status.
Proof. solve_decision. Defined.

Record tcp_relay : Type := mkTcpRelay {
  tr_client : ProxyTcpClient;
  tr_rw : rw_pair;
  tr_status : tcp_status;
  tr_log : list tcp_effect
}.

(** A relay as [tokio::spawn] starts it. *)
Definition tcp_spawned (c : ProxyTcpClient) (log : list tcp_effect) : tcp_relay :=
  mkTcpRelay c fresh_pair TcpLooping log.

Inductive tcp_label : Type := TlSelect (ev : tcp_event) | TlReport.

(** [ProxyTcpClient::run], with the channel it reports on. *)
Definition tcp_relay_step (r : tcp_relay) (lbl : tcp_label) (msg_tx : chan ProxyClientMsg)
  : option (tcp_relay * chan ProxyClientMsg) :=
  match lbl, tr_status r with
  | TlSelect ev, TcpLooping =>
      match tcp_select (tr_rw r) ev with
      | Some (Continue p, effs) =>
          Some (mkTcpRelay (tr_client r) p TcpLooping (tr_log r ++ effs), msg_tx)
      | Some (Break p, effs) =>
          Some (mkTcpRelay (tr_client r) p TcpReporting (tr_log r ++ effs), msg_tx)
      | None => None
      end
  | TlReport, TcpReporting =>
      let gone := mkTcpRelay (tr_client r) (tr_rw r) TcpFinished (tr_log r) in
      match mpsc_send msg_tx (ClientEnded (tc_addr (tr_client r))) with
      | Sent ch => Some (gone, ch)
      | SendClosed => Some (gone, msg_tx)
      | SendPending => None
      end
  | _, _ => None
  end.

(** ** The endpoint *)

(** The relays an endpoint spawned, and the channel they report their end on. *)
Record tcp_world : Type := mkTcpWorld {
  tw_relays : gmap nat tcp_relay;
  tw_next : nat;
  tw_client : chan ProxyClientMsg
}.

(** [struct ProxyTcpEndpoint]; its listener is known by its port and feeds [TcpAccept], a client's
    [JoinHandle] is its relay's number. *)
Record ProxyTcpEndpoint : Type := mkProxyTcpEndpoint {
  te_tcp_listener : Z;
  te_endpoint : Endpoint;
  te_clients : gmap SocketAddr nat
}.

(** [ProxyTcpEndpoint::new]. *)
Definition ProxyTcpEndpoint_new (tcp_listener : Z) (endpoint : Endpoint)
  : ProxyTcpEndpoint * list tcp_effect :=
  (mkProxyTcpEndpoint tcp_listener endpoint ∅, [TcpCount TCP_SOCKET_ALLOCATE]).

Definition te_set_clients (self : ProxyTcpEndpoint) (clients : gmap SocketAddr nat) :=
  mkProxyTcpEndpoint (te_tcp_listener self) (te_endpoint self) clients.

(** The branches of the endpoint's [select!]. *)
Inductive tcp_ep_event : Type :=
| TcpAccept (accepted : result string SocketAddr) (ans : new_answers)
| TcpClientMsg
| TcpEpIdle.

Definition tcp_world_add (w : tcp_world) (c : ProxyTcpClient) (effs : list tcp_effect) : tcp_world :=
  mkTcpWorld (<[tw_next w := tcp_spawned c effs]> (tw_relays w)) (S (tw_next w)) (tw_client w).

(** One round of [ProxyTcpEndpoint::run]; a panic ends the task.  Inserting or removing a client
    only drops a [JoinHandle], which leaves the relay's task alone. *)
Definition tcp_ep_select (self : ProxyTcpEndpoint) (w : tcp_world) (ev : tcp_ep_event)
  : option (outcome (loop_ctl ProxyTcpEndpoint * tcp_world * list tcp_effect)) :=
  match ev with
  | TcpAccept (Err _) _ => Some (Ret (Break self, w, []))
  | TcpAccept (Ok addr) ans =>
      match ProxyTcpClient_new addr (te_endpoint self) ans with
      | Panic => Some Panic
      | Ret (Err _) => Some (Ret (Continue self, w, []))
      | Ret (Ok (client, effs)) =>
          let self' := te_set_clients self (<[addr := tw_next w]> (te_clients self)) in
          Some (Ret (Continue self', tcp_world_add w client effs, effs))
      end
  | TcpClientMsg =>
      match mpsc_recv (tw_client w) with
      | Received (ClientEnded addr) ch =>
          let self' := te_set_clients self (delete addr (te_clients self)) in
          let ctl := if bool_decide (size (te_clients self') = 0%nat) then Break self'
                     else Continue self' in
          Some (Ret (ctl, mkTcpWorld (tw_relays w) (tw_next w) ch, []))
      | Received _ ch => Some (Ret (Break self, mkTcpWorld (tw_relays w) (tw_next w) ch, []))
      | RecvNone => Some (Ret (Break self, w, []))
      | RecvPending => None
      end
  | TcpEpIdle => Some (Ret (Break self, w, [TcpCount IDLE_TCP_SERVER]))
  end.

(** The endpoint's task: in its loop, past it with [TcpEndpointEnded] still to be sent, gone, or
    gone by a panic. *)
Inductive tcp_ep_phase : Type := TepLooping | TepReporting | TepFinished | TepPanicked.

#[local] Instance tcp_ep_phase_eq_dec : EqDecision tcp_ep_phase.
Proof. solve_decision. Defined.

Record tcp_ep_sys : Type := mkTcpEp {
  ts_self : ProxyTcpEndpoint;
  ts_world : tcp_world;
  ts_phase : tcp_ep_phase;
  ts_log : list tcp_effect
}.

Inductive tcp_ep_label : Type :=
| TepSelect (ev : tcp_ep_event)
| TepReport (sent : bool)
| TepCancel
| TepRelay (rid : nat) (lbl : tcp_label).

(** The task is over: its receiver is dropped, the relays go on. *)
Definition tcp_ep_over (s : tcp_ep_sys) (phase : tcp_ep_phase) (effs : list tcp_effect) : tcp_ep_sys :=
  mkTcpEp (te_set_clients (ts_self s) ∅)
    (mkTcpWorld (tw_relays (ts_world s)) (tw_next (ts_world s)) (mpsc_close (tw_client (ts_world s))))
    phase (ts_log s ++ effs).

Definition tcp_ep_step (s : tcp_ep_sys) (lbl : tcp_ep_label) : option tcp_ep_sys :=
  match lbl, ts_phase s with
  | TepSelect ev, TepLooping =>
      match tcp_ep_select (ts_self s) (ts_world s) ev with
      | Some (Ret (Continue self, w, effs)) => Some (mkTcpEp self w TepLooping (ts_log s ++ effs))
      | Some (Ret (Break self, w, effs)) => Some (mkTcpEp self w TepReporting (ts_log s ++ effs))
      | Some Panic => Some (tcp_ep_over s TepPanicked [])
      | None => None
      end
  | TepReport sent, TepReporting =>
      let told := if sent : bool then [TcpTellManager (TcpEndpointEnded (te_endpoint (ts_self s)))]
                  else [] in
      Some (tcp_ep_over s TepFinished told)
  | TepCancel, (TepLooping | TepReporting) => Some (tcp_ep_over s TepFinished [])
  | TepRelay rid l, _ =>
      match tw_relays (ts_world s) !! rid with
      | None => None
      | Some r =>
          match tcp_relay_step r l (tw_client (ts_world s)) with
          | None => None
          | Some (r', ch) =>
              let w := mkTcpWorld (<[rid := r']> (tw_relays (ts_world s))) (tw_next (ts_world s)) ch in
              Some (mkTcpEp (ts_self s) w (ts_phase s) (ts_log s))
          end
      end
  | _, _ => None
  end.

(** The endpoint as [ProxyTcpEndpointHandler::new] spawns it. *)
Definition tcp_ep_init (tcp_listener : Z) (endpoint : Endpoint) : tcp_ep_sys :=
  let (self, effs) := ProxyTcpEndpoint_new tcp_listener endpoint in
  mkTcpEp self (mkTcpWorld ∅ 0 (mpsc_channel 10)) TepLooping effs.

End TcpClients.
