(* ===== verification/TcpProps.v ===== *)
(** * Properties of TCP relays and endpoints

    A relay never invents, duplicates or reorders bytes, and loses none while every write takes all
    it is offered and no direction is cut short; it does lose bytes otherwise.  An endpoint tells
    the manager of its end at most once and never touches a running relay. *)

From S2P Require Import Prelude RustInt Types Chan TcpClients.

(** ** Bytes of a log *)

Definition read_bytes (d : side) (log : list tcp_effect) : list byte :=
  concat (map (fun e => match e with
                        | ReadFrom d' data => if bool_decide (d' = d) then data else []
                        | _ => [] end) log).

Definition wrote_bytes (d : side) (log : list tcp_effect) : list byte :=
  concat (map (fun e => match e with
                        | WroteTo d' data => if bool_decide (d' = d) then data else []
                        | _ => [] end) log).

(** What a direction has read and not written yet. *)
Definition held (d : side) (p : rw_pair) : list byte :=
  match rw_get d p with RwReading => [] | RwWriting data => data end.

Lemma read_bytes_app d l1 l2 : read_bytes d (l1 ++ l2) = read_bytes d l1 ++ read_bytes d l2.
Proof. unfold read_bytes. by rewrite map_app, concat_app. Qed.

Lemma wrote_bytes_app d l1 l2 : wrote_bytes d (l1 ++ l2) = wrote_bytes d l1 ++ wrote_bytes d l2.
Proof. unfold wrote_bytes. by rewrite map_app, concat_app. Qed.

Lemma write_effect_bytes d d' data m :
  wrote_bytes d (write_effect d' data ++ [TcpCount m]) = (if bool_decide (d' = d) then data else [])
  /\ wrote_bytes d (write_effect d' data) = (if bool_decide (d' = d) then data else [])
  /\ read_bytes d (write_effect d' data ++ [TcpCount m]) = []
  /\ read_bytes d (write_effect d' data) = [].
Proof. destruct data; cbn; case_bool_decide; rewrite ?app_nil_r; auto. Qed.

(** ** The copying loop *)

(** The rounds of the loop, as long as they do not end it. *)
Definition tcp_loop (st : rw_pair * list tcp_effect) (ev : tcp_event)
  : option (rw_pair * list tcp_effect) :=
  match tcp_select st.1 ev with
  | Some (Continue p, effs) => Some (p, st.2 ++ effs)
  | _ => None
  end.

Lemma rw_get_set d f p : rw_get d (rw_set d f p) = f.
Proof. by destruct d. Qed.

Lemma rw_get_set_ne d d' f p : d' <> d -> rw_get d (rw_set d' f p) = rw_get d p.
Proof. by destruct d, d'. Qed.

(** A direction stays pending after a read, or while its stream takes nothing. *)
Lemma rw_pending f ans f' :
  read_and_write f ans = Some (RwPending f') ->
  (exists data, f = RwReading /\ ans = TryRead (Ok data) /\ f' = RwWriting data) \/
  (exists buf, f = RwWriting buf /\ f' = RwWriting buf).
Proof.
  unfold read_and_write, write_to_stream. intros Hr.
  destruct f; repeat case_match; simplify_eq; naive_solver.
Qed.

(** What a round's step does to the bytes of a direction. *)
Lemma tcp_select_bytes p ev ctl effs d :
  tcp_select p ev = Some (ctl, effs) ->
  (wrote_bytes (other d) effs = [] /\ read_bytes d effs = []
     /\ held d (ctl_state ctl) = held d p) \/
  (wrote_bytes (other d) effs = [] /\ held d p = [] /\ held d (ctl_state ctl) = read_bytes d effs) \/
  (exists n, wrote_bytes (other d) effs = take n (held d p) /\ read_bytes d effs = []
     /\ held d (ctl_state ctl) = []).
Proof.
  intros Hs. destruct ev as [d' ans|]; cbn in Hs; [|simplify_eq; by left].
  destruct (read_and_write (rw_get d' p) ans) as [[f|[u|err] written]|] eqn:Erw; [..|done]; simplify_eq/=.
  - destruct (decide (d' = d)) as [->|Hne].
    + unfold held. rewrite rw_get_set. apply rw_pending in Erw as [(data & Eg & -> & ->)|(buf & Eg & ->)];
        rewrite Eg.
      * right; left. cbn. rewrite bool_decide_eq_true_2, app_nil_r by done. auto.
      * left. auto.
    + left. unfold held. rewrite rw_get_set_ne by done.
      split_and!; [| |done]; unfold read_effect; repeat case_match; try done.
      cbn. by rewrite bool_decide_eq_false_2.
  - destruct (write_effect_bytes (other d) (other d') written (in_msg_counter d')) as (-> & _ & _).
    destruct (write_effect_bytes d (other d') written (in_msg_counter d')) as (_ & _ & -> & _).
    right; right. destruct (decide (d' = d)) as [->|Hne].
    + unfold held. exists (length written). rewrite bool_decide_eq_true_2 by done.
      split_and!; [|done|by destruct d]. unfold read_and_write, write_to_stream in Erw.
      repeat case_match; simplify_eq; try done. rewrite length_take, Nat.min_l; [done|].
      by apply Nat.leb_le.
    + exists 0. rewrite bool_decide_eq_false_2 by (by destruct d, d'). by destruct d.
  - left. destruct (write_effect_bytes (other d) (other d') written (in_msg_counter d')) as (_ & -> & _).
    destruct (write_effect_bytes d (other d') written (in_msg_counter d')) as (_ & _ & _ & ->).
    assert (written = []) as ->.
    { unfold read_and_write, write_to_stream in Erw. by repeat case_match; simplify_eq. }
    by case_bool_decide.
Qed.

Lemma run_only_copies evs st d :
  run tcp_loop (fresh_pair, []) evs = Some st ->
  sublist (wrote_bytes (other d) st.2 ++ held d st.1) (read_bytes d st.2).
Proof.
  revert st. apply (run_hist_inv tcp_loop (fun _ st =>
    sublist (wrote_bytes (other d) st.2 ++ held d st.1) (read_bytes d st.2))).
  { by destruct d. }
  intros _ [p log] ev [p' log'] IH Hs. unfold tcp_loop in Hs. cbn [fst snd ctl_state] in *.
  destruct (tcp_select p ev) as [[[p1|p1] effs]|] eqn:Es; [|done..]. simplify_eq.
  rewrite wrote_bytes_app, read_bytes_app.
  destruct (tcp_select_bytes _ _ _ _ d Es) as [(-> & -> & Hh)|[(-> & Hh & Hh')|(n & -> & -> & Hh)]];
    cbn [fst snd ctl_state] in *.
  - by rewrite Hh, !app_nil_r.
  - rewrite Hh', app_nil_r. rewrite Hh, app_nil_r in IH. by apply sublist_app.
  - rewrite Hh, !app_nil_r. etrans; [|exact IH]. apply sublist_app; [done|]. apply sublist_take.
Qed.

(** C20: a relay never invents, duplicates or reorders bytes: whatever the connections do, what it
    has written to one side and still holds for it is a subsequence of what it read from the
    other. *)
Theorem tcp_relay_only_copies evs p log d :
  run tcp_loop (fresh_pair, []) evs = Some (p, log) ->
  sublist (wrote_bytes (other d) log ++ held d p) (read_bytes d log).
Proof. apply run_only_copies. Qed.

(** The event loses nothing: a direction that finishes wrote all it held, and the other one, which
    is cut short, held nothing. *)
Definition lossless (p : rw_pair) (ev : tcp_event) : bool :=
  match ev with
  | TcpPoll d ans =>
      match read_and_write (rw_get d p) ans with
      | Some (RwReady (Ok _) written) =>
          bool_decide (written = held d p /\ held (other d) p = [])
      | _ => true
      end
  | TcpIdle => true
  end.

Fixpoint lossless_run (st : rw_pair * list tcp_effect) (evs : list tcp_event) : Prop :=
  match evs with
  | [] => True
  | ev :: evs' =>
      lossless st.1 ev = true /\
      match tcp_loop st ev with Some st' => lossless_run st' evs' | None => True end
  end.

Lemma tcp_select_lossless p ev p' effs d :
  tcp_select p ev = Some (Continue p', effs) -> lossless p ev = true ->
  wrote_bytes (other d) effs ++ held d p' = held d p ++ read_bytes d effs.
Proof.
  intros Hs Hl. destruct (tcp_select_bytes _ _ _ _ d Hs) as [(-> & -> & <-)|[(-> & -> & <-)|Hn]];
    [by rewrite app_nil_r|done|]. destruct Hn as (n & Hw & -> & Hh). cbn in Hh.
  rewrite Hh, !app_nil_r. destruct ev as [d' ans|]; cbn in Hs, Hl; [|simplify_eq].
  destruct (read_and_write (rw_get d' p) ans) as [[f|[u|err] written]|] eqn:Erw; [..|done]; simplify_eq/=.
  - (* pending: the case where nothing was held *)
    apply rw_pending in Erw as [(data & Eg & -> & ->)|(buf & Eg & ->)]; unfold read_effect in *;
      rewrite Eg in *; cbn in *.
    + destruct (decide (d' = d)) as [->|Hne]; [unfold held in *; rewrite rw_get_set in Hh; subst; by rewrite Eg|].
      unfold held in *. rewrite rw_get_set_ne in Hh by done. by rewrite Hh.
    + destruct (decide (d' = d)) as [->|Hne]; unfold held in *.
      * rewrite rw_get_set in Hh. subst. by rewrite Eg.
      * rewrite rw_get_set_ne in Hh by done. by rewrite Hh.
  - apply bool_decide_eq_true in Hl as [-> Ho].
    destruct (write_effect_bytes (other d) (other d') (held d' p) (in_msg_counter d')) as (-> & _).
    destruct (decide (d' = d)) as [->|Hne].
    + by rewrite bool_decide_eq_true_2.
    + rewrite bool_decide_eq_false_2 by (by destruct d, d').
      by replace d with (other d') by (by destruct d, d').
Qed.

(** C6: while no write is cut short and no direction is interrupted with bytes in hand, a relay is
    transparent: at every moment what it wrote to one side, with what it still holds for it, is
    exactly what it read from the other, in order. *)
Theorem tcp_relay_is_transparent evs p log d :
  run tcp_loop (fresh_pair, []) evs = Some (p, log) -> lossless_run (fresh_pair, []) evs ->
  wrote_bytes (other d) log ++ held d p = read_bytes d log.
Proof.
  assert (Hgo : forall evs st p log,
    wrote_bytes (other d) st.2 ++ held d st.1 = read_bytes d st.2 ->
    run tcp_loop st evs = Some (p, log) -> lossless_run st evs ->
    wrote_bytes (other d) log ++ held d p = read_bytes d log).
  2: { intros Hr Hl. eapply Hgo; [|exact Hr|exact Hl]. by destruct d. }
  clear. intros evs. induction evs as [|ev evs IH]; intros [p0 log0] p log Heq Hr Hl.
  { cbn in *. by simplify_eq. }
  cbn [run] in Hr. cbn [lossless_run] in Hl. destruct Hl as [Hl Hl'].
  destruct (tcp_loop (p0, log0) ev) as [st'|] eqn:Es; [|done].
  eapply IH; [|exact Hr|exact Hl']. unfold tcp_loop in Es. cbn [fst snd] in *.
  destruct (tcp_select p0 ev) as [[[p1|p1] effs]|] eqn:Esel; [|done..]. simplify_eq. cbn [fst snd].
    rewrite wrote_bytes_app, read_bytes_app, <- Heq, <- !app_assoc. f_equal.
  by eapply tcp_select_lossless.
Qed.

(** C37: a relay can lose bytes of a connection and go on: what a partial write did not take is
    dropped, and what one direction holds while its stream is full is dropped when the other
    direction finishes. *)
Theorem tcp_relay_can_lose_bytes :
  let partial := [TcpPoll ClientSide (TryRead (Ok [Byte.x01; Byte.x02; Byte.x03]));
                  TcpPoll ClientSide (TryWrite (Ok 1%nat));
                  TcpPoll ClientSide (TryRead (Ok [Byte.x04]));
                  TcpPoll ClientSide (TryWrite (Ok 1%nat))] in
  let cut_short := [TcpPoll ClientSide (TryRead (Ok [Byte.x01; Byte.x02]));
                    TcpPoll ClientSide (TryWrite (Err WouldBlock));
                    TcpPoll ServerSide (TryRead (Ok [Byte.x09]));
                    TcpPoll ServerSide (TryWrite (Ok 1%nat));
                    TcpPoll ClientSide (TryRead (Ok [Byte.x03]));
                    TcpPoll ClientSide (TryWrite (Ok 1%nat))] in
  (exists log, run tcp_loop (fresh_pair, []) partial = Some (fresh_pair, log) /\
     read_bytes ClientSide log = [Byte.x01; Byte.x02; Byte.x03; Byte.x04] /\
     wrote_bytes ServerSide log = [Byte.x01; Byte.x04]) /\
  (exists log, run tcp_loop (fresh_pair, []) cut_short = Some (fresh_pair, log) /\
     read_bytes ClientSide log = [Byte.x01; Byte.x02; Byte.x03] /\
     wrote_bytes ServerSide log = [Byte.x03]).
Proof. split; eexists; (split; [reflexivity|]); by vm_compute. Qed.

(** ** The endpoint *)

Section TcpEndpoint.
Context `{MpscLaws}.

Implicit Types (s : tcp_ep_sys).

Definition tcp_tells (log : list tcp_effect) : list tcp_effect :=
  List.filter (fun e => match e with TcpTellManager _ => true | _ => false end) log.

Lemma tcp_tells_app l1 l2 : tcp_tells (l1 ++ l2) = tcp_tells l1 ++ tcp_tells l2.
Proof. apply List.filter_app. Qed.

(** The state of the endpoint [e] on a port: relays are numbered, serve [e], and every client's number is a relay
    of its address; the manager was told of the end at most once. *)
Definition tcp_ep_ok (port : Z) (e : Endpoint) s : Prop :=
  te_tcp_listener (ts_self s) = port /\ te_endpoint (ts_self s) = e /\
  (forall rid r, tw_relays (ts_world s) !! rid = Some r ->
     (rid < tw_next (ts_world s))%nat /\ tc_endpoint (tr_client r) = e) /\
  (forall addr rid, te_clients (ts_self s) !! addr = Some rid ->
     exists r, tw_relays (ts_world s) !! rid = Some r /\ tc_addr (tr_client r) = addr) /\
  match ts_phase s with
  | TepFinished =>
      tcp_tells (ts_log s) = [] \/ tcp_tells (ts_log s) = [TcpTellManager (TcpEndpointEnded e)]
  | _ => tcp_tells (ts_log s) = []
  end.

Lemma ProxyTcpClient_new_Ok addr e ans c effs :
  ProxyTcpClient_new addr e ans = Ret (Ok (c, effs)) ->
  c = mkProxyTcpClient e addr /\ effs = [TcpCount TCP_CONNECTION_TO_SRV].
Proof. unfold ProxyTcpClient_new. intros Hs. by repeat case_match; simplify_eq. Qed.

Lemma tcp_relay_step_client r lbl tx r' tx' :
  tcp_relay_step r lbl tx = Some (r', tx') -> tr_client r' = tr_client r.
Proof. unfold tcp_relay_step. intros Hs. by repeat case_match; simplify_eq. Qed.

Lemma tcp_ep_over_ok port e s phase effs :
  tcp_ep_ok port e s -> ts_phase s <> TepFinished -> ts_phase s <> TepPanicked ->
  (effs = [] \/ phase = TepFinished /\ effs = [TcpTellManager (TcpEndpointEnded e)]) ->
  phase = TepFinished \/ phase = TepPanicked ->
  tcp_ep_ok port e (tcp_ep_over s phase effs).
Proof.
  intros (Hp0 & He & Hr & _ & Ht) Hn1 Hn2 Heff Hp. split_and!; cbn; [done|done|done| |].
  - intros addr rid Hl. by rewrite lookup_empty in Hl.
  - rewrite tcp_tells_app. destruct (ts_phase s); try done; rewrite Ht;
      (destruct Heff as [->|[-> ->]]; [destruct Hp as [->| ->]|]; auto).
Qed.

Lemma tcp_ep_select_ok port e s ev ctl w effs :
  tcp_ep_ok port e s -> ts_phase s = TepLooping ->
  tcp_ep_select (ts_self s) (ts_world s) ev = Some (Ret (ctl, w, effs)) ->
  tcp_ep_ok port e (mkTcpEp (ctl_state ctl) w
    match ctl with Continue _ => TepLooping | Break _ => TepReporting end (ts_log s ++ effs)) /\
  (forall rid r, tw_relays (ts_world s) !! rid = Some r -> tw_relays w !! rid = Some r).
Proof.
  intros (Hpt & He & Hr & Hc & Ht) Hp Hs. rewrite Hp in Ht.
  assert (Htell : forall effs, tcp_tells effs = [] -> tcp_tells (ts_log s ++ effs) = [])
    by (intros l Hl; by rewrite tcp_tells_app, Ht, Hl).
  destruct ev as [[addr|err] ans| |]; cbn in Hs.
  - destruct (ProxyTcpClient_new _ _ _) as [[[c e']|err]|] eqn:En; simplify_eq/=.
    + apply ProxyTcpClient_new_Ok in En as [-> ->]. split.
      * split_and!; cbn; [done|done| | |by apply Htell].
        -- intros rid r Hl. rewrite lookup_insert in Hl. case_decide; simplify_eq; [split; [lia|done]|].
           destruct (Hr _ _ Hl). split; [lia|done].
        -- intros a rid Hl. rewrite lookup_insert in Hl. case_decide; simplify_eq.
           { eexists. by rewrite lookup_insert_eq. }
           destruct (Hc _ _ Hl) as (r & Hl' & Ha). exists r. split; [|done].
           rewrite lookup_insert_ne; [done|]. destruct (Hr _ _ Hl'). lia.
      * intros rid r Hl. cbn. rewrite lookup_insert_ne; [done|]. destruct (Hr _ _ Hl). lia.
    + split; [|done]. split_and!; cbn; auto.
  - simplify_eq. split; [|done]. split_and!; cbn; auto.
  - destruct (mpsc_recv _) as [[a| |] ch| |]; simplify_eq; (split; [|done]).
    + assert (Hd : forall a' rid, delete a (te_clients (ts_self s)) !! a' = Some rid ->
        exists r, tw_relays (ts_world s) !! rid = Some r /\ tc_addr (tr_client r) = a')
        by (intros a' rid [_ Hl]%lookup_delete_Some; eauto).
      case_bool_decide; split_and!; cbn; auto.
    + split_and!; cbn; auto.
    + split_and!; cbn; auto.
    + split_and!; cbn; auto.
  - simplify_eq. split; [|done]. split_and!; cbn; auto.
Qed.

Lemma tcp_ep_step_ok port e s lbl s' :
  tcp_ep_ok port e s -> tcp_ep_step s lbl = Some s' ->
  tcp_ep_ok port e s' /\
  match lbl with
  | TepRelay rid _ => ts_phase s' = ts_phase s /\ ts_self s' = ts_self s /\ ts_log s' = ts_log s
  | _ => forall rid r, tw_relays (ts_world s) !! rid = Some r -> tw_relays (ts_world s') !! rid = Some r
  end.
Proof.
  intros Hok Hs. destruct lbl as [ev|sent| |rid l]; cbn in Hs.
  - destruct (ts_phase s) eqn:Ep; [|done..].
    destruct (tcp_ep_select _ _ _) as [[[[ctl w] effs]|]|] eqn:Esel; [| |done].
    + eapply tcp_ep_select_ok in Esel as [Hok' Hk]; [|done|done]. by destruct ctl; simplify_eq.
    + simplify_eq. split; [|done]. apply tcp_ep_over_ok; rewrite ?Ep; auto.
  - destruct (ts_phase s) eqn:Ep; [done| |done..]. simplify_eq. split; [|done].
    apply tcp_ep_over_ok; rewrite ?Ep; auto. destruct Hok as (_ & -> & _). destruct sent; auto.
  - destruct (ts_phase s) eqn:Ep; [| |done..]; simplify_eq; (split; [|done]);
      apply tcp_ep_over_ok; rewrite ?Ep; auto.
  - destruct (tw_relays (ts_world s) !! rid) as [r|] eqn:Er; [|done].
    destruct (tcp_relay_step _ _ _) as [[r' ch]|] eqn:Es; [|done]. simplify_eq. split; [|done].
    apply tcp_relay_step_client in Es. destruct Hok as (Hpt & He & Hr & Hc & Ht). split_and!; cbn; [done|done| | |done].
    + intros rid' r'' Hl. rewrite lookup_insert in Hl. case_decide; simplify_eq; [|eauto].
      rewrite Es. eauto.
    + intros a rid' Hl. destruct (Hc _ _ Hl) as (r0 & Hl' & Ha). rewrite lookup_insert.
      case_decide; simplify_eq; [|eauto]. eexists. split; [done|]. by rewrite Es.
Qed.

Lemma tcp_ep_reachable_ok port e s : reachable tcp_ep_step (tcp_ep_init port e) s -> tcp_ep_ok port e s.
Proof.
  revert s. apply reachable_inv.
  - split_and!; cbn; [done|done| | |done]; intros a b Hl; by rewrite lookup_empty in Hl.
  - intros s l s' Hok Hs. by eapply tcp_ep_step_ok in Hs as [? _].
Qed.

(** Nothing an endpoint or the manager does touches an established connection: accepting,
    forgetting clients, ending, being killed or panicking leaves every relay of the endpoint as it
    is. *)
Theorem tcp_endpoint_spares_relays port e s lbl s' rid r :
  reachable tcp_ep_step (tcp_ep_init port e) s -> tcp_ep_step s lbl = Some s' ->
  (forall rid' l, lbl <> TepRelay rid' l) ->
  tw_relays (ts_world s) !! rid = Some r -> tw_relays (ts_world s') !! rid = Some r.
Proof.
  intros Hok%tcp_ep_reachable_ok Hs Hne. apply (tcp_ep_step_ok port e) in Hs as [_ Hk]; [|done].
  destruct lbl; [by apply Hk..|]. by destruct (Hne rid0 lbl).
Qed.

(** A TCP endpoint tells the manager of its end at most once, only when it is over, by its own
    name; one that has left its loop can report its end at once. *)
Theorem tcp_endpoint_end_is_told_once port e s :
  reachable tcp_ep_step (tcp_ep_init port e) s ->
  (tcp_tells (ts_log s) = [] \/
   ts_phase s = TepFinished /\ tcp_tells (ts_log s) = [TcpTellManager (TcpEndpointEnded e)]) /\
  (ts_phase s = TepReporting -> exists s', tcp_ep_step s (TepReport true) = Some s' /\
     ts_phase s' = TepFinished /\ tcp_tells (ts_log s') = [TcpTellManager (TcpEndpointEnded e)]).
Proof.
  intros (_ & He & _ & _ & Ht)%tcp_ep_reachable_ok. split; [destruct (ts_phase s); naive_solver|].
  intros Hp. rewrite Hp in Ht. cbn. rewrite Hp. eexists. split; [done|]. split; [done|].
  cbn. by rewrite tcp_tells_app, Ht, He.
Qed.

(** A target name that does not resolve kills the endpoint at the next connection without a
    word: its task panics, and whatever happens afterwards the manager is never told, so its entry
    for the endpoint stays. *)
Theorem unresolvable_target_silences_endpoint port e s addr ans ls s' :
  reachable tcp_ep_step (tcp_ep_init port e) s -> ts_phase s = TepLooping ->
  (na_lookup ans (Endpoint_to_string e) = Ok [] \/
   exists err, na_lookup ans (Endpoint_to_string e) = Err err) ->
  run tcp_ep_step s (TepSelect (TcpAccept (Ok addr) ans) :: ls) = Some s' ->
  ts_phase s' = TepPanicked /\ tcp_tells (ts_log s') = [].
Proof.
  intros Hr Hp Hans Hrun. pose proof (tcp_ep_reachable_ok _ _ _ Hr) as Hok. destruct Hok as (_ & He & _ & _ & Ht).
  cbn in Hrun. rewrite Hp in *. rewrite He in Hrun. unfold ProxyTcpClient_new in Hrun.
  set (s1 := tcp_ep_over s TepPanicked []) in Hrun.
  assert (Hrun' : run tcp_ep_step s1 ls = Some s') by (destruct Hans as [E|[err E]]; by rewrite E in Hrun).
  clear Hrun. revert s' Hrun'. apply (run_hist_inv tcp_ep_step
    (fun _ s' => ts_phase s' = TepPanicked /\ tcp_tells (ts_log s') = [])).
  { split; [done|]. cbn. by rewrite app_nil_r. }
  intros _ s2 l s3 [Hp2 Ht2] Hs. unfold tcp_ep_step in Hs. rewrite Hp2 in Hs.
  destruct l; try done. by repeat case_match; simplify_eq.
Qed.

(** A connection is accepted into a relay of its own: when the target answers, the new relay
    copies between the two fresh connections and is the address's client; when the target refuses,
    the connection is dropped and the endpoint goes on unchanged. *)
Theorem tcp_accept_spawns_relay s addr ans a rest :
  ts_phase s = TepLooping ->
  na_lookup ans (Endpoint_to_string (te_endpoint (ts_self s))) = Ok (a :: rest) ->
  tcp_ep_step s (TepSelect (TcpAccept (Ok addr) ans)) =
  match na_connect ans a with
  | Ok _ =>
      let c := mkProxyTcpClient (te_endpoint (ts_self s)) addr in
      let rid := tw_next (ts_world s) in
      Some (mkTcpEp (te_set_clients (ts_self s) (<[addr := rid]> (te_clients (ts_self s))))
              (mkTcpWorld (<[rid := tcp_spawned c [TcpCount TCP_CONNECTION_TO_SRV]]>
                             (tw_relays (ts_world s))) (S rid) (tw_client (ts_world s)))
              TepLooping (ts_log s ++ [TcpCount TCP_CONNECTION_TO_SRV]))
  | Err _ => Some s
  end.
Proof.
  intros Hp Hl. cbn. rewrite Hp. unfold ProxyTcpClient_new. rewrite Hl.
  destruct (na_connect ans a); [done|]. rewrite app_nil_r, <- Hp. by destruct s.
Qed.
End TcpEndpoint.
