(* ===== verification/Manager.v ===== *)
(** * The manager task (src/proxy.rs: [ProxyManager::new] and the [_impl] functions)

    The manager task owns the per-session UDP endpoints and all TCP endpoints: it spawns an
    endpoint when one is asked for, answers with its port, kills it when it is deleted, and forgets
    it when its task reports its end.  [sys_step] composes it with its queue and with the endpoint
    tasks themselves. *)

From S2P Require Import Prelude RustInt Types Chan UdpClient TcpClients.

Section Manager.
Context `{Mpsc}.

(** ** Handlers of endpoint tasks *)

(** [struct ProxyEndpointHandler] and [struct ProxyTcpEndpointHandler]; a task is known by its
    number. *)
Record EndpointHandler : Type := mkHandler { local_port : Z; endpoint_handle : nat }.

(** A task and whether its [JoinHandle] was aborted. *)
Record spawned (T : Type) : Type := mkSpawned { sp_task : T; sp_killed : bool }.
#[global] Arguments mkSpawned {T} _ _.
#[global] Arguments sp_task {T} _.
#[global] Arguments sp_killed {T} _.

(** The endpoints the manager knows and the tasks it spawned. *)
Record manager : Type := mkManager {
  udp_proxy : gmap Endpoint EndpointHandler;
  tcp_proxy : gmap Endpoint EndpointHandler;
  udp_tasks : gmap nat (spawned ep_sys);
  tcp_tasks : gmap nat (spawned tcp_ep_sys);
  next_task : nat
}.

(** [FxHashMap::default()] twice. *)
Definition manager_init : manager := mkManager ∅ ∅ ∅ ∅ 0.

(** What the operating system answers when an endpoint is created. *)
Record create_answers : Type := mkCreate {
  ca_lookup : string -> Z -> result string (list SocketAddr);
  ca_bind : result string Z
}.

(** [ProxyEndpointHandler::new]: resolves the target, binds a socket, spawns the endpoint. *)
Definition ProxyEndpointHandler_new (endpoint : Endpoint) (ans : create_answers) (m : manager)
  : result string (EndpointHandler * manager) :=
  match socket_addr (ca_lookup ans) endpoint with
  | Err e => Err e
  | Ok remote_addr =>
      match ca_bind ans with
      | Err e => Err e
      | Ok port =>
          let task := ep_init (mkUdpSocket port None) endpoint remote_addr in
          Ok (mkHandler port (next_task m),
              mkManager (udp_proxy m) (tcp_proxy m)
                (<[next_task m := mkSpawned task false]> (udp_tasks m)) (tcp_tasks m)
                (S (next_task m)))
      end
  end.

(** [ProxyTcpEndpointHandler::new]: binds a listener, spawns the endpoint. *)
Definition ProxyTcpEndpointHandler_new (endpoint : Endpoint) (ans : create_answers) (m : manager)
  : result string (EndpointHandler * manager) :=
  match ca_bind ans with
  | Err e => Err e
  | Ok port =>
      Ok (mkHandler port (next_task m),
          mkManager (udp_proxy m) (tcp_proxy m) (udp_tasks m)
            (<[next_task m := mkSpawned (tcp_ep_init port endpoint) false]> (tcp_tasks m))
            (S (next_task m)))
  end.

(** [JoinHandle::abort]. *)
Definition abort_task {T} (tid : nat) (tasks : gmap nat (spawned T)) : gmap nat (spawned T) :=
  alter (fun t => mkSpawned (sp_task t) true) tid tasks.

(** [ProxyEndpointHandler::kill]. *)
Definition ProxyEndpointHandler_kill {T} (self : EndpointHandler) (tasks : gmap nat (spawned T)) :=
  abort_task (endpoint_handle self) tasks.

(** [ProxyTcpEndpointHandler::kill]. *)
Definition ProxyTcpEndpointHandler_kill {T} (self : EndpointHandler) (tasks : gmap nat (spawned T)) :=
  abort_task (endpoint_handle self) tasks.

(** ** The [_impl] functions *)

Definition create_udp_proxy_impl (endpoint : Endpoint) (ans : create_answers) (m : manager)
  : result string Z * manager :=
  match udp_proxy m !! endpoint with
  | Some proxy => (Ok (local_port proxy), m)
  | None =>
      match ProxyEndpointHandler_new endpoint ans m with
      | Err e => (Err e, m)
      | Ok (pe, m) =>
          (Ok (local_port pe),
           mkManager (<[endpoint := pe]> (udp_proxy m)) (tcp_proxy m) (udp_tasks m) (tcp_tasks m)
             (next_task m))
      end
  end.

Definition create_tcp_proxy_impl (endpoint : Endpoint) (ans : create_answers) (m : manager)
  : result string Z * manager :=
  match tcp_proxy m !! endpoint with
  | Some proxy => (Ok (local_port proxy), m)
  | None =>
      match ProxyTcpEndpointHandler_new endpoint ans m with
      | Err e => (Err e, m)
      | Ok (pe, m) =>
          (Ok (local_port pe),
           mkManager (udp_proxy m) (<[endpoint := pe]> (tcp_proxy m)) (udp_tasks m) (tcp_tasks m)
             (next_task m))
      end
  end.

(** The [Debug] form of the endpoint in the message is left out. *)
Definition NO_PROXY : string := "There aren't proxy to delete"%string.

Definition delete_udp_proxy_impl (endpoint : Endpoint) (m : manager) : result string unit * manager :=
  match udp_proxy m !! endpoint with
  | Some handler =>
      (Ok tt, mkManager (delete endpoint (udp_proxy m)) (tcp_proxy m)
                (ProxyEndpointHandler_kill handler (udp_tasks m)) (tcp_tasks m) (next_task m))
  | None => (Err NO_PROXY, m)
  end.

Definition delete_tcp_proxy_impl (endpoint : Endpoint) (m : manager) : result string unit * manager :=
  match tcp_proxy m !! endpoint with
  | Some handler =>
      (Ok tt, mkManager (udp_proxy m) (delete endpoint (tcp_proxy m)) (udp_tasks m)
                (ProxyTcpEndpointHandler_kill handler (tcp_tasks m)) (next_task m))
  | None => (Err NO_PROXY, m)
  end.

(** ** The loop of the task *)

(** One message; the second component is what [respond_to] receives, if the message has one.  The
    messages of the last case end the inner loop, which the outer one starts again. *)
Definition handle_msg (msg : ProxyManagerMsg) (ans : create_answers) (m : manager)
  : manager * option ProxyManagerMsg :=
  match msg with
  | CreateTcpProxy endpoint =>
      match create_tcp_proxy_impl endpoint ans m with
      | (Ok port, m) => (m, Some (CreateTcpProxyRs port))
      | (Err error, m) => (m, Some (TcpProxyErrorRs error))
      end
  | CreateUdpProxy endpoint =>
      match create_udp_proxy_impl endpoint ans m with
      | (Ok port, m) => (m, Some (CreateUdpProxyRs port))
      | (Err error, m) => (m, Some (UdpProxyErrorRs error))
      end
  | DeleteTcpProxy endpoint =>
      match delete_tcp_proxy_impl endpoint m with
      | (Ok _, m) => (m, Some DeleteTcpProxyRs)
      | (Err error, m) => (m, Some (TcpProxyErrorRs error))
      end
  | DeleteUdpProxy endpoint =>
      match delete_udp_proxy_impl endpoint m with
      | (Ok _, m) => (m, Some DeleteUdpProxyRs)
      | (Err error, m) => (m, Some (UdpProxyErrorRs error))
      end
  | UdpEndpointEnded endpoint => ((delete_udp_proxy_impl endpoint m).2, None)
  | TcpEndpointEnded endpoint => ((delete_tcp_proxy_impl endpoint m).2, None)
  | _ => (m, None)
  end.

(** ** The manager, its queue and the endpoint tasks *)

(** [sy_handled] is the history of the messages handled, with the replies sent, and [sy_given] that
    of what the operating system answered meanwhile. *)
Record proxy_sys : Type := mkSys {
  sy_manager : manager;
  sy_queue : chan ProxyManagerMsg;
  sy_handled : list (ProxyManagerMsg * option ProxyManagerMsg);
  sy_given : list (ProxyManagerMsg * create_answers)
}.

(** [mpsc::channel::<ProxyManagerMsg>(100)], and no message handled yet. *)
Definition sys_init : proxy_sys := mkSys manager_init (mpsc_channel 100) [] [].

(** A caller queues a request; the manager takes a message; a task makes a step. *)
Inductive sys_label : Type :=
| SyCall (msg : ProxyManagerMsg)
| SyHandle (ans : create_answers)
| SyUdp (tid : nat) (lbl : ep_label)
| SyTcp (tid : nat) (lbl : tcp_ep_label).

(** The requests of [ProxyManagerMsg], the messages callers send. *)
Definition is_request (msg : ProxyManagerMsg) : bool :=
  match msg with
  | CreateUdpProxy _ | CreateTcpProxy _ | DeleteUdpProxy _ | DeleteTcpProxy _ => true
  | _ => false
  end.

(** What the step of a task sends to the manager: it happens only if the message is delivered, and
    a task is cancelled only after it was killed. *)
Definition udp_send (t : spawned ep_sys) (lbl : ep_label) (queue : chan ProxyManagerMsg)
  : option (chan ProxyManagerMsg) :=
  match lbl with
  | EsReport sent =>
      match mpsc_send queue (UdpEndpointEnded (pe_endpoint (es_self (sp_task t)))) with
      | Sent queue => if sent then Some queue else None
      | SendClosed => if sent then None else Some queue
      | SendPending => None
      end
  | EsCancel _ => if sp_killed t then Some queue else None
  | _ => Some queue
  end.

Definition tcp_send (t : spawned tcp_ep_sys) (lbl : tcp_ep_label) (queue : chan ProxyManagerMsg)
  : option (chan ProxyManagerMsg) :=
  match lbl with
  | TepReport sent =>
      match mpsc_send queue (TcpEndpointEnded (te_endpoint (ts_self (sp_task t)))) with
      | Sent queue => if sent then Some queue else None
      | SendClosed => if sent then None else Some queue
      | SendPending => None
      end
  | TepCancel => if sp_killed t then Some queue else None
  | _ => Some queue
  end.

Definition set_udp_task (tid : nat) (t : spawned ep_sys) (m : manager) : manager :=
  mkManager (udp_proxy m) (tcp_proxy m) (<[tid := t]> (udp_tasks m)) (tcp_tasks m) (next_task m).
Definition set_tcp_task (tid : nat) (t : spawned tcp_ep_sys) (m : manager) : manager :=
  mkManager (udp_proxy m) (tcp_proxy m) (udp_tasks m) (<[tid := t]> (tcp_tasks m)) (next_task m).

Definition sys_step (s : proxy_sys) (lbl : sys_label) : option proxy_sys :=
  match lbl with
  | SyCall msg =>
      if is_request msg then
        match mpsc_send (sy_queue s) msg with
        | Sent queue => Some (mkSys (sy_manager s) queue (sy_handled s) (sy_given s))
        | _ => None
        end
      else None
  | SyHandle ans =>
      match mpsc_recv (sy_queue s) with
      | Received msg queue =>
          let (m, reply) := handle_msg msg ans (sy_manager s) in
          Some (mkSys m queue (sy_handled s ++ [(msg, reply)]) (sy_given s ++ [(msg, ans)]))
      | _ => None
      end
  | SyUdp tid lbl =>
      match udp_tasks (sy_manager s) !! tid with
      | None => None
      | Some t =>
          match ep_step (sp_task t) lbl, udp_send t lbl (sy_queue s) with
          | Some task, Some queue =>
              Some (mkSys (set_udp_task tid (mkSpawned task (sp_killed t)) (sy_manager s)) queue
                      (sy_handled s) (sy_given s))
          | _, _ => None
          end
      end
  | SyTcp tid lbl =>
      match tcp_tasks (sy_manager s) !! tid with
      | None => None
      | Some t =>
          match tcp_ep_step (sp_task t) lbl, tcp_send t lbl (sy_queue s) with
          | Some task, Some queue =>
              Some (mkSys (set_tcp_task tid (mkSpawned task (sp_killed t)) (sy_manager s)) queue
                      (sy_handled s) (sy_given s))
          | _, _ => None
          end
      end
  end.

End Manager.
