(* ===== verification/ManagerProps.v ===== *)
(** * Properties of the manager task

    [registry_ok] relates a map of handlers to the tasks the manager spawned: a registered handler
    leads to a task of its endpoint that was not killed, a task that is not registered was killed,
    and the end of a registered task that is over is in the manager's queue.  It is stated once for
    both kinds of endpoint, and holds in every reachable state of the composed system. *)

From S2P Require Import Prelude RustInt Types Chan UdpClient RelayInv UdpClientProps TcpClients.
From S2P Require Import TcpProps Manager.

(** ** The registry *)

Section Registry.
Context {T : Type} (ok : Endpoint -> Z -> T -> Prop) (over : T -> Prop)
  (ended : Endpoint -> ProxyManagerMsg).
Context (ok_inj : forall e p e' p' t, ok e p t -> ok e' p' t -> e = e').
Context (ended_inj : forall e e', ended e = ended e' -> e = e').

Implicit Types (proxy : gmap Endpoint EndpointHandler) (tasks : gmap nat (spawned T)).

Definition registry_ok proxy tasks (next : nat) (queue : list ProxyManagerMsg) : Prop :=
  (forall e h, proxy !! e = Some h ->
     exists t, tasks !! endpoint_handle h = Some t /\ sp_killed t = false
       /\ ok e (local_port h) (sp_task t) /\ (over (sp_task t) -> ended e ∈ queue)) /\
  (forall tid t, tasks !! tid = Some t ->
     tid < next /\ (sp_killed t = true
                    \/ exists e h, proxy !! e = Some h /\ endpoint_handle h = tid)).

Lemma registry_init queue : registry_ok ∅ ∅ 0 queue.
Proof. split; intros ? ? Hl; by rewrite lookup_empty in Hl. Qed.

Lemma registry_distinct proxy tasks next queue e e' h h' :
  registry_ok proxy tasks next queue -> proxy !! e = Some h -> proxy !! e' = Some h' ->
  endpoint_handle h = endpoint_handle h' -> e = e'.
Proof.
  intros [Hr _] Hl Hl' E. destruct (Hr _ _ Hl) as (t & Ht & _ & Hok & _).
  destruct (Hr _ _ Hl') as (t' & Ht' & _ & Hok' & _). rewrite E, Ht' in Ht. simplify_eq.
  by eapply ok_inj.
Qed.

Lemma registry_insert proxy tasks next queue e port task :
  registry_ok proxy tasks next queue -> proxy !! e = None -> ok e port task -> ~ over task ->
  registry_ok (<[e := mkHandler port next]> proxy) (<[next := mkSpawned task false]> tasks)
    (S next) queue.
Proof.
  intros [Hr Ht] Hn Hok Hov. split.
  - intros e' h Hl. rewrite lookup_insert in Hl. case_decide; simplify_eq/=.
    + exists (mkSpawned task false). by rewrite lookup_insert_eq.
    + destruct (Hr _ _ Hl) as (t & Htk & Hrest). exists t. rewrite lookup_insert_ne; [done|].
      destruct (Ht _ _ Htk). lia.
  - intros tid t Hl. rewrite lookup_insert in Hl. case_decide; simplify_eq/=.
    + split; [lia|]. right. eexists e, _. by rewrite lookup_insert_eq.
    + destruct (Ht _ _ Hl) as [Hlt Hor]. split; [lia|]. destruct Hor as [|(e' & h & Hh & <-)]; [auto|].
      right. exists e', h. rewrite lookup_insert_ne by congruence. done.
Qed.

Lemma registry_delete proxy tasks next queue e h :
  registry_ok proxy tasks next queue -> proxy !! e = Some h ->
  registry_ok (delete e proxy) (abort_task (endpoint_handle h) tasks) next queue.
Proof.
  intros Hreg Hl. pose proof Hreg as [Hr Ht]. unfold abort_task. split.
  - intros e' h' [Hne Hl']%lookup_delete_Some. destruct (Hr _ _ Hl') as (t & Htk & Hrest).
    exists t. rewrite lookup_alter_ne; [done|]. intros E. apply Hne.
    by eapply registry_distinct.
  - intros tid t Ha. apply lookup_alter_Some in Ha as [(<- & t0 & Ht0 & ->)|(Hne & Htk)].
    + destruct (Ht _ _ Ht0). by split; [|left].
    + destruct (Ht _ _ Htk) as [Hlt Hor]. split; [done|].
      destruct Hor as [|(e' & h' & Hh & <-)]; [auto|]. right. exists e', h'.
      rewrite lookup_delete_ne; [done|]. intros <-. congruence.
Qed.

Lemma registry_weaken proxy tasks next next' queue queue' :
  registry_ok proxy tasks next queue -> next <= next' ->
  (forall e h, proxy !! e = Some h -> ended e ∈ queue -> ended e ∈ queue') ->
  registry_ok proxy tasks next' queue'.
Proof.
  intros [Hr Ht] Hle Hq. split.
  - intros e h Hl. destruct (Hr _ _ Hl) as (t & ? & ? & ? & Hov). exists t. split_and!; eauto.
  - intros tid t Hl. destruct (Ht _ _ Hl). split; [lia|done].
Qed.

(** A task makes a step; if that was its last, it was killed or its end was queued. *)
Lemma registry_step proxy tasks next queue queue' tid t task' :
  registry_ok proxy tasks next queue -> tasks !! tid = Some t ->
  (forall e p, ok e p (sp_task t) -> ok e p task') ->
  (forall m, m ∈ queue -> m ∈ queue') ->
  (over task' -> sp_killed t = false -> over (sp_task t)
     \/ forall e p, ok e p (sp_task t) -> ended e ∈ queue') ->
  registry_ok proxy (<[tid := mkSpawned task' (sp_killed t)]> tasks) next queue'.
Proof.
  intros [Hr Ht] Hl Hok Hq Hov. split.
  - intros e h Hh. destruct (Hr _ _ Hh) as (t' & Htk & Hk & Hok' & Hov').
    destruct (decide (endpoint_handle h = tid)) as [<-|Hne].
    + simplify_eq. eexists. rewrite lookup_insert_eq. split; [done|]. cbn.
      split_and!; [done|by apply Hok|]. intros Ho. destruct (Hov Ho Hk); eauto.
    + exists t'. rewrite lookup_insert_ne by done. split_and!; auto.
  - intros tid' t' Hl'. rewrite lookup_insert in Hl'. case_decide; simplify_eq/=; eauto.
Qed.
End Registry.

(** What is asked of a registered task may be weakened. *)
Lemma registry_impl {T} (ok ok' : Endpoint -> Z -> T -> Prop) over ended proxy tasks next queue :
  (forall e p t, ok e p t -> ok' e p t) ->
  registry_ok ok over ended proxy tasks next queue -> registry_ok ok' over ended proxy tasks next queue.
Proof.
  intros Hok [Hr Ht]. split; [|done]. intros e h Hl. destruct (Hr _ _ Hl) as (t & ? & ? & ? & ?).
  exists t. split_and!; auto.
Qed.

(** ** The composed system *)

Section Manager.
Context `{MpscLaws}.

Implicit Types (m : manager) (s : proxy_sys).

(** What the operating system answered, message by message. *)
Notation history := (list (ProxyManagerMsg * create_answers)%type).

Implicit Types (given : history).

(** The tasks of an endpoint [e] on a port: created when it was asked for, with the port the system
    gave then, and for UDP the target that its name resolved to. *)
Definition udp_ok given (e : Endpoint) (port : Z) (t : ep_sys) : Prop :=
  exists ans remote, (CreateUdpProxy e, ans) ∈ given /\
    socket_addr (ca_lookup ans) e = Ok remote /\ ca_bind ans = Ok port /\
    reachable ep_step (ep_init (mkUdpSocket port None) e remote) t.
Definition udp_over (t : ep_sys) : Prop := es_phase t = EpFinished.

Definition tcp_ok given (e : Endpoint) (port : Z) (t : tcp_ep_sys) : Prop :=
  exists ans, (CreateTcpProxy e, ans) ∈ given /\ ca_bind ans = Ok port /\
    reachable tcp_ep_step (tcp_ep_init port e) t.
Definition tcp_over (t : tcp_ep_sys) : Prop := ts_phase t = TepFinished.

Lemma ep_reachable_same port e remote t :
  reachable ep_step (ep_init (mkUdpSocket port None) e remote) t ->
  pe_endpoint (es_self t) = e /\ us_port (pe_udp_socket (es_self t)) = port /\
  pe_remote_addr (es_self t) = remote.
Proof. intros (_ & (Hs & He & Hrem) & _)%ep_reachable_ok. by rewrite Hs. Qed.

Lemma udp_ok_endpoint given e p t :
  udp_ok given e p t -> pe_endpoint (es_self t) = e /\ us_port (pe_udp_socket (es_self t)) = p.
Proof. intros (ans & remote & _ & _ & _ & Hr). by apply ep_reachable_same in Hr as (? & ? & _). Qed.

Lemma udp_ok_inj given e p e' p' t : udp_ok given e p t -> udp_ok given e' p' t -> e = e'.
Proof. intros [<- _]%udp_ok_endpoint [<- _]%udp_ok_endpoint. done. Qed.

Lemma tcp_ok_endpoint given e p t :
  tcp_ok given e p t -> te_endpoint (ts_self t) = e /\ te_tcp_listener (ts_self t) = p.
Proof. intros (ans & _ & _ & Hr). by apply tcp_ep_reachable_ok in Hr as (? & ? & _). Qed.

Lemma tcp_ok_inj given e p e' p' t : tcp_ok given e p t -> tcp_ok given e' p' t -> e = e'.
Proof. intros [<- _]%tcp_ok_endpoint [<- _]%tcp_ok_endpoint. done. Qed.

Definition udp_registry given m (queue : list ProxyManagerMsg) : Prop :=
  registry_ok (udp_ok given) udp_over UdpEndpointEnded (udp_proxy m) (udp_tasks m) (next_task m) queue.
Definition tcp_registry given m (queue : list ProxyManagerMsg) : Prop :=
  registry_ok (tcp_ok given) tcp_over TcpEndpointEnded (tcp_proxy m) (tcp_tasks m) (next_task m) queue.

Definition manager_ok given m (queue : list ProxyManagerMsg) : Prop :=
  udp_registry given m queue /\ tcp_registry given m queue.

Definition proxy_ok s : Prop :=
  manager_ok (sy_given s) (sy_manager s) (chan_contents (sy_queue s)) /\
  mpsc_is_closed (sy_queue s) = false.

(** The history only grows. *)
Lemma manager_ok_given given more m queue :
  manager_ok given m queue -> manager_ok (given ++ more) m queue.
Proof.
  intros [Hu Ht]. split.
  - eapply registry_impl; [|exact Hu]. intros e p t (ans & remote & Hin & Hrest). exists ans, remote.
    split; [set_solver|done].
  - eapply registry_impl; [|exact Ht]. intros e p t (ans & Hin & Hrest). exists ans.
    split; [set_solver|done].
Qed.

(** ** The [_impl] functions *)

Lemma create_udp_ok given e ans m queue :
  manager_ok given m queue -> (CreateUdpProxy e, ans) ∈ given ->
  manager_ok given (create_udp_proxy_impl e ans m).2 queue.
Proof.
  intros [Hu Ht] Hin. unfold create_udp_proxy_impl, ProxyEndpointHandler_new.
  destruct (udp_proxy m !! e) eqn:El; [done|].
  destruct (socket_addr _ _) as [remote|] eqn:Ea; [|done].
  destruct (ca_bind ans) as [port|] eqn:Eb; [|done]. split; cbn.
  - apply registry_insert; [done|done| |done]. exists ans, remote. split_and!; [done..|constructor].
  - eapply registry_weaken; [exact Ht|cbn; lia|auto].
Qed.

Lemma create_tcp_ok given e ans m queue :
  manager_ok given m queue -> (CreateTcpProxy e, ans) ∈ given ->
  manager_ok given (create_tcp_proxy_impl e ans m).2 queue.
Proof.
  intros [Hu Ht] Hin. unfold create_tcp_proxy_impl, ProxyTcpEndpointHandler_new.
  destruct (tcp_proxy m !! e) eqn:El; [done|]. destruct (ca_bind ans) as [port|] eqn:Eb; [|done].
  split; cbn.
  - eapply registry_weaken; [exact Hu|cbn; lia|auto].
  - apply registry_insert; [done|done| |done]. exists ans. split_and!; [done..|constructor].
Qed.

Lemma delete_udp_ok given e m queue :
  manager_ok given m queue -> manager_ok given (delete_udp_proxy_impl e m).2 queue.
Proof.
  intros [Hu Ht]. unfold delete_udp_proxy_impl. destruct (udp_proxy m !! e) eqn:El; [|done].
  split; [|exact Ht]. apply registry_delete; [exact (udp_ok_inj given)|done|done].
Qed.

Lemma delete_tcp_ok given e m queue :
  manager_ok given m queue -> manager_ok given (delete_tcp_proxy_impl e m).2 queue.
Proof.
  intros [Hu Ht]. unfold delete_tcp_proxy_impl. destruct (tcp_proxy m !! e) eqn:El; [|done].
  split; [exact Hu|]. apply registry_delete; [exact (tcp_ok_inj given)|done|done].
Qed.

Lemma delete_udp_gone e m : udp_proxy (delete_udp_proxy_impl e m).2 !! e = None.
Proof.
  unfold delete_udp_proxy_impl. destruct (udp_proxy m !! e) eqn:El; [apply lookup_delete_eq|done].
Qed.

Lemma delete_tcp_gone e m : tcp_proxy (delete_tcp_proxy_impl e m).2 !! e = None.
Proof.
  unfold delete_tcp_proxy_impl. destruct (tcp_proxy m !! e) eqn:El; [apply lookup_delete_eq|done].
Qed.

(** Taking a message off the queue and handling it. *)
Lemma handle_msg_ok given msg ans m queue :
  manager_ok given m (msg :: queue) ->
  manager_ok (given ++ [(msg, ans)]) (handle_msg msg ans m).1 queue.
Proof.
  intros Hok%(manager_ok_given _ [(msg, ans)]). set (given' := given ++ _) in *.
  assert (Hgiven : (msg, ans) ∈ given') by (subst given'; set_solver). clearbody given'.
  assert (Hpop : forall m', manager_ok given' m' (msg :: queue) ->
    (forall e, msg = UdpEndpointEnded e -> udp_proxy m' !! e = None) ->
    (forall e, msg = TcpEndpointEnded e -> tcp_proxy m' !! e = None) -> manager_ok given' m' queue).
  { intros m' [Hu Ht] Hnu Hnt. split; (eapply registry_weaken; [eassumption|lia|]).
    - intros e h Hl [<-|Hin]%elem_of_cons; [|done]. by rewrite (Hnu e) in Hl.
    - intros e h Hl [<-|Hin]%elem_of_cons; [|done]. by rewrite (Hnt e) in Hl. }
  destruct msg as [e|e| | | | |e|e| | |e|e]; cbn; try (by apply Hpop).
  - pose proof (create_udp_ok _ e ans m _ Hok Hgiven) as Hc.
    destruct (create_udp_proxy_impl e ans m) as [[]]; by apply Hpop.
  - pose proof (create_tcp_ok _ e ans m _ Hok Hgiven) as Hc.
    destruct (create_tcp_proxy_impl e ans m) as [[]]; by apply Hpop.
  - pose proof (delete_udp_ok _ e m _ Hok) as Hc.
    destruct (delete_udp_proxy_impl e m) as [[]]; by apply Hpop.
  - pose proof (delete_tcp_ok _ e m _ Hok) as Hc.
    destruct (delete_tcp_proxy_impl e m) as [[]]; by apply Hpop.
  - apply Hpop; [by apply delete_udp_ok| |done]. intros e' [= <-]. apply delete_udp_gone.
  - apply Hpop; [by apply delete_tcp_ok|done|]. intros e' [= <-]. apply delete_tcp_gone.
Qed.

(** ** Steps of the tasks *)

Lemma mpsc_report msg (queue queue' : chan ProxyManagerMsg) (sent : bool) :
  match mpsc_send queue msg with
  | Sent queue => if sent then Some queue else None
  | SendClosed => if sent then None else Some queue
  | SendPending => None
  end = Some queue' -> mpsc_is_closed queue = false ->
  chan_contents queue' = chan_contents queue ++ [msg] /\ mpsc_is_closed queue' = false.
Proof.
  destruct (mpsc_send queue msg) eqn:Es, sent; intros Hq Ho; simplify_eq.
  - apply send_Sent in Es as (_ & ? & ? & _). done.
  - apply send_SendClosed in Es. congruence.
Qed.

(** What a step of a task may leave in the queue. *)
Lemma udp_send_ok t lbl queue queue' :
  udp_send t lbl queue = Some queue' -> mpsc_is_closed queue = false ->
  mpsc_is_closed queue' = false /\
  (chan_contents queue' = chan_contents queue /\ (forall sent, lbl <> EsReport sent)
     /\ ((exists waiting, lbl = EsCancel waiting) -> sp_killed t = true)
   \/ chan_contents queue' = chan_contents queue ++ [UdpEndpointEnded (pe_endpoint (es_self (sp_task t)))]).
Proof.
  intros Hs Ho. destruct lbl as [ev|sent|waiting|rid l]; cbn in Hs; simplify_eq.
  - split; [done|left]. split_and!; [done|done|by intros [? ?]].
  - apply mpsc_report in Hs as [-> ->]; [|done]. auto.
  - destruct (sp_killed t); simplify_eq. split; [done|left]. by split_and!.
  - split; [done|left]. split_and!; [done|done|by intros [? ?]].
Qed.

Lemma tcp_send_ok t lbl queue queue' :
  tcp_send t lbl queue = Some queue' -> mpsc_is_closed queue = false ->
  mpsc_is_closed queue' = false /\
  (chan_contents queue' = chan_contents queue /\ (forall sent, lbl <> TepReport sent)
     /\ (lbl = TepCancel -> sp_killed t = true)
   \/ chan_contents queue' = chan_contents queue ++ [TcpEndpointEnded (te_endpoint (ts_self (sp_task t)))]).
Proof.
  intros Hs Ho. destruct lbl as [ev|sent| |rid l]; cbn in Hs; simplify_eq.
  - split; [done|left]. by split_and!.
  - apply mpsc_report in Hs as [-> ->]; [|done]. auto.
  - destruct (sp_killed t); simplify_eq. split; [done|left]. by split_and!.
  - split; [done|left]. by split_and!.
Qed.

Lemma ep_step_over t lbl t' :
  ep_step t lbl = Some t' -> udp_over t' ->
  udp_over t \/ (exists sent, lbl = EsReport sent) \/ (exists waiting, lbl = EsCancel waiting).
Proof.
  unfold udp_over. intros Hs Ho. destruct lbl as [ev|sent| |rid l]; [|by eauto..|].
  - cbn in Hs. by repeat case_match; simplify_eq.
  - cbn in Hs. repeat case_match; simplify_eq. by left.
Qed.

Lemma tcp_ep_step_over t lbl t' :
  tcp_ep_step t lbl = Some t' -> tcp_over t' ->
  tcp_over t \/ (exists sent, lbl = TepReport sent) \/ lbl = TepCancel.
Proof.
  unfold tcp_over. intros Hs Ho. destruct lbl as [ev|sent| |rid l]; [|by eauto..|].
  - cbn in Hs. by repeat case_match; simplify_eq.
  - cbn in Hs. repeat case_match; simplify_eq. by left.
Qed.

Lemma sys_step_ok s lbl s' : proxy_ok s -> sys_step s lbl = Some s' -> proxy_ok s'.
Proof.
  intros [[Hu Ht] Hopen] Hs. destruct lbl as [msg|ans|tid lbl|tid lbl]; cbn in Hs.
  - destruct (is_request msg); [|done].
    destruct (mpsc_send _ _) as [queue| |] eqn:Es; [|done..]. simplify_eq.
    apply send_Sent in Es as (_ & Hc & Ho & _). split; [|done]. cbn. rewrite Hc.
    split; (eapply registry_weaken; [eassumption|lia|intros; set_solver]).
  - destruct (mpsc_recv _) as [msg queue| |] eqn:Er; [|done..].
    apply recv_Received in Er as (Hc & Ho & _). rewrite Hc in *.
    pose proof (handle_msg_ok _ msg ans (sy_manager s) _ (conj Hu Ht)) as Hok.
    destruct (handle_msg _ _ _) as [m reply]. simplify_eq. split; [done|]. cbn. congruence.
  - destruct (udp_tasks _ !! tid) as [t|] eqn:El; [|done].
    destruct (ep_step _ _) as [task|] eqn:Es; [|done].
    destruct (udp_send _ _ _) as [queue|] eqn:Eq; [|done]. simplify_eq.
    apply udp_send_ok in Eq as [Ho Hq]; [|done]. split; [|done].
    assert (Hgrow : forall x, x ∈ chan_contents (sy_queue s) -> x ∈ chan_contents queue)
      by (intros x Hx; destruct Hq as [[-> _]| ->]; set_solver).
    split; [|eapply registry_weaken; [exact Ht|done|auto]].
    apply (registry_step _ _ _ _ _ _ _ _ _ t task Hu El); [| done|].
    + intros e p (ans & remote & ? & ? & ? & Hr). exists ans, remote. split_and!; [done..|by econstructor].
    + cbn. intros Hov Hk. apply (ep_step_over _ _ _ Es) in Hov as [|Hov]; [by left|right].
      intros e p [He _]%udp_ok_endpoint. destruct Hq as [(_ & Hn & Hc)| ->]; [|rewrite He; set_solver].
      destruct Hov as [[sent ->]|Hov]; [by destruct (Hn sent)|]. rewrite Hc in Hk; done.
  - destruct (tcp_tasks _ !! tid) as [t|] eqn:El; [|done].
    destruct (tcp_ep_step _ _) as [task|] eqn:Es; [|done].
    destruct (tcp_send _ _ _) as [queue|] eqn:Eq; [|done]. simplify_eq.
    apply tcp_send_ok in Eq as [Ho Hq]; [|done]. split; [|done].
    assert (Hgrow : forall x, x ∈ chan_contents (sy_queue s) -> x ∈ chan_contents queue)
      by (intros x Hx; destruct Hq as [[-> _]| ->]; set_solver).
    split; [eapply registry_weaken; [exact Hu|done|auto]|].
    apply (registry_step _ _ _ _ _ _ _ _ _ t task Ht El); [| done|].
    + intros e p (ans & ? & ? & Hr). exists ans. split_and!; [done..|by econstructor].
    + cbn. intros Hov Hk. apply (tcp_ep_step_over _ _ _ Es) in Hov as [|Hov]; [by left|right].
      intros e p [He _]%tcp_ok_endpoint. destruct Hq as [(_ & Hn & Hc)| ->]; [|rewrite He; set_solver].
      destruct Hov as [[sent ->]| ->]; [by destruct (Hn sent)|]. rewrite Hc in Hk; done.
Qed.

Lemma sys_reachable_ok s : reachable sys_step sys_init s -> proxy_ok s.
Proof.
  revert s. apply reachable_inv; [|apply sys_step_ok].
  split; [|apply channel_open]. split; apply registry_init.
Qed.

(** C4: at any time, whatever requests, endpoint tasks and relays interleave: every UDP endpoint the
    manager lists has a task of its own that was not killed, in a state the endpoint can reach from
    its start, serving that endpoint on the port the manager hands out, with the port and the target
    the system gave when the endpoint was asked for, and if that task is over its end is in the
    manager's queue; every other UDP task was killed. *)
Theorem manager_tracks_udp_endpoints s :
  reachable sys_step sys_init s ->
  (forall e h, udp_proxy (sy_manager s) !! e = Some h ->
     exists t ans remote, udp_tasks (sy_manager s) !! endpoint_handle h = Some t /\ sp_killed t = false /\
       (CreateUdpProxy e, ans) ∈ sy_given s /\
       socket_addr (ca_lookup ans) e = Ok remote /\ ca_bind ans = Ok (local_port h) /\
       reachable ep_step (ep_init (mkUdpSocket (local_port h) None) e remote) (sp_task t) /\
       pe_endpoint (es_self (sp_task t)) = e /\
       us_port (pe_udp_socket (es_self (sp_task t))) = local_port h /\
       (es_phase (sp_task t) = EpFinished -> UdpEndpointEnded e ∈ chan_contents (sy_queue s))) /\
  (forall tid t, udp_tasks (sy_manager s) !! tid = Some t ->
     sp_killed t = true \/
     exists h, udp_proxy (sy_manager s) !! pe_endpoint (es_self (sp_task t)) = Some h
               /\ endpoint_handle h = tid).
Proof.
  intros [[[Hr Ht] _] _]%sys_reachable_ok. split.
  - intros e h Hl. destruct (Hr _ _ Hl) as (t & Htk & Hk & Hok & Hov).
    pose proof (udp_ok_endpoint _ _ _ _ Hok) as [He Hp].
    destruct Hok as (ans & remote & Hin & Ha & Hb & Hreach). exists t, ans, remote. by split_and!.
  - intros tid t Htk. destruct (Ht _ _ Htk) as [_ [|(e & h & Hl & <-)]]; [by left|right].
    destruct (Hr _ _ Hl) as (t' & Htk' & _ & Hok & _). simplify_eq. exists h.
    by rewrite (proj1 (udp_ok_endpoint _ _ _ _ Hok)).
Qed.

(** C24: every TCP endpoint the manager lists has a task of its own that was not killed, in a state the
    endpoint can reach from its start, whose listener is on the port the manager hands out, which
    the system gave when the endpoint was asked for; if that task finished, its end is in the
    manager's queue (a task that panicked has sent nothing); every other TCP task was killed. *)
Theorem manager_tracks_tcp_endpoints s :
  reachable sys_step sys_init s ->
  (forall e h, tcp_proxy (sy_manager s) !! e = Some h ->
     exists t ans, tcp_tasks (sy_manager s) !! endpoint_handle h = Some t /\ sp_killed t = false /\
       (CreateTcpProxy e, ans) ∈ sy_given s /\ ca_bind ans = Ok (local_port h) /\
       reachable tcp_ep_step (tcp_ep_init (local_port h) e) (sp_task t) /\
       te_endpoint (ts_self (sp_task t)) = e /\ te_tcp_listener (ts_self (sp_task t)) = local_port h /\
       (ts_phase (sp_task t) = TepFinished -> TcpEndpointEnded e ∈ chan_contents (sy_queue s)) /\
       (ts_phase (sp_task t) = TepPanicked -> tcp_tells (ts_log (sp_task t)) = [])) /\
  (forall tid t, tcp_tasks (sy_manager s) !! tid = Some t ->
     sp_killed t = true \/
     exists h, tcp_proxy (sy_manager s) !! te_endpoint (ts_self (sp_task t)) = Some h
               /\ endpoint_handle h = tid).
Proof.
  intros [[_ [Hr Ht]] _]%sys_reachable_ok. split.
  - intros e h Hl. destruct (Hr _ _ Hl) as (t & Htk & Hk & Hok & Hov).
    pose proof (tcp_ok_endpoint _ _ _ _ Hok) as [He Hp].
    destruct Hok as (ans & Hin & Hb & Hreach). exists t, ans. split_and!; try done. intros Hph.
    apply tcp_ep_reachable_ok in Hreach as (_ & _ & _ & _ & Htells). by rewrite Hph in Htells.
  - intros tid t Htk. destruct (Ht _ _ Htk) as [_ [|(e & h & Hl & <-)]]; [by left|right].
    destruct (Hr _ _ Hl) as (t' & Htk' & _ & Hok & _). simplify_eq. exists h.
    by rewrite (proj1 (tcp_ok_endpoint _ _ _ _ Hok)).
Qed.

(** ** Liveness *)

Lemma handle_runs queue s ans rest :
  chan_contents (sy_queue s) = queue ++ rest ->
  exists s', run sys_step s (replicate (length queue) (SyHandle ans)) = Some s'
             /\ chan_contents (sy_queue s') = rest.
Proof.
  revert s. induction queue as [|msg queue IH]; intros s Hc; [by eexists|].
  destruct (recv_some _ _ _ Hc) as (ch & Hr & Hc' & _). cbn. rewrite Hr.
  destruct (handle_msg msg ans (sy_manager s)) as [m reply]. by apply IH.
Qed.

(** C23: an endpoint that is over is forgotten: when the task of a listed UDP endpoint has finished,
    the manager removes the entry after finitely many messages of its queue, without waiting for
    anything else. *)
Theorem finished_endpoint_is_forgotten s e h t ans :
  reachable sys_step sys_init s -> udp_proxy (sy_manager s) !! e = Some h ->
  udp_tasks (sy_manager s) !! endpoint_handle h = Some t -> es_phase (sp_task t) = EpFinished ->
  exists n s', n <= length (chan_contents (sy_queue s)) /\
    run sys_step s (replicate n (SyHandle ans)) = Some s' /\ udp_proxy (sy_manager s') !! e = None.
Proof.
  intros [[[Hr _] _] _]%sys_reachable_ok Hl Ht Hph.
  destruct (Hr _ _ Hl) as (t' & Ht' & _ & _ & Hin). simplify_eq.
  specialize (Hin Hph). apply list_elem_of_split in Hin as (l1 & l2 & Hc).
  destruct (handle_runs l1 s ans (UdpEndpointEnded e :: l2) Hc) as (s1 & Hrun & Hc1).
  destruct (recv_some _ _ _ Hc1) as (ch & Hrecv & _).
  exists (length l1 + 1), (mkSys (delete_udp_proxy_impl e (sy_manager s1)).2 ch
    (sy_handled s1 ++ [(UdpEndpointEnded e, None)])
    (sy_given s1 ++ [(UdpEndpointEnded e, ans)])).
  split_and!; [rewrite Hc, length_app; cbn; lia| |apply delete_udp_gone].
  rewrite replicate_add, run_app, Hrun. cbn. by rewrite Hrecv.
Qed.

(** ** Requests *)

(** The manager's answer to a request for a UDP endpoint: a port means the endpoint is listed
    on that port from then on, an error (the target does not resolve, no socket) that nothing
    changed; no other endpoint and no running task is affected, and asking again, whatever the
    system answers, gives the same port and changes nothing. *)
Theorem create_udp_contract e ans m m' reply :
  (forall tid t, udp_tasks m !! tid = Some t -> tid < next_task m) ->
  handle_msg (CreateUdpProxy e) ans m = (m', reply) ->
  (forall e', e' <> e -> udp_proxy m' !! e' = udp_proxy m !! e') /\ tcp_proxy m' = tcp_proxy m /\
  (forall tid t, udp_tasks m !! tid = Some t -> udp_tasks m' !! tid = Some t) /\
  ((exists h, reply = Some (CreateUdpProxyRs (local_port h)) /\ udp_proxy m' !! e = Some h /\
      forall ans', handle_msg (CreateUdpProxy e) ans' m' = (m', reply)) \/
   (exists err, reply = Some (UdpProxyErrorRs err) /\ m' = m /\ udp_proxy m !! e = None /\
      (socket_addr (ca_lookup ans) e = Err err \/ ca_bind ans = Err err))).
Proof.
  intros Hfresh Hs. cbn in Hs. unfold create_udp_proxy_impl, ProxyEndpointHandler_new in Hs.
  destruct (udp_proxy m !! e) as [h|] eqn:El.
  { simplify_eq. split_and!; try done. left. exists h. split_and!; try done.
    intros ans'. cbn. unfold create_udp_proxy_impl. by rewrite El. }
  destruct (socket_addr _ e) as [remote|err]; [|simplify_eq; split_and!; eauto 10].
  destruct (ca_bind ans) as [port|err]; [|simplify_eq; split_and!; eauto 10].
  simplify_eq. cbn. split_and!; [|done| |].
  - intros e' Hne. by rewrite lookup_insert_ne.
  - intros tid t Ht. rewrite lookup_insert_ne; [done|]. specialize (Hfresh _ _ Ht). lia.
  - left. exists (mkHandler port (next_task m)). split; [done|]. rewrite lookup_insert_eq. split; [done|].
    intros ans'. unfold create_udp_proxy_impl. cbn. by rewrite lookup_insert_eq.
Qed.

(** Deleting an endpoint (UDP or TCP) answers success exactly when the manager lists it; then
    it is listed no more and its task is killed, and no other entry changes; otherwise nothing
    changes. *)
Theorem delete_contract e ans m :
  (match udp_proxy m !! e, handle_msg (DeleteUdpProxy e) ans m with
   | Some h, (m', reply) =>
       reply = Some DeleteUdpProxyRs /\ udp_proxy m' = delete e (udp_proxy m) /\
       tcp_proxy m' = tcp_proxy m /\ tcp_tasks m' = tcp_tasks m /\
       (forall t, udp_tasks m !! endpoint_handle h = Some t ->
          udp_tasks m' !! endpoint_handle h = Some (mkSpawned (sp_task t) true)) /\
       (forall tid, tid <> endpoint_handle h -> udp_tasks m' !! tid = udp_tasks m !! tid)
   | None, r => r = (m, Some (UdpProxyErrorRs NO_PROXY))
   end) /\
  (match tcp_proxy m !! e, handle_msg (DeleteTcpProxy e) ans m with
   | Some h, (m', reply) =>
       reply = Some DeleteTcpProxyRs /\ tcp_proxy m' = delete e (tcp_proxy m) /\
       udp_proxy m' = udp_proxy m /\ udp_tasks m' = udp_tasks m /\
       (forall t, tcp_tasks m !! endpoint_handle h = Some t ->
          tcp_tasks m' !! endpoint_handle h = Some (mkSpawned (sp_task t) true)) /\
       (forall tid, tid <> endpoint_handle h -> tcp_tasks m' !! tid = tcp_tasks m !! tid)
   | None, r => r = (m, Some (TcpProxyErrorRs NO_PROXY))
   end).
Proof.
  cbn. unfold delete_udp_proxy_impl, delete_tcp_proxy_impl, ProxyEndpointHandler_kill,
    ProxyTcpEndpointHandler_kill, abort_task. split.
  - destruct (udp_proxy m !! e) as [h|]; cbn; [|done]. split_and!; try done.
    + intros t Ht. by rewrite lookup_alter_eq, Ht.
    + intros tid Hne. by rewrite lookup_alter_ne.
  - destruct (tcp_proxy m !! e) as [h|]; cbn; [|done]. split_and!; try done.
    + intros t Ht. by rewrite lookup_alter_eq, Ht.
    + intros tid Hne. by rewrite lookup_alter_ne.
Qed.
End Manager.
