(* ===== verification/ProxyManager.v ===== *)
(** * The proxy manager's front (src/proxy.rs: [struct ProxyManager])

    The front serves allocation and deletion requests: in the per-session mode it asks the manager
    task for endpoints, in the pooled mode it routes sessions over the pooled endpoints.  It is
    written against two interfaces, [ManagerApi] (the manager task behind its channel) and
    [PoolApi] (a pooled endpoint behind its handler); PooledHandler.v and ManagerBackend.v give the
    implementations.  The service drops a request that takes too long, at one of its awaits, so a
    request need not come to its end. *)

From S2P Require Import Prelude RustInt Stun Types Rpc.
Local Open Scope Z_scope.

(** What a caller gets from sending a request and awaiting the answer on its oneshot channel, when
    it is not dropped meanwhile. *)
Inductive call_answer : Type :=
| SendFailed
| NoAnswer
| Answered (res : ProxyManagerMsg).

(** The manager task as a caller sees it. *)
Class ManagerApi (M : Type) : Type := {
  mg_call : M -> ProxyManagerMsg -> awaited call_answer * M
}.

(** A [PooledUdpEndpointHandler] as the front sees it. *)
Class PoolApi (P : Type) : Type := {
  pool_port : P -> Z;
  pool_add_route : P -> string -> string -> SocketAddr -> awaited (result string unit) * P;
  pool_remove_session : P -> string -> awaited (result string bool) * P
}.

Section ProxyManager.
Context {M : Type} `{ManagerApi M} {P : Type} `{PoolApi P}.

(** [struct ProxyManager]; [pm_tx] is the manager task behind [tx]. *)
Record ProxyManager : Type := mkProxyManager {
  pm_tx : M;
  pm_udp_endpoints : gmap Session Endpoint;
  pm_tcp_endpoints : gmap Session Endpoint;
  pm_udp_mode : UdpProxyMode;
  pm_udp_pool : list P;
  pm_next_pooled : Z
}.

(** [ProxyManager::new], with the manager task it spawned. *)
Definition ProxyManager_new (tx : M) : ProxyManager :=
  mkProxyManager tx ∅ ∅ PerSession [] 0.

Definition set_tx (self : ProxyManager) (tx : M) : ProxyManager :=
  mkProxyManager tx (pm_udp_endpoints self) (pm_tcp_endpoints self) (pm_udp_mode self)
    (pm_udp_pool self) (pm_next_pooled self).
Definition set_udp_endpoints (self : ProxyManager) (m : gmap Session Endpoint) : ProxyManager :=
  mkProxyManager (pm_tx self) m (pm_tcp_endpoints self) (pm_udp_mode self) (pm_udp_pool self)
    (pm_next_pooled self).
Definition set_tcp_endpoints (self : ProxyManager) (m : gmap Session Endpoint) : ProxyManager :=
  mkProxyManager (pm_tx self) (pm_udp_endpoints self) m (pm_udp_mode self) (pm_udp_pool self)
    (pm_next_pooled self).
Definition set_pool (self : ProxyManager) (pool : list P) : ProxyManager :=
  mkProxyManager (pm_tx self) (pm_udp_endpoints self) (pm_tcp_endpoints self) (pm_udp_mode self)
    pool (pm_next_pooled self).
Definition set_mode (self : ProxyManager) (mode : UdpProxyMode) : ProxyManager :=
  mkProxyManager (pm_tx self) (pm_udp_endpoints self) (pm_tcp_endpoints self) mode
    (pm_udp_pool self) (pm_next_pooled self).
Definition set_next_pooled (self : ProxyManager) (n : Z) : ProxyManager :=
  mkProxyManager (pm_tx self) (pm_udp_endpoints self) (pm_tcp_endpoints self) (pm_udp_mode self)
    (pm_udp_pool self) n.

(** ** Construction *)

(** The port of the [i]th pooled socket. *)
Definition pool_port_of (base_port : Z) (i : nat) : result string Z :=
  if base_port =? 0 then Ok 0
  else
    ok_or (match result_ok (u16_try_from (Z.of_nat i)) with
           | Some i => u16_checked_add base_port i
           | None => None
           end) "udp pool exceeds the port range"%string.

(** The loop of [with_udp_pool], from its [i]th round, [n] rounds before its end; [bind] is
    [PooledUdpEndpointHandler::bind] in the [i]th round. *)
Fixpoint bind_pool (bind : nat -> Z -> result string P) (base_port : Z) (n i : nat)
  (self : ProxyManager) : result string ProxyManager :=
  match n with
  | O => Ok self
  | S n =>
      match pool_port_of base_port i with
      | Err e => Err e
      | Ok port =>
          match bind i port with
          | Ok handler => bind_pool bind base_port n (S i) (set_pool self (pm_udp_pool self ++ [handler]))
          | Err _ => bind_pool bind base_port n (S i) self
          end
      end
  end.

Definition with_udp_pool (tx : M) (bind : nat -> Z -> result string P) (pool_size : nat)
  (base_port : Z) : result string ProxyManager :=
  match bind_pool bind base_port pool_size 0 (ProxyManager_new tx) with
  | Err e => Err e
  | Ok manager =>
      if (0 <? pool_size)%nat then
        match pm_udp_pool manager with
        | [] => Err "Could not bind any of the pooled udp sockets"%string
        | _ => Ok (set_mode manager Pooled)
        end
      else Ok manager
  end.

Definition udp_mode (self : ProxyManager) : UdpProxyMode := pm_udp_mode self.

Definition pooled_udp_ports (self : ProxyManager) : list Z := map pool_port (pm_udp_pool self).

(** ** Requests

    A request changes the front and answers with a value or an error; or it panics, or it is dropped
    at an await.  What it changed until then stays: the front is behind a lock that a panic does not
    poison. *)

Inductive fate (A : Type) : Type :=
| Returned (a : A)
| Panicked
| Dropped.
#[global] Arguments Returned {A} _.
#[global] Arguments Panicked {A}.
#[global] Arguments Dropped {A}.

Definition op (A : Type) : Type := ProxyManager -> fate (result string A) * ProxyManager.

Definition op_ret {A} (a : A) : op A := fun self => (Returned (Ok a), self).
Definition op_err {A} (e : string) : op A := fun self => (Returned (Err e), self).
Definition op_lift {A} (r : result string A) : op A := fun self => (Returned r, self).
Definition op_panic {A} (r : outcome A) : op A :=
  fun self => (match r with Ret a => Returned (Ok a) | Panic => Panicked end, self).
Definition op_bind {A B} (m : op A) (k : A -> op B) : op B :=
  fun self =>
    match m self with
    | (Returned (Ok a), self) => k a self
    | (Returned (Err e), self) => (Returned (Err e), self)
    | (Panicked, self) => (Panicked, self)
    | (Dropped, self) => (Dropped, self)
    end.
Definition op_get {A} (f : ProxyManager -> A) : op A := fun self => (Returned (Ok (f self)), self).
Definition op_modify (f : ProxyManager -> ProxyManager) : op unit :=
  fun self => (Returned (Ok tt), f self).

(** What an await makes of a request. *)
Definition fate_of {A} (a : awaited A) : fate A :=
  match a with Answer a => Returned a | Interrupted => Dropped end.

Notation "'let+' x ':=' m 'in' k" := (op_bind m (fun x => k))
  (at level 10, x pattern, m at level 200, k at level 200).

(** Sending a request to the manager task and awaiting the answer. *)
Definition call (msg : ProxyManagerMsg) : op call_answer :=
  fun self =>
    let (a, tx) := mg_call (pm_tx self) msg in
    (fate_of (match a with Answer a => Answer (Ok a) | Interrupted => Interrupted end),
     set_tx self tx).

(** Awaiting [f] of the [i]th pooled handler. *)
Definition on_pool {A} (i : nat) (f : P -> awaited (result string A) * P) : op A :=
  fun self =>
    match pm_udp_pool self !! i with
    | Some pooled =>
        let (a, pooled) := f pooled in
        (fate_of a, set_pool self (<[i := pooled]> (pm_udp_pool self)))
    | None => (Panicked, self)
    end.

Definition create_udp_proxy_internal (endpoint : Endpoint) : op Z :=
  let+ a := call (CreateUdpProxy endpoint) in
  match a with
  | SendFailed => op_err "channel closed"
  | Answered (CreateUdpProxyRs port) =>
      let+ _ := op_modify (fun self =>
        set_udp_endpoints self
          (<[mkSession port (e_session_id endpoint) := endpoint]> (pm_udp_endpoints self))) in
      op_ret port
  | Answered (UdpProxyErrorRs error) => op_err error
  | Answered _ => op_err "Something happened"
  | NoAnswer => op_err "Something happened"
  end.

(** [lookup] is the resolver [Endpoint::socket_addr] asks. *)
Definition create_pooled_udp_proxy (lookup : string -> Z -> result string (list SocketAddr))
  (endpoint : Endpoint) (ufrag : option string) : op Z :=
  match ufrag with
  | Some ((String.String _ _) as ufrag) =>
      let+ target := op_lift (socket_addr lookup endpoint) in
      let+ len := op_get (fun self => Z.of_nat (length (pm_udp_pool self))) in
      let+ next := op_get pm_next_pooled in
      let+ i := op_panic (if len =? 0 then Panic else Ret (Z.to_nat (next mod len))) in
      let+ pool := op_get pm_udp_pool in
      let+ pooled := op_panic (index pool i) in
      let+ _ := op_modify (fun self => set_next_pooled self (usize_wrapping_add next 1)) in
      let port := pool_port pooled in
      let+ _ := on_pool i (fun pooled => pool_add_route pooled (e_session_id endpoint) ufrag target) in
      let+ _ := op_modify (fun self =>
        set_udp_endpoints self
          (<[mkSession port (e_session_id endpoint) := endpoint]> (pm_udp_endpoints self))) in
      op_ret port
  | _ => op_err "ufrag is required in pooled udp mode"
  end.

Definition create_tcp_proxy_internal (target_ip : string) (target_tcp_port : Z) (session_id : string)
  : op Z :=
  let endpoint := Endpoint_new target_tcp_port target_ip session_id in
  let+ a := call (CreateTcpProxy endpoint) in
  match a with
  | SendFailed => op_err "Can not initiate tcp proxy creation"
  | Answered (CreateTcpProxyRs port) =>
      let+ _ := op_modify (fun self =>
        set_tcp_endpoints self
          (<[mkSession port (e_session_id endpoint) := endpoint]> (pm_tcp_endpoints self))) in
      op_ret port
  | Answered (TcpProxyErrorRs error) => op_err error
  | Answered _ => op_err "Bad messsage"
  | NoAnswer => op_err "Tcp allocation result has not been recieved"
  end.

(** The text of a [ParseIntError]. *)
Definition int_error_to_string (e : int_error) : string :=
  match e with
  | Empty => "cannot parse integer from empty string"
  | InvalidDigit => "invalid digit found in string"
  | PosOverflow => "number too large to fit in target type"
  end.

(** [port.parse::<u16>()?]. *)
Definition parse_port (port : string) : op Z := op_lift (map_err int_error_to_string (parse_u16 port)).

Definition create_proxy (lookup : string -> Z -> result string (list SocketAddr))
  (request : AllocateRequest) : op AllocateResponse :=
  let+ target_udp_port := op_panic (unwrap (parse_u16 (target_udp_port request))) in
  let endpoint := Endpoint_new target_udp_port (target_ip request) (session_id request) in
  let+ mode := op_get udp_mode in
  let+ udp_port := match mode with
                   | PerSession => create_udp_proxy_internal endpoint
                   | Pooled => create_pooled_udp_proxy lookup endpoint (ufrag request)
                   end in
  let+ tcp_port := parse_port (target_tcp_port request) in
  let+ tcp_port := if tcp_port =? 0 then op_ret tcp_port
                   else create_tcp_proxy_internal (target_ip request) tcp_port (session_id request) in
  let+ ssl_tcp_port := parse_port (target_ssl_tcp_port request) in
  let+ ssl_tcp_port :=
    if ssl_tcp_port =? 0 then op_ret ssl_tcp_port
    else create_tcp_proxy_internal (target_ip request) ssl_tcp_port (session_id request) in
  op_ret (mkAllocateResponse udp_port tcp_port ssl_tcp_port).

(** ** Deletions *)

(** The first pooled handler on a port. *)
Definition find_pooled (port : Z) (pool : list P) : option (nat * P) :=
  list_find (fun p => pool_port p = port) pool.

Definition delete_pooled_udp_proxy (port : Z) (session_id : string) : op unit :=
  let session := mkSession port session_id in
  let+ known := op_get (fun self => pm_udp_endpoints self !! session) in
  match known with
  | None => op_err "No such endpoint"
  | Some _ =>
      let+ _ := op_modify (fun self =>
        set_udp_endpoints self (delete session (pm_udp_endpoints self))) in
      let+ found := op_get (fun self => find_pooled port (pm_udp_pool self)) in
      match found with
      | None => op_err "No such pooled port"
      | Some (i, _) =>
          let+ _ := on_pool i (fun pooled => pool_remove_session pooled session_id) in
          op_ret tt
      end
  end.

(** The answer of the manager task is matched into a value that is not used. *)
Definition delete_udp_proxy (port : Z) (session_id : string) : op unit :=
  let+ mode := op_get udp_mode in
  match mode with
  | Pooled => delete_pooled_udp_proxy port session_id
  | PerSession =>
      let+ known := op_get (fun self => pm_udp_endpoints self !! mkSession port session_id) in
      match known with
      | None => op_err "No such endpoint"
      | Some endpoint =>
          let+ a := call (DeleteUdpProxy endpoint) in
          match a with
          | SendFailed => op_err "channel closed"
          | _ => op_ret tt
          end
      end
  end.

Definition delete_tcp_proxy (port : Z) (session_id : string) : op unit :=
  let+ known := op_get (fun self => pm_tcp_endpoints self !! mkSession port session_id) in
  match known with
  | None => op_err "No such endpoint"
  | Some endpoint =>
      let+ a := call (DeleteTcpProxy endpoint) in
      match a with
      | SendFailed => op_err "channel closed"
      | _ => op_ret tt
      end
  end.
End ProxyManager.

Arguments ProxyManager : clear implicits.

Notation "'let+' x ':=' m 'in' k" := (op_bind m (fun x => k))
  (at level 10, x pattern, m at level 200, k at level 200) : rust_scope.
