(* ===== verification/FrontLaws.v ===== *)
(** * What the front relies on, and rules for its requests

    [ManagerLaws] and [PoolLaws] are the promises of the manager task and of the pooled endpoints;
    the front's theorems hold for whatever keeps them.  Either may be asked by a caller that is
    dropped before the answer, so the laws also say what such a call may have done.  The rules
    at the end take requests apart: [inv_op] a successful one into its steps, [post] an invariant
    along all of them. *)

From S2P Require Import Prelude RustInt Types Rpc UdpPooled PooledProps ProxyManager.
Local Open Scope Z_scope.

(** ** Protocols *)

(** The manager keeps UDP and TCP endpoints the same way, with messages of each kind. *)
Inductive proto : Type := Udp | Tcp.

#[global] Instance proto_eq_dec : EqDecision proto.
Proof. solve_decision. Defined.

#[global] Instance ProxyManagerMsg_eq_dec : EqDecision ProxyManagerMsg.
Proof. solve_decision. Defined.

Definition create_of (pr : proto) : Endpoint -> ProxyManagerMsg :=
  match pr with Udp => CreateUdpProxy | Tcp => CreateTcpProxy end.
Definition created_of (pr : proto) : Z -> ProxyManagerMsg :=
  match pr with Udp => CreateUdpProxyRs | Tcp => CreateTcpProxyRs end.
Definition error_of (pr : proto) : string -> ProxyManagerMsg :=
  match pr with Udp => UdpProxyErrorRs | Tcp => TcpProxyErrorRs end.
Definition delete_of (pr : proto) : Endpoint -> ProxyManagerMsg :=
  match pr with Udp => DeleteUdpProxy | Tcp => DeleteTcpProxy end.
Definition ended_of (pr : proto) : Endpoint -> ProxyManagerMsg :=
  match pr with Udp => UdpEndpointEnded | Tcp => TcpEndpointEnded end.

(** ** The manager task *)

(** What the front may know of a manager: its good states, the port an endpoint is listed on, and a
    count of the news of an endpoint that are no answers: reports of its end, and requests whose
    caller was dropped, once they are handled. *)
Class ManagerView (M : Type) : Type := {
  mgr_ok : M -> Prop;
  listed : proto -> M -> Endpoint -> option Z;
  news : proto -> M -> Endpoint -> nat
}.

(** Between two states an endpoint is listed as before, unless there was news of it. *)
Definition kept {M} `{ManagerView M} (pr : proto) (m m' : M) (e : Endpoint) : Prop :=
  (news pr m e <= news pr m' e)%nat /\
  (listed pr m' e = listed pr m e \/ (news pr m e < news pr m' e)%nat).

(** [m'] lists [e] on [port], unless there was news of [e] since [m]. *)
Definition serves {M} `{ManagerView M} (pr : proto) (m m' : M) (e : Endpoint) (port : Z) : Prop :=
  listed pr m' e = Some port \/ (news pr m e < news pr m' e)%nat.

(** The promises of the manager task: a request that is answered leaves the endpoint listed on the
    port answered, or not listed; one whose caller was dropped is news if it is handled; nothing
    else changes without news. *)
Class ManagerLaws (M : Type) `{ManagerApi M} `{ManagerView M} : Prop := {
  create_law pr m e a m' :
    mgr_ok m -> mg_call m (create_of pr e) = (a, m') ->
    mgr_ok m' /\ (forall pr' e', (pr', e') <> (pr, e) -> kept pr' m m' e') /\
    match a with
    | Answer a =>
        (news pr m e <= news pr m' e)%nat /\
        (forall p, listed pr m e = Some p -> serves pr m m' e p) /\
        ((exists p, a = Answered (created_of pr p) /\ listed pr m' e = Some p) \/
         (exists err, a = Answered (error_of pr err) /\ listed pr m' e = None))
    | Interrupted => kept pr m m' e
    end;
  delete_law pr m e a m' :
    mgr_ok m -> mg_call m (delete_of pr e) = (a, m') ->
    mgr_ok m' /\ (forall pr' e', (pr', e') <> (pr, e) -> kept pr' m m' e') /\
    match a with
    | Answer a => a <> SendFailed /\ listed pr m' e = None
    | Interrupted => kept pr m m' e
    end
}.

Section Kept.
Context {M : Type} `{ManagerView M}.

Lemma kept_refl pr m e : kept pr m m e.
Proof. split; [done|by left]. Qed.

Lemma kept_serves pr m0 m m' e port :
  (news pr m0 e <= news pr m e)%nat -> serves pr m0 m e port -> kept pr m m' e ->
  serves pr m0 m' e port.
Proof. unfold serves, kept. intros Hle [Hl|Hl] [Hm [E|Hlt]]; [left; congruence|right; lia..]. Qed.
End Kept.

(** ** Pooled endpoints *)

(** What the front may know of a pooled endpoint: its good states, and the control messages it was
    sent, which its tables implement ([PooledProps.tables_refine_history]). *)
Class PoolView (P : Type) : Type := {
  pool_ok : P -> Prop;
  pool_asked : P -> list PooledUdpMsg
}.

(** The ufrag and the target a session is routed by. *)
Definition pool_route {P} `{PoolView P} (p : P) (sid : string) : option (string * SocketAddr) :=
  u ← session_spec (pool_asked p) sid; t ← target_spec (pool_asked p) u; Some (u, t).

(** The promises of a pooled endpoint: it takes every message, in order; a dropped request may have
    been sent. *)
Class PoolLaws (P : Type) `{PoolApi P} `{PoolView P} : Prop := {
  add_route_law p sid u t a p' :
    pool_ok p -> pool_add_route p sid u t = (a, p') ->
    pool_ok p' /\ pool_port p' = pool_port p /\
    match a with
    | Answer r => r = Ok tt /\ pool_asked p' = pool_asked p ++ [AddRoute sid u t]
    | Interrupted => pool_asked p' = pool_asked p \/ pool_asked p' = pool_asked p ++ [AddRoute sid u t]
    end;
  remove_session_law p sid a p' :
    pool_ok p -> pool_remove_session p sid = (a, p') ->
    pool_ok p' /\ pool_port p' = pool_port p /\
    match a with
    | Answer r => r = Ok (bool_decide (is_Some (session_spec (pool_asked p) sid)))
        /\ pool_asked p' = pool_asked p ++ [RemoveSession sid]
    | Interrupted =>
        pool_asked p' = pool_asked p \/ pool_asked p' = pool_asked p ++ [RemoveSession sid]
    end
}.

(** ** Inverting requests *)

Section OpInv.
Context {M P : Type}.

Lemma op_bind_Ok {A B} (m : op (M := M) (P := P) A) (k : A -> op B) self b self' :
  op_bind m k self = (Returned (Ok b), self') <->
  exists a self1, m self = (Returned (Ok a), self1) /\ k a self1 = (Returned (Ok b), self').
Proof. unfold op_bind. destruct (m self) as [[[a|e]| |] self1]; naive_solver. Qed.

Lemma op_lift_Ok {A} (r : result string A) (self self' : ProxyManager M P) a :
  op_lift r self = (Returned (Ok a), self') <-> r = Ok a /\ self' = self.
Proof. unfold op_lift. naive_solver. Qed.

Lemma op_panic_Ok {A} (r : outcome A) (self self' : ProxyManager M P) a :
  op_panic r self = (Returned (Ok a), self') <-> r = Ret a /\ self' = self.
Proof. unfold op_panic. destruct r; naive_solver. Qed.
End OpInv.

(** [inv_op H] takes a successful request apart into its steps. *)
Ltac inv_op H :=
  repeat (match type of H with
  | op_bind _ _ _ = (Returned (Ok _), _) =>
      let a := fresh "a" in let s := fresh "s" in let H1 := fresh "Hop" in
      apply op_bind_Ok in H as (a & s & H1 & H); inv_op H1
  | op_lift _ _ = (Returned (Ok _), _) => apply op_lift_Ok in H as [H ->]
  | op_panic _ _ = (Returned (Ok _), _) => apply op_panic_Ok in H as [H ->]
  | op_ret ?a ?s = (Returned (Ok ?b), ?s') =>
      change (op_ret a s) with (Returned (@Ok string _ a), s) in H; injection H as <- <-
  | op_get ?f ?s = (Returned (Ok ?b), ?s') =>
      change (op_get f s) with (Returned (@Ok string _ (f s)), s) in H; injection H as <- <-
  | op_modify ?f ?s = (Returned (Ok ?b), ?s') =>
      change (op_modify f s) with (Returned (@Ok string _ tt), f s) in H; injection H as <- <-
  | op_err _ _ = (Returned (Ok _), _) => discriminate H
  end).

(** ** Postconditions of requests *)

Section Post.
Context {M : Type} `{ManagerApi M} {P : Type} `{PoolApi P}.

Implicit Types (self : ProxyManager M P).

(** From a state with [I], whatever becomes of the request, its last state has [I]; a value it
    returns has [Q]. *)
Definition post {A} (I : ProxyManager M P -> Prop) (m : op A) (Q : A -> Prop) : Prop :=
  forall self, I self -> I (m self).2 /\ match (m self).1 with Returned (Ok a) => Q a | _ => True end.

(** The request keeps [I]. *)
Definition keeps {A} (I : ProxyManager M P -> Prop) (m : op A) : Prop := post I m (fun _ => True).

Lemma post_bind {A B} I (m : op A) (k : A -> op B) Q R :
  post I m Q -> (forall a, Q a -> post I (k a) R) -> post I (op_bind m k) R.
Proof.
  intros Hm Hk self Hi. unfold op_bind. specialize (Hm self Hi).
  destruct (m self) as [[[a|e]| |] s]; cbn in Hm; [|naive_solver..].
  destruct Hm as [Hi' Ha]. by apply Hk.
Qed.

(** After reading the state, what was read is known to come from a state with [I]. *)
Lemma post_get {A B} I (f : ProxyManager M P -> A) (k : A -> op B) R :
  (forall self, I self -> post I (k (f self)) R) -> post I (op_bind (op_get f) k) R.
Proof. intros Hk self Hi. by apply Hk. Qed.

Lemma post_ret {A} I (a : A) (Q : A -> Prop) : Q a -> post I (op_ret a) Q.
Proof. by split. Qed.
Lemma post_err {A} I e (Q : A -> Prop) : post I (op_err e) Q.
Proof. by split. Qed.
Lemma post_lift {A} I (r : result string A) (Q : A -> Prop) : (forall a, r = Ok a -> Q a) -> post I (op_lift r) Q.
Proof. intros Hq self Hi. split; [done|]. cbn. destruct r; auto. Qed.
Lemma post_panic {A} I (r : outcome A) (Q : A -> Prop) : (forall a, r = Ret a -> Q a) -> post I (op_panic r) Q.
Proof. intros Hq self Hi. split; [done|]. cbn. destruct r; cbn; auto. Qed.
Lemma post_modify I (f : ProxyManager M P -> ProxyManager M P) (Q : unit -> Prop) :
  (forall self, I self -> I (f self)) -> Q tt -> post I (op_modify f) Q.
Proof. intros Hf Hq self Hi. cbn. auto. Qed.

Lemma post_call I msg (Q : call_answer -> Prop) :
  (forall self a tx, I self -> mg_call (pm_tx self) msg = (a, tx) ->
     I (set_tx self tx) /\ match a with Answer a => Q a | Interrupted => True end) ->
  post I (call msg) Q.
Proof.
  intros Hc self Hi. unfold call. destruct (mg_call (pm_tx self) msg) as [a tx] eqn:Ec.
  destruct (Hc _ _ _ Hi Ec). by destruct a.
Qed.

End Post.

(** [post_steps] takes a request apart into its steps; the steps that are not the operations above
    are left. *)
Ltac post_steps :=
  lazymatch goal with
  | |- post _ (op_bind (op_get _) _) _ => apply post_get; intros ? ?; post_steps
  | |- post _ (op_bind (op_lift _) _) _ =>
      eapply post_bind; [apply post_lift; intros ? HQ; exact HQ|intros ? ?; post_steps]
  | |- post _ (op_bind (op_panic _) _) _ =>
      eapply post_bind; [apply post_panic; intros ? HQ; exact HQ|intros ? ?; post_steps]
  | |- post _ (op_bind _ _) _ => eapply post_bind; [|intros ? ?; post_steps]
  | |- post _ (op_err _) _ => apply post_err
  | |- post _ (op_ret _) _ => apply post_ret
  | |- post _ (match _ with _ => _ end) _ => case_match; post_steps
  | |- _ => idtac
  end.
