(* ===== verification/ProxyProps.v ===== *)
(** * Properties of the proxy manager's front

    How the front is built, what a per-session allocation and deletion achieve, which requests
    panic: for every manager task and every pooled endpoint that keep the promises of [ManagerLaws]
    and [PoolLaws]. *)

From Stdlib Require Import ZifyBool.
From S2P Require Import Prelude RustInt Stun Types Rpc ProxyManager FrontLaws.
Local Open Scope Z_scope.

Section ProxyProps.
Context {M : Type} `{ManagerLaws M} {P : Type} `{PoolLaws P}.

Implicit Types (self : ProxyManager M P).

(** ** The pool *)

(** The port of the [i]th socket: any free one, or the [i]th from the base. *)
Definition nth_port (base_port : Z) (i : nat) : Z :=
  if base_port =? 0 then 0 else base_port + Z.of_nat i.

(** All [n] sockets have a port. *)
Definition ports_fit (base_port : Z) (n : nat) : bool :=
  (base_port =? 0) || (n =? 0)%nat || (base_port + Z.of_nat n - 1 <=? U16_MAX).

(** The handlers that could be bound. *)
Definition bound (bind : nat -> Z -> result string P) (base_port : Z) (idxs : list nat) : list P :=
  omap (fun i => result_ok (bind i (nth_port base_port i))) idxs.

Lemma pool_port_of_eq base_port i :
  0 <= base_port ->
  pool_port_of base_port i =
  if ports_fit base_port (S i) then Ok (nth_port base_port i)
  else Err "udp pool exceeds the port range"%string.
Proof.
  intros Hb. unfold pool_port_of, ports_fit, nth_port, u16_try_from, u16_checked_add.
  destruct (base_port =? 0) eqn:E0; [done|]. cbn [orb Nat.eqb].
  replace (base_port + Z.of_nat (S i) - 1) with (base_port + Z.of_nat i) by lia.
  destruct (base_port + Z.of_nat i <=? U16_MAX) eqn:Ef.
  - replace ((0 <=? Z.of_nat i) && (Z.of_nat i <=? U16_MAX)) with true
      by (apply Z.leb_le in Ef; symmetry; apply andb_true_iff; split; apply Z.leb_le; lia).
    cbn. by rewrite Ef.
  - destruct (_ && _); cbn; [by rewrite Ef|done].
Qed.

Lemma bind_pool_eq bind base_port n i self :
  0 <= base_port ->
  bind_pool bind base_port n i self =
  if (n =? 0)%nat || ports_fit base_port (i + n)
  then Ok (set_pool self (pm_udp_pool self ++ bound bind base_port (seq i n)))
  else Err "udp pool exceeds the port range"%string.
Proof.
  intros Hb. revert i self. induction n as [|n IH]; intros i self; cbn [bind_pool].
  { cbn. rewrite app_nil_r. by destruct self. }
  rewrite pool_port_of_eq by done.
  assert (Hmono : ports_fit base_port (i + S n) = true -> ports_fit base_port (S i) = true).
  { unfold ports_fit. destruct (base_port =? 0); [done|]. cbn.
    destruct (i + S n =? 0)%nat eqn:E; lia. }
  destruct (ports_fit base_port (S i)) eqn:E1.
  - assert (Hnext : (n =? 0)%nat || ports_fit base_port (S i + n) = ports_fit base_port (i + S n)).
    { replace (i + S n)%nat with (S i + n)%nat by lia. destruct n; [|done].
      by rewrite Nat.add_0_r, E1. }
    cbn [orb Nat.eqb seq]. unfold bound. cbn [omap list_omap].
    destruct (bind i (nth_port base_port i)) as [p|e]; rewrite IH, Hnext; cbn [result_ok].
    + destruct (ports_fit base_port (i + S n)); [|done]. f_equal. unfold set_pool. cbn.
      by rewrite <- app_assoc.
    + done.
  - destruct (ports_fit base_port (i + S n)); [by discriminate Hmono|done].
Qed.

Lemma with_udp_pool_eq (tx : M) bind n base_port :
  0 <= base_port ->
  with_udp_pool tx bind n base_port =
  if (n =? 0)%nat then Ok (ProxyManager_new tx)
  else if ports_fit base_port n then
    match bound bind base_port (seq 0 n) with
    | [] => Err "Could not bind any of the pooled udp sockets"%string
    | pool => Ok (mkProxyManager tx ∅ ∅ Pooled pool 0)
    end
  else Err "udp pool exceeds the port range"%string.
Proof.
  intros Hb. unfold with_udp_pool. rewrite bind_pool_eq by done.
  destruct n as [|n]; [done|]. cbn [Nat.eqb orb Nat.ltb Nat.leb Nat.add].
  destruct (ports_fit base_port (S n)); [|done]. cbn [pm_udp_pool set_pool app ProxyManager_new].
  by destruct (bound _ _ _).
Qed.

(** C40: [with_udp_pool] is per-session for size 0; otherwise it fails when the requested ports do
    not fit the port range or no socket at all binds, and else is pooled over exactly the sockets
    that bound, in order, socket [i] on the base port plus [i] (any port for base 0). *)
Theorem with_udp_pool_spec (tx : M) bind n base_port :
  0 <= base_port ->
  with_udp_pool tx bind n base_port =
  if (n =? 0)%nat then Ok (ProxyManager_new tx)
  else if ports_fit base_port n then
    match bound bind base_port (seq 0 n) with
    | [] => Err "Could not bind any of the pooled udp sockets"%string
    | pool => Ok (mkProxyManager tx ∅ ∅ Pooled pool 0)
    end
  else Err "udp pool exceeds the port range"%string.
Proof. apply with_udp_pool_eq. Qed.

(** ** Asking the manager task *)

Lemma create_udp_internal_spec e self r self' :
  mgr_ok (pm_tx self) -> create_udp_proxy_internal e self = (r, self') ->
  mgr_ok (pm_tx self') /\
  (news Udp (pm_tx self) e <= news Udp (pm_tx self') e)%nat /\
  (forall e', kept Tcp (pm_tx self) (pm_tx self') e') /\
  match r with
  | Returned (Ok port) =>
      listed Udp (pm_tx self') e = Some port /\
      self' = set_udp_endpoints (set_tx self (pm_tx self'))
                (<[mkSession port (e_session_id e) := e]> (pm_udp_endpoints self))
  | Returned (Err _) | Dropped => self' = set_tx self (pm_tx self')
  | Panicked => False
  end.
Proof.
  unfold create_udp_proxy_internal, op_bind, call. intros Hok.
  destruct (mg_call (pm_tx self) (CreateUdpProxy e)) as [a m'] eqn:Ec.
  destruct (create_law Udp _ _ _ _ Hok Ec) as (Hok' & Ho & Ha).
  assert (Ht : forall e', kept Tcp (pm_tx self) m' e') by (intros e'; by apply Ho).
  destruct a as [a|]; [|cbn; intros [= <- <-]; split_and!; try done; apply Ha].
  destruct Ha as (Hle & _ & [(p & -> & Hl)|(err & -> & Hl)]); cbn; intros [= <- <-]; by split_and!.
Qed.

(** What asking for a TCP endpoint leaves alone. *)
Definition tcp_kept self self' : Prop :=
  self' = set_tcp_endpoints (set_tx self (pm_tx self')) (pm_tcp_endpoints self') /\
  mgr_ok (pm_tx self') /\
  (forall e, kept Udp (pm_tx self) (pm_tx self') e) /\
  (forall e, (news Tcp (pm_tx self) e <= news Tcp (pm_tx self') e)%nat) /\
  (forall e p, listed Tcp (pm_tx self) e = Some p -> serves Tcp (pm_tx self) (pm_tx self') e p) /\
  (forall k, is_Some (pm_tcp_endpoints self !! k) -> is_Some (pm_tcp_endpoints self' !! k)).

Lemma tcp_kept_refl self : mgr_ok (pm_tx self) -> tcp_kept self self.
Proof.
  intros Hok. split; [by destruct self|]. split_and!; try done; [intros; apply kept_refl|].
  intros e p Hl. by left.
Qed.

Lemma create_tcp_internal_spec ip port sid self r self' :
  mgr_ok (pm_tx self) -> create_tcp_proxy_internal ip port sid self = (r, self') ->
  tcp_kept self self' /\
  match r with
  | Returned (Ok p) => listed Tcp (pm_tx self') (mkEndpoint port ip sid) = Some p /\
            is_Some (pm_tcp_endpoints self' !! mkSession p sid)
  | Panicked => False
  | _ => True
  end.
Proof.
  unfold create_tcp_proxy_internal, op_bind, call, Endpoint_new. intros Hok.
  destruct (mg_call (pm_tx self) _) as [a m'] eqn:Ec.
  destruct (create_law Tcp _ _ _ _ Hok Ec) as (Hok' & Ho & Ha).
  assert (Hu : forall e', kept Udp (pm_tx self) m' e') by (intros e'; by apply Ho).
  assert (Hk : forall e, (news Tcp (pm_tx self) e <= news Tcp m' e)%nat /\
    forall p, listed Tcp (pm_tx self) e = Some p -> serves Tcp (pm_tx self) m' e p).
  { assert (Hkept : forall e, kept Tcp (pm_tx self) m' e ->
      (news Tcp (pm_tx self) e <= news Tcp m' e)%nat /\
      forall p, listed Tcp (pm_tx self) e = Some p -> serves Tcp (pm_tx self) m' e p).
    { intros e He. split; [apply He|]. intros p Hp. eapply kept_serves; [done|by left|done]. }
    intros e. destruct (decide (e = mkEndpoint port ip sid)) as [->|Hne];
      [|apply Hkept, Ho; congruence].
    destruct a as [a|]; [|by apply Hkept]. by destruct Ha as (Hle & Hsame & _). }
  destruct a as [a|]; [destruct Ha as (_ & _ & [(p & -> & Hl)|(err & -> & Hl)])|];
    cbn; intros [= <- <-].
  - split; [|cbn; by rewrite lookup_insert_eq; eauto].
    split_and!; [done|done|done|by apply Hk|by apply Hk|].
    intros k Hin. cbn. rewrite lookup_insert. case_decide; [eauto|done].
  - split; [|done]. split_and!; [done|done|done|by apply Hk|by apply Hk|done].
  - split; [|done]. split_and!; [done|done|done|by apply Hk|by apply Hk|done].
Qed.

(** One TCP port of an allocation: none for 0. *)
Lemma tcp_step_spec ip port sid self p self' :
  mgr_ok (pm_tx self) ->
  (if port =? 0 then op_ret port else create_tcp_proxy_internal ip port sid) self
    = (Returned (Ok p), self') ->
  tcp_kept self self' /\
  (if port =? 0 then p = 0
   else listed Tcp (pm_tx self') (mkEndpoint port ip sid) = Some p /\
        is_Some (pm_tcp_endpoints self' !! mkSession p sid)).
Proof.
  intros Hok. destruct (port =? 0) eqn:E.
  - intros Hs. unfold op_ret in Hs. simplify_eq. split; [by apply tcp_kept_refl|lia].
  - by apply create_tcp_internal_spec.
Qed.

(** ** Allocations in the per-session mode *)

(** In [self'] the front answers [port] for the TCP target [tcp] of a request made in [self]. *)
Definition tcp_served self self' (req : AllocateRequest) (tcp port : Z) : Prop :=
  if tcp =? 0 then port = 0
  else serves Tcp (pm_tx self) (pm_tx self')
         (mkEndpoint tcp (target_ip req) (session_id req)) port /\
       is_Some (pm_tcp_endpoints self' !! mkSession port (session_id req)).

Lemma tcp_served_kept self self1 self2 req tcp port :
  (forall e, (news Tcp (pm_tx self) e <= news Tcp (pm_tx self1) e)%nat) -> tcp_kept self1 self2 ->
  (if tcp =? 0 then port = 0
   else listed Tcp (pm_tx self1) (mkEndpoint tcp (target_ip req) (session_id req)) = Some port /\
        is_Some (pm_tcp_endpoints self1 !! mkSession port (session_id req))) ->
  tcp_served self self2 req tcp port.
Proof.
  unfold tcp_served. intros Hle (_ & _ & _ & _ & Hl & Hk). destruct (tcp =? 0); [done|].
  intros [Hp ?]. split; [|auto]. apply Hl in Hp as [Hp|Hp]; [by left|right].
  specialize (Hle (mkEndpoint tcp (target_ip req) (session_id req))). lia.
Qed.

Lemma parse_port_Ok str self p self' :
  parse_port str self = (Returned (Ok p), self') -> parse_u16 str = Ok p /\ self' = self.
Proof.
  unfold parse_port. intros [Hp ->]%op_lift_Ok. destruct (parse_u16 str); cbn in Hp; by simplify_eq.
Qed.

(** A successful per-session allocation: the three target ports were decimal 16-bit numbers; the
    manager lists the session's UDP endpoint on the UDP port answered, and its TCP endpoints on the
    TCP ports answered, each unless there was news of it while the request was under way; a
    target port 0 is answered by 0 without an endpoint; and the front knows each endpoint under its
    port and the session, so that it can be deleted. *)
Theorem create_proxy_serves_session lookup req self resp self' :
  mgr_ok (pm_tx self) -> pm_udp_mode self = PerSession ->
  create_proxy lookup req self = (Returned (Ok resp), self') ->
  exists udp tcp ssl,
    parse_u16 (target_udp_port req) = Ok udp /\ parse_u16 (target_tcp_port req) = Ok tcp /\
    parse_u16 (target_ssl_tcp_port req) = Ok ssl /\ mgr_ok (pm_tx self') /\
    let e := mkEndpoint udp (target_ip req) (session_id req) in
    serves Udp (pm_tx self) (pm_tx self') e (proxy_udp_port resp) /\
    pm_udp_endpoints self' !! mkSession (proxy_udp_port resp) (session_id req) = Some e /\
    tcp_served self self' req tcp (proxy_tcp_port resp) /\
    tcp_served self self' req ssl (proxy_ssl_tcp_port resp).
Proof.
  intros Hok Hmode Hs. unfold create_proxy in Hs. inv_op Hs. unfold udp_mode in Hop0.
  rewrite Hmode in Hop0.
  assert (Hu : parse_u16 (target_udp_port req) = Ok a)
    by (destruct (parse_u16 (target_udp_port req)); cbn in Hop; by simplify_eq).
  apply parse_port_Ok in Hop1 as [Ht ->], Hop3 as [Hss ->].
  apply create_udp_internal_spec in Hop0 as (Hok1 & Hle & Hke & [Hlu Htab]); [|done].
  apply tcp_step_spec in Hop2 as [Hk1 Ht1]; [|done].
  apply tcp_step_spec in Hop4 as [Hk2 Ht2]; [|apply Hk1].
  pose proof Hk1 as (E1 & Hok2 & Hu1 & Hle1 & _). pose proof Hk2 as (E2 & Hok3 & Hu2 & Hle2 & _).
  exists a, a1, a3. do 4 (split; [done|]). cbn. split_and!.
  - eapply kept_serves; [|eapply kept_serves; [exact Hle|by left|apply Hu1]|apply Hu2].
    etransitivity; [exact Hle|apply Hu1].
  - rewrite E2. cbn. rewrite E1. cbn. rewrite Htab. cbn. by rewrite lookup_insert_eq.
  - eapply tcp_served_kept; [|exact Hk2|exact Ht1].
    intros e. etransitivity; [apply (Hke e)|apply Hle1].
  - eapply tcp_served_kept; [|by apply tcp_kept_refl|exact Ht2].
    intros e. etransitivity; [apply (Hke e)|]. etransitivity; [apply Hle1|apply Hle2].
Qed.

(** ** Panics *)

Lemma op_bind_no_panic {A B} (m : op A) (k : A -> op B) self :
  (m self).1 <> Panicked ->
  (forall a self1, m self = (Returned (Ok a), self1) -> (k a self1).1 <> Panicked) ->
  (op_bind m k self).1 <> Panicked.
Proof. unfold op_bind. destruct (m self) as [[[a|e]| |] self1]; naive_solver. Qed.

Lemma fate_of_no_panic {A} (a : awaited A) : fate_of a <> Panicked.
Proof. by destruct a. Qed.

Lemma call_no_panic msg self : (call msg self).1 <> Panicked.
Proof. unfold call. destruct (mg_call _ _) as [a tx]. apply fate_of_no_panic. Qed.

Lemma create_udp_no_panic e self : (create_udp_proxy_internal e self).1 <> Panicked.
Proof.
  apply op_bind_no_panic; [apply call_no_panic|]. intros a self1 _. by repeat case_match.
Qed.

Lemma create_tcp_no_panic ip port sid self : (create_tcp_proxy_internal ip port sid self).1 <> Panicked.
Proof.
  apply op_bind_no_panic; [apply call_no_panic|]. intros a self1 _. by repeat case_match.
Qed.

(** The round-robin index is that of a pooled handler. *)
Lemma pool_index next (pool : list P) :
  pool <> [] -> exists p, pool !! Z.to_nat (next mod Z.of_nat (length pool)) = Some p.
Proof.
  intros Hne. apply lookup_lt_is_Some. assert (0 < Z.of_nat (length pool)) by (destruct pool; cbn; lia || done).
  pose proof (Z.mod_pos_bound next (Z.of_nat (length pool))). lia.
Qed.

Lemma create_pooled_no_panic lookup e u self :
  pm_udp_pool self <> [] -> (create_pooled_udp_proxy lookup e u self).1 <> Panicked.
Proof.
  intros Hne. unfold create_pooled_udp_proxy. destruct u as [[|c u]|]; [done| |done].
  unfold op_bind, op_lift, op_get, op_panic, op_modify. destruct (socket_addr lookup e); [|done].
  destruct (pool_index (pm_next_pooled self) (pm_udp_pool self) Hne) as [p Hp].
  destruct (Z.of_nat (length (pm_udp_pool self)) =? 0) eqn:E0;
    [destruct (pm_udp_pool self); [done|cbn in E0; lia]|].
  cbn. unfold index. rewrite Hp. unfold on_pool. cbn. rewrite Hp.
  destruct (pool_add_route _ _ _ _) as [added p']. by destruct added as [[]|].
Qed.

Lemma create_no_panic lookup req self :
  (pm_udp_mode self = Pooled -> pm_udp_pool self <> []) ->
  is_ok (parse_u16 (target_udp_port req)) = true -> (create_proxy lookup req self).1 <> Panicked.
Proof.
  intros Hpool Hok. destruct (parse_u16 (target_udp_port req)) as [udp|] eqn:Eu; [|done].
  unfold create_proxy. rewrite Eu.
  apply op_bind_no_panic; [done|]. intros ? ? [= <- <-].
  apply op_bind_no_panic; [done|]. intros ? ? [= <- <-].
  apply op_bind_no_panic.
  { unfold udp_mode. destruct (pm_udp_mode self);
      [apply create_udp_no_panic|apply create_pooled_no_panic; auto]. }
  intros port s1 _. apply op_bind_no_panic; [done|]. intros tcp s2 _.
  apply op_bind_no_panic; [destruct (tcp =? 0); [done|apply create_tcp_no_panic]|]. intros ? s3 _.
  apply op_bind_no_panic; [done|]. intros ssl s4 _.
  apply op_bind_no_panic; [destruct (ssl =? 0); [done|apply create_tcp_no_panic]|]. done.
Qed.

(** C25: an allocation panics exactly when the UDP port is not a decimal 16-bit number; every other
    bad request is answered with an error.  In the pooled mode the pool is never empty. *)
Theorem create_proxy_panics_iff lookup req self :
  (pm_udp_mode self = Pooled -> pm_udp_pool self <> []) ->
  (create_proxy lookup req self).1 = Panicked <-> is_ok (parse_u16 (target_udp_port req)) = false.
Proof.
  intros Hpool. split.
  - intros Hp. destruct (is_ok _) eqn:E; [|done]. by destruct (create_no_panic lookup req self Hpool E).
  - intros He. unfold create_proxy, op_bind, op_panic. by destruct (parse_u16 _).
Qed.

(** A bad TCP port is only noticed once the UDP endpoint is there: the request fails, and the
    session's UDP endpoint stays listed and known to the front. *)
Theorem bad_tcp_port_leaves_udp_endpoint lookup req self udp e port m' :
  mgr_ok (pm_tx self) -> pm_udp_mode self = PerSession ->
  parse_u16 (target_udp_port req) = Ok udp -> parse_u16 (target_tcp_port req) = Err e ->
  let endpoint := mkEndpoint udp (target_ip req) (session_id req) in
  mg_call (pm_tx self) (CreateUdpProxy endpoint) = (Answer (Answered (CreateUdpProxyRs port)), m') ->
  exists self', create_proxy lookup req self = (Returned (Err (int_error_to_string e)), self') /\
    listed Udp (pm_tx self') endpoint = Some port /\
    pm_udp_endpoints self' !! mkSession port (session_id req) = Some endpoint.
Proof.
  intros Hok Hmode Hu Ht endpoint Hc. unfold create_proxy, udp_mode, op_bind at 1 2, op_panic, op_get.
  rewrite Hu. cbn. rewrite Hmode. unfold op_bind at 1.
  destruct (create_udp_proxy_internal _ self) as [r s1] eqn:Es.
  assert (r = Returned (Ok port)) as ->.
  { unfold create_udp_proxy_internal, op_bind, call in Es. unfold endpoint in Hc.
    unfold Endpoint_new in Es. rewrite Hc in Es. cbn in Es. by injection Es as <- _. }
  apply create_udp_internal_spec in Es as (_ & _ & _ & [Hl Htab]); [|done].
  unfold op_bind, parse_port, op_lift. rewrite Ht. cbn.
  eexists. split; [done|]. split; [exact Hl|]. rewrite Htab. cbn. by rewrite lookup_insert_eq.
Qed.

(** ** Deletions in the per-session mode *)

(** A deletion by the manager task, as the front sees it: [delete_udp_proxy] and [delete_tcp_proxy]
    of an endpoint the front knows. *)
Definition asks_deletion (pr : proto) (e : Endpoint) (delete : op (M := M) (P := P) unit) self : Prop :=
  exists a tx, mg_call (pm_tx self) (delete_of pr e) = (a, tx) /\
    delete self = (match a with
                   | Answer SendFailed => Returned (Err "channel closed"%string)
                   | Answer _ => Returned (Ok tt)
                   | Interrupted => Dropped
                   end, set_tx self tx).

Lemma delete_udp_asks port sid self e :
  pm_udp_mode self = PerSession -> pm_udp_endpoints self !! mkSession port sid = Some e ->
  asks_deletion Udp e (delete_udp_proxy port sid) self.
Proof.
  intros Hmode Hk. unfold asks_deletion, delete_udp_proxy, op_bind, op_get, udp_mode, call.
  rewrite Hmode. cbv beta iota zeta. rewrite Hk. cbn [delete_of].
  destruct (mg_call _ _) as [a tx]. exists a, tx. split; [done|]. by destruct a as [[]|].
Qed.

Lemma delete_tcp_asks port sid self e :
  pm_tcp_endpoints self !! mkSession port sid = Some e ->
  asks_deletion Tcp e (delete_tcp_proxy port sid) self.
Proof.
  intros Hk. unfold asks_deletion, delete_tcp_proxy, op_bind, op_get, call.
  cbv beta iota zeta. rewrite Hk. cbn [delete_of].
  destruct (mg_call _ _) as [a tx]. exists a, tx. split; [done|]. by destruct a as [[]|].
Qed.

(** What such a deletion does: unless it is dropped it succeeds, and the endpoint is not listed any
    more; either way the front's tables stay, and so does every other endpoint, unless there is
    news of it. *)
Lemma asked_deletion pr e del self :
  mgr_ok (pm_tx self) -> asks_deletion pr e del self ->
  exists tx, ((del self).1 = Returned (Ok tt) /\ listed pr tx e = None
              \/ (del self).1 = Dropped /\ kept pr (pm_tx self) tx e) /\
    (del self).2 = set_tx self tx /\ mgr_ok tx /\
    forall pr' e', (pr', e') <> (pr, e) -> kept pr' (pm_tx self) tx e'.
Proof.
  intros Hok (a & tx & Hc & ->). destruct (delete_law _ _ _ _ _ Hok Hc) as (Hok' & Ho & Ha).
  exists tx. split_and!; [|done..]. cbn. destruct a as [a|]; [|by right].
  destruct Ha as [Hne Hl]. left. by destruct a.
Qed.

Lemma delete_udp_unknown port sid self :
  pm_udp_endpoints self !! mkSession port sid = None ->
  delete_udp_proxy port sid self = (Returned (Err "No such endpoint"%string), self).
Proof.
  intros Hk. unfold delete_udp_proxy, delete_pooled_udp_proxy, op_bind, op_get, udp_mode.
  destruct (pm_udp_mode self); cbv beta iota zeta; by rewrite Hk.
Qed.

Lemma delete_tcp_unknown port sid self :
  pm_tcp_endpoints self !! mkSession port sid = None ->
  delete_tcp_proxy port sid self = (Returned (Err "No such endpoint"%string), self).
Proof. intros Hk. unfold delete_tcp_proxy, op_bind, op_get. cbv beta iota zeta. by rewrite Hk. Qed.

(** C26: deleting a session's UDP endpoint by port and name: an unknown session is an error and
    changes nothing; a known one is deleted at the manager task, and the answer is success, unless
    the request is dropped; every other endpoint stays listed unless there is news of it.  The
    front still knows the session, so deleting it again does not fail either. *)
Theorem session_delete_contract port sid self :
  mgr_ok (pm_tx self) -> pm_udp_mode self = PerSession ->
  let '(r, self') := delete_udp_proxy port sid self in
  match pm_udp_endpoints self !! mkSession port sid with
  | None => r = Returned (Err "No such endpoint"%string) /\ self' = self
  | Some e =>
      self' = set_tx self (pm_tx self') /\
      (r = Returned (Ok tt) /\ listed Udp (pm_tx self') e = None
       \/ r = Dropped /\ kept Udp (pm_tx self) (pm_tx self') e) /\
      (forall pr' e', (pr', e') <> (Udp, e) -> kept pr' (pm_tx self) (pm_tx self') e') /\
      (delete_udp_proxy port sid self').1 ∈ [Returned (Ok tt); Dropped]
  end.
Proof.
  intros Hok Hmode. destruct (pm_udp_endpoints self !! mkSession port sid) as [e|] eqn:Hk.
  - destruct (asked_deletion _ _ _ _ Hok (delete_udp_asks _ _ _ _ Hmode Hk)) as (tx & Hr & Hs & Hok' & Ho).
    destruct (delete_udp_proxy port sid self) as [r self']. cbn in Hr, Hs. subst self'. cbn [pm_tx set_tx].
    split_and!; [done|naive_solver|done|].
    destruct (asked_deletion _ _ _ (set_tx self tx) Hok' (delete_udp_asks port sid (set_tx self tx) e Hmode Hk))
      as (_ & [[-> _]|[-> _]] & _); set_solver.
  - by rewrite delete_udp_unknown.
Qed.

(** ** The session tables *)

(** The requests of the HTTP interface. *)
Inductive request : Type :=
| Allocate (lookup : string -> Z -> result string (list SocketAddr)) (req : AllocateRequest)
| DeleteUdp (port : Z) (sid : string)
| DeleteTcp (port : Z) (sid : string).

(** The front after a request, whatever became of it. *)
Definition perform (r : request) self : ProxyManager M P :=
  match r with
  | Allocate lookup req => (create_proxy lookup req self).2
  | DeleteUdp port sid => (delete_udp_proxy port sid self).2
  | DeleteTcp port sid => (delete_tcp_proxy port sid self).2
  end.

(** In the per-session mode, and with every session known in [self0]. *)
Definition table_grows self0 self : Prop :=
  pm_udp_mode self = PerSession /\
  forall k, is_Some (pm_udp_endpoints self0 !! k) -> is_Some (pm_udp_endpoints self !! k).

Lemma grows_modify self0 f (Q : unit -> Prop) :
  (forall self, pm_udp_mode (f self) = pm_udp_mode self) ->
  (forall self k, is_Some (pm_udp_endpoints self !! k) -> is_Some (pm_udp_endpoints (f self) !! k)) ->
  Q tt -> post (table_grows self0) (op_modify f) Q.
Proof.
  intros Hm Hk Hq. apply post_modify; [|done]. intros self [Hmode Hg].
  split; [by rewrite Hm|auto].
Qed.

Lemma grows_call self0 msg : keeps (table_grows self0) (call msg).
Proof. apply post_call. intros self a tx Hg _. split; [exact Hg|by destruct a]. Qed.

Lemma grows_create_udp self0 e : keeps (table_grows self0) (create_udp_proxy_internal e).
Proof.
  unfold create_udp_proxy_internal, keeps. post_steps; try done; [apply grows_call|].
  apply (grows_modify _ _ (fun _ => True));
    [done|intros self k Hk; cbn; rewrite lookup_insert; case_decide; eauto|done].
Qed.

Lemma grows_create_tcp self0 ip port sid :
  keeps (table_grows self0) (create_tcp_proxy_internal ip port sid).
Proof.
  unfold create_tcp_proxy_internal, keeps. post_steps; try done; [apply grows_call|].
  by apply (grows_modify _ _ (fun _ => True)).
Qed.

Lemma grows_tcp_port self0 ip port sid :
  keeps (table_grows self0) (if port =? 0 then op_ret port else create_tcp_proxy_internal ip port sid).
Proof. destruct (port =? 0); [by apply post_ret|apply grows_create_tcp]. Qed.

(** In the per-session mode the front never forgets a session: no request, whatever becomes of it,
    removes an entry of its table of UDP endpoints. *)
Theorem session_table_only_grows r self :
  pm_udp_mode self = PerSession -> table_grows self (perform r self).
Proof.
  intros Hmode. assert (Hself : table_grows self self) by done.
  destruct r as [lookup req|port sid|port sid]; cbn [perform].
  - enough (Hk : keeps (table_grows self) (create_proxy lookup req)) by apply (Hk _ Hself).
    unfold create_proxy, keeps, parse_port.
    eapply post_bind; [by apply (post_panic _ _ (fun _ => True))|intros udp _].
    apply post_get. intros s [Hm _]. unfold udp_mode. rewrite Hm.
    post_steps; [apply grows_create_udp|apply grows_tcp_port|apply grows_tcp_port|done].
  - enough (Hk : keeps (table_grows self) (delete_udp_proxy port sid)) by apply (Hk _ Hself).
    unfold delete_udp_proxy, keeps. apply post_get. intros s [Hm _]. unfold udp_mode. rewrite Hm.
    post_steps; [apply grows_call|done..].
  - enough (Hk : keeps (table_grows self) (delete_tcp_proxy port sid)) by apply (Hk _ Hself).
    unfold delete_tcp_proxy, keeps. post_steps; [apply grows_call|done..].
Qed.
End ProxyProps.
