(* ===== verification/PooledFront.v ===== *)
(** * The front in the pooled mode

    Which pooled socket a session is put on, what its deletion undoes, that every session the front
    knows stays routed by the socket of its port, whatever the requests and whichever of them are
    dropped, and that a session it has forgotten stays where it is until it is allocated again. *)

From Stdlib Require Import ZifyBool.
From S2P Require Import Prelude RustInt Stun Types Rpc UdpPooled PooledProps ProxyManager FrontLaws ProxyProps.
Local Open Scope Z_scope.

Section PooledFront.
Context {M : Type} `{ManagerLaws M} {P : Type} `{PoolLaws P}.

Implicit Types (self : ProxyManager M P).

Definition pool_wf self : Prop := pm_udp_pool self <> [] /\ Forall pool_ok (pm_udp_pool self).

Lemma pool_wf_lookup self i p : pool_wf self -> pm_udp_pool self !! i = Some p -> pool_ok p.
Proof. intros [_ Hall]. by apply (proj1 (Forall_lookup _ _) Hall). Qed.

Lemma pool_wf_insert self self' i p :
  pool_wf self -> pm_udp_pool self' = <[i := p]> (pm_udp_pool self) -> pool_ok p -> pool_wf self'.
Proof.
  intros [Hne Hall] E Hok. split; rewrite E; [|by apply Forall_insert].
  intros Hnil%(f_equal length). rewrite length_insert in Hnil. by destruct (pm_udp_pool self).
Qed.

(** ** Allocations *)

(** The pooled socket the next session is put on. *)
Definition next_index self : nat :=
  Z.to_nat (pm_next_pooled self mod Z.of_nat (length (pm_udp_pool self))).

(** The front after the [i]th pooled handler was asked for a route and became [p']. *)
Definition asked_next self (p' : P) : ProxyManager M P :=
  mkProxyManager (pm_tx self) (pm_udp_endpoints self) (pm_tcp_endpoints self) (pm_udp_mode self)
    (<[next_index self := p']> (pm_udp_pool self)) (usize_wrapping_add (pm_next_pooled self) 1).

(** A pooled allocation fails before it changes anything, or it asks the next socket, and then it
    succeeds or is dropped. *)
Lemma create_pooled_cases lookup e u self r self' :
  pool_wf self -> create_pooled_udp_proxy lookup e u self = (r, self') ->
  (exists err, r = Returned (Err err) /\ self' = self) \/
  exists ufrag target p a p', u = Some ufrag /\ ufrag <> EmptyString /\
    socket_addr lookup e = Ok target /\ pm_udp_pool self !! next_index self = Some p /\
    pool_add_route p (e_session_id e) ufrag target = (a, p') /\
    match a with
    | Answer _ => r = Returned (Ok (pool_port p)) /\
        self' = set_udp_endpoints (asked_next self p')
                  (<[mkSession (pool_port p) (e_session_id e) := e]> (pm_udp_endpoints self))
    | Interrupted => r = Dropped /\ self' = asked_next self p'
    end.
Proof.
  intros Hwf Hs. unfold create_pooled_udp_proxy in Hs.
  destruct u as [[|c u]|]; [left; injection Hs as <- <-; eauto| |left; injection Hs as <- <-; eauto].
  unfold op_bind, op_lift, op_get, op_panic, op_modify in Hs.
  destruct (socket_addr lookup e) as [target|err]; [|left; injection Hs as <- <-; eauto].
  destruct (pool_index (pm_next_pooled self) (pm_udp_pool self) (proj1 Hwf)) as [p Hp].
  destruct (Z.of_nat (length (pm_udp_pool self)) =? 0) eqn:E0.
  { destruct (pm_udp_pool self); [done|cbn in E0; lia]. }
  change (Z.to_nat (pm_next_pooled self mod _)) with (next_index self) in *.
  unfold index, on_pool in Hs. cbn [pm_udp_pool set_next_pooled] in Hs. rewrite Hp in Hs.
  cbv beta iota zeta in Hs. right.
  destruct (pool_add_route _ _ _ _) as [a p'] eqn:Ea.
  destruct (add_route_law _ _ _ _ _ _ (pool_wf_lookup _ _ _ Hwf Hp) Ea) as (_ & _ & Ha).
  exists (String.String c u), target, p, a, p'.
  destruct a as [r'|]; [destruct Ha as [-> _]|]; cbn in Hs; injection Hs as <- <-; by split_and!.
Qed.

Lemma pool_ports_insert (pool : list P) i p p' :
  pool !! i = Some p -> pool_port p' = pool_port p ->
  map pool_port (<[i := p']> pool) = map pool_port pool.
Proof.
  intros Hp Hpp. rewrite list_fmap_insert, Hpp. apply list_insert_id. by rewrite list_lookup_fmap, Hp.
Qed.

Lemma pool_route_added p sid u t p' :
  pool_asked p' = pool_asked p ++ [AddRoute sid u t] -> pool_route p' sid = Some (u, t).
Proof.
  unfold pool_route. intros ->. rewrite session_spec_snoc, bool_decide_eq_true_2 by done. cbn.
  by rewrite target_spec_snoc, bool_decide_eq_true_2.
Qed.

(** C14: a successful pooled allocation presented a ufrag and a target that resolves; the session is
    put on the next pooled socket in turn (the counter wraps around), which routes its ufrag to the
    target from then on; the answer is that socket's port, the front knows the session under it,
    and no other pooled socket is touched. *)
Theorem pooled_allocation_routes_session lookup e u self port self' :
  pool_wf self -> create_pooled_udp_proxy lookup e u self = (Returned (Ok port), self') ->
  exists ufrag target p',
    u = Some ufrag /\ ufrag <> EmptyString /\ socket_addr lookup e = Ok target /\
    pool_route p' (e_session_id e) = Some (ufrag, target) /\ pool_port p' = port /\
    pm_udp_pool self' = <[next_index self := p']> (pm_udp_pool self) /\
    pm_next_pooled self' = usize_wrapping_add (pm_next_pooled self) 1 /\
    pm_udp_endpoints self' = <[mkSession port (e_session_id e) := e]> (pm_udp_endpoints self) /\
    pooled_udp_ports self' = pooled_udp_ports self /\ pool_wf self'.
Proof.
  intros Hwf Hs. destruct (create_pooled_cases _ _ _ _ _ _ Hwf Hs)
    as [(err & [=] & _)|(ufrag & target & p & a & p' & Hu & Hne & Ht & Hp & Ha & Hcase)].
  destruct (add_route_law _ _ _ _ _ _ (pool_wf_lookup _ _ _ Hwf Hp) Ha) as (Hok' & Hpp & Hr).
  destruct a as [r|]; [destruct Hcase as [[= ->] ->], Hr as [_ Hr]|by destruct Hcase].
  exists ufrag, target, p'. split_and!; try done.
  - by eapply pool_route_added.
  - unfold pooled_udp_ports. cbn. by eapply pool_ports_insert.
  - by eapply pool_wf_insert; [|reflexivity|].
Qed.

(** ** Deletions *)

Lemma find_pooled_unique (pool : list P) i p :
  NoDup (map pool_port pool) -> pool !! i = Some p -> find_pooled (pool_port p) pool = Some (i, p).
Proof.
  intros Hnd Hp. apply list_find_Some. split_and!; [done|done|].
  intros j q Hq Hlt Hpp. assert (j = i); [|lia].
  eapply NoDup_lookup; [exact Hnd|..]; rewrite list_lookup_fmap; [by rewrite Hq|].
  rewrite Hp. cbn. by rewrite Hpp.
Qed.

(** The front after a known session is deleted: it is forgotten at once, and the [i]th pooled handler
    became [p']. *)
Definition asked_removal self (port : Z) (sid : string) (i : nat) (p' : P) : ProxyManager M P :=
  set_pool (set_udp_endpoints self (delete (mkSession port sid) (pm_udp_endpoints self)))
    (<[i := p']> (pm_udp_pool self)).

Lemma delete_pooled_eq port sid self e i p a p' :
  pool_wf self -> pm_udp_mode self = Pooled -> pm_udp_endpoints self !! mkSession port sid = Some e ->
  find_pooled port (pm_udp_pool self) = Some (i, p) -> pool_remove_session p sid = (a, p') ->
  delete_udp_proxy port sid self =
  (match a with Answer _ => Returned (Ok tt) | Interrupted => Dropped end,
   asked_removal self port sid i p').
Proof.
  intros Hwf Hmode Hk Hf Hr. assert (Hp : pm_udp_pool self !! i = Some p) by by apply list_find_Some in Hf as (? & _).
  destruct (remove_session_law _ _ _ _ (pool_wf_lookup _ _ _ Hwf Hp) Hr) as (_ & _ & Ha).
  unfold delete_udp_proxy, delete_pooled_udp_proxy, op_bind, op_get, op_modify, on_pool, udp_mode.
  rewrite Hmode. cbv beta iota zeta. rewrite Hk. cbv beta iota zeta.
  cbn [pm_udp_pool set_udp_endpoints]. rewrite Hf. cbv beta iota zeta.
  cbn [pm_udp_pool set_udp_endpoints]. rewrite Hp, Hr.
  destruct a as [r|]; [destruct Ha as [-> _]|]; done.
Qed.

(** What an allocation and the deletion of its session leave of a socket's routes. *)
Lemma pool_route_undone p p'' sid ufrag target :
  pool_asked p'' = (pool_asked p ++ [AddRoute sid ufrag target]) ++ [RemoveSession sid] ->
  pool_route p'' sid = None /\
  forall sid', sid' <> sid -> session_spec (pool_asked p) sid' <> Some ufrag ->
    pool_route p'' sid' = pool_route p sid'.
Proof.
  intros E. unfold pool_route. rewrite E. split.
  - by rewrite session_spec_snoc, bool_decide_eq_true_2.
  - intros sid' Hne Hu. rewrite !session_spec_snoc, !bool_decide_eq_false_2 by congruence.
    destruct (session_spec (pool_asked p) sid') as [v|]; [|done]. cbn.
    rewrite !target_spec_snoc. cbn. by rewrite bool_decide_eq_false_2 by congruence.
Qed.

(** C13: a session that the pooled mode, over distinct ports, just allocated can be deleted by its
    port and name.  The
    front's table is then as if the session had never been there, and deleting it again is an error.
    Unless the deletion is dropped, the socket it was put on does not route it any more, and routes
    every other session as before the allocation, except those that present the same ufrag, which
    the allocation may have led to its own target; the other sockets are untouched. *)
Theorem pooled_delete_undoes_allocation lookup e u self port self' :
  pool_wf self -> pm_udp_mode self = Pooled -> NoDup (pooled_udp_ports self) ->
  create_pooled_udp_proxy lookup e u self = (Returned (Ok port), self') ->
  let sid := e_session_id e in
  let '(r, self'') := delete_udp_proxy port sid self' in
  r ∈ [Returned (Ok tt); Dropped] /\
  pm_udp_endpoints self'' = delete (mkSession port sid) (pm_udp_endpoints self) /\
  pooled_udp_ports self'' = pooled_udp_ports self /\
  delete_udp_proxy port sid self'' = (Returned (Err "No such endpoint"%string), self'') /\
  (r <> Dropped -> exists ufrag p p'', u = Some ufrag /\
     pm_udp_pool self !! next_index self = Some p /\ pool_port p = port /\
     pm_udp_pool self'' = <[next_index self := p'']> (pm_udp_pool self) /\
     pool_route p'' sid = None /\
     forall sid', sid' <> sid -> session_spec (pool_asked p) sid' <> Some ufrag ->
       pool_route p'' sid' = pool_route p sid').
Proof.
  intros Hwf Hmode Hnd Hs sid. subst sid. destruct (create_pooled_cases _ _ _ _ _ _ Hwf Hs)
    as [(err & [=] & _)|(ufrag & target & p & a & p' & Hu & Hne & Ht & Hp & Ha & Hcase)].
  destruct (add_route_law _ _ _ _ _ _ (pool_wf_lookup _ _ _ Hwf Hp) Ha) as (Hok' & Hpp & Hasked).
  destruct a as [r|]; [destruct Hcase as [[= ->] ->], Hasked as [_ Hasked]|by destruct Hcase].
  destruct (pool_remove_session p' (e_session_id e)) as [a p''] eqn:Er.
  destruct (remove_session_law _ _ _ _ Hok' Er) as (_ & Hpp' & Hgone).
  assert (Hin : <[next_index self := p']> (pm_udp_pool self) !! next_index self = Some p')
    by (by eapply list_lookup_insert_eq, lookup_lt_Some).
  assert (Hports := pool_ports_insert _ _ _ _ Hp Hpp).
  assert (Hports' := pool_ports_insert _ _ _ _ Hin Hpp').
  assert (Hfind : find_pooled (pool_port p) (<[next_index self := p']> (pm_udp_pool self))
                  = Some (next_index self, p')).
  { rewrite <- Hpp. apply find_pooled_unique; [by rewrite Hports|done]. }
  set (s1 := set_udp_endpoints _ _) in *.
  assert (Hwf1 : pool_wf s1) by (by eapply pool_wf_insert; [exact Hwf|reflexivity|]).
  rewrite (delete_pooled_eq _ _ s1 e _ _ _ _ Hwf1 Hmode) with (2 := Hfind) (3 := Er);
    [|cbn; by rewrite lookup_insert_eq].
  split_and!.
  - destruct a; set_solver.
  - cbn. by rewrite delete_insert_eq.
  - unfold pooled_udp_ports. cbn. by rewrite Hports', Hports.
  - apply delete_udp_unknown. cbn. apply lookup_delete_eq.
  - intros Hnd'. destruct a as [r'|]; [destruct Hgone as [_ Hgone]|done].
    exists ufrag, p, p''. rewrite Hasked in Hgone. apply pool_route_undone in Hgone as [Hgone Hkept].
    split_and!; try done. cbn. by rewrite list_insert_insert_eq.
Qed.

(** ** The sessions the front knows *)

(** Every session the front knows is routed by a pooled socket on its port. *)
Definition known_routed self : Prop :=
  forall port sid, is_Some (pm_udp_endpoints self !! mkSession port sid) ->
    exists p, p ∈ pm_udp_pool self /\ pool_port p = port /\ is_Some (session_spec (pool_asked p) sid).

Definition pooled_front_ok self : Prop :=
  pool_wf self /\ pm_udp_mode self = Pooled /\ NoDup (pooled_udp_ports self) /\ known_routed self.

(** One pooled handler was asked, and the table changed: what has to be shown for it. *)
Lemma known_routed_update self self' i p p' :
  known_routed self -> pm_udp_pool self !! i = Some p -> pool_port p' = pool_port p ->
  pm_udp_pool self' = <[i := p']> (pm_udp_pool self) ->
  (forall sid, is_Some (pm_udp_endpoints self' !! mkSession (pool_port p) sid) ->
     is_Some (session_spec (pool_asked p') sid)
     \/ is_Some (pm_udp_endpoints self !! mkSession (pool_port p) sid) /\
        (is_Some (session_spec (pool_asked p) sid) -> is_Some (session_spec (pool_asked p') sid))) ->
  (forall port sid, port <> pool_port p -> is_Some (pm_udp_endpoints self' !! mkSession port sid) ->
     is_Some (pm_udp_endpoints self !! mkSession port sid)) ->
  known_routed self'.
Proof.
  intros Hk Hp Hpp Hpool Hsame Hother port sid Hin.
  assert (Hlt : (i < length (pm_udp_pool self))%nat) by by eapply lookup_lt_Some.
  assert (Hin' : p' ∈ pm_udp_pool self').
  { rewrite Hpool. apply list_elem_of_lookup. exists i. by apply list_lookup_insert_eq. }
  assert (Hmove : forall q, q ∈ pm_udp_pool self -> q = p \/ q ∈ pm_udp_pool self').
  { intros q [j Hq]%list_elem_of_lookup. rewrite Hpool. destruct (decide (i = j)) as [<-|Hne].
    - left. congruence.
    - right. apply list_elem_of_lookup. exists j. by rewrite list_lookup_insert_ne. }
  destruct (decide (port = pool_port p)) as [->|Hne].
  - destruct (Hsame _ Hin) as [Hs|[Hold Hs]]; [by exists p'|].
    destruct (Hk _ _ Hold) as (q & Hq & Hqp & Hsome).
    destruct (Hmove q Hq) as [->|Hq']; [exists p'; auto|by exists q].
  - destruct (Hk _ _ (Hother _ _ Hne Hin)) as (q & Hq & Hqp & Hsome).
    destruct (Hmove q Hq) as [->|Hq']; [done|by exists q].
Qed.

Lemma session_spec_added h h' sid u t sid' :
  h' = h \/ h' = h ++ [AddRoute sid u t] -> is_Some (session_spec h sid') -> is_Some (session_spec h' sid').
Proof. intros [->| ->]; [done|]. rewrite session_spec_snoc. case_bool_decide; eauto. Qed.

Lemma session_spec_removed h h' sid sid' :
  h' = h \/ h' = h ++ [RemoveSession sid] -> sid' <> sid ->
  is_Some (session_spec h sid') -> is_Some (session_spec h' sid').
Proof.
  intros [->| ->] Hne; [done|]. rewrite session_spec_snoc. case_bool_decide; congruence.
Qed.

Lemma create_pooled_keeps lookup e u : keeps pooled_front_ok (create_pooled_udp_proxy lookup e u).
Proof.
  intros self (Hwf & Hmode & Hnd & Hk). split; [|by repeat case_match].
  destruct (create_pooled_udp_proxy lookup e u self) as [r self'] eqn:Hs. cbn.
  destruct (create_pooled_cases _ _ _ _ _ _ Hwf Hs)
    as [(err & _ & ->)|(ufrag & target & p & a & p' & _ & _ & _ & Hp & Ha & Hcase)]; [done|].
  destruct (add_route_law _ _ _ _ _ _ (pool_wf_lookup _ _ _ Hwf Hp) Ha) as (Hok' & Hpp & Hr).
  assert (E : pm_udp_pool self' = <[next_index self := p']> (pm_udp_pool self) /\
    pm_udp_mode self' = Pooled) by (destruct a; destruct Hcase as [_ ->]; done).
  destruct E as [Hpool Hmode']. split_and!; [by eapply pool_wf_insert|done| |].
  { unfold pooled_udp_ports. rewrite Hpool. by erewrite pool_ports_insert. }
  eapply known_routed_update; [exact Hk|exact Hp|exact Hpp|exact Hpool|..].
  - intros sid Hin. destruct a as [r'|].
    + destruct Hcase as [_ ->], Hr as [_ Hr]. cbn in Hin. rewrite lookup_insert in Hin.
      case_decide as Hsid; [injection Hsid as <-; left|right].
      * rewrite Hr, session_spec_snoc, bool_decide_eq_true_2 by done. eauto.
      * split; [done|]. apply (session_spec_added _ _ (e_session_id e) ufrag target). by right.
    + destruct Hcase as [_ ->]. right. split; [done|]. by eapply session_spec_added.
  - intros port sid Hne Hin. destruct a as [r'|]; destruct Hcase as [_ ->]; [|done].
    cbn in Hin. rewrite lookup_insert_ne in Hin by congruence. done.
Qed.

Lemma delete_pooled_keeps port sid : keeps pooled_front_ok (delete_udp_proxy port sid).
Proof.
  intros self (Hwf & Hmode & Hnd & Hk). split; [|by repeat case_match].
  destruct (pm_udp_endpoints self !! mkSession port sid) as [e|] eqn:He;
    [|by rewrite delete_udp_unknown].
  destruct (Hk port sid) as (p & [i Hp]%list_elem_of_lookup & <- & Hsome); [by rewrite He|].
  destruct (pool_remove_session p sid) as [a p'] eqn:Er.
  destruct (remove_session_law _ _ _ _ (pool_wf_lookup _ _ _ Hwf Hp) Er) as (Hok' & Hpp & Hr).
  erewrite (delete_pooled_eq _ _ _ _ _ _ _ _ Hwf Hmode He); [|by apply find_pooled_unique|exact Er].
  cbn. split_and!; [by eapply pool_wf_insert|done| |].
  { unfold pooled_udp_ports. cbn. by erewrite pool_ports_insert. }
  eapply known_routed_update; [exact Hk|exact Hp|exact Hpp|done|..].
  - intros sid' Hin. cbn in Hin. rewrite lookup_delete in Hin. case_decide as Hne; [by destruct Hin|].
    right. split; [done|]. apply (session_spec_removed _ _ sid); [|congruence].
    destruct a; [right; apply Hr|exact Hr].
  - intros port' sid' Hne Hin. cbn in Hin. rewrite lookup_delete_ne in Hin by congruence. done.
Qed.

Lemma pooled_create_tcp_keeps ip port sid :
  keeps pooled_front_ok (if port =? 0 then op_ret port else create_tcp_proxy_internal ip port sid).
Proof.
  destruct (port =? 0); [by apply post_ret|]. unfold create_tcp_proxy_internal, keeps.
  post_steps; try done.
  - apply (post_call _ _ (fun _ => True)). intros self a tx Hok _. by destruct a.
  - by apply (post_modify _ _ (fun _ => True)).
Qed.

Lemma pooled_perform_keeps r self : pooled_front_ok self -> pooled_front_ok (perform r self).
Proof.
  intros Hself. destruct r as [lookup req|port sid|port sid]; cbn [perform].
  - enough (Hk : keeps pooled_front_ok (create_proxy lookup req)) by apply (Hk _ Hself).
    unfold create_proxy, keeps, parse_port.
    eapply post_bind; [by apply (post_panic _ _ (fun _ => True))|intros udp _].
    apply post_get. intros s (_ & Hm & _). unfold udp_mode. rewrite Hm.
    post_steps; [apply create_pooled_keeps|apply pooled_create_tcp_keeps|apply pooled_create_tcp_keeps|done].
  - apply (delete_pooled_keeps port sid _ Hself).
  - enough (Hk : keeps pooled_front_ok (delete_tcp_proxy port sid)) by apply (Hk _ Hself).
    unfold delete_tcp_proxy, keeps. post_steps; try done.
    apply (post_call _ _ (fun _ => True)). intros s a tx Hok _. by destruct a.
Qed.

Lemma pooled_requests_keep rs self :
  pooled_front_ok self -> pooled_front_ok (fold_left (fun s r => perform r s) rs self).
Proof.
  revert self. induction rs as [|r rs IH]; intros self Hself; [done|]. cbn. by apply IH, pooled_perform_keeps.
Qed.

(** ** Sessions the front does not know *)

(** The request allocates the session. *)
Definition allocates (sid : string) (r : request) : bool :=
  match r with Allocate _ req => bool_decide (session_id req = sid) | _ => false end.

(** The front does not know the session on any port, but its [i]th socket has it, with a ufrag. *)
Definition stranded (i : nat) (sid u : string) self : Prop :=
  pooled_front_ok self /\ (forall port, pm_udp_endpoints self !! mkSession port sid = None) /\
  exists p, pm_udp_pool self !! i = Some p /\ session_spec (pool_asked p) sid = Some u.

(** The pool after one of its handlers was asked something that leaves the session. *)
Lemma stranded_update i sid u self j p p' (pool' : list P) :
  (exists q, pm_udp_pool self !! i = Some q /\ session_spec (pool_asked q) sid = Some u) ->
  pm_udp_pool self !! j = Some p -> pool' = <[j := p']> (pm_udp_pool self) ->
  session_spec (pool_asked p') sid = session_spec (pool_asked p) sid ->
  exists q, pool' !! i = Some q /\ session_spec (pool_asked q) sid = Some u.
Proof.
  intros (q & Hq & Hs) Hp -> E. destruct (decide (j = i)) as [->|Hne].
  - rewrite list_lookup_insert_eq by by eapply lookup_lt_Some. exists p'. split; [done|].
    rewrite E. congruence.
  - rewrite list_lookup_insert_ne by done. eauto.
Qed.

Lemma session_spec_other h h' msg sid :
  h' = h \/ h' = h ++ [msg] ->
  match msg with AddRoute sid' _ _ | RemoveSession sid' => sid' <> sid end ->
  session_spec h' sid = session_spec h sid.
Proof.
  intros [->| ->] Hne; [done|]. rewrite session_spec_snoc. by destruct msg; rewrite bool_decide_eq_false_2.
Qed.

Lemma create_pooled_strands i sid u lookup e uf :
  e_session_id e <> sid -> keeps (stranded i sid u) (create_pooled_udp_proxy lookup e uf).
Proof.
  intros Hne self (Hok & Hno & Hst). split; [|by repeat case_match].
  pose proof (create_pooled_keeps lookup e uf self Hok) as [Hok' _].
  destruct Hok as (Hwf & _). split; [exact Hok'|]. clear Hok'.
  destruct (create_pooled_udp_proxy lookup e uf self) as [r self'] eqn:Hs. cbn.
  destruct (create_pooled_cases _ _ _ _ _ _ Hwf Hs)
    as [(err & _ & ->)|(ufrag & target & p & a & p' & _ & _ & _ & Hp & Ha & Hcase)]; [done|].
  destruct (add_route_law _ _ _ _ _ _ (pool_wf_lookup _ _ _ Hwf Hp) Ha) as (_ & _ & Hr).
  split.
  - intros port. destruct a; destruct Hcase as [_ ->]; cbn; [|done].
    rewrite lookup_insert_ne by congruence. done.
  - apply (stranded_update i sid u self (next_index self) p p'); [done|done|by destruct a; destruct Hcase as [_ ->]|].
    apply (session_spec_other _ _ (AddRoute (e_session_id e) ufrag target)); [|done].
    destruct a; [right; apply Hr|exact Hr].
Qed.

Lemma delete_pooled_strands i sid u port sid' : keeps (stranded i sid u) (delete_udp_proxy port sid').
Proof.
  intros self (Hok & Hno & Hst). split; [|by repeat case_match].
  pose proof (delete_pooled_keeps port sid' self Hok) as [Hok' _].
  destruct Hok as (Hwf & Hmode & Hnd & Hk). split; [exact Hok'|]. clear Hok'.
  destruct (pm_udp_endpoints self !! mkSession port sid') as [e|] eqn:He; [|by rewrite delete_udp_unknown].
  assert (Hne : sid' <> sid) by (intros ->; by rewrite Hno in He).
  destruct (Hk port sid') as (p & [j Hp]%list_elem_of_lookup & <- & Hsome); [by rewrite He|].
  destruct (pool_remove_session p sid') as [a p'] eqn:Er.
  destruct (remove_session_law _ _ _ _ (pool_wf_lookup _ _ _ Hwf Hp) Er) as (_ & _ & Hr).
  erewrite (delete_pooled_eq _ _ _ _ _ _ _ _ Hwf Hmode He); [|by apply find_pooled_unique|exact Er].
  cbn. split.
  - intros port'. rewrite lookup_delete_ne by congruence. done.
  - apply (stranded_update i sid u self j p p'); [done..|].
    apply (session_spec_other _ _ (RemoveSession sid')); [|done]. destruct a; [right; apply Hr|exact Hr].
Qed.

Lemma strands_create_tcp i sid u ip port sid' :
  keeps (stranded i sid u) (if port =? 0 then op_ret port else create_tcp_proxy_internal ip port sid').
Proof.
  destruct (port =? 0); [by apply post_ret|]. unfold create_tcp_proxy_internal, keeps.
  post_steps; try done.
  - apply (post_call _ _ (fun _ => True)). intros self a tx Hok _. by destruct a.
  - by apply (post_modify _ _ (fun _ => True)).
Qed.

Lemma perform_strands i sid u r self :
  stranded i sid u self -> allocates sid r = false -> stranded i sid u (perform r self).
Proof.
  intros Hself Hr. destruct r as [lookup req|port sid'|port sid']; cbn [perform].
  - enough (Hk : keeps (stranded i sid u) (create_proxy lookup req)) by apply (Hk _ Hself).
    apply bool_decide_eq_false in Hr. unfold create_proxy, keeps, parse_port.
    eapply post_bind; [by apply (post_panic _ _ (fun _ => True))|intros udp _].
    apply post_get. intros s ((_ & Hm & _) & _). unfold udp_mode. rewrite Hm.
    post_steps; [by apply create_pooled_strands|apply strands_create_tcp|apply strands_create_tcp|done].
  - apply (delete_pooled_strands i sid u port sid' _ Hself).
  - enough (Hk : keeps (stranded i sid u) (delete_tcp_proxy port sid')) by apply (Hk _ Hself).
    unfold delete_tcp_proxy, keeps. post_steps; try done.
    apply (post_call _ _ (fun _ => True)). intros s a tx Hok _. by destruct a.
Qed.

(** C39: a session that the front has forgotten, but a pooled socket still has, stays there whatever is
    requested, deletions of the session included, as long as no request allocates it again.  This
    is what a deletion, or an allocation, that was dropped can leave. *)
Theorem forgotten_session_stays_routed rs i sid u self :
  stranded i sid u self -> Forall (fun r => allocates sid r = false) rs ->
  let self' := fold_left (fun s r => perform r s) rs self in
  (forall port, delete_udp_proxy port sid self' = (Returned (Err "No such endpoint"%string), self')) /\
  exists p, pm_udp_pool self' !! i = Some p /\ session_spec (pool_asked p) sid = Some u.
Proof.
  intros Hself Hrs self'. assert (Hst : stranded i sid u self').
  { subst self'. revert self Hself. induction Hrs as [|r rs Hr _ IH]; intros self Hself; [done|].
    cbn. by apply IH, perform_strands. }
  destruct Hst as (_ & Hno & Hst). split; [|done]. intros port. by apply delete_udp_unknown.
Qed.

(** C12: in the pooled mode, after any sequence of requests, each of which may fail, panic or be dropped
    at any of its awaits, every session the front knows under a port is routed by the pooled socket
    on that port: a port that was answered keeps serving its session until the session is
    deleted. *)
Theorem known_sessions_stay_routed rs self port sid e :
  pool_wf self -> pm_udp_mode self = Pooled -> NoDup (pooled_udp_ports self) ->
  pm_udp_endpoints self = ∅ ->
  let self' := fold_left (fun s r => perform r s) rs self in
  pm_udp_endpoints self' !! mkSession port sid = Some e ->
  exists p u, p ∈ pm_udp_pool self' /\ pool_port p = port /\ session_spec (pool_asked p) sid = Some u.
Proof.
  intros Hwf Hmode Hnd Hempty self' He.
  assert (Hok : pooled_front_ok self').
  { apply pooled_requests_keep. split_and!; [done..|]. intros port' sid'. rewrite Hempty, lookup_empty.
    by intros []. }
  destruct Hok as (_ & _ & _ & Hk). destruct (Hk port sid) as (p & Hp & Hpp & [u Hu]); [by rewrite He|].
  by exists p, u.
Qed.
End PooledFront.
