(* ===== verification/PooledHandler.v ===== *)
(** * Handlers of pooled endpoints (src/proxy/udp_pooled.rs: [PooledUdpEndpointHandler])

    The handler binds the shared socket, spawns the endpoint, and asks it to add and to remove
    sessions over its control channel ([Rpc.rpc]).  Datagrams and relay steps the endpoint handles
    meanwhile, and callers that are dropped, are in the handler's scripts, so that a theorem about
    every handler is one about every interleaving.  The handler implements [PoolApi] and keeps the
    promises of [PoolLaws]; [pooled_allocation_is_served] puts front, handler, endpoint and relays
    together. *)

From S2P Require Import Prelude RustInt Stun Types Chan Rpc UdpClient RelayInv UdpPooled PooledInv.
From S2P Require Import PooledProps ProxyManager FrontLaws ProxyProps PooledFront.
Local Open Scope rust_scope.
Local Open Scope Z_scope.

Section PooledHandler.
Context `{Mpsc}.

(** ** The endpoint behind its control channel *)

(** The endpoint's task, the control channel, and the messages it handled with its replies. *)
Record control_server : Type := mkControl {
  cs_endpoint : pooled_sys;
  cs_control : chan PooledUdpMsg;
  cs_handled : list (PooledUdpMsg * pooled_reply)
}.

(** The endpoint takes a control message, or it or one of its relays does something else.  As long as
    the handler is there, its sender keeps the channel open and the task is not aborted. *)
Inductive control_label : Type :=
| CtTake
| CtOther (lbl : pooled_label).

Definition control_step (s : control_server) (l : control_label) : option control_server :=
  match l with
  | CtTake =>
      match mpsc_recv (cs_control s) with
      | Received msg ch =>
          match on_control (ps_self (cs_endpoint s)) msg (ps_world (cs_endpoint s)),
                pooled_step (cs_endpoint s) (LControl (Some msg)) with
          | Some (_, reply, _, _), Some ep => Some (mkControl ep ch (cs_handled s ++ [(msg, reply)]))
          | _, _ => None
          end
      | _ => None
      end
  | CtOther (LControl _) | CtOther (LAbort _) => None
  | CtOther lbl =>
      match pooled_step (cs_endpoint s) lbl with
      | Some ep => Some (mkControl ep (cs_control s) (cs_handled s))
      | None => None
      end
  end.

Definition control_push (s : control_server) (msg : PooledUdpMsg) : option control_server :=
  match mpsc_send (cs_control s) msg with
  | Sent ch => Some (mkControl (cs_endpoint s) ch (cs_handled s))
  | _ => None
  end.

#[export] Instance control_is_server :
  Server control_server control_label PooledUdpMsg pooled_reply := {|
  sv_step := control_step;
  sv_send := control_push;
  sv_take := CtTake;
  sv_queue := fun s => chan_contents (cs_control s);
  sv_handled := cs_handled
|}.

(** ** The handler *)

(** [struct PooledUdpEndpointHandler], with the endpoint behind its [control_tx] and
    [endpoint_handle].  [ph_scripts]: for each request, what happens meanwhile. *)
Record PooledUdpEndpointHandler : Type := mkPooledHandler {
  ph_local_port : Z;
  ph_server : control_server;
  ph_scripts : list (script control_label)
}.

(** What the operating system answers [bind], call by call. *)
Record bind_answers : Type := mkBind {
  ba_socket : result string unit;
  ba_set_reuse_port : result string unit;
  ba_set_nonblocking : result string unit;
  ba_bind : result string unit;
  ba_from_std : result string unit;
  ba_local_addr : result string Z
}.

Definition PooledUdpEndpointHandler_bind (scripts : list (script control_label)) (ans : bind_answers)
  (port : Z) : result string PooledUdpEndpointHandler :=
  let? _ := ba_socket ans in
  let? _ := if negb (port =? 0) then ba_set_reuse_port ans else Ok tt in
  let? _ := ba_set_nonblocking ans in
  let? _ := ba_bind ans in
  let? _ := ba_from_std ans in
  let? local_port := ba_local_addr ans in
  let endpoint := pooled_init (mkUdpSocket local_port None) in
  Ok (mkPooledHandler local_port (mkControl endpoint (mpsc_channel 100) []) scripts).

(** When nothing else is given, the request is awaited and nothing happens meanwhile. *)
Definition undisturbed {L} : script L := mkScript [] [] Waits.

(** Sending a control message and awaiting the answer: an endpoint that is over has dropped its
    receiver. *)
Definition control_call (self : PooledUdpEndpointHandler) (msg : PooledUdpMsg)
  : awaited (result string pooled_reply) * PooledUdpEndpointHandler :=
  if ps_running (cs_endpoint (ph_server self)) then
    let (a, s) := rpc (hd undisturbed (ph_scripts self)) (ph_server self) msg in
    (match a with
     | Answer (Some reply) => Answer (Ok reply)
     | Answer None => Answer (Err "channel closed"%string)
     | Interrupted => Interrupted
     end, mkPooledHandler (ph_local_port self) s (tl (ph_scripts self)))
  else (Answer (Err "Pooled udp endpoint is closed"%string), self).

Definition add_route (self : PooledUdpEndpointHandler) (session_id ufrag : string)
  (target : SocketAddr) : awaited (result string unit) * PooledUdpEndpointHandler :=
  let (a, self) := control_call self (AddRoute session_id ufrag target) in
  (match a with
   | Answer r => Answer (let? _ := r in Ok tt)
   | Interrupted => Interrupted
   end, self).

Definition remove_session (self : PooledUdpEndpointHandler) (session_id : string)
  : awaited (result string bool) * PooledUdpEndpointHandler :=
  let (a, self) := control_call self (RemoveSession session_id) in
  (match a with
   | Answer (Ok (SessionFound found)) => Answer (Ok found)
   | Answer (Ok RouteAdded) => Answer (Err "channel closed"%string)
   | Answer (Err e) => Answer (Err e)
   | Interrupted => Interrupted
   end, self).

#[export] Instance handler_pool_api : PoolApi PooledUdpEndpointHandler := {|
  pool_port := ph_local_port;
  pool_add_route := add_route;
  pool_remove_session := remove_session
|}.

(** ** The endpoint as a server *)

Context `{!MpscLaws}.

(** The endpoint runs on its socket, and was reached by handling just the messages in the history; its
    channel is open and holds no more than 100 messages. *)
Definition control_ok (sock : UdpSocket) (s : control_server) : Prop :=
  (exists ls, run pooled_step (pooled_init sock) ls = Some (cs_endpoint s) /\
     controls ls = map fst (cs_handled s)) /\
  ps_running (cs_endpoint s) = true /\
  mpsc_is_closed (cs_control s) = false /\ chan_capacity (cs_control s) = 100%nat /\
  (length (chan_contents (cs_control s)) <= 100)%nat.

(** A control message never waits. *)
Lemma on_control_total (self : PooledUdpEndpoint) msg w : exists r, on_control self msg w = Some r.
Proof.
  destruct msg as [sid u t|sid]; cbn [on_control];
    unfold forget_ufrag_if_unused, drop_clients, task_bind, modify, task_ret;
    repeat case_match; simplify_eq; eauto.
Qed.

(** Handling one is the endpoint's step [LControl]. *)
Lemma control_is_step s msg self reply w effs :
  ps_running s = true -> on_control (ps_self s) msg (ps_world s) = Some (self, reply, w, effs) ->
  pooled_step s (LControl (Some msg)) = Some (mkPooledSys self w true (ps_log s ++ effs)).
Proof.
  intros Hrun Ho. unfold pooled_step. rewrite Hrun. cbn [pooled_select]. unfold task_bind.
  rewrite Ho. cbn. by rewrite app_nil_r.
Qed.

(** No other step ends the endpoint. *)
Lemma other_keeps_running s lbl s' :
  pooled_step s lbl = Some s' -> ps_running s = true ->
  match lbl with LControl _ | LAbort _ => True | _ => ps_running s' = true end.
Proof.
  intros Hs Hrun. unfold pooled_step in Hs. rewrite Hrun in Hs.
  destruct lbl as [d addr ans| | |[msg|]|waiting|rid l]; try done.
  4: { destruct (world_step _ _ _ _) as [[w effs]|]; [|done]. by simplify_eq. }
  all: destruct (pooled_select _ _ _) as [[[[self|self] w] effs]|] eqn:Esel;
    [by simplify_eq| |done].
  all: exfalso; cbn [pooled_select] in Esel; inv_task Esel; simplify_eq.
  destruct a as [m|]; [|done]. inv_task Esel.
Qed.

Definition quiet_label (lbl : pooled_label) : Prop :=
  match lbl with LControl _ | LAbort _ => False | _ => True end.

(** The two kinds of steps. *)
Lemma control_step_cases sock s l s' :
  control_ok sock s -> control_step s l = Some s' ->
  control_ok sock s' /\
  ((exists msg reply w effs, l = CtTake /\
      on_control (ps_self (cs_endpoint s)) msg (ps_world (cs_endpoint s))
        = Some (ps_self (cs_endpoint s'), reply, w, effs) /\
      chan_contents (cs_control s) = msg :: chan_contents (cs_control s') /\
      cs_handled s' = cs_handled s ++ [(msg, reply)])
   \/ (exists lbl, l = CtOther lbl /\ quiet_label lbl /\
      pooled_step (cs_endpoint s) lbl = Some (cs_endpoint s') /\
      cs_control s' = cs_control s /\ cs_handled s' = cs_handled s)).
Proof.
  intros ((ls & Hrun & Hh) & Hr & Ho & Hc & Hl) Hs. destruct l as [|lbl]; cbn [control_step] in Hs.
  - destruct (mpsc_recv _) as [msg ch| |] eqn:Er; [|done..].
    apply recv_Received in Er as (Hq & Hcl & Hcap).
    destruct (on_control _ _ _) as [[[[self reply] w] effs]|] eqn:Eo; [|done].
    pose proof (control_is_step _ _ _ _ _ _ Hr Eo) as Hstep. rewrite Hstep in Hs. simplify_eq/=.
    split; [|left; by eexists msg, reply, w, effs].
    split_and!; cbn; [|done|congruence|congruence|rewrite Hq in Hl; cbn in Hl; lia].
    exists (ls ++ [LControl (Some msg)]). split; [by eapply run_step|].
    by rewrite controls_snoc, Hh, map_app.
  - assert (Hlbl : quiet_label lbl /\ pooled_step (cs_endpoint s) lbl = Some (cs_endpoint s') /\
      cs_control s' = cs_control s /\ cs_handled s' = cs_handled s).
    { destruct lbl; try done; (destruct (pooled_step _ _) eqn:E; [by simplify_eq|done]). }
    destruct Hlbl as (Hq & Hstep & E1 & E2). split; [|right; by exists lbl].
    split_and!; rewrite ?E1; [|pose proof (other_keeps_running _ _ _ Hstep Hr); by destruct lbl|done..].
    exists (ls ++ [lbl]). split; [by eapply run_step|].
    rewrite controls_snoc, Hh, E2. destruct lbl as [| | |[|]| |]; by rewrite ?app_nil_r.
Qed.

#[export] Instance control_laws sock : ServerLaws (control_ok sock) (fun _ => True).
Proof.
  split; cbn [sv_step sv_send sv_take sv_queue sv_handled control_is_server].
  - intros s msg s' (Hrun & Hr & Ho & Hc & Hl) Hs. unfold control_push in Hs.
    destruct (mpsc_send _ msg) eqn:Es; simplify_eq/=.
    apply send_Sent in Es as (_ & Hq & Ho' & Hc' & Hlt). rewrite Hc in Hlt.
    split_and!; [|done|done]. split_and!; cbn; [done|done|done|congruence|].
    rewrite Hq, length_app. cbn. lia.
  - intros s l s' Hok Hs. destruct (control_step_cases _ _ _ _ Hok Hs) as [Hok' Hcase]. split; [done|].
    destruct Hcase as [(msg & reply & w & effs & _ & _ & Hq & Hh)|(lbl & _ & _ & _ & Eq & Eh)].
    + left. by exists msg, reply.
    + right. split; [done|]. exists []. by rewrite Eq, app_nil_r.
  - intros s (_ & Hr & _) Hne. destruct (chan_contents (cs_control s)) as [|msg l] eqn:Eq; [done|].
    destruct (recv_some _ _ _ Eq) as (ch & Hrecv & _).
    destruct (on_control_total (ps_self (cs_endpoint s)) msg (ps_world (cs_endpoint s)))
      as [[[[self reply] w] effs] Ho].
    unfold control_step. rewrite Hrecv, Ho, (control_is_step _ _ _ _ _ _ Hr Ho).
    eexists. split; [done|]. cbn.
    intros Heq%(f_equal length). rewrite length_app in Heq. cbn in Heq. lia.
  - intros s msg (_ & Hr & Ho & Hc & Hl) _ Hs. unfold control_push in Hs.
    destruct (mpsc_send _ msg) eqn:Es; [done| |].
    { apply send_SendClosed in Es. congruence. }
    apply send_SendPending in Es as [_ Hlen]. rewrite Hc in Hlen.
    split; [intros E; rewrite E in Hlen; cbn in Hlen; lia|]. intros s' Hs'. unfold control_step in Hs'.
    destruct (mpsc_recv _) as [m ch| |] eqn:Er; [|done..].
    apply recv_Received in Er as (Hq & Hcl & Hcap).
    destruct (on_control _ _ _) as [[[[? ?] ?] ?]|]; [|done]. destruct (pooled_step _ _); [|done].
    simplify_eq. unfold control_push. cbn.
    destruct (send_room ch msg) as (ch' & -> & _); [congruence| |by eexists].
    rewrite Hcap, Hc. rewrite Hq in Hl. cbn in Hl. lia.
Qed.

Lemma control_sole sock : sole_sender (control_ok sock).
Proof.
  intros s l s' Hok Hs. destruct (control_step_cases _ _ _ _ Hok Hs) as [_ Hcase]. unfold asked.
  cbn [sv_queue sv_handled control_is_server].
  destruct Hcase as [(msg & reply & w & effs & _ & _ & -> & ->)|(lbl & _ & _ & _ & -> & ->)]; [|done].
  by rewrite map_app, <- app_assoc.
Qed.

(** The tables implement the messages handled. *)
Lemma control_tables sock s :
  control_ok sock s ->
  tables_ok (ps_self (cs_endpoint s)) /\ tables_spec (map fst (cs_handled s)) (ps_self (cs_endpoint s)).
Proof.
  intros ((ls & Hrun & <-) & _). destruct (run_tables_spec _ _ _ Hrun) as [[(Ht & _) _] Hs].
  by split.
Qed.

(** ** The promises of a handler *)

(** The endpoint's socket is on the handler's port. *)
Definition handler_ok (self : PooledUdpEndpointHandler) : Prop :=
  control_ok (mkUdpSocket (ph_local_port self) None) (ph_server self).

#[export] Instance handler_pool_view : PoolView PooledUdpEndpointHandler := {|
  pool_ok := handler_ok;
  pool_asked := fun self => asked (ph_server self)
|}.

(** A call: the endpoint is reached by its steps, and an answer is what [on_control] replies in the
    state all earlier messages lead to. *)
Lemma control_call_spec self msg a self' :
  handler_ok self -> control_call self msg = (a, self') ->
  handler_ok self' /\ ph_local_port self' = ph_local_port self /\
  match a with
  | Interrupted =>
      pool_asked self' = pool_asked self \/ pool_asked self' = pool_asked self ++ [msg]
  | Answer r =>
      pool_asked self' = pool_asked self ++ [msg] /\
      chan_contents (cs_control (ph_server self')) = [] /\
      exists reply s w w' effs endpoint, r = Ok reply /\
        tables_spec (pool_asked self) s /\ on_control s msg w = Some (endpoint, reply, w', effs)
  end.
Proof.
  intros Hok Hc. unfold handler_ok in *. unfold control_call in Hc.
  set (sock := mkUdpSocket _ _) in *.
  replace (ps_running (cs_endpoint (ph_server self))) with true in Hc by (symmetry; apply Hok).
  destruct (rpc _ _ _) as [b s'] eqn:Hrpc.
  pose proof (rpc_spec (control_ok sock) (fun _ => True) _ _ _ _ _ Hok I Hrpc) as (Hok' & _ & Hcase).
  pose proof (rpc_asked (control_ok sock) (fun _ => True) _ _ _ _ _ (control_sole sock) Hok I Hrpc) as Hasked. cbn [sv_queue] in *.
  destruct b as [r|]; simplify_eq; [|by split_and!].
  destruct Hcase as (s1 & l & rep & -> & Hm & Hok1 & Hs1 & Hh). destruct Hasked as [Ha Hq].
  split; [done|]. split; [done|]. split; [done|]. split; [done|].
  destruct (control_step_cases _ _ _ _ Hok1 Hs1) as [_ [Hcase|(lbl & _ & _ & _ & _ & Eh)]].
  - destruct Hcase as (msg' & reply & w & effs & _ & Ho & Hq1 & Hh1).
    cbn [sv_handled control_is_server] in Hh. rewrite Hh in Hh1.
    apply app_inj_2 in Hh1 as [_ [= <- <-]]; [|done].
    eexists rep, _, _, w, effs, _. split_and!; [done| |exact Ho].
    destruct (control_tables _ _ Hok1) as [_ Ht].
    replace (pool_asked self) with (map fst (cs_handled s1)); [exact Ht|].
    unfold asked in Ha. cbn [sv_queue sv_handled control_is_server pool_asked handler_pool_view] in *.
    rewrite Hh, Hq, app_nil_r, map_app in Ha. by apply app_inj_2 in Ha as [-> _].
  - exfalso. cbn [sv_handled control_is_server] in Hh. rewrite Eh in Hh.
    apply (f_equal length) in Hh. rewrite length_app in Hh. cbn in Hh. lia.
Qed.

Lemma reply_kind self msg w endpoint reply w' effs h :
  tables_spec h self -> on_control self msg w = Some (endpoint, reply, w', effs) ->
  reply = match msg with
          | AddRoute _ _ _ => RouteAdded
          | RemoveSession sid => SessionFound (bool_decide (is_Some (session_spec h sid)))
          end.
Proof.
  intros [Hs _] Ho. destruct msg as [sid u t|sid]; cbn [on_control] in Ho.
  - inv_task Ho. by simplify_eq.
  - rewrite <- Hs. destruct (pu_sessions self !! sid); inv_task Ho; by simplify_eq.
Qed.

#[export] Instance handler_pool_laws : PoolLaws PooledUdpEndpointHandler.
Proof.
  split.
  - intros p sid u t a p' Hok Ha. cbn [pool_add_route handler_pool_api] in Ha. unfold add_route in Ha.
    destruct (control_call p _) as [b q] eqn:Hc.
    destruct (control_call_spec _ _ _ _ Hok Hc) as (Hok' & Hp & Hb).
    destruct b as [r|]; simplify_eq; [|done]. split_and!; [done|done| |apply Hb].
    destruct Hb as (_ & _ & reply & s & w & w' & effs & e & -> & _). done.
  - intros p sid a p' Hok Ha. cbn [pool_remove_session handler_pool_api] in Ha.
    unfold remove_session in Ha. destruct (control_call p _) as [b q] eqn:Hc.
    destruct (control_call_spec _ _ _ _ Hok Hc) as (Hok' & Hp & Hb).
    destruct b as [r|]; [|simplify_eq; done].
    destruct Hb as (Has & _ & reply & s & w & w' & effs & e & -> & Ht & Ho).
    pose proof (reply_kind _ _ _ _ _ _ _ _ Ht Ho) as ->. simplify_eq. done.
Qed.

(** A handler is well-formed from its binding on, and has the port the system reports. *)
Lemma bind_handler_ok scripts ans port h :
  PooledUdpEndpointHandler_bind scripts ans port = Ok h ->
  handler_ok h /\ ba_local_addr ans = Ok (ph_local_port h) /\ pool_asked h = [].
Proof.
  unfold PooledUdpEndpointHandler_bind. intros Hb. repeat case_match; simplify_eq.
  all: split_and!; [|done|cbn; unfold asked; cbn; by rewrite channel_contents].
  all: split_and!; cbn;
    [exists []; split; done|done|apply channel_open|apply channel_capacity
    |rewrite channel_contents; cbn; lia].
Qed.

(** ** Front, handler, endpoint and relays together *)

(** Whatever the endpoint and its relays do on their own, the tables stay. *)
Lemma other_steps_tables sock s ls :
  control_ok sock s -> chan_contents (cs_control s) = [] ->
  let s' := try_steps s ls in
  control_ok sock s' /\ cs_handled s' = cs_handled s /\ chan_contents (cs_control s') = [].
Proof.
  cbn zeta. unfold try_steps. revert s. induction ls as [|l ls IH]; intros s Hok Hq; [done|]. cbn.
  assert (Hone : let s' := try_step s l in
    control_ok sock s' /\ cs_handled s' = cs_handled s /\ chan_contents (cs_control s') = []).
  { cbn zeta. unfold try_step. cbn. destruct (control_step s l) as [s'|] eqn:Hs; [|done]. cbn.
    destruct (control_step_cases _ _ _ _ Hok Hs)
      as [Hok' [(msg & reply & w & effs & _ & _ & Hq1 & _)|(lbl & _ & _ & _ & Eq & Eh)]]; [congruence|].
    split_and!; congruence. }
  destruct Hone as (Hok' & <- & Hq'). by apply IH.
Qed.

(** A pool that [with_udp_pool] bound is well-formed. *)
Lemma bound_pool_ok {M} `{ManagerApi M} (tx : M) scripts answers size base_port self :
  0 <= base_port -> (0 < size)%nat ->
  with_udp_pool tx (fun i => PooledUdpEndpointHandler_bind (scripts i) (answers i)) size base_port = Ok self ->
  pool_wf self /\ pm_udp_mode self = Pooled /\ pm_udp_endpoints self = ∅.
Proof.
  intros Hb Hn. rewrite with_udp_pool_eq by done. destruct (size =? 0)%nat eqn:E; [lia|].
  destruct (ports_fit base_port size); [|done]. set (bind := fun i => _).
  assert (Hall : Forall handler_ok (bound bind base_port (seq 0 size))).
  { apply Forall_forall. intros h (i & _ & Hi)%list_elem_of_omap. subst bind. cbn in Hi.
    destruct (PooledUdpEndpointHandler_bind _ _ _) as [h'|] eqn:Eh; [|done]. injection Hi as <-.
    by apply bind_handler_ok in Eh as [? _]. }
  destruct (bound bind base_port (seq 0 size)) as [|h pool]; [done|]. intros [= <-]. by split_and!.
Qed.

(** An allocation answered by a pooled endpoint, whatever happens to it until the next request. *)
Lemma allocation_reaches_endpoint {M} `{ManagerApi M} lookup e u
  (self : ProxyManager M PooledUdpEndpointHandler) port self' ls :
  pool_wf self -> create_pooled_udp_proxy lookup e u self = (Returned (Ok port), self') ->
  exists ufrag target h, u = Some ufrag /\ socket_addr lookup e = Ok target /\
    h ∈ pm_udp_pool self' /\ ph_local_port h = port /\
    let s := cs_endpoint (try_steps (ph_server h) ls) in
    sys_ok s /\ ps_running s = true /\ pu_udp_socket (ps_self s) = mkUdpSocket port None /\
    pu_sessions (ps_self s) !! e_session_id e = Some ufrag /\
    pu_routes (ps_self s) !! ufrag = Some target.
Proof.
  intros Hwf Hs. destruct (create_pooled_cases _ _ _ _ _ _ Hwf Hs)
    as [(err & [=] & _)|(ufrag & target & p & a & p' & Hu & _ & Ht & Hp & Ha & Hcase)].
  pose proof (pool_wf_lookup _ _ _ Hwf Hp) as Hok. cbn [pool_add_route handler_pool_api] in Ha.
  unfold add_route in Ha. destruct (control_call p _) as [b q] eqn:Hc.
  destruct (control_call_spec _ _ _ _ Hok Hc) as (Hok' & Hport & Hb).
  destruct b as [r|]; simplify_eq; [|by destruct Hcase]. destruct Hcase as [[= ->] ->].
  destruct Hb as (Hasked & Hq & _). exists ufrag, target, p'. split_and!; [done|done| |done|].
  { cbn. apply list_elem_of_lookup. exists (next_index self).
    by apply list_lookup_insert_eq, (lookup_lt_Some _ _ p). }
  destruct (other_steps_tables _ (ph_server p') ls Hok' Hq) as (Hok2 & Eh & _).
  cbn zeta. set (s := cs_endpoint _). destruct (control_tables _ _ Hok2) as [Htab Hspec]. fold s in Htab, Hspec.
  assert (Eh' : map fst (cs_handled (try_steps (ph_server p') ls))
                = pool_asked p ++ [AddRoute (e_session_id e) ufrag target]).
  { rewrite Eh, <- Hasked. cbn. unfold asked. cbn. by rewrite Hq, app_nil_r. }
  rewrite Eh' in Hspec.
  assert (Hsid : session_spec (pool_asked p ++ [AddRoute (e_session_id e) ufrag target]) (e_session_id e)
                 = Some ufrag) by by rewrite session_spec_snoc, bool_decide_eq_true_2.
  destruct Hok2 as ((ls0 & Hrun & _) & Hrunning & _). split_and!.
  - by apply run_reachable, pooled_reachable_ok in Hrun.
  - done.
  - apply pooled_run_socket in Hrun. fold s in Hrun. rewrite Hrun. f_equal. exact Hport.
  - by rewrite (proj1 Hspec).
  - eapply tables_spec_route; [done|exact Hspec|exact Hsid|].
    by rewrite target_spec_snoc, bool_decide_eq_true_2.
Qed.

(** C11: front, handler, endpoint and relays together, from the binding of a pool with distinct
    ports on: whatever requests came before, dropped ones included, when a pooled allocation is answered with a port,
    there is an endpoint whose socket is on that port and which routes the session's ufrag to the
    resolved target; and from then on, whatever the endpoint and its relays do until the next
    request, a client's first binding request for the ufrag that this endpoint receives is
    forwarded to that target over a relay of its own, the system allowing one, which answers
    through the endpoint's socket. *)
Theorem pooled_allocation_is_served {M} `{ManagerLaws M} (tx : M) scripts answers size base_port self0 rs
  lookup e u port self' ls :
  0 <= base_port -> (0 < size)%nat ->
  with_udp_pool tx (fun i => PooledUdpEndpointHandler_bind (scripts i) (answers i)) size base_port = Ok self0 ->
  NoDup (pooled_udp_ports self0) ->
  create_pooled_udp_proxy lookup e u (fold_left (fun s r => perform r s) rs self0)
    = (Returned (Ok port), self') ->
  exists ufrag target h, u = Some ufrag /\ socket_addr lookup e = Ok target /\
    h ∈ pm_udp_pool self' /\ ph_local_port h = port /\
    let s := cs_endpoint (try_steps (ph_server h) ls) in
    pu_udp_socket (ps_self s) = mkUdpSocket port None /\
    pu_sessions (ps_self s) !! e_session_id e = Some ufrag /\
    forall addr d ans relay_port,
      pu_clients (ps_self s) !! addr = None -> ufrag_of (recv_buf d) = Some ufrag ->
      da_alloc ans = mkAlloc (Ok relay_port) (Ok tt) -> da_sent_new ans = Ok tt ->
      exists s' c r, pooled_step s (LDatagram d addr ans) = Some s' /\
        ps_log s' = ps_log s ++ [Count IN_CLIENT_UDP_MESSAGE; Count OUT_UDP_SOCKET_COUNTER;
                                 UdpSend (mkUdpSocket relay_port (Some target)) (Some target) (recv_buf d)] /\
        pu_clients (ps_self s') !! addr = Some c /\
        w_relays (ps_world s') !! h_handler (pcl_handler c) = Some r /\
        pc_addr (rl_client r) = addr /\ pc_target_socket (rl_client r) = mkUdpSocket port None.
Proof.
  intros Hb Hn Hpool Hnd Hs.
  destruct (bound_pool_ok tx scripts answers size base_port self0 Hb Hn Hpool) as (Hwf & Hmode & Hempty).
  assert (Hself : pooled_front_ok (fold_left (fun s r => perform r s) rs self0)).
  { apply pooled_requests_keep. split_and!; [done..|]. intros p sid. rewrite Hempty, lookup_empty. by intros []. }
  destruct (allocation_reaches_endpoint lookup e u _ port self' ls (proj1 Hself) Hs)
    as (ufrag & target & h & Hu & Ht & Hh & Hp & Hok & Hrun & Hsock & Hsid & Hroute).
  exists ufrag, target, h. cbn zeta. set (s := cs_endpoint _) in *. split_and!; [done..|].
  intros addr d ans relay_port Hcl Huf Hal Hsn.
  destruct (first_binding_request s addr d ans ufrag target relay_port) as (s' & hd & Hstep & Hhd & Hself' & Hlog);
    [done..|].
  assert (Hcl' : pu_clients (ps_self s') !! addr = Some (mkPooledClient hd ufrag))
    by (rewrite Hself'; cbn; by rewrite lookup_insert_eq).
  destruct (pooled_step_ok _ _ _ Hok Hstep) as [(_ & _ & Ho) _].
  destruct (proj2 Ho addr hd) as (r & Hr & _ & Ha & _ & Htg & _); [apply handlers_lookup; eauto|].
  exists s', (mkPooledClient hd ufrag), r.
  split_and!; [done|by rewrite Hlog, Hhd|done|done|done|].
  by rewrite Htg, (pooled_step_socket _ _ _ Hstep).
Qed.
End PooledHandler.
