(* ===== verification/ManagerBackend.v ===== *)
(** * The manager task as the front's backend

    A request of the front is a message on the manager's queue, answered over a oneshot channel
    ([Rpc.rpc]).  The backend is the whole system of [sys_step]: the manager, its queue, the
    endpoint tasks and their relays.  While a request is under way the other tasks go on, and the
    front's caller may be dropped; what they do, and what the operating system answers, is part of
    the backend's state, so that a theorem about every backend is one about every interleaving.  It
    implements [ManagerApi] and keeps the promises of [ManagerLaws]; [allocation_is_served] puts
    front, manager and endpoint tasks together. *)

From Stdlib Require Import ZifyBool.
From S2P Require Import Prelude RustInt Types Chan Rpc UdpClient UdpClientProps TcpClients Manager.
From S2P Require Import ManagerProps UdpPooled PooledProps ProxyManager FrontLaws ProxyProps PooledHandler.

Section ManagerBackend.
Context `{Mpsc}.

Implicit Types (s : proxy_sys) (msg : ProxyManagerMsg) (e : Endpoint).

(** When nothing else is given, every system call fails. *)
Definition no_answers : create_answers :=
  mkCreate (fun _ _ => Err "no address"%string) (Err "no socket"%string).

(** The steps of the other tasks.  No one else sends requests, since the front is behind a lock. *)
Definition other_label (lbl : sys_label) : bool :=
  match lbl with SyCall _ => false | _ => true end.

Definition other_step s (lbl : sys_label) : option proxy_sys :=
  if other_label lbl then sys_step s lbl else None.

#[export] Instance manager_is_server :
  Server proxy_sys sys_label ProxyManagerMsg (option ProxyManagerMsg) := {|
  sv_step := other_step;
  sv_send := fun s msg => sys_step s (SyCall msg);
  sv_take := SyHandle no_answers;
  sv_queue := fun s => chan_contents (sy_queue s);
  sv_handled := sy_handled
|}.

(** [bk_scripts]: for each request, what happens meanwhile.  [bk_news]: the messages handled so far
    that were not answered requests of the front. *)
Record backend : Type := mkBackend {
  bk_sys : proxy_sys;
  bk_scripts : list (script sys_label);
  bk_news : list ProxyManagerMsg
}.

(** The messages handled between two states. *)
Definition handled_since s s' : list ProxyManagerMsg :=
  map fst (drop (length (sy_handled s)) (sy_handled s')).

(** [self.tx.send(msg).await] and [one_shot_tx.await].  An answered request is the last message
    handled. *)
Definition backend_call (b : backend) msg : awaited call_answer * backend :=
  let (a, s) := rpc (hd undisturbed (bk_scripts b)) (bk_sys b) msg in
  let handled := handled_since (bk_sys b) s in
  match a with
  | Answer reply =>
      (Answer match reply with Some (Some r) => Answered r | _ => NoAnswer end,
       mkBackend s (tl (bk_scripts b)) (bk_news b ++ removelast handled))
  | Interrupted => (Interrupted, mkBackend s (tl (bk_scripts b)) (bk_news b ++ handled))
  end.

#[export] Instance backend_api : ManagerApi backend := {| mg_call := backend_call |}.

(** ** What a state says of an endpoint *)

Definition sys_listed (pr : proto) s e : option Z :=
  local_port <$> (match pr with Udp => udp_proxy | Tcp => tcp_proxy end (sy_manager s) !! e).

(** The messages that concern an endpoint. *)
Definition about (pr : proto) e msg : bool :=
  bool_decide (msg = create_of pr e \/ msg = delete_of pr e \/ msg = ended_of pr e).

Definition backend_inv s : Prop := reachable sys_step sys_init s.

#[export] Instance backend_view : ManagerView backend := {|
  mgr_ok := fun b => backend_inv (bk_sys b);
  listed := fun pr b => sys_listed pr (bk_sys b);
  news := fun pr b e => length (List.filter (about pr e) (bk_news b))
|}.

(** ** Handling a message *)

(** Reads a listing off an updated map. *)
Ltac listing :=
  cbn; rewrite ?lookup_insert_eq, ?lookup_delete_eq, ?lookup_insert_ne, ?lookup_delete_ne by congruence;
  try done.

(** A message only changes the listing of the endpoint it concerns. *)
Lemma handle_listed pr e msg ans s queue h g :
  about pr e msg = false ->
  sys_listed pr (mkSys (handle_msg msg ans (sy_manager s)).1 queue h g) e = sys_listed pr s e.
Proof.
  intros Ha%bool_decide_eq_false.
  assert (msg <> create_of pr e /\ msg <> delete_of pr e /\ msg <> ended_of pr e) as (Hc & Hd & He)
    by tauto. clear Ha.
  unfold sys_listed. destruct msg as [e'|e'| | | | |e'|e'| | |e'|e'], pr; try done;
    cbn [handle_msg create_of delete_of ended_of] in *;
    unfold create_udp_proxy_impl, create_tcp_proxy_impl, delete_udp_proxy_impl, delete_tcp_proxy_impl,
      ProxyEndpointHandler_new, ProxyTcpEndpointHandler_new in *;
    repeat case_match; simplify_eq/=; listing.
Qed.

Lemma handle_request msg ans m : is_request msg = true -> is_Some (handle_msg msg ans m).2.
Proof.
  destruct msg as [e|e| | | | |e|e| | |e|e]; try done; intros _; cbn.
  - destruct (create_udp_proxy_impl e ans m) as [[]]; by eexists.
  - destruct (create_tcp_proxy_impl e ans m) as [[]]; by eexists.
  - destruct (delete_udp_proxy_impl e m) as [[]]; by eexists.
  - destruct (delete_tcp_proxy_impl e m) as [[]]; by eexists.
Qed.

(** The reply to a creation says whether the endpoint is listed, and where; one that is listed
    stays on its port. *)
Lemma create_reply pr e ans s queue h g r :
  let s' := mkSys (handle_msg (create_of pr e) ans (sy_manager s)).1 queue h g in
  (handle_msg (create_of pr e) ans (sy_manager s)).2 = Some r ->
  (forall p, sys_listed pr s e = Some p -> sys_listed pr s' e = Some p) /\
  ((exists p, r = created_of pr p /\ sys_listed pr s' e = Some p) \/
   (exists err, r = error_of pr err /\ sys_listed pr s' e = None)).
Proof.
  cbn zeta. unfold sys_listed. destruct pr; cbn [handle_msg create_of created_of error_of];
    unfold create_udp_proxy_impl, create_tcp_proxy_impl, ProxyEndpointHandler_new,
      ProxyTcpEndpointHandler_new.
  - destruct (udp_proxy (sy_manager s) !! e) as [hd|] eqn:El; [|repeat case_match]; intros; simplify_eq/=;
      rewrite ?El; listing; naive_solver.
  - destruct (tcp_proxy (sy_manager s) !! e) as [hd|] eqn:El; [|repeat case_match]; intros; simplify_eq/=;
      rewrite ?El; listing; naive_solver.
Qed.

Lemma delete_unlists pr e ans s queue h g :
  sys_listed pr (mkSys (handle_msg (delete_of pr e) ans (sy_manager s)).1 queue h g) e = None.
Proof.
  unfold sys_listed. destruct pr; cbn [handle_msg delete_of];
    unfold delete_udp_proxy_impl, delete_tcp_proxy_impl.
  - destruct (udp_proxy (sy_manager s) !! e) as [hd|] eqn:El; cbn; rewrite ?El; listing.
  - destruct (tcp_proxy (sy_manager s) !! e) as [hd|] eqn:El; cbn; rewrite ?El; listing.
Qed.

(** ** The system as a server *)

Context `{!MpscLaws}.

(** The queue is open, has its capacity and no more than fits. *)
Definition queue_ok s : Prop :=
  mpsc_is_closed (sy_queue s) = false /\ chan_capacity (sy_queue s) = 100 /\
  length (chan_contents (sy_queue s)) <= 100.

Lemma report_queue msg (queue queue' : chan ProxyManagerMsg) (sent : bool) :
  match mpsc_send queue msg with
  | Sent queue => if sent then Some queue else None
  | SendClosed => if sent then None else Some queue
  | SendPending => None
  end = Some queue' -> mpsc_is_closed queue = false ->
  chan_contents queue' = chan_contents queue ++ [msg] /\ mpsc_is_closed queue' = false
  /\ chan_capacity queue' = chan_capacity queue
  /\ length (chan_contents queue) < chan_capacity queue.
Proof.
  destruct (mpsc_send queue msg) eqn:Es, sent; intros Hq Ho; simplify_eq.
  - apply send_Sent in Es as (_ & ? & ? & ? & ?). done.
  - apply send_SendClosed in Es. congruence.
Qed.

(** What a task sends keeps the queue, or appends the report of its end. *)
Lemma sends_queue (queue queue' : chan ProxyManagerMsg) msg (sent : bool) (killed : bool) lbl :
  match lbl with
  | None => Some queue
  | Some true =>
      match mpsc_send queue msg with
      | Sent queue => if sent then Some queue else None
      | SendClosed => if sent then None else Some queue
      | SendPending => None
      end
  | Some false => if killed then Some queue else None
  end = Some queue' -> mpsc_is_closed queue = false -> length (chan_contents queue) <= chan_capacity queue ->
  mpsc_is_closed queue' = false /\ chan_capacity queue' = chan_capacity queue /\
  length (chan_contents queue') <= chan_capacity queue /\
  exists more, chan_contents queue' = chan_contents queue ++ more.
Proof.
  intros Hq Ho Hl. assert (Hsame : mpsc_is_closed queue = false /\ chan_capacity queue = chan_capacity queue /\
    length (chan_contents queue) <= chan_capacity queue /\
    exists more, chan_contents queue = chan_contents queue ++ more).
  { split_and!; [done..|]. exists []. by rewrite app_nil_r. }
  destruct lbl as [[]|]; [|destruct killed; [|done]; by simplify_eq|by simplify_eq].
  apply report_queue in Hq as (Hq & Ho' & Hc & Hlt); [|done]. split_and!; [done|done| |by eexists].
  rewrite Hq, length_app. cbn. lia.
Qed.

(** What a step does to the queue, the history and the listings. *)
Lemma sys_step_cases s lbl s' :
  queue_ok s -> sys_step s lbl = Some s' ->
  queue_ok s' /\
  match lbl with
  | SyCall msg =>
      chan_contents (sy_queue s') = chan_contents (sy_queue s) ++ [msg] /\
      sy_manager s' = sy_manager s /\ sy_handled s' = sy_handled s
  | SyHandle ans =>
      exists msg, chan_contents (sy_queue s) = msg :: chan_contents (sy_queue s') /\
        s' = mkSys (handle_msg msg ans (sy_manager s)).1 (sy_queue s')
               (sy_handled s ++ [(msg, (handle_msg msg ans (sy_manager s)).2)])
               (sy_given s ++ [(msg, ans)])
  | SyUdp _ _ | SyTcp _ _ =>
      (forall pr e, sys_listed pr s' e = sys_listed pr s e) /\ sy_handled s' = sy_handled s /\
      exists more, chan_contents (sy_queue s') = chan_contents (sy_queue s) ++ more
  end.
Proof.
  intros (Ho & Hc & Hl) Hs. destruct lbl as [msg|ans|tid lbl|tid lbl]; cbn in Hs.
  - destruct (is_request msg); [|done]. destruct (mpsc_send _ _) as [q| |] eqn:Es; [|done..]. simplify_eq/=.
    apply send_Sent in Es as (_ & Hq & Ho' & Hcap & Hlt). split; [|done].
    split_and!; cbn; [done|congruence|rewrite Hq, length_app; cbn; lia].
  - destruct (mpsc_recv _) as [msg q| |] eqn:Er; [|done..].
    apply recv_Received in Er as (Hq & Ho' & Hcap).
    destruct (handle_msg msg ans (sy_manager s)) as [m reply] eqn:Eh. simplify_eq/=.
    rewrite Hq in Hl. cbn in Hl. split; [split_and!; cbn; [congruence..|lia]|].
    exists msg. by rewrite Eh.
  - destruct (udp_tasks _ !! tid) as [t|]; [|done]. destruct (ep_step _ _) as [task|]; [|done].
    destruct (udp_send _ _ _) as [q|] eqn:Eq; [|done]. simplify_eq/=. rewrite <- Hc in Hl.
    destruct (sends_queue (sy_queue s) q (UdpEndpointEnded (pe_endpoint (es_self (sp_task t))))
      (match lbl with EsReport sent => sent | _ => true end) (sp_killed t)
      (match lbl with EsReport _ => Some true | EsCancel _ => Some false | _ => None end))
      as (? & ? & ? & ?); [by destruct lbl|done|done|].
    split; [split_and!; cbn; [done|congruence|congruence]|]. split_and!; [by intros []|done|done].
  - destruct (tcp_tasks _ !! tid) as [t|]; [|done]. destruct (tcp_ep_step _ _) as [task|]; [|done].
    destruct (tcp_send _ _ _) as [q|] eqn:Eq; [|done]. simplify_eq/=. rewrite <- Hc in Hl.
    destruct (sends_queue (sy_queue s) q (TcpEndpointEnded (te_endpoint (ts_self (sp_task t))))
      (match lbl with TepReport sent => sent | _ => true end) (sp_killed t)
      (match lbl with TepReport _ => Some true | TepCancel => Some false | _ => None end))
      as (? & ? & ? & ?); [by destruct lbl|done|done|].
    split; [split_and!; cbn; [done|congruence|congruence]|]. split_and!; [by intros []|done|done].
Qed.

Lemma sys_queue_ok s : reachable sys_step sys_init s -> queue_ok s.
Proof.
  revert s. apply reachable_inv.
  - unfold queue_ok. cbn. rewrite channel_open, channel_capacity, channel_contents. cbn. split_and!; lia || done.
  - intros s lbl s' Hq Hs. by apply sys_step_cases in Hs as [? _].
Qed.

Lemma other_step_Some s lbl s' :
  other_step s lbl = Some s' -> other_label lbl = true /\ sys_step s lbl = Some s'.
Proof. unfold other_step. by destruct (other_label lbl). Qed.

#[export] Instance manager_laws : ServerLaws backend_inv (fun msg => is_request msg = true).
Proof.
  split; cbn [sv_step sv_send sv_take sv_queue sv_handled manager_is_server].
  - intros s msg s' Hi Hs. destruct (sys_step_cases _ _ _ (sys_queue_ok _ Hi) Hs) as [_ (? & _ & ?)].
    split_and!; [by econstructor|done..].
  - intros s lbl s' Hi [Hlbl Hs]%other_step_Some. split; [by econstructor|].
    destruct (sys_step_cases _ _ _ (sys_queue_ok _ Hi) Hs) as [_ Hcase].
    destruct lbl as [msg|ans|tid lbl|tid lbl]; [done| |right|right].
    + destruct Hcase as (msg & Hq & E). left. eexists msg, _. split; [done|]. by rewrite E.
    + by destruct Hcase as (_ & ? & ?).
    + by destruct Hcase as (_ & ? & ?).
  - intros s Hr Hne. destruct (chan_contents (sy_queue s)) as [|msg l] eqn:Eq; [done|].
    destruct (recv_some _ _ _ Eq) as (ch & Hrecv & _). unfold other_step. cbn. rewrite Hrecv.
    destruct (handle_msg msg no_answers (sy_manager s)) as [m reply]. eexists. split; [done|]. cbn.
    intros E%(f_equal length). rewrite length_app in E. cbn in E. lia.
  - intros s msg Hr Hreq Hs. cbn in Hs. rewrite Hreq in Hs. destruct (sys_queue_ok _ Hr) as (Ho & Hc & Hl).
    destruct (mpsc_send _ msg) eqn:Es; [done| |].
    { apply send_SendClosed in Es. congruence. }
    apply send_SendPending in Es as [_ Hlen]. rewrite Hc in Hlen.
    split; [intros E; rewrite E in Hlen; cbn in Hlen; lia|]. intros s' [_ Hs']%other_step_Some.
    destruct (sys_step_cases _ _ _ (conj Ho (conj Hc Hl)) Hs') as [(Ho' & Hc' & _) (m & Hq & _)].
    cbn. rewrite Hreq. destruct (send_room (sy_queue s') msg) as (q & -> & _); [done| |by eexists].
    rewrite Hc'. rewrite Hq in Hl. cbn in Hl. lia.
Qed.

(** A listing changes only when a message that concerns the endpoint is handled. *)
Lemma listed_view pr e :
  view_law backend_inv (fun s => sys_listed pr s e) (about pr e).
Proof.
  split; cbn [sv_step sv_send sv_handled manager_is_server].
  - intros s msg s' Hr Hs. destruct (sys_step_cases _ _ _ (sys_queue_ok _ Hr) Hs) as [_ (_ & Hm & _)].
    unfold sys_listed. by rewrite Hm.
  - intros s lbl s' Hr [Hlbl Hs]%other_step_Some.
    destruct (sys_step_cases _ _ _ (sys_queue_ok _ Hr) Hs) as [_ Hcase].
    destruct lbl as [msg|ans|tid lbl|tid lbl]; [done| |left; apply Hcase|left; apply Hcase].
    destruct Hcase as (msg & _ & ->). destruct (about pr e msg) eqn:Ea; [right|left].
    + by eexists msg, _.
    + by apply handle_listed.
Qed.

(** ** The promises *)

Lemma filter_fst {A B} (f : A -> bool) (l : list (A * B)) :
  length (List.filter f (map fst l)) = length (List.filter (fun x => f x.1) l).
Proof. induction l as [|[a b] l IH]; cbn; [done|]. destruct (f a); cbn; by rewrite IH. Qed.

(** Between two states of the system an endpoint stays listed as it is, or messages that concern it
    were handled. *)
Lemma sys_kept pr e s s' n :
  backend_inv s -> moves s s' ->
  exists fresh, sy_handled s' = sy_handled s ++ fresh /\
    (sys_listed pr s' e = sys_listed pr s e
     \/ n < n + length (List.filter (about pr e) (map fst fresh))).
Proof.
  intros Hi Hm. destruct (moves_handled _ _ _ _ Hm Hi) as [fresh Hf]. cbn in Hf. exists fresh. split; [done|].
  destruct (view_kept _ _ _ _ _ _ (listed_view pr e) Hm Hi) as [_ [|Hlt]]; [by left|right].
  cbn [sv_handled manager_is_server] in Hlt. rewrite Hf, concerning_app in Hlt. unfold concerning at 3 in Hlt.
  rewrite filter_fst. lia.
Qed.

(** What a call does: when it is dropped, the system went on; when it is answered, it went on to a
    state in which the manager handled the request as its last message. *)
Lemma backend_call_spec b msg a b' :
  is_request msg = true -> backend_inv (bk_sys b) -> backend_call b msg = (a, b') ->
  backend_inv (bk_sys b') /\
  match a with
  | Interrupted =>
      moves (bk_sys b) (bk_sys b') /\ bk_news b' = bk_news b ++ handled_since (bk_sys b) (bk_sys b')
  | Answer a => exists s1 ans r, moves (bk_sys b) s1 /\ backend_inv s1 /\ a = Answered r /\
      bk_news b' = bk_news b ++ handled_since (bk_sys b) s1 /\
      (handle_msg msg ans (sy_manager s1)).2 = Some r /\
      bk_sys b' = mkSys (handle_msg msg ans (sy_manager s1)).1 (sy_queue (bk_sys b'))
                    (sy_handled s1 ++ [(msg, Some r)]) (sy_given s1 ++ [(msg, ans)])
  end.
Proof.
  intros Hreq Hi Hc. unfold backend_call in Hc. destruct (rpc _ _ _) as [a' s'] eqn:Hrpc.
  destruct (rpc_spec _ _ _ _ _ _ _ Hi Hreq Hrpc) as (Hi' & Hm & Hcase).
  destruct a' as [reply|]; simplify_eq; [|by split].
  destruct Hcase as (s1 & lbl & rep & -> & Hm1 & Hi1 & [Hlbl Hs]%other_step_Some & Hh).
  cbn [sv_handled manager_is_server] in Hh. split; [done|].
  destruct (sys_step_cases _ _ _ (sys_queue_ok _ Hi1) Hs) as [_ Hcase].
  assert (Hne : sy_handled s' <> sy_handled s1).
  { rewrite Hh. intros E%(f_equal length). rewrite length_app in E. cbn in E. lia. }
  destruct lbl as [?|ans|tid lbl|tid lbl]; [done| |by destruct Hcase as (_ & ? & _)..].
  destruct Hcase as (msg' & _ & E). assert (Hlast := Hh). rewrite E in Hlast. cbn in Hlast.
  apply app_inj_2 in Hlast as [_ [= -> <-]]; [|done].
  destruct (handle_request msg ans (sy_manager s1) Hreq) as [r Hr].
  exists s1, ans, r. split_and!; [done|done|by rewrite Hr| |done|cbn; rewrite E, <- Hr; done].
  cbn. f_equal. destruct (moves_handled _ _ _ _ Hm1 Hi) as [fresh Hf]. cbn in Hf.
  unfold handled_since. rewrite Hh, Hf, <- app_assoc, !drop_app_length, map_app. cbn.
  by rewrite removelast_last.
Qed.

Lemma handled_since_app s s' fresh : sy_handled s' = sy_handled s ++ fresh -> handled_since s s' = map fst fresh.
Proof. unfold handled_since. intros ->. by rewrite drop_app_length. Qed.

Lemma about_other pr e pr' e' :
  (pr', e') <> (pr, e) -> about pr' e' (create_of pr e) = false /\ about pr' e' (delete_of pr e) = false.
Proof.
  intros Hne. split; apply bool_decide_eq_false_2; destruct pr, pr'; cbn; naive_solver congruence.
Qed.

(** How endpoints fare while a call goes on. *)
Lemma call_kept b s1 pr e :
  backend_inv (bk_sys b) -> moves (bk_sys b) s1 ->
  kept pr b (mkBackend s1 [] (bk_news b ++ handled_since (bk_sys b) s1)) e.
Proof.
  intros Hi Hm. destruct (sys_kept pr e _ _ (news pr b e) Hi Hm) as (fresh & Hf & Hcase).
  unfold kept. cbn [news listed backend_view bk_news bk_sys] in *.
  rewrite (handled_since_app _ _ _ Hf), List.filter_app, length_app.
  split; [lia|]. destruct Hcase; [by left|by right].
Qed.

#[export] Instance backend_laws : ManagerLaws backend.
Proof.
  split.
  - intros pr b e a b' Hi Hc. cbn [mgr_ok backend_view mg_call backend_api] in *.
    destruct (backend_call_spec b (create_of pr e) a b') as [Hi' Hcase]; [by destruct pr|done..|].
    split; [done|]. destruct a as [a|].
    + destruct Hcase as (s1 & ans & r & Hm & Hi1 & -> & Hn & Hr & E).
      destruct (create_reply pr e ans s1 (sy_queue (bk_sys b')) (sy_handled s1 ++ [(create_of pr e, Some r)])
          (sy_given s1 ++ [(create_of pr e, ans)]) r Hr)
        as [Hstay Hlisted]. rewrite <- E in Hstay, Hlisted.
      pose proof (fun pr e => call_kept b s1 pr e Hi Hm) as Hk. unfold kept, serves in *.
      cbn [news listed backend_view bk_news bk_sys] in *. rewrite Hn. split.
      * intros pr' e' Hne. destruct (Hk pr' e') as [Hle [Hl|Hlt]]; (split; [done|]); [left|by right].
        rewrite E, handle_listed; [done|by apply about_other].
      * destruct (Hk pr e) as [Hle Hl]. split_and!; [done| |naive_solver].
        intros p Hp. destruct Hl as [Hl|]; [left|by right]. apply Hstay. by rewrite Hl.
    + destruct Hcase as [Hm Hn]. pose proof (fun pr e => call_kept b (bk_sys b') pr e Hi Hm) as Hk.
      unfold kept in *. cbn [news listed backend_view bk_news bk_sys] in *. rewrite Hn. split; [by intros|done].
  - intros pr b e a b' Hi Hc. cbn [mgr_ok backend_view mg_call backend_api] in *.
    destruct (backend_call_spec b (delete_of pr e) a b') as [Hi' Hcase]; [by destruct pr|done..|].
    split; [done|]. destruct a as [a|].
    + destruct Hcase as (s1 & ans & r & Hm & Hi1 & -> & Hn & Hr & E).
      pose proof (fun pr e => call_kept b s1 pr e Hi Hm) as Hk. unfold kept in *.
      cbn [news listed backend_view bk_news bk_sys] in *. rewrite Hn. split.
      * intros pr' e' Hne. destruct (Hk pr' e') as [Hle [Hl|Hlt]]; (split; [done|]); [left|by right].
        rewrite E, handle_listed; [done|by apply about_other].
      * split; [done|]. rewrite E. apply delete_unlists.
    + destruct Hcase as [Hm Hn]. pose proof (fun pr e => call_kept b (bk_sys b') pr e Hi Hm) as Hk.
      unfold kept in *. cbn [news listed backend_view bk_news bk_sys] in *. rewrite Hn. split; [by intros|done].
Qed.

(** ** Front, manager and endpoint tasks together *)

(** What a listed UDP endpoint is: a task of its own that was not killed, for this endpoint, which was
    created when the endpoint was asked for, forwards to the address its name resolved to then, and
    has its socket on the port the system gave then; if it is over, the manager is about to hear of
    it. *)
Definition udp_task_serves s e (port : Z) : Prop :=
  exists tid t ans, udp_tasks (sy_manager s) !! tid = Some t /\ sp_killed t = false /\
    (CreateUdpProxy e, ans) ∈ sy_given s /\
    socket_addr (ca_lookup ans) e = Ok (pe_remote_addr (es_self (sp_task t))) /\ ca_bind ans = Ok port /\
    pe_endpoint (es_self (sp_task t)) = e /\ us_port (pe_udp_socket (es_self (sp_task t))) = port /\
    (es_phase (sp_task t) = EpFinished -> UdpEndpointEnded e ∈ chan_contents (sy_queue s)).

(** What a listed TCP endpoint is: the same, with its listener on the port; it resolves its name for
    each connection.  One that panicked is over without a message. *)
Definition tcp_task_serves s e (port : Z) : Prop :=
  exists tid t ans, tcp_tasks (sy_manager s) !! tid = Some t /\ sp_killed t = false /\
    (CreateTcpProxy e, ans) ∈ sy_given s /\ ca_bind ans = Ok port /\
    te_endpoint (ts_self (sp_task t)) = e /\ te_tcp_listener (ts_self (sp_task t)) = port /\
    (ts_phase (sp_task t) = TepFinished -> TcpEndpointEnded e ∈ chan_contents (sy_queue s)).

Lemma listed_udp_serves s e port :
  reachable sys_step sys_init s -> sys_listed Udp s e = Some port -> udp_task_serves s e port.
Proof.
  unfold sys_listed. intros [[[Hr _] _] _]%sys_reachable_ok Hl.
  destruct (udp_proxy (sy_manager s) !! e) as [h|] eqn:Eh; [|done]. simplify_eq/=.
  destruct (Hr _ _ Eh) as (t & Ht & Hk & (ans & remote & Hin & Ha & Hb & Hreach) & Hov).
  apply ep_reachable_same in Hreach as (He & Hp & Hrem).
  exists (endpoint_handle h), t, ans. rewrite Hrem. by split_and!.
Qed.

Lemma listed_tcp_serves s e port :
  reachable sys_step sys_init s -> sys_listed Tcp s e = Some port -> tcp_task_serves s e port.
Proof.
  unfold sys_listed. intros [[_ [Hr _]] _]%sys_reachable_ok Hl.
  destruct (tcp_proxy (sy_manager s) !! e) as [h|] eqn:Eh; [|done]. simplify_eq/=.
  destruct (Hr _ _ Eh) as (t & Ht & Hk & Hok & Hov).
  pose proof (tcp_ok_endpoint _ _ _ _ Hok) as [He Hp]. destruct Hok as (ans & Hin & Hb & _).
  exists (endpoint_handle h), t, ans. by split_and!.
Qed.

(** C10: front, manager and endpoint tasks together, whatever they interleave: when a per-session
    allocation is answered, an endpoint task for the session's UDP target that was not killed has
    its socket on the UDP port answered and, as the address it forwards to, what the target's name
    resolved to when the task was created, and one for each TCP target asked for has its listener on
    the TCP port answered, and if such a task is over without a panic, the manager is about to hear
    of it; unless there was news of that endpoint while the request was under way (its end was reported, or an older
    request for it, whose caller was dropped, was handled); and the front knows the session under
    the UDP port. *)
Theorem allocation_is_served {P} `{PoolApi P} lookup req (self : ProxyManager backend P) resp self' :
  backend_inv (bk_sys (pm_tx self)) -> pm_udp_mode self = PerSession ->
  create_proxy lookup req self = (Returned (Ok resp), self') ->
  let s' := bk_sys (pm_tx self') in
  let target port := mkEndpoint port (target_ip req) (session_id req) in
  exists udp tcp ssl,
    parse_u16 (target_udp_port req) = Ok udp /\ parse_u16 (target_tcp_port req) = Ok tcp /\
    parse_u16 (target_ssl_tcp_port req) = Ok ssl /\
    pm_udp_endpoints self' !! mkSession (proxy_udp_port resp) (session_id req) = Some (target udp) /\
    (udp_task_serves s' (target udp) (proxy_udp_port resp)
     \/ news Udp (pm_tx self) (target udp) < news Udp (pm_tx self') (target udp)) /\
    (tcp = 0%Z \/ tcp_task_serves s' (target tcp) (proxy_tcp_port resp)
     \/ news Tcp (pm_tx self) (target tcp) < news Tcp (pm_tx self') (target tcp)) /\
    (ssl = 0%Z \/ tcp_task_serves s' (target ssl) (proxy_ssl_tcp_port resp)
     \/ news Tcp (pm_tx self) (target ssl) < news Tcp (pm_tx self') (target ssl)).
Proof.
  intros Hok Hmode Hs. cbn zeta.
  pose proof (create_proxy_serves_session (M := backend) lookup req self resp self') as Hspec.
  destruct (Hspec Hok Hmode Hs)
    as (udp & tcp & ssl & Hu & Ht & Hl & Hreach & Hsu & Hk & Hst & Hsl).
  exists udp, tcp, ssl. split_and!; [done..| | |].
  - destruct Hsu as [Hlist|]; [left|by right]. by apply listed_udp_serves.
  - unfold tcp_served in Hst. destruct (tcp =? 0)%Z eqn:E; [left; lia|right].
    destruct Hst as [[Hlist|] _]; [left|by right]. by apply listed_tcp_serves.
  - unfold tcp_served in Hsl. destruct (ssl =? 0)%Z eqn:E; [left; lia|right].
    destruct Hsl as [[Hlist|] _]; [left|by right]. by apply listed_tcp_serves.
Qed.
End ManagerBackend.
