(* ===== verification/EndpointApi.v ===== *)
(** * The HTTP interface (src/manager/endpoint.rs)

    The handlers of the allocation, deletion and status routes over the proxy manager, the layers
    around them, and the service made of both: a request is shed when too many are under way, its
    handler is dropped when it takes too long, and every response is counted.  What axum matches
    and parses, and when tower sheds and times out, is given by axum and tower. *)

From S2P Require Import Prelude RustInt Types Consts Rpc ProxyManager FrontLaws ProxyProps.
Local Open Scope Z_scope.

(** The status codes the service answers with; [OtherStatus] is one that axum answers by itself. *)
Inductive StatusCode : Type :=
| OK
| BAD_REQUEST
| NOT_ACCEPTABLE
| REQUEST_TIMEOUT
| SERVICE_UNAVAILABLE
| INTERNAL_SERVER_ERROR
| OtherStatus (code : Z).

#[global] Instance StatusCode_eq_dec : EqDecision StatusCode.
Proof. solve_decision. Defined.

Definition status_u16 (c : StatusCode) : Z :=
  match c with
  | OK => 200
  | BAD_REQUEST => 400
  | NOT_ACCEPTABLE => 406
  | REQUEST_TIMEOUT => 408
  | SERVICE_UNAVAILABLE => 503
  | INTERNAL_SERVER_ERROR => 500
  | OtherStatus code => code
  end.

(** A response: a bare status, the body of an allocation, or a status with a text. *)
Inductive Response : Type :=
| Status (code : StatusCode)
| JsonBody (res : AllocateResponse)
| TextBody (code : StatusCode) (text : string).

Definition response_status (r : Response) : StatusCode :=
  match r with Status c | TextBody c _ => c | JsonBody _ => OK end.

(** ** Handlers *)

Section Handlers.
Context {M : Type} `{ManagerApi M} {P : Type} `{PoolApi P}.

(** The handlers, with the front locked. *)
Definition delete_proxy (mgr : ProxyManager M P) (port : Z) (session : string)
  : fate Response * ProxyManager M P :=
  match delete_udp_proxy port session mgr with
  | (Returned (Ok _), mgr) => (Returned (Status OK), mgr)
  | (Returned (Err _), mgr) =>
      match delete_tcp_proxy port session mgr with
      | (Returned (Ok _), mgr) => (Returned (Status OK), mgr)
      | (Returned (Err _), mgr) => (Returned (Status BAD_REQUEST), mgr)
      | (Panicked, mgr) => (Panicked, mgr)
      | (Dropped, mgr) => (Dropped, mgr)
      end
  | (Panicked, mgr) => (Panicked, mgr)
  | (Dropped, mgr) => (Dropped, mgr)
  end.

Definition status_proxy : Response := Status OK.

Definition allocate_proxy (lookup : string -> Z -> result string (list SocketAddr))
  (manager : ProxyManager M P) (body : AllocateRequest) : fate Response * ProxyManager M P :=
  match create_proxy lookup body manager with
  | (Returned (Ok res), manager) => (Returned (JsonBody res), manager)
  | (Returned (Err _), manager) => (Returned (Status NOT_ACCEPTABLE), manager)
  | (Panicked, manager) => (Panicked, manager)
  | (Dropped, manager) => (Dropped, manager)
  end.
End Handlers.

(** ** Errors of the middleware *)

(** A [BoxError] is tower's timeout, its load shedding, or another error with its text. *)
Inductive BoxError : Type :=
| Elapsed
| Overloaded
| OtherBox (text : string).

Definition handle_error (error : BoxError) : Response :=
  match error with
  | Elapsed => TextBody REQUEST_TIMEOUT "request timed out"
  | Overloaded => TextBody SERVICE_UNAVAILABLE "service is overloaded, try again later"
  | OtherBox e => TextBody INTERNAL_SERVER_ERROR (String.append "Unhandled internal error: " e)
  end.

(** ** Metrics *)

(** [str::contains]. *)
Fixpoint str_contains (s pat : string) : bool :=
  String.prefix pat s || match s with EmptyString => false | String.String _ s' => str_contains s' pat end.

Record HttpRequest : Type := mkHttpRequest {
  rq_matched_path : option string;
  rq_uri_path : string;
  rq_method : string
}.

(** The labels of the two request metrics. *)
Record http_labels : Type := mkLabels { lb_method : string; lb_path : string; lb_status : string }.

(** [http_metrics] around a service [next] with state [S]: what becomes of the request, and the
    labels recorded. *)
Definition http_metrics {S : Type} (METRICS_EXPOSE_PATH : string) (req : HttpRequest)
  (next : S -> fate Response * S) (s : S) : fate Response * S * list http_labels :=
  let path := match rq_matched_path req with Some m => m | None => rq_uri_path req end in
  if str_contains path METRICS_EXPOSE_PATH then (next s, [])
  else
    match next s with
    | (Returned response, s') =>
        let status := uint_to_string (status_u16 (response_status response)) in
        (Returned response, s', [mkLabels (rq_method req) path status])
    | (f, s') => (f, s', [])
    end.

(** ** The service *)

(** What axum makes of a request: the route it matches, with what the extractors read from the path
    and the body, or an answer of its own. *)
Inductive routed : Type :=
| ToAllocate (body : AllocateRequest)
| ToDelete (port : Z) (session : string)
| ToStatus
| Rejected (code : Z).

(** What becomes of a request around its handler: [ad_shed], too many requests are under way;
    [ad_lock], what awaiting the front's lock gives; [ad_gone], the client closed the connection,
    when the handler is dropped, which is otherwise the timeout. *)
Record admission : Type := mkAdmission {
  ad_shed : bool;
  ad_lock : awaited unit;
  ad_gone : bool
}.

Section Service.
Context {M : Type} `{ManagerApi M} {P : Type} `{PoolApi P}.

(** A handler with the lock it takes first. *)
Definition with_lock (lock : awaited unit)
  (handler : ProxyManager M P -> fate Response * ProxyManager M P) (proxy : ProxyManager M P)
  : fate Response * ProxyManager M P :=
  match lock with Answer _ => handler proxy | Interrupted => (Dropped, proxy) end.

Definition handle (lookup : string -> Z -> result string (list SocketAddr)) (ad : admission)
  (r : routed) (proxy : ProxyManager M P) : fate Response * ProxyManager M P :=
  match r with
  | ToAllocate body => with_lock (ad_lock ad) (fun proxy => allocate_proxy lookup proxy body) proxy
  | ToDelete port session => with_lock (ad_lock ad) (fun proxy => delete_proxy proxy port session) proxy
  | ToStatus => (Returned status_proxy, proxy)
  | Rejected code => (Returned (Status (OtherStatus code)), proxy)
  end.

(** The error handling, load shedding, concurrency limit and timeout layers. *)
Definition limited (ad : admission) (next : ProxyManager M P -> fate Response * ProxyManager M P)
  (proxy : ProxyManager M P) : fate Response * ProxyManager M P :=
  if ad_shed ad then (Returned (handle_error Overloaded), proxy)
  else
    match next proxy with
    | (Dropped, proxy) =>
        (if ad_gone ad then Dropped else Returned (handle_error Elapsed), proxy)
    | r => r
    end.

(** [AllocatorService::new]: the service for one request. *)
Definition AllocatorService_new (METRICS_EXPOSE_PATH : string)
  (lookup : string -> Z -> result string (list SocketAddr)) (route : HttpRequest -> routed)
  (req : HttpRequest) (ad : admission) (proxy : ProxyManager M P)
  : fate Response * ProxyManager M P * list http_labels :=
  http_metrics METRICS_EXPOSE_PATH req (limited ad (handle lookup ad (route req))) proxy.
End Service.

(** The routes and layers of [AllocatorService::new]: axum refuses some paths with a panic
    ([accepts]), and tower some limits ([permits]). *)
Definition AllocatorService_builds (accepts : list string -> bool) (permits : Z -> bool)
  (var : string -> result unit string) : outcome unit :=
  if accepts [ALLOCATE_PATH var; DELETE_PATH var; STATUS_PATH var]
     && permits (HTTP_REQUEST_CONCURRENT_NUM var)
  then Ret tt else Panic.

(** [AllocatorService::start]: what binding the listener and serving it give. *)
Definition AllocatorService_start (bind serve : result string unit) : result string unit :=
  match bind with Ok _ => serve | Err e => Err e end.

(** ** Properties *)

Section Props.
Context {M : Type} `{ManagerLaws M} {P : Type} `{PoolLaws P}.

Implicit Types (mgr : ProxyManager M P).

(** Whether the front knows an endpoint of the session on the port. *)
Definition knows mgr (port : Z) (sid : string) : bool :=
  bool_decide (is_Some (pm_udp_endpoints mgr !! mkSession port sid)
               \/ is_Some (pm_tcp_endpoints mgr !! mkSession port sid)).

(** A deletion in the per-session mode is answered 200 exactly when the front knows the session's
    UDP or TCP endpoint on that port, and 400 otherwise, or its handler is dropped while the
    manager is asked; it never panics and never changes the front's tables. *)
Lemma delete_proxy_answer port sid mgr :
  mgr_ok (pm_tx mgr) -> pm_udp_mode mgr = PerSession ->
  let '(f, mgr') := delete_proxy mgr port sid in
  mgr' = set_tx mgr (pm_tx mgr') /\
  (f = Returned (Status (if knows mgr port sid then OK else BAD_REQUEST))
   \/ f = Dropped /\ knows mgr port sid = true).
Proof.
  intros Hok Hmode. unfold delete_proxy, knows.
  destruct (pm_udp_endpoints mgr !! mkSession port sid) as [e|] eqn:Ek.
  - destruct (asked_deletion _ _ _ _ Hok (delete_udp_asks _ _ _ _ Hmode Ek)) as (tx & Hr & Hs & _).
    destruct (delete_udp_proxy port sid mgr) as [r s]. cbn in Hr, Hs. subst s.
    rewrite bool_decide_eq_true_2 by eauto.
    destruct Hr as [[-> _]|[-> _]]; (split; [done|]); [by left|by right].
  - rewrite delete_udp_unknown by done.
    destruct (pm_tcp_endpoints mgr !! mkSession port sid) as [e|] eqn:Et.
    + destruct (asked_deletion _ _ _ _ Hok (delete_tcp_asks _ _ _ _ Et)) as (tx & Hr & Hs & _).
      destruct (delete_tcp_proxy port sid mgr) as [r s]. cbn in Hr, Hs. subst s.
      rewrite bool_decide_eq_true_2 by eauto.
      destruct Hr as [[-> _]|[-> _]]; (split; [done|]); [by left|by right].
    + rewrite delete_tcp_unknown by done. rewrite bool_decide_eq_false_2 by naive_solver.
      split; [by destruct mgr|by left].
Qed.

(** What a request may be answered with, by its route. *)
Definition expected mgr (r : routed) (response : Response) : Prop :=
  match r with
  | ToAllocate _ => response = Status NOT_ACCEPTABLE \/ exists res, response = JsonBody res
  | ToDelete port sid => response = Status (if knows mgr port sid then OK else BAD_REQUEST)
  | ToStatus => response = Status OK
  | Rejected code => response = Status (OtherStatus code)
  end.

Lemma handle_expected lookup ad r mgr :
  mgr_ok (pm_tx mgr) -> pm_udp_mode mgr = PerSession ->
  let '(f, mgr') := handle lookup ad r mgr in
  match f with
  | Returned response => expected mgr r response
  | Panicked => ad_lock ad = Answer tt /\
      exists body, r = ToAllocate body /\ is_ok (parse_u16 (target_udp_port body)) = false
  | Dropped => (exists body, r = ToAllocate body) \/ (exists port sid, r = ToDelete port sid)
  end /\ (ad_lock ad = Interrupted \/ r = ToStatus -> mgr' = mgr).
Proof.
  intros Hok Hmode. destruct r as [body|port sid| |code]; cbn [handle with_lock expected];
    [| |by split..].
  - unfold with_lock. destruct (ad_lock ad) as [[]|]; [|split; [eauto|done]]. unfold allocate_proxy.
    pose proof (create_no_panic lookup body mgr) as Hp.
    destruct (create_proxy lookup body mgr) as [[[res|e]| |] mgr'];
      (split; [|by intros [[=]|[=]]]); [eauto|eauto| |eauto].
    split; [done|]. exists body. split; [done|]. destruct (is_ok _) eqn:E; [|done].
    exfalso. apply Hp; [congruence|done|done].
  - unfold with_lock. destruct (ad_lock ad) as [[]|]; [|split; [eauto|done]].
    pose proof (delete_proxy_answer port sid mgr Hok Hmode) as Ha.
    destruct (delete_proxy mgr port sid) as [f mgr'].
    destruct Ha as [_ [->|[-> _]]]; (split; [eauto|by intros [[=]|[=]]]).
Qed.

(** C27: every request in the per-session mode, whatever its route and however it is cut off, is either
    answered once, or its client is gone, or its handler panicked, which only an allocation with a
    bad UDP port does.  A request that is shed is answered 503 and one that takes too long 408; any
    other gets the answer of its route.  A request that is shed, or dropped before it has the lock,
    changes nothing.  Each answer is recorded once, with its status, except on the metrics path. *)
Theorem service_answers expose lookup route req ad mgr :
  mgr_ok (pm_tx mgr) -> pm_udp_mode mgr = PerSession ->
  let path := default (rq_uri_path req) (rq_matched_path req) in
  let '(f, mgr', recorded) := AllocatorService_new expose lookup route req ad mgr in
  match f with
  | Returned response =>
      (if ad_shed ad then response = handle_error Overloaded
       else response = handle_error Elapsed \/ expected mgr (route req) response) /\
      recorded = if str_contains path expose then []
                 else [mkLabels (rq_method req) path
                         (uint_to_string (status_u16 (response_status response)))]
  | Panicked => recorded = [] /\ exists body,
      route req = ToAllocate body /\ is_ok (parse_u16 (target_udp_port body)) = false
  | Dropped => recorded = [] /\ ad_gone ad = true
  end /\ (ad_shed ad = true \/ ad_lock ad = Interrupted -> mgr' = mgr).
Proof.
  intros Hok Hmode. cbn zeta. unfold AllocatorService_new, http_metrics, limited.
  change (match rq_matched_path req with Some m => m | None => rq_uri_path req end)
    with (default (rq_uri_path req) (rq_matched_path req)).
  pose proof (handle_expected lookup ad (route req) mgr Hok Hmode) as Hh.
  destruct (ad_shed ad); [by destruct (str_contains _ expose)|].
  destruct (handle lookup ad (route req) mgr) as [[response| |] mgr'];
    [|destruct Hh as [(_ & body & ? & ?) Hsame]|destruct Hh as [_ Hsame]; destruct (ad_gone ad)];
    destruct (str_contains _ expose); naive_solver.
Qed.
End Props.
