(* ===== verification/Register.v ===== *)
(** * Registration, load reports and shutdown (src/manager/register.rs, load.rs)

    The agent keeps a websocket to the registrar: it registers, then forwards the load reports its
    heartbeat queues; when the connection ends it tries again, a bounded number of times.  The
    signal handler queues a deregistration and waits before it ends the process.  Websockets,
    timers, signals and the system's load are answers of the environment; JSON is serde's, so
    messages are the values serialised. *)

From Stdlib Require Import SpecFloat ZifyBool.
From S2P Require Import Prelude RustInt Types Consts.
Local Open Scope Z_scope.

(** The messages to the registrar. *)
Inductive WsMessage : Type :=
| WsRegister (r : RegisterRequest)
| WsLoad (l : LoadReport)
| WsDeregister (d : DeregisterRequest).

(** ** Load (load.rs) *)

(** [ReportLoadSysProvider::new]: what the [sysinfo] crate gives is expected to be a system. *)
Definition ReportLoadSysProvider_new (system : result string unit) : outcome unit := unwrap system.

(** [f32 as u32]: truncation, saturating at the bounds, 0 for a NaN. *)
Definition f32_as_u32 (x : spec_float) : Z :=
  match x with
  | S754_zero _ => 0
  | S754_nan => 0
  | S754_infinity neg => if neg then 0 else U32_MAX
  | S754_finite neg m e =>
      if neg then 0
      else Z.min U32_MAX (if 0 <=? e then Z.pos m * 2 ^ e else Z.pos m / 2 ^ (- e))
  end.

(** [ReportLoadSysProvider::get_load]; [global_cpu_usage] is the [sysinfo] crate's.  It never
    fails. *)
Definition get_load (global_cpu_usage : spec_float) : result string Z :=
  Ok (f32_as_u32 global_cpu_usage).

(** ** The connection *)

(** What happens to a connection: it is refused; or it opens, and then registering fails, or it
    takes some messages off the queue, of which the first [delivered] reach the registrar, and
    ends. *)
Inductive connection : Type :=
| Refused
| NotRegistered (e : string)
| Registered (taken delivered : nat).

(** [struct RegisterClient]. *)
Record RegisterClient : Type := mkRegisterClient { rc_url : string; rc_data : RegisterRequest }.

(** [RegisterClient::new]. *)
Definition RegisterClient_new (url : string) (data : RegisterRequest) : RegisterClient :=
  mkRegisterClient url data.

(** [RegisterClient::connect]: the messages the registrar gets, what stays in the queue, and the
    result; [c] is what became of the connection to [rc_url]. *)
Definition connect (self : RegisterClient) (receiver : list WsMessage) (c : connection)
  : list WsMessage * list WsMessage * result string unit :=
  match c with
  | Refused => ([], receiver, Err "Connection failed"%string)
  | NotRegistered e => ([], receiver, Err e)
  | Registered taken delivered =>
      (WsRegister (rc_data self) :: take delivered (take taken receiver), drop taken receiver,
       Err "Connection failed"%string)
  end.

(** ** The heartbeat *)

(** One tick: the load, and whether the queue takes the report. *)
Record tick : Type := mkTick { tk_load : result string Z; tk_sent : bool }.

(** [RegisterAgent::heartbeat] over the ticks so far: the reports queued, and the result once it
    returns.  [unique]: the agent is the only owner of its load reporter; otherwise [Arc::get_mut]
    gives nothing and the [unwrap] panics. *)
Fixpoint heartbeat (unique : bool) (ticks : list tick)
  : list WsMessage * option (outcome (result string unit)) :=
  match ticks with
  | [] => ([], None)
  | t :: ticks =>
      if negb unique then ([], Some Panic) else
      match tk_load t with
      | Ok percent =>
          if tk_sent t then
            let (queued, r) := heartbeat unique ticks in
            (WsLoad (mkLoadReport "load" percent) :: queued, r)
          else ([], Some (Ret (Ok tt)))
      | Err _ => ([], Some (Ret (Err "Can not get load"%string)))
      end
  end.

(** [tokio::try_join!] of two branches, given what each returned, if it did, and which was first:
    an error ends it at once, success takes both. *)
Definition try_join2 (first second : option (result string unit)) : option (result string unit) :=
  match first, second with
  | Some (Err e), _ => Some (Err e)
  | _, Some (Err e) => Some (Err e)
  | Some (Ok _), Some (Ok _) => Some (Ok tt)
  | _, _ => None
  end.

(** ** The agent *)

(** An attempt: how the connection went, the ticks meanwhile, and whether the heartbeat ended the
    attempt before the connection did. *)
Record attempt : Type := mkAttempt {
  at_connection : connection;
  at_ticks : list tick;
  at_heartbeat_first : bool
}.

(** One [try_join!] of [RegisterAgent::run]: what the registrar gets, what stays in the queue, and
    the result, if there is one yet.  The heartbeat fills the queue the connection empties. *)
Definition run_attempt (unique : bool) (client : RegisterClient) (receiver : list WsMessage)
  (a : attempt) : list WsMessage * list WsMessage * option (outcome (result string unit)) :=
  let (queued, beat) := heartbeat unique (at_ticks a) in
  let '(sent, rest, connected) := connect client (receiver ++ queued) (at_connection a) in
  (sent, rest,
   match beat with
   | Some Panic => Some Panic
   | Some (Ret beat) =>
       Ret <$> (if at_heartbeat_first a then try_join2 (Some beat) (Some connected)
                else try_join2 (Some connected) (Some beat))
   | None => Ret <$> try_join2 (Some connected) None
   end).

(** [cur_attempt += 1] on a [u16]: a debug build panics on overflow, a release build wraps. *)
Definition u16_incr (overflow_checks : bool) (n : Z) : outcome Z :=
  if n + 1 <=? U16_MAX then Ret (n + 1) else if overflow_checks then Panic else Ret 0.

(** How the agent is built and run: overflow checks on, the load reporter its own, the environment its
    settings are read from, the fresh UUID that stands in for a [PROXY_GUID] that is not set. *)
Record agent_config : Type := mkAgentConfig {
  ac_overflow_checks : bool;
  ac_unique : bool;
  ac_var : string -> result unit string;
  ac_new_v4 : string
}.

(** [max_attempt]. *)
Definition max_attempt (cfg : agent_config) : Z := MAX_REGISTRATION_ATTEMPTS (ac_var cfg).

(** The request [RegisterAgent::run] registers with. *)
Definition register_request (cfg : agent_config) : RegisterRequest :=
  let var := ac_var cfg in
  mkRegisterRequest "register" (PROXY_GUID var (ac_new_v4 cfg)) (PUBLIC_IPV4 var) (PUBLIC_IPV6 var)
    (PRIVATE_IP var) (AVAILABILITY_ZONE var).

(** The loop of [RegisterAgent::run] over its attempts: what the registrar got, attempt by attempt,
    and the result, [None] while the loop goes on. *)
Fixpoint run_attempts (cfg : agent_config) (client : RegisterClient) (cur_attempt : Z)
  (receiver : list WsMessage) (attempts : list attempt)
  : list (list WsMessage) * option (outcome (result string unit)) :=
  match attempts with
  | [] => ([], None)
  | a :: rest =>
      let '(sent, receiver, r) := run_attempt (ac_unique cfg) client receiver a in
      match r with
      | None => ([sent], None)
      | Some Panic => ([sent], Some Panic)
      | Some (Ret (Ok _)) => ([sent], Some (Ret (Ok tt)))
      | Some (Ret (Err _)) =>
          match u16_incr (ac_overflow_checks cfg) cur_attempt with
          | Panic => ([sent], Some Panic)
          | Ret cur_attempt =>
              if max_attempt cfg <? cur_attempt
              then ([sent], Some (Ret (Err "error during registration happened"%string)))
              else let (sents, r) := run_attempts cfg client cur_attempt receiver rest in (sent :: sents, r)
          end
      end
  end.

(** [struct RegisterAgent]: where it registers, and the receiving end of its queue, with what is
    queued.  Its load reporter is in [ac_unique] and the ticks, its [tx] in those who send. *)
Record RegisterAgent : Type := mkRegisterAgent {
  ra_url : string;
  ra_rx : option (list WsMessage)
}.

(** [RegisterAgent::new]. *)
Definition RegisterAgent_new (url : string) : RegisterAgent := mkRegisterAgent url (Some []).

(** [RegisterAgent::run]: [rx] is taken, so that a second run panics. *)
Definition RegisterAgent_run (cfg : agent_config) (self : RegisterAgent) (attempts : list attempt)
  : list (list WsMessage) * option (outcome (result string unit)) * RegisterAgent :=
  match ra_rx self with
  | None => ([], Some Panic, self)
  | Some receiver =>
      let client := RegisterClient_new (ra_url self) (register_request cfg) in
      (run_attempts cfg client 0 receiver attempts, mkRegisterAgent (ra_url self) None)
  end.

(** ** Signals *)

(** [struct SignalHandler]; its [signals] and [tx] are answers of the environment. *)
Record SignalHandler : Type := mkSignalHandler { sh_delay : Z }.

(** [SignalHandler::new]. *)
Definition SignalHandler_new (delay : Z) : SignalHandler := mkSignalHandler delay.

(** [SignalHandler::run]: [signal] tells whether a signal came before the stream of signals ended,
    [sent] whether the queue took the message. *)
Definition SignalHandler_run (self : SignalHandler) (signal : bool) (sent : result string unit)
  : list WsMessage * result string unit :=
  if signal then
    match sent with
    | Ok _ => ([WsDeregister (mkDeregisterRequest "deregister" (sh_delay self))],
               Err "Exiting because of signal"%string)
    | Err e => ([], Err e)
    end
  else ([], Err "Exiting because of signal"%string).

(** ** Properties *)

(** A load report is a 32-bit number whatever the system measures, and for a load from 0 to 100
    percent it is that load rounded down. *)
Theorem load_report_is_u32 x :
  exists load, get_load x = Ok load /\ 0 <= load <= U32_MAX /\
  forall m e, x = S754_finite false m e -> Z.pos m * 2 ^ Z.max 0 e <= 100 * 2 ^ Z.max 0 (- e) ->
    load * 2 ^ Z.max 0 (- e) <= Z.pos m * 2 ^ Z.max 0 e < (load + 1) * 2 ^ Z.max 0 (- e).
Proof.
  unfold get_load. eexists. split; [done|]. split.
  - unfold f32_as_u32. destruct x as [|[]| |[] m e]; try (unfold U32_MAX; lia).
    assert (0 <= (if 0 <=? e then Z.pos m * 2 ^ e else Z.pos m / 2 ^ (- e))).
    { destruct (0 <=? e) eqn:E; [nia|]. apply Z.div_pos; [lia|]. apply Z.pow_pos_nonneg; lia. }
    unfold U32_MAX in *. lia.
  - intros m e -> Hle. cbn [f32_as_u32]. destruct (0 <=? e) eqn:E.
    + replace (Z.max 0 e) with e in * by lia. replace (Z.max 0 (- e)) with 0 in * by lia.
      unfold U32_MAX. rewrite Z.min_r by lia. lia.
    + replace (Z.max 0 e) with 0 in * by lia. replace (Z.max 0 (- e)) with (- e) in * by lia.
      assert (Hp : 0 < 2 ^ (- e)) by (apply Z.pow_pos_nonneg; lia).
      assert (Hd : Z.pos m / 2 ^ (- e) <= 100) by (apply Z.div_le_upper_bound; lia).
      unfold U32_MAX. rewrite Z.min_r by lia.
      pose proof (Z.mul_div_le (Z.pos m) _ Hp). pose proof (Z.mul_succ_div_gt (Z.pos m) _ Hp). lia.
Qed.

(** A connection registers before anything else is sent, passes queued messages on in order
    and without repeating any, and never counts as a success; only what it took off the queue last
    can be lost. *)
Theorem connect_registers_first client receiver c :
  let '(sent, rest, r) := connect client receiver c in
  (exists e, r = Err e) /\
  ((sent = [] /\ rest = receiver) \/ exists forwarded lost, sent = WsRegister (rc_data client) :: forwarded
     /\ receiver = forwarded ++ lost ++ rest).
Proof.
  destruct c as [|e|n k]; cbn; (split; [eauto|]); [by left..|right].
  exists (take k (take n receiver)), (drop k (take n receiver)). split; [done|].
  by rewrite app_assoc, take_drop, take_drop.
Qed.

(** The connection never succeeds, so an attempt only ever fails: on its connection, or on the
    load. *)
Lemma run_attempt_fails client receiver a :
  exists sent rest e, run_attempt true client receiver a = (sent, rest, Some (Ret (Err e))).
Proof.
  unfold run_attempt. destruct (heartbeat true (at_ticks a)) as [queued beat] eqn:Eb.
  assert (Hb : beat <> Some Panic).
  { revert queued beat Eb. induction (at_ticks a) as [|t l IH]; intros queued beat; cbn; [by intros [= _ <-]|].
    destruct (tk_load t); [|by intros [= _ <-]]. destruct (tk_sent t); [|by intros [= _ <-]].
    destruct (heartbeat true l) as [q r]. intros [= _ <-]. by eapply IH. }
  destruct (connect _ _ _) as [[sent rest] connected] eqn:Ec.
  assert (exists e, connected = Err e) as [e ->]
    by (destruct (at_connection a); cbn in Ec; simplify_eq; eauto).
  exists sent, rest. destruct beat as [[[[]|err]|]|]; [| |done|]; destruct (at_heartbeat_first a);
    cbn; eauto.
Qed.

Lemma run_attempts_bounded cfg client cur receiver attempts :
  ac_unique cfg = true -> 0 <= cur <= max_attempt cfg -> max_attempt cfg < U16_MAX ->
  let '(sents, r) := run_attempts cfg client cur receiver attempts in
  r = (if (length attempts <=? Z.to_nat (max_attempt cfg - cur))%nat then None
       else Some (Ret (Err "error during registration happened"%string))) /\
  length sents = Nat.min (length attempts) (S (Z.to_nat (max_attempt cfg - cur))).
Proof.
  intros Hu Hcur Hmax. revert cur receiver Hcur.
  induction attempts as [|a attempts IH]; intros cur receiver Hcur; [done|].
  cbn [run_attempts length]. rewrite Hu.
  destruct (run_attempt_fails client receiver a) as (sent & rest & e & ->).
  unfold u16_incr. replace (cur + 1 <=? U16_MAX) with true by lia.
  destruct (max_attempt cfg <? cur + 1) eqn:E.
  - replace (Z.to_nat (max_attempt cfg - cur)) with 0%nat by lia. split; [done|]. cbn. lia.
  - specialize (IH (cur + 1) rest). destruct (run_attempts _ _ _ _ _) as [sents r].
    destruct IH as [-> Hl]; [lia|].
    replace (Z.to_nat (max_attempt cfg - cur)) with (S (Z.to_nat (max_attempt cfg - (cur + 1)))) by lia.
    split; [done|]. cbn. by rewrite Hl.
Qed.

(** What the registrar gets in an attempt: nothing, or the registration first. *)
Definition registers (data : RegisterRequest) (sent : list WsMessage) : Prop :=
  sent = [] \/ hd_error sent = Some (WsRegister data).

Lemma run_attempts_register cfg client cur receiver attempts :
  Forall (registers (rc_data client)) (run_attempts cfg client cur receiver attempts).1.
Proof.
  revert cur receiver. induction attempts as [|a attempts IH]; intros cur receiver; [constructor|].
  cbn [run_attempts]. destruct (run_attempt _ _ _ _) as [[sent rest] r] eqn:Er.
  assert (Hs : registers (rc_data client) sent).
  { unfold run_attempt in Er. destruct (heartbeat _ _) as [queued beat].
    destruct (at_connection a); cbn in Er; simplify_eq; [by left..|by right]. }
  assert (Forall (registers (rc_data client)) [sent]) by (constructor; [done|constructor]).
  destruct r as [[[u|e]|]|]; try done.
  destruct (u16_incr (ac_overflow_checks cfg) cur) as [cur'|]; [|done].
  destruct (max_attempt cfg <? cur'); [done|]. specialize (IH cur' rest).
  destruct (run_attempts _ _ _ _ _) as [sents r]. by constructor.
Qed.

Lemma max_attempt_range cfg : 0 <= max_attempt cfg <= U16_MAX.
Proof.
  unfold max_attempt, MAX_REGISTRATION_ATTEMPTS, U16_MAX. destruct (ac_var cfg _) as [s|]; [|lia].
  unfold unwrap_or. destruct (parse_u16 s) as [n|] eqn:E; [|lia]. by apply parse_uint_range in E.
Qed.

(** C30: an agent whose load reporter is its own and whose configured maximum of attempts is below
    65535 makes at most one attempt more than the maximum and then gives up with an error, however
    its connections and its heartbeat end: it goes on as long as it made no more than the maximum,
    and it never panics.  In every attempt the registrar gets nothing, or first the registration
    with the configured identity and addresses.  It runs once: its queue is taken, and running it
    again panics. *)
Theorem registration_is_bounded cfg url rx attempts :
  ac_unique cfg = true -> max_attempt cfg < U16_MAX ->
  let '(sents, r, self') := RegisterAgent_run cfg (mkRegisterAgent url (Some rx)) attempts in
  r = (if (length attempts <=? Z.to_nat (max_attempt cfg))%nat then None
       else Some (Ret (Err "error during registration happened"%string))) /\
  length sents = Nat.min (length attempts) (S (Z.to_nat (max_attempt cfg))) /\
  Forall (registers (register_request cfg)) sents /\
  forall attempts', RegisterAgent_run cfg self' attempts' = ([], Some Panic, self').
Proof.
  intros Hu Hmax. unfold RegisterAgent_run. cbn [ra_rx ra_url].
  pose proof (run_attempts_bounded cfg (RegisterClient_new url (register_request cfg)) 0 rx attempts Hu) as Hb.
  pose proof (run_attempts_register cfg (RegisterClient_new url (register_request cfg)) 0 rx attempts) as Hs.
  pose proof (max_attempt_range cfg).
  destruct (run_attempts cfg _ 0 rx attempts) as [sents r]. rewrite Z.sub_0_r in Hb.
  destruct Hb as [-> ->]; [lia..|]. by split_and!.
Qed.

(** With the largest configurable maximum, 65535, the bound is void: the attempt counter
    overflows before it can exceed it, so a release build retries for ever, and a debug build
    panics at the 65536th failure. *)
Theorem registration_bound_overflows cfg url rx attempts :
  ac_unique cfg = true -> max_attempt cfg = U16_MAX ->
  (ac_overflow_checks cfg = false -> (RegisterAgent_run cfg (mkRegisterAgent url (Some rx)) attempts).1.2 = None) /\
  (ac_overflow_checks cfg = true -> U16_MAX < Z.of_nat (length attempts) ->
     (RegisterAgent_run cfg (mkRegisterAgent url (Some rx)) attempts).1.2 = Some Panic).
Proof.
  intros Hu Hm. cbn. generalize (RegisterClient_new url (register_request cfg)). intros client. split.
  - intros Hw. assert (Hgo : forall cur receiver, 0 <= cur <= U16_MAX ->
      (run_attempts cfg client cur receiver attempts).2 = None); [|by apply Hgo].
    induction attempts as [|a attempts IH]; intros cur receiver Hcur; [done|].
    cbn [run_attempts]. rewrite Hu, Hm, Hw.
    destruct (run_attempt_fails client receiver a) as (sent & rest & e & ->).
    unfold u16_incr. destruct (cur + 1 <=? U16_MAX) eqn:E.
    + replace (U16_MAX <? cur + 1) with false by lia.
      specialize (IH (cur + 1) rest). destruct (run_attempts _ _ _ _ _). apply IH. lia.
    + replace (U16_MAX <? 0) with false by done.
      specialize (IH 0 rest). destruct (run_attempts _ _ _ _ _). by apply IH.
  - intros Hc. assert (Hgo : forall cur receiver, 0 <= cur <= U16_MAX ->
      U16_MAX - cur < Z.of_nat (length attempts) ->
      (run_attempts cfg client cur receiver attempts).2 = Some Panic); [|intros ?; apply Hgo; [done|lia]].
    induction attempts as [|a attempts IH]; intros cur receiver Hcur Hlen; [cbn in Hlen; lia|].
    cbn [run_attempts length] in *. rewrite Hu, Hm, Hc.
    destruct (run_attempt_fails client receiver a) as (sent & rest & e & ->).
    unfold u16_incr. destruct (cur + 1 <=? U16_MAX) eqn:E; [|done].
    replace (U16_MAX <? cur + 1) with false by lia.
    specialize (IH (cur + 1) rest). destruct (run_attempts _ _ _ _ _). apply IH; lia.
Qed.

(** The signal handler ends with an error on every path, queueing at most one message, the
    deregistration with the configured drain period, when a signal came. *)
Lemma signal_handler_ends delay signal sent :
  (exists e, (SignalHandler_run (SignalHandler_new delay) signal sent).2 = Err e) /\
  (signal = true -> sent = Ok tt ->
     (SignalHandler_run (SignalHandler_new delay) signal sent).1 = [WsDeregister (mkDeregisterRequest "deregister" delay)]) /\
  (signal = false -> (SignalHandler_run (SignalHandler_new delay) signal sent).1 = []).
Proof.
  split_and!; [|by intros -> ->|by intros ->]. unfold SignalHandler_run. destruct signal, sent; eauto.
Qed.
