(* ===== verification/Services.v ===== *)
(** * The services and the process (src/manager/pmetrics.rs: [MetricService], src/main.rs)

    The metrics exporter and [main]: what has to succeed before the services run, and when the
    process ends.  The Prometheus recorder, axum and the signals are given by their libraries. *)

From S2P Require Import Prelude RustInt Types Consts Rpc ProxyManager FrontLaws ProxyProps.
From S2P Require Import EndpointApi Register.
Local Open Scope Z_scope.

(** ** The metrics exporter *)

(** [MetricService::setup_metrics_recorder]: what setting the buckets and installing the recorder
    give is unwrapped. *)
Definition setup_metrics_recorder (set_buckets install_recorder : result string unit) : outcome unit :=
  match unwrap set_buckets with Ret _ => unwrap install_recorder | Panic => Panic end.

(** [MetricService::new]: one route answers the rendered metrics.  [accepts]: axum takes the path, and
    panics otherwise; [route] is what axum makes of a request: a match of that route, or an answer of
    its own. *)
Definition MetricService_new (set_buckets install_recorder : result string unit)
  (accepts : list string -> bool) (METRICS_EXPOSE_PATH : string)
  (render : HttpRequest -> string) (route : HttpRequest -> option Z) : outcome (HttpRequest -> Response) :=
  match setup_metrics_recorder set_buckets install_recorder with
  | Panic => Panic
  | Ret _ =>
      if accepts [METRICS_EXPOSE_PATH] then Ret (fun req =>
        match route req with
        | None => TextBody OK (render req)
        | Some code => Status (OtherStatus code)
        end)
      else Panic
  end.

(** [MetricService::start]: what binding the listener and serving it give. *)
Definition MetricService_start (bind serve : result string unit) : result string unit :=
  match bind with Ok _ => serve | Err e => Err e end.

(** ** The process *)

(** The services [main] joins. *)
Inductive service : Type := MetricsExporter | ProxyApp | RegisterAgentTask | SignalHandlerTask.

#[global] Instance service_eq_dec : EqDecision service.
Proof. solve_decision. Defined.

(** [try_join!] over the services as they return or panic: they run in the task that joins them, so a
    panic is its own; the first error ends it, and so does the fourth success; [None] while it
    runs. *)
Fixpoint try_join4 (succeeded : nat) (returns : list (service * outcome (result string unit)))
  : option (outcome (result string unit)) :=
  match returns with
  | [] => None
  | (_, Panic) :: _ => Some Panic
  | (_, Ret (Err e)) :: _ => Some (Ret (Err e))
  | (_, Ret (Ok _)) :: returns =>
      if (succeeded =? 3)%nat then Some (Ret (Ok tt)) else try_join4 (S succeeded) returns
  end.

(** What the libraries answer while the program starts: the runtime of [tokio::main] is built and the
    subscriber of [tracing] installed, the recorder is set up, axum takes a service's paths, tower
    takes a limit, the system's load can be observed, signals can be handled; and how the metrics are
    rendered and routed. *)
Record startup : Type := mkStartup {
  su_tracing : result string unit;
  su_set_buckets : result string unit;
  su_install_recorder : result string unit;
  su_accepts : list string -> bool;
  su_permits : Z -> bool;
  su_system : result string unit;
  su_signals : result string unit;
  su_render : HttpRequest -> string;
  su_route : HttpRequest -> option Z
}.

Section Main.
Context {M : Type} `{ManagerApi M} {P : Type} `{PoolApi P}.

(** [main]: the subscriber, the exporter, the front with the configured pool, the load reporter, the
    HTTP service, the signals; then the services, whose results are dropped, but whose panics are
    the process's.  [None] while it runs. *)
Definition main (var : string -> result unit string) (su : startup) (tx : M)
  (bind : nat -> Z -> result string P) (returns : list (service * outcome (result string unit)))
  : option (outcome (result string unit)) :=
  match unwrap (su_tracing su) with
  | Panic => Some Panic
  | Ret _ =>
  match MetricService_new (su_set_buckets su) (su_install_recorder su) (su_accepts su)
          (METRICS_EXPOSE_PATH var) (su_render su) (su_route su) with
  | Panic => Some Panic
  | Ret _ =>
  match with_udp_pool tx bind (Z.to_nat (UDP_POOL_SIZE var)) (UDP_POOL_BASE_PORT var) with
  | Err e => Some (Ret (Err e))
  | Ok proxy_manager =>
  match ReportLoadSysProvider_new (su_system su) with
  | Panic => Some Panic
  | Ret _ =>
  match AllocatorService_builds (su_accepts su) (su_permits su) var with
  | Panic => Some Panic
  | Ret _ =>
  match su_signals su with
  | Err e => Some (Ret (Err e))
  | Ok _ =>
      match try_join4 0 returns with
      | Some Panic => Some Panic
      | Some (Ret _) => Some (Ret (Ok tt))
      | None => None
      end
  end end end end end end.
End Main.

(** ** Properties *)

(** The services that returned first, all of them successfully, before [end_]. *)
Definition ends_with (fate : outcome (result string unit) -> Prop)
  (returns : list (service * outcome (result string unit))) : Prop :=
  exists before svc f after, returns = before ++ (svc, f) :: after /\ (length before <= 3)%nat /\
    Forall (fun r => r.2 = Ret (Ok tt)) before /\ fate f.

(** The join panics with the first service that panics, fails with the first that fails, and
    otherwise goes on until four have returned. *)
Lemma try_join4_spec returns :
  match try_join4 0 returns with
  | Some Panic => ends_with (fun f => f = Panic) returns
  | Some (Ret (Err e)) => ends_with (fun f => f = Ret (Err e)) returns
  | Some (Ret (Ok _)) => (4 <= length returns)%nat /\ Forall (fun r => r.2 = Ret (Ok tt)) (take 4 returns)
  | None => Forall (fun r => r.2 = Ret (Ok tt)) returns /\ (length returns <= 3)%nat
  end.
Proof.
  assert (Hgo : forall k before, (k <= 3)%nat -> length before = k ->
    Forall (fun r => r.2 = Ret (Ok tt)) before -> forall rest,
    match try_join4 k rest with
    | Some Panic => ends_with (fun f => f = Panic) (before ++ rest)
    | Some (Ret (Err e)) => ends_with (fun f => f = Ret (Err e)) (before ++ rest)
    | Some (Ret (Ok _)) => (4 <= length (before ++ rest))%nat /\
        Forall (fun r => r.2 = Ret (Ok tt)) (take 4 (before ++ rest))
    | None => Forall (fun r => r.2 = Ret (Ok tt)) (before ++ rest) /\ (length (before ++ rest) <= 3)%nat
    end); [|by apply (Hgo 0%nat []); [lia| |constructor]].
  intros k before Hk Hlen Hb rest. revert k before Hk Hlen Hb.
  induction rest as [|[svc [[[]|e]|]] rest IH]; intros k before Hk Hlen Hb; cbn [try_join4].
  - rewrite app_nil_r. split; [done|lia].
  - destruct (k =? 3)%nat eqn:E.
    + apply Nat.eqb_eq in E. rewrite length_app. cbn. split; [lia|].
      rewrite take_app_ge by lia. rewrite Hlen, E. apply Forall_app. split; [done|]. by repeat constructor.
    + apply Nat.eqb_neq in E. rewrite cons_middle, app_assoc. apply IH; [lia|rewrite length_app; cbn; lia|].
      apply Forall_app. split; [done|]. by repeat constructor.
  - exists before, svc, (Ret (Err e)), rest. split_and!; [done|lia|done|done].
  - exists before, svc, Panic, rest. split_and!; [done|lia|done|done].
Qed.

Section Props.
Context {M : Type} `{ManagerApi M} {P : Type} `{PoolApi P}.

Lemma UDP_POOL_BASE_PORT_range var : 0 <= UDP_POOL_BASE_PORT var.
Proof.
  unfold UDP_POOL_BASE_PORT. destruct (var _) as [s|]; [|done]. unfold unwrap_or.
  destruct (parse_u16 s) as [n|] eqn:E; [|done]. apply parse_uint_range in E; [lia|done].
Qed.

(** Whether the configured pool can be bound. *)
Definition pool_binds (bind : nat -> Z -> result string P) (size : nat) (base_port : Z) : bool :=
  (size =? 0)%nat
  || ports_fit base_port size && negb (length (bound bind base_port (seq 0 size)) =? 0)%nat.

Lemma with_udp_pool_binds (tx : M) bind size base_port :
  0 <= base_port -> is_ok (with_udp_pool tx bind size base_port) = pool_binds bind size base_port.
Proof.
  intros Hb. unfold pool_binds. rewrite with_udp_pool_eq by done.
  destruct (size =? 0)%nat; [done|]. destruct (ports_fit base_port size); [|done].
  by destruct (bound bind base_port (seq 0 size)).
Qed.

(** C29: when the process panics, fails, serves and ends.  It panics exactly when the runtime,
    the subscriber or the metrics recorder cannot be set up, axum refuses a configured path, tower the configured
    limit, or the load cannot be observed, provided nothing before that made it fail; or, once it
    serves, when a service panics before any has failed.  It fails exactly when the configured pool
    needs ports beyond 65535 or none of its sockets binds, or signals cannot be handled.  Otherwise
    it serves until the first service fails or all four have returned, and then ends as a success,
    whatever they returned. *)
Theorem main_runs_until_a_service_fails var (su : startup) (tx : M) (bind : nat -> Z -> result string P) returns :
  let exporter := is_ok (su_tracing su) && (is_ok (su_set_buckets su) && is_ok (su_install_recorder su))
    && su_accepts su [METRICS_EXPOSE_PATH var] in
  let pool := pool_binds bind (Z.to_nat (UDP_POOL_SIZE var)) (UDP_POOL_BASE_PORT var) in
  let app := is_ok (su_system su) && (su_accepts su [ALLOCATE_PATH var; DELETE_PATH var; STATUS_PATH var]
    && su_permits su (HTTP_REQUEST_CONCURRENT_NUM var)) in
  let serves := exporter && pool && app && is_ok (su_signals su) in
  match main var su tx bind returns with
  | Some Panic => exporter = false \/ pool && negb app = true \/
      serves = true /\ ends_with (fun f => f = Panic) returns
  | Some (Ret (Err _)) => exporter = true /\ (pool = false \/ app && negb (is_ok (su_signals su)) = true)
  | Some (Ret (Ok _)) => serves = true /\
      (ends_with (fun f => exists e, f = Ret (Err e)) returns \/
       (4 <= length returns)%nat /\ Forall (fun r => r.2 = Ret (Ok tt)) (take 4 returns))
  | None => serves = true /\ Forall (fun r => r.2 = Ret (Ok tt)) returns /\ (length returns <= 3)%nat
  end.
Proof.
  cbn zeta. unfold main, MetricService_new, setup_metrics_recorder, AllocatorService_builds, ReportLoadSysProvider_new.
  pose proof (with_udp_pool_binds tx bind (Z.to_nat (UDP_POOL_SIZE var)) _ (UDP_POOL_BASE_PORT_range var)) as <-.
  destruct (su_tracing su) as [[]|]; [|by left]. destruct (su_set_buckets su) as [[]|]; [|by left].
  destruct (su_install_recorder su) as [[]|]; [|by left]. cbn [unwrap is_ok andb].
  destruct (su_accepts su [METRICS_EXPOSE_PATH var]); [|by left]. cbn [andb].
  destruct (with_udp_pool _ _ _ _) as [m|]; [|by split; [|left]]. cbn [is_ok andb].
  destruct (su_system su) as [[]|]; [|by right; left]. cbn [unwrap is_ok andb].
  destruct (su_accepts su _ && _); [|by right; left].
  destruct (su_signals su) as [[]|]; [|by split; [|right]]. cbn [is_ok andb negb].
  pose proof (try_join4_spec returns) as Hj. destruct (try_join4 0 returns) as [[[[]|e]|]|].
  - split; [done|]. by right.
  - split; [done|]. left. destruct Hj as (b & svc & f & a & ? & ? & ? & ->). exists b, svc, (Ret (Err e)), a. eauto.
  - right; right. by split.
  - by split.
Qed.
End Props.
