(* ===== verification/RelayLeaks.v ===== *)
(** * No relay outlives its owner

    A relay runs until its handler is dropped or it ends by itself.  [covered] says that every
    relay of a world that was not aborted belongs to a handler its owner still holds, so an owner
    never leaks a relay task or its socket; it holds of both kinds of owner at all times. *)

From S2P Require Import Prelude RustInt Stun Types Chan UdpClient RelayInv UdpPooled PooledInv.

Section Leaks.
Context `{MpscLaws}.

Implicit Types (w : world) (hs : gmap SocketAddr ProxyClientHandler).

Definition covered hs w : Prop :=
  forall rid r, w_relays w !! rid = Some r ->
    rl_aborted r = true \/ exists addr h, hs !! addr = Some h /\ h_handler h = rid.

(** [w'] has the relays of [w], with at least the same ones aborted. *)
Definition same_relays w w' : Prop :=
  forall rid r', w_relays w' !! rid = Some r' ->
    exists r, w_relays w !! rid = Some r /\ (rl_aborted r = true -> rl_aborted r' = true).

Lemma same_relays_refl w : same_relays w w.
Proof. intros rid r Hr. by exists r. Qed.

Lemma covered_init : covered ∅ world_init.
Proof. intros rid r Hr. cbn in Hr. by rewrite lookup_empty in Hr. Qed.

Lemma covered_same hs w w' : covered hs w -> same_relays w w' -> covered hs w'.
Proof. intros Hc Hs rid r' (r & Hr & Hab)%Hs. destruct (Hc _ _ Hr); auto. Qed.

Lemma same_relays_set_relay w rid r r' ch :
  w_relays w !! rid = Some r -> (rl_aborted r = true -> rl_aborted r' = true) ->
  same_relays w (set_client ch (set_relay rid r' w)).
Proof.
  intros Hr Hab rid' r'' Hl. cbn in Hl. rewrite lookup_insert in Hl.
  case_decide; simplify_eq; eauto.
Qed.

Lemma same_relays_client w ch : same_relays w (set_client ch w).
Proof. intros rid r Hr. eauto. Qed.

Lemma same_relays_step alive w rid lbl w' e : world_step alive w rid lbl = Some (w', e) -> same_relays w w'.
Proof.
  unfold world_step. destruct (w_relays w !! rid) as [r|] eqn:Er; [|done].
  destruct (relay_step r lbl _) as [[[r' ch] e']|] eqn:Es; [|done]. intros [= <- _].
  eapply same_relays_set_relay; [done|]. intros Hab.
  unfold relay_step in Es. by repeat case_match; simplify_eq/=.
Qed.

Lemma same_relays_control_send rid msg w r w' e :
  control_send rid msg w = Some (r, w', e) -> same_relays w w'.
Proof.
  unfold control_send. destruct (w_relays w !! rid) as [rl|] eqn:Er.
  - destruct (mpsc_send _ _); intros Hs; simplify_eq; [|intros ???; eauto].
    by apply (same_relays_set_relay w rid rl _ (w_client w)).
  - intros Hs; simplify_eq. intros ???; eauto.
Qed.

Lemma same_relays_send sent sk data rid w r w' e :
  ProxyClient_send sent sk data rid w = Some (r, w', e) -> same_relays w w'.
Proof.
  unfold ProxyClient_send. intros Hs. destruct sent; inv_task Hs.
  - by eapply same_relays_control_send.
  - intros ???; eauto.
Qed.

Lemma same_relays_abort rid w : same_relays w (abort_relay rid w).
Proof.
  unfold abort_relay. destruct (w_relays w !! rid) as [r|] eqn:Er.
  - by apply (same_relays_set_relay w rid r _ (w_client w)).
  - intros ???; eauto.
Qed.

(** Dropping handlers covers a smaller map. *)
Lemma covered_drop hs hs' ds w :
  covered hs w -> (forall addr h, hs !! addr = Some h -> hs' !! addr = Some h \/ h ∈ ds) ->
  covered hs' (drop_handlers ds w).
Proof.
  intros Hc Hd rid r' Hr'.
  assert (Hsame : same_relays w (drop_handlers ds w)).
  { clear. induction ds as [|d ds IH]; [intros ???; eauto|].
    intros rid r' (r1 & Hr1 & Hab1)%same_relays_abort. apply IH in Hr1 as (r & Hr & Hab). eauto. }
  destruct (Hsame _ _ Hr') as (r & Hr & Hab).
  destruct (Hc _ _ Hr) as [|(addr & h & Hl & Hh)]; [auto|].
  destruct (Hd _ _ Hl) as [Hl'|Hin]; [eauto|]. left.
  pose proof (drop_handlers_aborted ds w h Hin) as Ha. unfold aborted in Ha. by rewrite Hh, Hr' in Ha.
Qed.

Lemma covered_alloc hs w remote addr sock ans h w' e :
  covered hs w -> hs !! addr = None ->
  allocate_handler remote addr sock ans w = Some (Ok h, w', e) ->
  covered (<[addr := h]> hs) w'.
Proof.
  intros Hc Hn Ha. unfold allocate_handler in Ha.
  destruct (aa_bind ans) as [port|]; [|done]. destruct (aa_connect ans); [|done].
  unfold task_bind, task_ret, ProxyClient_new, spawn_relay in Ha. simplify_eq.
  intros rid r Hl. cbn in Hl. rewrite lookup_insert in Hl. case_decide as E; simplify_eq.
  - right. eexists _, _. by rewrite lookup_insert_eq.
  - destruct (Hc _ _ Hl) as [|(b & h & Hh & <-)]; [auto|]. right. exists b, h.
    rewrite lookup_insert_ne; [done|]. congruence.
Qed.

Lemma covered_remove hs w addr h :
  covered hs w -> hs !! addr = Some h -> covered (delete addr hs) (handler_drop h w).
Proof.
  intros Hc Hl. apply (covered_drop hs _ [h]); [done|]. intros a h' Ha.
  destruct (decide (a = addr)) as [->|Hne]; [right; simplify_eq; set_solver|left].
  by rewrite lookup_delete_ne.
Qed.

Lemma covered_drop_all hs w :
  covered hs w -> covered ∅ (drop_handlers (map snd (map_to_list hs)) w).
Proof.
  intros Hc. apply (covered_drop hs); [done|]. intros a h Hl. right.
  apply list_elem_of_fmap. exists (a, h). split; [done|]. by apply elem_of_map_to_list.
Qed.

(** ** The per-session endpoint *)

Definition ep_covered (s : ep_sys) : Prop := covered (pe_clients (es_self s)) (es_world s).

Lemma remove_client_covered self addr w self' w' e :
  covered (pe_clients self) w -> remove_client self addr w = Some (self', w', e) ->
  covered (pe_clients self') w'.
Proof.
  intros Hc Hr. unfold remove_client in Hr.
  destruct (pe_clients self !! addr) as [h|] eqn:Eh; inv_task Hr; [by apply covered_remove|done].
Qed.

Lemma endpoint_select_covered self ev w ctl w' e :
  covered (pe_clients self) w -> endpoint_select self ev w = Some (ctl, w', e) ->
  covered (pe_clients (ctl_state ctl)) w'.
Proof.
  intros Hc Hs. assert (Hbr : forall s, ctl_state (break_if_empty s) = s)
    by (intros s; unfold break_if_empty; by case_bool_decide).
  destruct ev as [[[d addr]|err] ans sent| |]; cbn [endpoint_select] in Hs; [|by inv_task Hs| |by inv_task Hs].
  - inv_task Hs. unfold get_or_create_client in Hm. destruct a as [[h self1]|err].
    + assert (Hc1 : covered (pe_clients self1) w0).
      { destruct (pe_clients self !! addr) eqn:Eh; inv_task Hm; [done|].
        destruct a as [h'|]; inv_task Hm. by eapply covered_alloc. }
      inv_task Hs. apply same_relays_send in Hm0. pose proof (covered_same _ _ _ Hc1 Hm0) as Hc2.
      destruct a as [|err]; inv_task Hs; [done|]. rewrite Hbr. by eapply remove_client_covered.
    + inv_task Hs. destruct (pe_clients self !! addr) eqn:Eh; inv_task Hm.
      destruct a as [h'|]; inv_task Hm. by apply alloc_err in Hm0 as [-> _].
  - inv_task Hs. unfold client_recv in Hm.
    destruct (mpsc_recv (w_client w)) as [m ch| |]; [| |done]; simplify_eq; [|by inv_task Hs].
    pose proof (covered_same _ _ _ Hc (same_relays_client w ch)) as Hc1.
    destruct m as [addr| |]; inv_task Hs; [|done..]. rewrite Hbr. by eapply remove_client_covered.
Qed.

Lemma ep_step_covered s lbl s' : ep_covered s -> ep_step s lbl = Some s' -> ep_covered s'.
Proof.
  unfold ep_covered. intros Hc Hs. destruct lbl as [ev|sent|waiting|rid l]; cbn in Hs.
  - destruct (es_phase s); [|done..].
    destruct (endpoint_select _ _ _) as [[[ctl w] e]|] eqn:Esel; [|done].
    apply endpoint_select_covered in Esel; [|done]. by destruct ctl; simplify_eq.
  - destruct (es_phase s); simplify_eq. by apply covered_drop_all.
  - repeat case_match; simplify_eq; by apply covered_drop_all.
  - destruct (world_step _ _ _ _) as [[w e]|] eqn:Ew; [|done]. simplify_eq. cbn.
    eapply covered_same; [done|]. by eapply same_relays_step.
Qed.

Lemma ep_reachable_covered sock e remote s :
  reachable ep_step (ep_init sock e remote) s ->
  ep_covered s /\ (es_phase s = EpFinished -> pe_clients (es_self s) = ∅).
Proof.
  revert s. apply (reachable_inv ep_step (fun s => ep_covered s
    /\ (es_phase s = EpFinished -> pe_clients (es_self s) = ∅))).
  { by split; [apply covered_init|]. }
  intros s l s' [Hc Hf] Hs. split; [by eapply ep_step_covered|].
  destruct l; cbn in Hs; repeat case_match; simplify_eq/=; first [done|auto].
Qed.

(** A per-session endpoint never leaks a relay: at all times a relay it spawned is aborted
    unless a current client holds it; so when its task is over, whichever way it ended, every
    relay it ever spawned is aborted. *)
Theorem session_endpoint_leaks_no_relay sock e remote s rid r :
  reachable ep_step (ep_init sock e remote) s -> w_relays (es_world s) !! rid = Some r ->
  rl_aborted r = true \/
  es_phase s <> EpFinished /\
  exists addr h, pe_clients (es_self s) !! addr = Some h /\ h_handler h = rid.
Proof.
  intros Hr Hl. destruct (ep_reachable_covered _ _ _ _ Hr) as [Hc Hf]. destruct (Hc _ _ Hl) as [|(addr & h & Hh & <-)]; [by left|right].
  split; [|eauto]. intros E. by rewrite Hf, lookup_empty in Hh.
Qed.

(** ** The pooled endpoint *)

Implicit Types self : PooledUdpEndpoint.

Lemma handlers_set self clients :
  handlers (set_pooled_clients self clients) = pcl_handler <$> clients.
Proof. done. Qed.

Lemma pooled_remove_covered self addr w self' w' e :
  covered (handlers self) w -> pooled_remove_client self addr w = Some (self', w', e) ->
  covered (handlers self') w' /\ handlers self' = delete addr (handlers self).
Proof.
  intros Hc Hr. unfold pooled_remove_client in Hr.
  destruct (pu_clients self !! addr) as [c|] eqn:Ec; inv_task Hr.
  - rewrite handlers_set, fmap_delete. split; [|done].
    apply covered_remove; [done|]. apply handlers_lookup. eauto.
  - split; [done|]. symmetry. apply delete_id. unfold handlers. by rewrite lookup_fmap, Ec.
Qed.

Lemma drop_clients_covered self u w self' w' e :
  covered (handlers self) w -> drop_clients self u w = Some (self', w', e) ->
  covered (handlers self') w'.
Proof.
  intros Hc Hd. unfold drop_clients in Hd. inv_task Hd. eapply covered_drop; [exact Hc|].
  intros addr h (c & Hl & <-)%handlers_lookup. destruct (decide (pcl_ufrag c = u)) as [E|E].
  - right. apply list_elem_of_fmap. exists (addr, c). split; [done|].
    apply elem_of_map_to_list, lookup_retain_Some. split; [done|]. by apply bool_decide_eq_true.
  - left. apply handlers_lookup. exists c. split; [|done]. apply lookup_retain_Some.
    split; [done|]. by rewrite bool_decide_eq_false_2.
Qed.

Lemma forget_covered self u w self' w' e :
  covered (handlers self) w -> forget_ufrag_if_unused self u w = Some (self', w', e) ->
  covered (handlers self') w'.
Proof.
  unfold forget_ufrag_if_unused. intros Hc Hs. destruct (values_any _ _); [by inv_task Hs|].
  by eapply drop_clients_covered in Hs.
Qed.

Lemma on_control_covered self msg w r w' e :
  covered (handlers self) w -> on_control self msg w = Some (r, w', e) ->
  covered (handlers r.1) w'.
Proof.
  intros Hc Hs. destruct msg as [sid u t|sid]; cbn [on_control] in Hs.
  - inv_task Hs. assert (Hc1 : covered (handlers a) w0).
    { destruct (pu_routes self !! u); [case_bool_decide|]; [|by inv_task Hm..].
      by eapply drop_clients_covered in Hm. }
    destruct (pu_sessions a !! sid) as [p|]; [case_bool_decide|]; [|by inv_task Hm0..].
    by eapply forget_covered in Hm0.
  - destruct (pu_sessions self !! sid); inv_task Hs; [|done]. by eapply forget_covered in Hm.
Qed.

Lemma route_afresh_covered self data addr ans w self' w' e :
  covered (handlers self) w -> handlers self !! addr = None ->
  route_afresh self data addr ans w = Some (self', w', e) -> covered (handlers self') w'.
Proof.
  intros Hc Hn Hs. unfold route_afresh in Hs.
  destruct (find_route self data) as [[u t]|]; inv_task Hs; [|done].
  destruct a as [h|err]; [|apply alloc_err in Hm as [-> _]; by inv_task Hs].
  eapply covered_alloc in Hm; [|exact Hc|exact Hn]. inv_task Hs.
  apply same_relays_send in Hm0. pose proof (covered_same _ _ _ Hm Hm0) as Hc2.
  destruct a as [|err]; inv_task Hs.
  - unfold pooled_insert_client in Hs.
    assert (Hnc : pu_clients self !! addr = None)
      by (unfold handlers in Hn; rewrite lookup_fmap in Hn; by destruct (pu_clients self !! addr)).
    rewrite Hnc in Hs. inv_task Hs. by rewrite handlers_set, fmap_insert.
  - apply (covered_drop _ _ [h] _ Hc2). intros a h' Ha. rewrite lookup_insert in Ha.
    case_decide; simplify_eq; [right; set_solver|by left].
Qed.

Lemma on_datagram_covered self data addr ans w self' w' e :
  covered (handlers self) w -> on_datagram self data addr ans w = Some (self', w', e) ->
  covered (handlers self') w'.
Proof.
  intros Hc Hs. unfold on_datagram in Hs. inv_task Hs.
  destruct (pu_clients self !! addr) as [c|] eqn:Ec.
  - inv_task Hs. apply same_relays_send in Hm. pose proof (covered_same _ _ _ Hc Hm) as Hc1.
    destruct a as [|err]; inv_task Hs; [done|].
    apply pooled_remove_covered in Hm0 as [Hc2 Hh]; [|done].
    eapply route_afresh_covered; [exact Hc2| |exact Hs]. by rewrite Hh, lookup_delete_eq.
  - eapply route_afresh_covered; [exact Hc| |exact Hs]. unfold handlers. by rewrite lookup_fmap, Ec.
Qed.

Lemma on_client_msg_covered self msg w self' w' e :
  covered (handlers self) w -> on_client_msg self msg w = Some (self', w', e) ->
  covered (handlers self') w'.
Proof.
  intros Hc Hs. destruct msg as [addr| |]; cbn in Hs; [|by inv_task Hs..].
  destruct (pu_clients self !! addr); [|by inv_task Hs].
  destruct (sender_is_closed _ _); [|by inv_task Hs]. by eapply pooled_remove_covered in Hs as [? _].
Qed.

Lemma same_relays_waits self waiting w u w' e :
  pooled_waits self waiting w = Some (u, w', e) -> same_relays w w'.
Proof.
  intros (-> & _)%relay_waits_Some. apply same_relays_refl.
Qed.

Definition pooled_covered (s : pooled_sys) : Prop :=
  covered (handlers (ps_self s)) (ps_world s) /\
  (ps_running s = false -> pu_clients (ps_self s) = ∅).

Lemma pooled_select_covered self lbl w ctl w' e :
  covered (handlers self) w -> pooled_select self lbl w = Some (ctl, w', e) ->
  covered (handlers (ctl_state ctl)) w'.
Proof.
  intros Hc Hs. destruct lbl as [d addr ans| | |[msg|]|waiting|rid l]; cbn [pooled_select] in Hs;
    try done; inv_task Hs; try done.
  - by eapply on_datagram_covered in Hm.
  - unfold client_recv in Hm. destruct (mpsc_recv _) as [m ch| |]; [|by simplify_eq..].
    simplify_eq. inv_task Hs. eapply on_client_msg_covered; [|exact Hm].
    eapply covered_same; [exact Hc|]. apply same_relays_client.
  - by eapply on_control_covered in Hm.
  - cbn [ctl_state]. eapply covered_same; [exact Hc|]. by eapply same_relays_waits.
Qed.

Lemma pooled_drop_covered self w log :
  covered (handlers self) w -> pooled_covered (pooled_drop self w log).
Proof.
  intros Hc. split; [|done]. change (handlers _) with (pcl_handler <$> (∅ : gmap SocketAddr PooledClient)).
  rewrite fmap_empty.
  apply (covered_drop (handlers self)); [done|]. intros a h (c & Hl & <-)%handlers_lookup. right.
  apply list_elem_of_fmap. exists (a, c). split; [done|]. by apply elem_of_map_to_list.
Qed.

Lemma pooled_step_covered s lbl s' :
  pooled_covered s -> pooled_step s lbl = Some s' -> pooled_covered s'.
Proof.
  intros [Hc Hf] Hs. unfold pooled_covered, pooled_step in *. destruct lbl as [d addr ans| | |m| |rid l].
  6: { destruct (world_step _ _ _ _) as [[w e]|] eqn:Ew; [|done]. simplify_eq. cbn. split; [|done].
       eapply covered_same; [done|]. by eapply same_relays_step. }
  all: destruct (ps_running s); [|done]; destruct (pooled_select _ _ _) as [[[ctl w] e]|] eqn:Esel;
    [|done]; apply pooled_select_covered in Esel; [|done]; destruct ctl as [self|self]; simplify_eq;
    [by split|by apply pooled_drop_covered].
Qed.

(** C8: a pooled endpoint never leaks a relay, whatever mix of datagrams, ended relays, rerouted
    ufrags and deleted sessions it went through: a relay it spawned is aborted unless a current
    client holds it; when the endpoint's task is over every relay it ever spawned is aborted. *)
Theorem pooled_endpoint_leaks_no_relay sock s rid r :
  reachable pooled_step (pooled_init sock) s -> w_relays (ps_world s) !! rid = Some r ->
  rl_aborted r = true \/
  ps_running s = true /\
  exists addr c, pu_clients (ps_self s) !! addr = Some c /\ h_handler (pcl_handler c) = rid.
Proof.
  intros Hr Hl.
  assert (Hc : pooled_covered s).
  { clear Hl. revert s Hr. apply reachable_inv; [|by apply pooled_step_covered].
    split; [apply covered_init|done]. }
  destruct Hc as [Hc Hf]. destruct (Hc _ _ Hl) as [|(addr & h & Hh & <-)]; [by left|right].
  apply handlers_lookup in Hh as (c & Hcl & <-). split; [|eauto].
  destruct (ps_running s); [done|]. by rewrite Hf, lookup_empty in Hcl.
Qed.
End Leaks.
