(* ===== verification/StunTests.v ===== *)
(** * The parser's unit tests (src/proxy/stun.rs, [mod tests])

    The test suite's encoder is [binding_request] of Stun.v; here are its tests, on the model of the
    parser.  That they all pass checks the model against the expectations the authors wrote down. *)

From S2P Require Import Prelude RustInt Stun.
Local Open Scope string_scope.
Local Open Scope list_scope.

(** [packet[i..i + bytes.len()].copy_from_slice(bytes)], and [packet[i] = b] for one byte. *)
Definition overwrite (i : nat) (bytes packet : list byte) : list byte :=
  take i packet ++ bytes ++ drop (i + length bytes) packet.

Definition request_of (username : string) : list byte :=
  binding_request (String.list_byte_of_string username).

(** [assert_eq!(local_ufrag(packet), expected)]. *)
Definition assert_ufrag (packet : list byte) (expected : option string) : bool :=
  match local_ufrag packet with Ret r => bool_decide (r = expected) | Panic => false end.

Definition extracts_local_ufrag_from_binding_request : bool :=
  assert_ufrag (request_of "myUfrag:remote") (Some "myUfrag").

Definition extracts_whole_username_without_colon : bool :=
  assert_ufrag (request_of "myUfrag") (Some "myUfrag").

Definition skips_attributes_preceding_username : bool :=
  let packet := request_of "myUfrag:remote" in
  let extra := [Byte.x00; Byte.x24; Byte.x00; Byte.x05; Byte.x01; Byte.x02; Byte.x03; Byte.x04;
                Byte.x05; Byte.x00; Byte.x00; Byte.x00] in
  let packet := take 20 packet ++ extra ++ drop 20 packet in
  let msg_len := (Z.of_nat (length packet) - 20)%Z in
  assert_ufrag (overwrite 2 (u16_to_be_bytes msg_len) packet) (Some "myUfrag").

Definition reads_ufrag_as_utf8 : bool := assert_ufrag (request_of "ufräg:remote") (Some "ufräg").

Definition rejects_empty_and_short_datagrams : bool :=
  assert_ufrag [] None && assert_ufrag (replicate 19 Byte.x00) None.

Definition rejects_packet_without_magic_cookie : bool :=
  assert_ufrag (overwrite 4 [Byte.x00] (request_of "myUfrag:remote")) None.

Definition rejects_plain_media_payload : bool :=
  assert_ufrag (overwrite 0 [Byte.x80] (replicate 64 Byte.x00)) None.

Definition rejects_non_binding_request : bool :=
  let packet := overwrite 0 [Byte.x01] (request_of "myUfrag:remote") in
  assert_ufrag (overwrite 1 [Byte.x01] packet) None.

Definition rejects_binding_request_without_username : bool :=
  let packet := take 20 (request_of "myUfrag:remote") in
  assert_ufrag (overwrite 2 (u16_to_be_bytes 0) packet) None.

Definition rejects_truncated_attribute_section : bool :=
  let packet := request_of "myUfrag:remote" in
  assert_ufrag (take (length packet - 4) packet) None.

Definition rejects_attribute_overrunning_message : bool :=
  assert_ufrag (overwrite 22 (u16_to_be_bytes 0x0100) (request_of "myUfrag:remote")) None.

Definition rejects_empty_or_invalid_ufrag : bool :=
  assert_ufrag (request_of ":remote") None
  && assert_ufrag (overwrite 24 [Byte.xff] (request_of "ab:remote")) None.

Definition unit_tests : list bool :=
  [extracts_local_ufrag_from_binding_request; extracts_whole_username_without_colon;
   skips_attributes_preceding_username; reads_ufrag_as_utf8; rejects_empty_and_short_datagrams;
   rejects_packet_without_magic_cookie; rejects_plain_media_payload; rejects_non_binding_request;
   rejects_binding_request_without_username; rejects_truncated_attribute_section;
   rejects_attribute_overrunning_message; rejects_empty_or_invalid_ufrag].

(** Every unit test of the parser passes on the model. *)
Theorem unit_tests_pass : forallb id unit_tests = true.
Proof. by vm_compute. Qed.
