(* ===== verification/Timed.v ===== *)
(** * Tasks in time

    Every loop of the program has a branch [sleep(TRAFFIC_WAIT_TIMEOUT)] in its [select!]; the sleep
    starts anew in every round.  The other files let that branch be picked at any round; this one
    adds a clock.  [Timed] turns a system of loops into one in which an idle branch waits for its
    time, and time does not pass beyond the moment an idle branch is due, which is then taken or
    overtaken by another branch.  A timed run is a run, so what the other files prove of runs holds
    for timed ones.  A loop that carries traffic within every timeout is kept ([busy_loop_is_kept]),
    one that makes no round for longer is over ([quiet_run_is_short]). *)

From S2P Require Import Prelude.
Local Open Scope Z_scope.

(** A system of loops: its steps, the loops that are at their [select!], the loop that a step takes
    once round, and whether the step is the branch of the sleep. *)
Class Timers (S L K : Type) : Type := {
  tm_step : S -> L -> option S;
  tm_loops : S -> list K;
  tm_round : S -> L -> option K;
  tm_idle : L -> bool
}.

Section Timed.
Context {S L K : Type} `{EqDecision K} `{Timers S L K} (timeout : Z).

(** [td_since]: when the current round of a loop began. *)
Record timed : Type := mkTimed {
  td_state : S;
  td_now : Z;
  td_since : K -> Z
}.

Inductive timed_label : Type :=
| Elapse (d : Z)
| Act (l : L).

(** The sleep of a loop is over. *)
Definition ripe (t : timed) (k : K) : bool := timeout <=? td_now t - td_since t k.

(** A round begins now for the loop that made one, and for one that was not at its [select!]. *)
Definition restart (t : timed) (l : L) (k : K) : Z :=
  if bool_decide (tm_round (td_state t) l = Some k) || negb (bool_decide (k ∈ tm_loops (td_state t)))
  then td_now t else td_since t k.

Definition timed_step (t : timed) (lbl : timed_label) : option timed :=
  match lbl with
  | Elapse d =>
      if (0 <? d) && forallb (fun k => td_now t + d - td_since t k <=? timeout) (tm_loops (td_state t))
      then Some (mkTimed (td_state t) (td_now t + d) (td_since t)) else None
  | Act l =>
      if match tm_round (td_state t) l with Some k => negb (tm_idle l) || ripe t k | None => true end then
        match tm_step (td_state t) l with
        | Some s => Some (mkTimed s (td_now t) (restart t l))
        | None => None
        end
      else None
  end.

(** The steps of a timed run, and the time it takes. *)
Definition acts (lbls : list timed_label) : list L :=
  omap (fun lbl => match lbl with Act l => Some l | Elapse _ => None end) lbls.

Fixpoint elapsed (lbls : list timed_label) : Z :=
  match lbls with
  | [] => 0
  | Elapse d :: lbls => d + elapsed lbls
  | Act _ :: lbls => elapsed lbls
  end.

(** The system at time 0. *)
Definition timed_init (s : S) : timed := mkTimed s 0 (fun _ => 0).

(** ** Runs *)

(** No loop waits longer than the timeout. *)
Definition timed_ok (t : timed) : Prop :=
  forall k, td_since t k <= td_now t /\ (k ∈ tm_loops (td_state t) -> td_now t - td_since t k <= timeout).

Lemma timed_init_ok s : 0 <= timeout -> timed_ok (timed_init s).
Proof. intros Ht k. cbn. lia. Qed.

Lemma timed_step_ok t lbl t' : 0 <= timeout -> timed_ok t -> timed_step t lbl = Some t' -> timed_ok t'.
Proof.
  intros Ht Hok Hs k. destruct (Hok k) as [Hle Hlt]. destruct lbl as [d|l]; cbn in Hs.
  - destruct (0 <? d) eqn:Ed; [|done]. destruct (forallb _ _) eqn:Ef; [|done]. simplify_eq/=.
    rewrite forallb_forall in Ef. split; [lia|]. intros Hin%list_elem_of_In%Ef. lia.
  - destruct (match tm_round _ l with Some _ => _ | None => _ end); [|done].
    destruct (tm_step _ l) as [s|]; [|done]. simplify_eq/=. unfold restart.
    destruct (bool_decide (tm_round _ l = Some k)); cbn; [lia|]. case_bool_decide; cbn; [|lia].
    split; [done|]. by intros _; apply Hlt.
Qed.

Lemma timed_run_ok lbls t t' :
  0 <= timeout -> timed_ok t -> run timed_step t lbls = Some t' -> timed_ok t'.
Proof.
  intros Ht. revert t. induction lbls as [|lbl lbls IH]; intros t Hok; cbn; [by intros [= <-]|].
  destruct (timed_step t lbl) as [t1|] eqn:E; [|done]. apply IH. by eapply timed_step_ok.
Qed.

(** A timed run is a run. *)
Lemma timed_run_erases lbls t t' :
  run timed_step t lbls = Some t' -> run tm_step (td_state t) (acts lbls) = Some (td_state t').
Proof.
  revert t. induction lbls as [|[d|l] lbls IH]; intros t; cbn; [by intros [= <-]|..].
  - destruct (_ && _); [|done]. apply (IH (mkTimed _ _ _)).
  - destruct (match tm_round _ l with Some _ => _ | None => _ end); [|done].
    destruct (tm_step _ l) as [s|]; [|done]. apply (IH (mkTimed _ _ _)).
Qed.

Lemma timed_run_now lbls t t' : run timed_step t lbls = Some t' -> td_now t' = td_now t + elapsed lbls.
Proof.
  revert t. induction lbls as [|[d|l] lbls IH]; intros t; cbn; [intros [= <-]; lia|..].
  - destruct (_ && _); [|done]. intros Hr%IH. cbn in Hr. lia.
  - destruct (match tm_round _ l with Some _ => _ | None => _ end); [|done].
    destruct (tm_step _ l) as [s|]; [|done]. intros Hr%IH. done.
Qed.

(** ** Loops that are kept busy *)

(** What the run of a loop [k] is for: the steps that carry its traffic, said of what the system did
    and not of rounds, and whether traffic waits for the loop to take note of it. *)
Class Flow : Type := {
  fl_carries : K -> S -> L -> S -> bool;
  fl_due : K -> S -> bool
}.

Section Busy.
Context `{Flow} (k : K).

(** A step that keeps [k] busy: with the time of its last traffic, or of its start.  While [k] is at
    its [select!], time passes neither for as long as the timeout without traffic, nor while traffic
    waits for [k]: handlers take no time. *)
Definition busy_step (b : timed * Z) (lbl : timed_label) : option (timed * Z) :=
  let (t, last) := b in
  let at_select := bool_decide (k ∈ tm_loops (td_state t)) in
  match timed_step t lbl with
  | None => None
  | Some t' =>
      match lbl with
      | Elapse _ =>
          if at_select && (fl_due k (td_state t) || (last + timeout <=? td_now t')) then None
          else Some (t', last)
      | Act l =>
          Some (t', if negb at_select || fl_carries k (td_state t) l (td_state t') then td_now t'
                    else last)
      end
  end.

(** The loop has seen its last traffic, or is about to, and its sleep is not over. *)
Definition busy_ok (b : timed * Z) : Prop :=
  let (t, last) := b in
  k ∈ tm_loops (td_state t) ->
  last <= td_now t < last + timeout /\ td_now t < td_since t k + timeout /\
  (fl_due k (td_state t) = false -> last <= td_since t k).

Context (P : S -> Prop) (Htimeout : 0 < timeout).
Context (Hinv : forall s l s', P s -> tm_step s l = Some s' -> P s').
Context (Hseen : forall s l s', P s -> tm_step s l = Some s' -> k ∈ tm_loops s -> k ∈ tm_loops s' ->
  fl_carries k s l s' = true -> tm_round s l = Some k \/ fl_due k s' = true).
Context (Hwaits : forall s l s', P s -> tm_step s l = Some s' -> k ∈ tm_loops s -> k ∈ tm_loops s' ->
  tm_round s l <> Some k -> fl_due k s = true -> fl_due k s' = true).

Lemma busy_step_ok b lbl b' :
  P (td_state b.1) -> busy_ok b -> busy_step b lbl = Some b' -> P (td_state b'.1) /\ busy_ok b'.
Proof.
  destruct b as [t last]. cbn [fst]. intros HP Hok Hs. destruct lbl as [d|l]; cbn in Hs.
  - destruct ((0 <? d) && _) eqn:Ed; [|done]. destruct (_ && _) eqn:Eb in Hs; [done|]. simplify_eq/=.
    apply andb_true_iff in Ed as [Hd _]. split; [done|]. intros Hk. cbn in *. rewrite bool_decide_eq_true_2 in Eb by done.
    cbn in Eb. apply orb_false_iff in Eb as [Hdue Hlast]. destruct (Hok Hk) as (Hl & _ & Hs).
    specialize (Hs Hdue). split_and!; [lia..|]. by intros _.
  - destruct (match tm_round _ l with Some _ => _ | None => _ end); [|done].
    destruct (tm_step _ l) as [s|] eqn:Es; [|done]. simplify_eq/=. split; [by eapply Hinv|].
    intros Hk. cbn in *. unfold restart. case_bool_decide as Hat; cbn; [|rewrite orb_true_r; cbn; lia].
    rewrite orb_false_r. destruct (Hok Hat) as (Hl & Hs & Hd).
    pose proof (Hseen _ _ _ HP Es Hat Hk) as Hsee. pose proof (Hwaits _ _ _ HP Es Hat Hk) as Hw.
    case_bool_decide as Hround; [destruct (fl_carries _ _ _ _); lia|].
    destruct (fl_carries _ _ _ _); (split_and!; [lia..|]); intros Hdue.
    + destruct (Hsee eq_refl); congruence.
    + apply Hd. destruct (fl_due k (td_state t)); [|done]. specialize (Hw Hround eq_refl). congruence.
Qed.

(** A loop that is kept busy does not take the branch of its sleep. *)
Lemma busy_loop_is_kept b lbls b' l :
  P (td_state b.1) -> busy_ok b -> run busy_step b lbls = Some b' ->
  k ∈ tm_loops (td_state b'.1) -> tm_round (td_state b'.1) l = Some k -> tm_idle l = true ->
  timed_step b'.1 (Act l) = None.
Proof.
  intros HP Hok Hr Hk Hround Hidle.
  assert (busy_ok b') as Hok'.
  { revert b HP Hok Hr. induction lbls as [|lbl lbls IH]; intros b HP Hok; cbn [run]; [by intros [= <-]|].
    destruct (busy_step b lbl) as [b1|] eqn:E; [|done].
    destruct (busy_step_ok _ _ _ HP Hok E) as [HP1 Hok1]. by apply IH. }
  destruct b' as [t last]. cbn in *. rewrite Hround, Hidle. cbn. unfold ripe.
  destruct (timeout <=? td_now t - td_since t k) eqn:E; [|done]. destruct (Hok' Hk) as (_ & Hlt & _). lia.
Qed.
End Busy.

(** ** Loops without a round *)

(** A step that is not a round of [k], unless it is the branch of its sleep. *)
Definition quiet_step (k : K) (t : timed) (lbl : timed_label) : option timed :=
  match lbl with
  | Act l => if bool_decide (tm_round (td_state t) l = Some k) && negb (tm_idle l) then None else timed_step t lbl
  | Elapse _ => timed_step t lbl
  end.

Lemma quiet_step_timed k t lbl t' : quiet_step k t lbl = Some t' -> timed_step t lbl = Some t'.
Proof. destruct lbl; cbn [quiet_step]; [done|]. by destruct (_ && _). Qed.

Lemma quiet_run_timed k lbls t t' : run (quiet_step k) t lbls = Some t' -> run timed_step t lbls = Some t'.
Proof.
  revert t. induction lbls as [|lbl lbls IH]; intros t; cbn [run]; [done|].
  destruct (quiet_step k t lbl) as [t1|] eqn:E; [|done]. apply quiet_step_timed in E as ->. apply IH.
Qed.

(** A loop that is still at its [select!] after a run with no round of it but the sleep's waited
    through the whole run, so the run was no longer than the timeout.  [P] says that [k] was started,
    and so is not started again; the branch of its sleep ends it. *)
Lemma quiet_run_is_short (P : S -> Prop) k t0 lbls t :
  (forall s l s', P s -> tm_step s l = Some s' -> P s' /\ (k ∈ tm_loops s' -> k ∈ tm_loops s)) ->
  (forall s l s', tm_step s l = Some s' -> tm_round s l = Some k -> tm_idle l = true ->
     k ∉ tm_loops s') ->
  0 <= timeout -> timed_ok t0 -> P (td_state t0) -> run (quiet_step k) t0 lbls = Some t ->
  k ∈ tm_loops (td_state t) -> elapsed lbls <= timeout.
Proof.
  intros Hstay Hend Ht Hok HP Hr Hk.
  assert (k ∈ tm_loops (td_state t0) /\ td_since t k = td_since t0 k) as [Hk0 Heq].
  { clear Hok. revert t0 HP Hr. induction lbls as [|lbl lbls IH]; intros t0 HP; cbn [run].
    { by intros [= <-]. }
    destruct (quiet_step k t0 lbl) as [t1|] eqn:E; [|done]. intros Hr. destruct lbl as [d|l].
    - cbn in E. destruct (_ && _); [|done]. simplify_eq. by apply (IH (mkTimed (td_state t0) (td_now t0 + d) (td_since t0))).
    - cbn [quiet_step] in E. destruct (_ && _) eqn:Hq; [done|]. cbn in E.
      destruct (match tm_round _ l with Some _ => _ | None => _ end); [|done].
      destruct (tm_step _ l) as [s|] eqn:Es; [|done]. simplify_eq.
      destruct (Hstay _ _ _ HP Es) as [HP' Hback].
      destruct (IH (mkTimed s (td_now t0) (restart t0 l)) HP' Hr) as [Hk1 Hs]. cbn in Hk1, Hs.
      split; [by apply Hback|]. rewrite Hs. unfold restart.
      rewrite (bool_decide_eq_true_2 (k ∈ _)), orb_false_r by auto. case_bool_decide as Hround; [|done].
      destruct (tm_idle l) eqn:Hi; [|done]. by eapply Hend in Es. }
  apply quiet_run_timed in Hr. pose proof (timed_run_now _ _ _ Hr) as Hnow.
  destruct (timed_run_ok _ _ _ Ht Hok Hr k) as [_ Hw], (Hok k) as [Hle _]. specialize (Hw Hk). lia.
Qed.

(** Time passes until some sleep is over. *)
Lemma time_passes t :
  timed_ok t ->
  is_Some (timed_step t (Elapse 1)) \/ exists k, k ∈ tm_loops (td_state t) /\ ripe t k = true.
Proof.
  intros Hok. cbn. destruct (forallb _ _) eqn:Ef; [left; eauto|right].
  apply not_true_iff_false in Ef. rewrite forallb_forall in Ef.
  destruct (decide (Exists (fun k => ripe t k = true) (tm_loops (td_state t)))) as [Hex|Hno].
  - apply Exists_exists in Hex as (k & Hin & Hr). eauto.
  - exfalso. apply Ef. intros k Hin%list_elem_of_In.
    assert (Hr : ripe t k <> true) by (intros Hr; apply Hno, Exists_exists; eauto).
    unfold ripe in Hr. lia.
Qed.
End Timed.

Arguments Flow : clear implicits.
Arguments timed : clear implicits.
Arguments timed_label : clear implicits.
