(* ===== verification/RelayTimers.v ===== *)
(** * The idle timeouts of UDP relays (src/proxy/udp_client.rs: [ProxyClient::run])

    Which relays wait at their [select!], that nothing an owner does sends a relay back there, and
    that only its own rounds take what its control channel holds. *)

From S2P Require Import Prelude RustInt Stun Types Chan UdpClient UdpPooled.

Create HintDb steady.

Section RelayTimers.
Context `{MpscLaws}.

(** The relays that are in their loops. *)
Definition looping (w : world) : list nat :=
  omap (fun kv : nat * relay => match rl_status kv.2 with Looping => Some kv.1 | _ => None end)
    (map_to_list (w_relays w)).

Lemma looping_elem w rid :
  rid ∈ looping w <-> exists r, w_relays w !! rid = Some r /\ rl_status r = Looping.
Proof.
  unfold looping. rewrite list_elem_of_omap. split.
  - intros ([k r] & Hin%elem_of_map_to_list & Hs). cbn in Hs.
    destruct (rl_status r) eqn:E; simplify_eq. eauto.
  - intros (r & Hl & Hs). exists (rid, r). rewrite elem_of_map_to_list. cbn. by rewrite Hs.
Qed.

(** A round of a relay's loop, and whether it takes the branch of the sleep. *)
Definition relay_round (lbl : relay_label) : bool :=
  match lbl with RlSelect _ => true | _ => false end.

Definition relay_idle (lbl : relay_label) : bool :=
  match lbl with RlSelect RelayIdle => true | _ => false end.

(** A sleep that is over can be taken. *)
Lemma idle_relay_step alive w rid :
  rid ∈ looping w -> is_Some (world_step alive w rid (RlSelect RelayIdle)).
Proof.
  intros (r & Hl & Hs)%looping_elem. unfold world_step, relay_step. rewrite Hl, Hs. cbn. eauto.
Qed.

(** ... and it ends the loop. *)
Lemma idle_relay_leaves alive w rid lbl w' e :
  world_step alive w rid lbl = Some (w', e) -> relay_idle lbl = true -> rid ∉ looping w'.
Proof.
  unfold world_step, relay_step. intros Hs Hi. destruct lbl as [[]| |]; try done.
  destruct (w_relays w !! rid) as [r|]; [|done]. destruct (rl_status r); [|done..]. cbn in Hs. simplify_eq.
  rewrite looping_elem. cbn. intros (r1 & Hl & Hst). rewrite lookup_insert_eq in Hl. by simplify_eq.
Qed.

(** ** Relays are not restarted *)

(** A message of its control channel waits for a relay. *)
Definition pending (w : world) (rid : nat) : bool :=
  match w_relays w !! rid with
  | Some r => bool_decide (chan_contents (pc_control (rl_client r)) <> [])
  | None => false
  end.

(** A relay that was spawned stays so, and is in its loop only if it was; what waits for it still
    does. *)
Definition steady (rid : nat) (w w' : world) : Prop :=
  (rid < w_next w)%nat ->
  (rid < w_next w')%nat /\
  (rid ∈ looping w' -> rid ∈ looping w /\ (pending w rid = true -> pending w' rid = true)).

#[export] Instance steady_preorder rid : PreOrder (steady rid).
Proof.
  split; [by intros w|]. intros w1 w2 w3 H12 H23 Hs.
  destruct (H12 Hs) as [Hs2 H1], (H23 Hs2) as [Hs3 H2]. split; [done|].
  intros [Hl Hp2]%H2. destruct (H1 Hl) as [? ?]. auto.
Qed.

Definition task_steady (rid : nat) {A} (m : task A) : Prop :=
  forall w a w' e, m w = Some (a, w', e) -> steady rid w w'.

(** [r'] is no more in its loop than [r], and no message of its channel is lost. *)
Definition relay_steady (r r' : relay) : Prop :=
  rl_status r' = Looping -> rl_status r = Looping /\
  (chan_contents (pc_control (rl_client r)) <> [] -> chan_contents (pc_control (rl_client r')) <> []).

Lemma steady_set_relay rid k r r' w ch :
  w_relays w !! k = Some r -> (k = rid -> relay_steady r r') -> (rl_status r' = Looping -> rl_status r = Looping) ->
  steady rid w (set_client ch (set_relay k r' w)).
Proof.
  intros Hk Hrs Hst Hs. split; [done|]. rewrite !looping_elem. unfold pending. cbn.
  destruct (decide (k = rid)) as [->|Hne].
  - rewrite lookup_insert_eq, Hk, !bool_decide_eq_true. intros (r1 & [= <-] & Hlp).
    destruct (Hrs eq_refl Hlp) as [? ?]. eauto.
  - rewrite lookup_insert_ne by done. eauto.
Qed.

Lemma steady_client rid w ch : steady rid w (set_client ch w).
Proof. by intros Hs. Qed.

Lemma steady_abort rid k w : steady rid w (abort_relay k w).
Proof.
  unfold abort_relay. destruct (w_relays w !! k) as [r|] eqn:E; [|done].
  by apply (steady_set_relay rid k r _ w (w_client w)); [|intros _ ?|].
Qed.

Lemma steady_drop_handlers rid hs w : steady rid w (drop_handlers hs w).
Proof.
  induction hs as [|h hs IH]; cbn; [done|]. etransitivity; [exact IH|]. apply steady_abort.
Qed.

Lemma relay_step_status r lbl tx r' tx' e :
  relay_step r lbl tx = Some (r', tx', e) -> rl_status r' = Looping -> rl_status r = Looping.
Proof. unfold relay_step. intros Hs. by repeat case_match; simplify_eq/=. Qed.

(** Only a round of a relay's own takes a message off its channel. *)
Lemma steady_relay_step rid alive w k lbl w' e :
  world_step alive w k lbl = Some (w', e) -> k <> rid \/ relay_round lbl = false -> steady rid w w'.
Proof.
  unfold world_step. destruct (w_relays w !! k) as [r|] eqn:Er; [|done].
  destruct (relay_step r lbl _) as [[[r' ch] e']|] eqn:Es; [|done]. intros [= <- _] Hk.
  apply (steady_set_relay _ _ r); [done| |by eapply relay_step_status].
  intros ->. destruct Hk as [|Hl]; [done|]. intros Hlp. exfalso. unfold relay_step in Es.
  by destruct lbl; repeat case_match; simplify_eq/=.
Qed.

(** A round does not start a relay either. *)
Lemma started_relay_step rid alive w k lbl w' e :
  world_step alive w k lbl = Some (w', e) -> (rid < w_next w)%nat ->
  (rid < w_next w')%nat /\ (rid ∈ looping w' -> rid ∈ looping w).
Proof.
  unfold world_step. destruct (w_relays w !! k) as [r|] eqn:Er; [|done].
  destruct (relay_step r lbl _) as [[[r' ch] e']|] eqn:Es; [|done]. intros [= <- _] Hrid.
  split; [done|]. rewrite !looping_elem. cbn. intros (r1 & Hl & Hlp).
  rewrite lookup_insert in Hl. case_decide; simplify_eq; [|by eauto].
  exists r. split; [done|]. by eapply relay_step_status.
Qed.

Section Tasks.
Context (rid : nat).

Lemma steady_ret {A} (a : A) : task_steady rid (task_ret a).
Proof. intros w b w' e Hm. by inv_task Hm. Qed.

Lemma steady_bind {A B} (m : task A) (k : A -> task B) :
  task_steady rid m -> (forall a, task_steady rid (k a)) -> task_steady rid (task_bind m k).
Proof.
  intros Hm Hk w b w2 e (a & w1 & e1 & e2 & H1 & H2 & _)%task_bind_Some. etransitivity; [by eapply Hm|].
  by eapply Hk.
Qed.

Lemma steady_emit ef : task_steady rid (emit ef).
Proof. intros w b w' e Hm. by inv_task Hm. Qed.

Lemma steady_stuck {A} : task_steady rid (fun _ : world => None : option (A * world * list effect)).
Proof. by intros w a w' e Hm. Qed.

Lemma steady_drop h : task_steady rid (modify (handler_drop h)).
Proof. intros w b w' e Hm. inv_task Hm. apply steady_abort. Qed.

Lemma steady_drops hs : task_steady rid (modify (drop_handlers hs)).
Proof. intros w b w' e Hm. inv_task Hm. apply steady_drop_handlers. Qed.

Lemma steady_client_recv : task_steady rid client_recv.
Proof.
  intros w a w' e Hm. unfold client_recv in Hm.
  destruct (mpsc_recv _); simplify_eq; [apply steady_client|done].
Qed.

Lemma steady_control_send k msg : task_steady rid (control_send k msg).
Proof.
  intros w a w' e Hm. unfold control_send in Hm. destruct (w_relays w !! k) as [r|] eqn:E; [|by simplify_eq].
  destruct (mpsc_send _ _) as [ch| |] eqn:Es; simplify_eq; [|done].
  apply send_Sent in Es as (_ & Hq & _).
  apply (steady_set_relay rid k r _ w (w_client w)); [done| |done]. intros _ Hlp. split; [done|].
  cbn. rewrite Hq. by intros _ [_ ?]%app_nil.
Qed.

Lemma steady_spawn c : task_steady rid (spawn_relay c).
Proof.
  intros w a w' e Hm. unfold spawn_relay in Hm. simplify_eq. intros Hs. cbn. split; [lia|].
  rewrite !looping_elem. unfold pending. cbn. rewrite lookup_insert_ne by lia. eauto.
Qed.

Lemma steady_effects effs : task_steady rid (fun w => Some (tt, w, effs)).
Proof. intros w a w' e Hm. by simplify_eq. Qed.
End Tasks.

#[local] Hint Resolve steady_ret steady_emit steady_stuck steady_drop steady_drops steady_client_recv
  steady_control_send steady_spawn steady_effects : steady.

(** Follows the structure of a task. *)
Ltac steady_task :=
  repeat first [ solve [auto with steady]
               | apply steady_bind; [|intros ?]
               | progress intros
               | case_match ].

Lemma steady_ProxyClient_send rid sent sk data k : task_steady rid (ProxyClient_send sent sk data k).
Proof. unfold ProxyClient_send. steady_task. Qed.

Lemma steady_allocate rid remote addr sk ans : task_steady rid (allocate_handler remote addr sk ans).
Proof. unfold allocate_handler, ProxyClient_new. steady_task. Qed.

#[local] Hint Resolve steady_ProxyClient_send steady_allocate : steady.

(** The pooled endpoint. *)

Lemma steady_on_control rid self msg : task_steady rid (on_control self msg).
Proof. unfold on_control, forget_ufrag_if_unused, drop_clients. destruct msg; steady_task. Qed.

Lemma steady_route_afresh rid self data addr ans : task_steady rid (route_afresh self data addr ans).
Proof. unfold route_afresh, pooled_insert_client. steady_task. Qed.

Lemma steady_remove rid self addr : task_steady rid (pooled_remove_client self addr).
Proof. unfold pooled_remove_client. steady_task. Qed.

#[local] Hint Resolve steady_on_control steady_route_afresh steady_remove : steady.

Lemma steady_on_datagram rid self data addr ans : task_steady rid (on_datagram self data addr ans).
Proof. unfold on_datagram. steady_task. Qed.

Lemma steady_on_client_msg rid self msg : task_steady rid (on_client_msg self msg).
Proof.
  unfold on_client_msg. destruct msg; [|steady_task..]. intros w a w' e Hm.
  destruct (pu_clients self !! addr); [destruct (sender_is_closed _ _)|]; [by eapply steady_remove|by inv_task Hm..].
Qed.

Lemma steady_pooled_waits rid self waiting : task_steady rid (pooled_waits self waiting).
Proof. by intros w u w' e (-> & _)%relay_waits_Some. Qed.

#[local] Hint Resolve steady_on_datagram steady_on_client_msg steady_pooled_waits : steady.

Lemma steady_pooled_select rid self lbl : task_steady rid (pooled_select self lbl).
Proof. unfold pooled_select. destruct lbl; steady_task. Qed.

(** What a step of the pooled endpoint and its relays does that is no round of [rid]. *)
Lemma pooled_step_steady rid s lbl s' :
  pooled_step s lbl = Some s' ->
  match lbl with LRelay k l => k <> rid \/ relay_round l = false | _ => True end ->
  steady rid (ps_world s) (ps_world s').
Proof.
  intros Hs Hl. unfold pooled_step in Hs. destruct lbl as [d addr ans| | |m| |k l].
  6: { destruct (world_step _ _ _ _) as [[w e]|] eqn:E; [|done]. simplify_eq. by eapply steady_relay_step. }
  all: destruct (ps_running s); [|done]; destruct (pooled_select _ _ _) as [[[[self|self] w] e]|] eqn:E;
    [| |done]; apply (steady_pooled_select rid) in E; simplify_eq; [done|];
    etransitivity; [exact E|]; apply steady_drop_handlers.
Qed.

Lemma pooled_step_started rid s lbl s' :
  pooled_step s lbl = Some s' -> (rid < w_next (ps_world s))%nat ->
  (rid < w_next (ps_world s'))%nat /\ (rid ∈ looping (ps_world s') -> rid ∈ looping (ps_world s)).
Proof.
  intros Hs Hrid. destruct lbl as [d addr ans| | |m| |k l].
  6: { cbn in Hs. destruct (world_step _ _ _ _) as [[w e]|] eqn:E; [|done]. simplify_eq.
       by eapply started_relay_step. }
  all: destruct (pooled_step_steady rid _ _ _ Hs I Hrid) as [Hlt Hst]; (split; [exact Hlt|]);
    intros Hlp; exact (proj1 (Hst Hlp)).
Qed.
End RelayTimers.
