(* ===== verification/EndpointTimers.v ===== *)
(** * The idle timeouts of a per-session endpoint (src/proxy/udp_client.rs)

    The sleeps of [ProxyEndpoint::run] and of its relays' [ProxyClient::run] as a timed system: how
    soon an endpoint that no one uses is gone. *)

From Stdlib Require Import ZifyBool.
From S2P Require Import Prelude RustInt Types Chan UdpClient RelayInv UdpClientProps Timed RelayTimers.
Local Open Scope Z_scope.

Section EndpointTimers.
Context `{Mpsc}.

(** The loops: [None] is the endpoint's, [Some rid] that of a relay. *)
Definition ep_loops (s : ep_sys) : list (option nat) :=
  match es_phase s with EpLooping => [None] | _ => [] end ++ map Some (looping (es_world s)).

Definition ep_round (lbl : ep_label) : option (option nat) :=
  match lbl with
  | EsSelect _ => Some None
  | EsRelay rid l => if relay_round l then Some (Some rid) else None
  | _ => None
  end.

(** The branches [_ = sleep(Duration::from_secs(timeout))]. *)
Definition ep_idle (lbl : ep_label) : bool :=
  match lbl with
  | EsSelect EpIdle => true
  | EsRelay _ l => relay_idle l
  | _ => false
  end.

#[export] Instance ep_timers : Timers ep_sys ep_label (option nat) := {|
  tm_step := ep_step;
  tm_loops := ep_loops;
  tm_round := fun _ => ep_round;
  tm_idle := ep_idle
|}.

Definition ep_timed : Type := timed ep_sys (option nat).

Definition ep_clock (udp_socket : UdpSocket) (endpoint : Endpoint) (remote_addr : SocketAddr) : ep_timed :=
  timed_init (ep_init udp_socket endpoint remote_addr).

Lemma ep_loops_elem s k :
  k ∈ ep_loops s <->
  match k with
  | None => es_phase s = EpLooping
  | Some rid => exists r, w_relays (es_world s) !! rid = Some r /\ rl_status r = Looping
  end.
Proof.
  unfold ep_loops. rewrite elem_of_app, list_elem_of_fmap. destruct k as [rid|].
  - rewrite <- looping_elem. split.
    + intros [Hin|(x & [= ->] & Hx)]; [by destruct (es_phase s); set_solver|done].
    + intros Hx. right. eauto.
  - split; [|intros ->; left; set_solver].
    intros [Hin|(x & [=] & _)]. by destruct (es_phase s); set_solver.
Qed.

(** A sleep that is over can be taken. *)
Lemma ripe_fires timeout (t : ep_timed) k :
  k ∈ ep_loops (td_state t) -> ripe timeout t k = true ->
  exists lbl t', ep_round lbl = Some k /\ ep_idle lbl = true /\ timed_step timeout t (Act lbl) = Some t'.
Proof.
  rewrite ep_loops_elem. intros Hk Hr. destruct k as [rid|].
  - destruct Hk as (r & Hl & Hs).
    exists (EsRelay rid (RlSelect RelayIdle)). eexists. split; [done|]. split; [done|].
    cbn. rewrite Hr. unfold world_step. rewrite Hl. unfold relay_step. rewrite Hs. cbn. done.
  - exists (EsSelect EpIdle). eexists. split; [done|]. split; [done|]. cbn. rewrite Hr, Hk. cbn. done.
Qed.

(** ** Endpoints no one uses *)

Context `{!MpscLaws}.

(** A label without a client's datagram. *)
Definition silent (lbl : ep_label) : bool :=
  match lbl with EsSelect (EpRecv _ _ _) => false | _ => true end.

Definition unfinished (r : relay) : bool := match rl_status r with Finished => false | _ => true end.

(** The relays that may still report, and the reports queued. *)
Definition reports (w : world) : nat :=
  (size (retain unfinished (w_relays w)) + length (chan_contents (w_client w)))%nat.

Lemma size_retain_fresh {V} (p : V -> bool) (m : gmap nat V) k v :
  m !! k = None -> size (retain p (<[k := v]> m)) = (size (retain p m) + if p v then 1 else 0)%nat.
Proof.
  intros Hk. unfold retain. destruct (p v) eqn:E.
  - rewrite map_filter_insert_True by done. rewrite map_size_insert_None; [lia|].
    rewrite map_lookup_filter_None. left. done.
  - rewrite map_filter_insert_not' by (cbn; intros; congruence). lia.
Qed.

Lemma size_retain_update {V} (p : V -> bool) (m : gmap nat V) k v v' :
  m !! k = Some v ->
  (size (retain p (<[k := v']> m)) + (if p v then 1 else 0)
   = size (retain p m) + (if p v' then 1 else 0))%nat.
Proof.
  intros Hk. rewrite <- (insert_delete_id m k v Hk) at 2. rewrite <- insert_delete_eq.
  rewrite !size_retain_fresh by apply lookup_delete_eq. lia.
Qed.

Lemma abort_reports rid w : reports (abort_relay rid w) = reports w.
Proof.
  unfold reports. rewrite abort_relay_client. unfold abort_relay.
  destruct (w_relays w !! rid) as [r|] eqn:E; [|done]. cbn. f_equal.
  pose proof (size_retain_update unfinished _ _ _ (mkRelay (rl_client r) (rl_status r) true) E) as Hs.
  unfold unfinished in Hs at 2 4. cbn in Hs. destruct (rl_status r); lia.
Qed.

Lemma remove_client_reports self addr w self' w' e :
  remove_client self addr w = Some (self', w', e) -> reports w' = reports w.
Proof.
  unfold remove_client. intros Hm. destruct (pe_clients self !! addr) as [h|]; inv_task Hm; [|done].
  apply abort_reports.
Qed.

Lemma world_step_reports alive w rid lbl w' effs :
  world_step alive w rid lbl = Some (w', effs) -> (reports w' <= reports w)%nat.
Proof.
  intros Hs. unfold world_step in Hs. destruct (w_relays w !! rid) as [r|] eqn:El; [|done].
  destruct (relay_step r lbl _) as [[[r' ch] e]|] eqn:Er; [|done]. simplify_eq.
  unfold reports. cbn. pose proof (size_retain_update unfinished _ _ _ r' El) as Hsize.
  unfold relay_step in Er.
  assert (Hcase : (unfinished r' = unfinished r /\ ch = if alive then w_client w else mpsc_close (w_client w))
    \/ (unfinished r = true /\ unfinished r' = false /\
        (length (chan_contents ch) <= S (length (chan_contents
           (if alive then w_client w else mpsc_close (w_client w)))))%nat)).
  { unfold unfinished. destruct lbl as [ev| |], (rl_status r) eqn:Est; try done.
    - left. destruct (relay_select _ _) as [[[c|c] e']|]; [| |done]; by simplify_eq.
    - right. destruct (mpsc_send _ _) as [q| |] eqn:Eq; [| |done]; simplify_eq.
      + apply send_Sent in Eq as (_ & Hq & _). split_and!; [done..|]. rewrite Hq, length_app. cbn. lia.
      + split_and!; [done..|lia].
    - right. destruct (rl_aborted r); [|done]. simplify_eq. split_and!; [done..|lia].
    - right. destruct (rl_aborted r); [|done]. simplify_eq. split_and!; [done..|lia]. }
  destruct Hcase as [[Hu ->]|(Hu & Hu' & Hlen)].
  - rewrite Hu in Hsize. destruct alive; lia.
  - rewrite Hu, Hu' in Hsize. destruct alive; [|rewrite close_contents in Hlen]; lia.
Qed.

(** A silent step uses up a report when it is a round that keeps the endpoint looping. *)
Lemma silent_step_reports s lbl s' :
  silent lbl = true -> ep_step s lbl = Some s' -> es_phase s' = EpLooping ->
  es_phase s = EpLooping /\
  (reports (es_world s') + (if bool_decide (ep_round lbl = Some None) then 1 else 0)
   <= reports (es_world s))%nat.
Proof.
  intros Hsil Hs Hph. destruct lbl as [ev|sent|waiting|rid l]; cbn in Hs.
  - rewrite bool_decide_eq_true_2 by done. destruct (es_phase s); [|done..]. split; [done|].
    destruct ev as [| |]; [done| |by cbn in Hs; simplify_eq].
    destruct (endpoint_select _ _ _) as [[[[self|self] w] effs]|] eqn:Esel; [|by simplify_eq|done].
    simplify_eq.
    cbn [endpoint_select] in Esel. inv_task Esel. destruct a as [m|]; [|by inv_task Esel].
    unfold client_recv in Hm. destruct (mpsc_recv _) as [m' ch| |] eqn:Er; [|done..]. simplify_eq.
    apply recv_Received in Er as (Hq & _). destruct m as [addr| |]; [|by inv_task Esel..].
    inv_task Esel. apply remove_client_reports in Hm. cbn. rewrite Hm. unfold reports. cbn.
    rewrite Hq. cbn. lia.
  - destruct (es_phase s); by simplify_eq.
  - destruct (es_phase s); [|by destruct waiting; simplify_eq|done].
    destruct (endpoint_waits _ _ _) as [[[u w] effs]|]; by simplify_eq.
  - destruct (world_step _ _ rid l) as [[w effs]|] eqn:Ew; [|done]. simplify_eq/=. split; [done|].
    apply world_step_reports in Ew. rewrite bool_decide_eq_false_2; [lia|]. by destruct l.
Qed.

Lemma silent_run_since timeout (t0 t : ep_timed) lbls :
  0 <= timeout -> timed_ok timeout t0 -> run (timed_step timeout) t0 lbls = Some t ->
  forallb silent (acts lbls) = true -> es_phase (td_state t) = EpLooping ->
  es_phase (td_state t0) = EpLooping /\
  (reports (es_world (td_state t)) <= reports (es_world (td_state t0)))%nat /\
  td_since t None <= td_since t0 None + timeout *
    (Z.of_nat (reports (es_world (td_state t0))) - Z.of_nat (reports (es_world (td_state t)))).
Proof.
  intros Ht. revert t0. induction lbls as [|lbl lbls IH]; intros t0 Hok; cbn [run].
  { intros [= <-] _ Hph. split_and!; [done|done|]. lia. }
  destruct (timed_step timeout t0 lbl) as [t1|] eqn:E; [|done]. intros Hr Hsil Hph.
  pose proof (timed_step_ok _ _ _ _ Ht Hok E) as Hok1. destruct lbl as [d|l]; cbn in E, Hsil.
  - destruct (_ && _); [|done]. simplify_eq. by destruct (IH _ Hok1 Hr Hsil Hph) as (? & ? & ?).
  - apply andb_true_iff in Hsil as [Hl Hsil]. destruct (IH _ Hok1 Hr Hsil Hph) as (Hph1 & Hle & Hs).
    destruct (match ep_round l with Some _ => _ | None => _ end); [|done].
    destruct (ep_step (td_state t0) l) as [s|] eqn:Es; [|done]. simplify_eq/=.
    destruct (silent_step_reports _ _ _ Hl Es Hph1) as [Hph0 Hrep].
    split; [done|]. destruct (Hok None) as [Hn0 Hn1]. cbn in Hn1.
    unfold restart in Hs. cbn in Hs. case_bool_decide as Hround; cbn in Hs.
    + split; [lia|]. rewrite ep_loops_elem in Hn1. specialize (Hn1 Hph0). nia.
    + rewrite bool_decide_eq_true_2 in Hs by by apply ep_loops_elem. cbn in Hs. split; [lia|]. nia.
Qed.

(** C28: an endpoint that gets no datagram any more is past its loop within the timeout, and once more
    the timeout for each relay that may still report its end; and there is always a next step that
    time takes: it passes, or a sleep that is over ends. *)
Theorem silent_endpoint_ends timeout (t0 t : ep_timed) lbls :
  0 <= timeout -> timed_ok timeout t0 -> run (timed_step timeout) t0 lbls = Some t ->
  forallb silent (acts lbls) = true ->
  timeout * (1 + Z.of_nat (reports (es_world (td_state t0)))) < elapsed lbls ->
  es_phase (td_state t) <> EpLooping /\
  (is_Some (timed_step timeout t (Elapse 1)) \/
   exists lbl t', ep_idle lbl = true /\ timed_step timeout t (Act lbl) = Some t').
Proof.
  intros Ht Hok Hr Hsil Hlong. pose proof (timed_run_ok _ _ _ _ Ht Hok Hr) as Hok1. split.
  - intros Hph. destruct (silent_run_since _ _ _ _ Ht Hok Hr Hsil Hph) as (_ & Hle & Hs).
    destruct (Hok None) as [Hn0 _], (Hok1 None) as [_ Hn1]. cbn in Hn1. rewrite ep_loops_elem in Hn1.
    specialize (Hn1 Hph). pose proof (timed_run_now _ _ _ _ Hr). nia.
  - destruct (time_passes timeout t Hok1) as [|(k & Hk & Hripe)]; [by left|right].
    destruct (ripe_fires _ _ _ Hk Hripe) as (lbl & t' & _ & Hi & Hs). eauto.
Qed.
End EndpointTimers.
