(* ===== verification/PooledTimers.v ===== *)
(** * The idle timeouts of pooled flows (src/proxy/udp_pooled.rs)

    A pooled endpoint has no timeout of its own: a flow lasts as long as its relay, whose sleep
    starts anew with every round: with a datagram of its target, and with the message that
    [ProxyClient::send] leaves in its control channel for a datagram of its client. *)

From Stdlib Require Import ZifyBool.
From S2P Require Import Prelude RustInt Stun Types Chan UdpClient RelayInv UdpPooled PooledInv Timed RelayTimers.
Local Open Scope Z_scope.

Section PooledTimers.
Context `{MpscLaws}.

Definition pooled_round (lbl : pooled_label) : option nat :=
  match lbl with
  | LRelay rid l => if relay_round l then Some rid else None
  | _ => None
  end.

Definition pooled_idle (lbl : pooled_label) : bool :=
  match lbl with LRelay _ l => relay_idle l | _ => false end.

#[export] Instance pooled_timers : Timers pooled_sys pooled_label nat := {|
  tm_step := pooled_step;
  tm_loops := fun s => looping (ps_world s);
  tm_round := fun _ => pooled_round;
  tm_idle := pooled_idle
|}.

Definition pooled_clock (sock : UdpSocket) : timed pooled_sys nat := timed_init (pooled_init sock).

Lemma pooled_ripe_fires timeout (t : timed pooled_sys nat) rid :
  rid ∈ looping (ps_world (td_state t)) -> ripe timeout t rid = true ->
  is_Some (timed_step timeout t (Act (LRelay rid (RlSelect RelayIdle)))).
Proof.
  intros Hin Hr. cbn. rewrite Hr. destruct (idle_relay_step (ps_running (td_state t)) _ _ Hin) as [[w e] ->].
  eauto.
Qed.

(** ** Flows that carry traffic *)

(** A step that carries traffic of the flow of relay [rid]: a datagram of its client that reaches its
    socket, or one of its target that reaches its client. *)
Definition pooled_carries (rid : nat) (s : pooled_sys) (lbl : pooled_label) : bool :=
  match lbl with
  | LDatagram _ addr ans =>
      match pu_clients (ps_self s) !! addr, da_sent ans with
      | Some c, Ok _ => bool_decide (h_sender (pcl_handler c) = rid)
      | _, _ => false
      end
  | LRelay k (RlSelect (RelayRecv (Ok _) (Ok _))) => bool_decide (k = rid)
  | _ => false
  end.

#[export] Instance pooled_flow : Flow pooled_sys pooled_label nat := {|
  fl_carries := fun rid s lbl _ => pooled_carries rid s lbl;
  fl_due := fun rid s => pending (ps_world s) rid
|}.

(** The relay of a client is told of the datagram that was sent to its target. *)
Lemma control_send_waits rid w a w' e :
  world_ok w -> rid ∈ looping w -> control_send rid DataSent w = Some (a, w', e) ->
  a = Ok tt /\ pending w' rid = true.
Proof.
  intros Hw (r & Hl & Hst)%looping_elem Hc. unfold control_send in Hc. rewrite Hl in Hc.
  destruct (mpsc_send _ _) as [ch| |] eqn:Es; simplify_eq.
  - split; [done|]. unfold pending. cbn. rewrite lookup_insert_eq. cbn.
    apply send_Sent in Es as (_ & -> & _). apply bool_decide_eq_true. by intros [_ ?]%app_nil.
  - apply send_SendClosed in Es. destruct Hw as [Hw _]. by apply (Hw _ _ Hl) in Es.
Qed.

Lemma on_datagram_waits self data addr ans w self' w' e c :
  world_ok w -> pu_clients self !! addr = Some c -> da_sent ans = Ok tt ->
  h_sender (pcl_handler c) ∈ looping w -> on_datagram self data addr ans w = Some (self', w', e) ->
  pending w' (h_sender (pcl_handler c)) = true.
Proof.
  intros Hw Hl Hsent Hin Hs. unfold on_datagram, ProxyClient_send in Hs. rewrite Hl, Hsent in Hs.
  inv_task Hs. apply control_send_waits in Hm as [-> Hp]; [|done..]. by inv_task Hs.
Qed.

Lemma pooled_carries_seen rid s lbl s' :
  sys_ok s -> pooled_step s lbl = Some s' -> rid ∈ looping (ps_world s) ->
  pooled_carries rid s lbl = true -> pooled_round lbl = Some rid \/ pending (ps_world s') rid = true.
Proof.
  intros (Hok & _) Hs Hin Hc. unfold pooled_carries in Hc.
  destruct lbl as [d addr ans| | |m| |k [[[] []| |]| |]]; try done.
  2: { left. by apply bool_decide_eq_true in Hc as ->. }
  right. destruct (pu_clients _ !! addr) as [c|] eqn:Ec; [|done]. destruct (da_sent ans) as [[]|] eqn:Ed; [|done].
  apply bool_decide_eq_true in Hc as <-. cbn in Hs. destruct (ps_running s); [|done].
  destruct (task_bind _ _ _) as [[[[self|self] w] e]|] eqn:E; [| |done]; inv_task E; simplify_eq.
  eapply on_datagram_waits; [apply Hok|done..].
Qed.

(** C32: a pooled flow is not cut off while it carries traffic.  While, from the opening of the flow
    on, there is never a time as long as the timeout in which neither a datagram of the client
    reaches the relay's socket nor one of its target reaches the client, the relay does not end as
    idle; the relay takes note of what waits in its control channel before time passes. *)
Theorem busy_flow_is_kept timeout sock rid lbls t last :
  0 < timeout ->
  run (busy_step timeout rid) (pooled_clock sock, 0) lbls = Some (t, last) ->
  timed_step timeout t (Act (LRelay rid (RlSelect RelayIdle))) = None.
Proof.
  intros Ht Hr. destruct (decide (rid ∈ looping (ps_world (td_state t)))) as [Hin|Hout].
  - refine (busy_loop_is_kept timeout rid sys_ok Ht _ _ _ _ lbls (t, last)
      (LRelay rid (RlSelect RelayIdle)) _ _ Hr Hin eq_refl eq_refl).
    + intros s l s'. apply pooled_step_ok.
    + intros s l s' Hok Hs Hk _. by apply pooled_carries_seen.
    + intros s l s' Hok Hs Hk Hk' Hround. destruct Hok as ((_ & _ & Hok) & _).
      assert (Hst : (rid < w_next (ps_world s))%nat).
      { apply looping_elem in Hk as (r & Hl & _). by apply Hok in Hl as [? _]. }
      destruct (pooled_step_steady rid _ _ _ Hs) as [_ Hkeep]; [|done|by apply Hkeep].
      destruct l as [| | | | |k l]; try done. cbn in Hround. destruct (relay_round l); [left|by right]. congruence.
    + apply pooled_init_ok.
    + intros Hk. cbn in Hk. by apply looping_elem in Hk as (r & Hl & _).
  - destruct (timed_step _ _ _) as [t'|] eqn:E; [|done]. exfalso. apply Hout. cbn in E.
    destruct (ripe _ _ _); [|done]. destruct (world_step _ _ _ _) as [[w e]|] eqn:Ew; [|done].
    unfold world_step in Ew. destruct (w_relays _ !! rid) as [r|] eqn:El; [|done].
    unfold relay_step in Ew. destruct (rl_status r) eqn:Est; [|done..]. apply looping_elem. eauto.
Qed.

(** ** Flows that do not *)

(** A relay that makes no round for longer than the timeout, except the last one, which its sleep
    ends, has left its loop; and time never gets stuck. *)
Theorem silent_flow_ends timeout (t0 t : timed pooled_sys nat) rid lbls :
  0 <= timeout -> timed_ok timeout t0 -> (rid < w_next (ps_world (td_state t0)))%nat ->
  run (quiet_step timeout rid) t0 lbls = Some t -> timeout < elapsed lbls ->
  rid ∉ looping (ps_world (td_state t)) /\
  (is_Some (timed_step timeout t (Elapse 1)) \/
   exists rid', is_Some (timed_step timeout t (Act (LRelay rid' (RlSelect RelayIdle))))).
Proof.
  intros Ht Hok Hrid Hr Hlong. split.
  - intros Hin. enough (elapsed lbls <= timeout) by lia.
    apply (quiet_run_is_short timeout (fun s => (rid < w_next (ps_world s))%nat) rid t0 lbls t); try done.
    + intros s l s' Hs Hst. by apply (pooled_step_started rid _ _ _ Hst).
    + intros s l s' Hs Hround Hi. destruct l as [d addr ans| | |m| |k l]; try done. cbn in Hround, Hs.
      destruct (relay_round l); simplify_eq. destruct (world_step _ _ _ _) as [[w e]|] eqn:E; simplify_eq.
      by eapply idle_relay_leaves in E.
  - apply quiet_run_timed in Hr. pose proof (timed_run_ok _ _ _ _ Ht Hok Hr) as Hok1.
    destruct (time_passes timeout t Hok1) as [|(k & Hk & Hripe)]; [by left|right].
    exists k. by apply pooled_ripe_fires.
Qed.
End PooledTimers.
