(* ===== verification/TcpTimers.v ===== *)
(** * The idle timeouts of TCP connections (src/proxy/tcp_clients.rs)

    The sleeps of [ProxyTcpEndpoint::run] and of [ProxyTcpClient::run].  A relay's round ends, and its
    sleep starts anew, when one of its directions is done with a read and its write, or found
    nothing to read; a write that is not taken goes on in the same round. *)

From Stdlib Require Import ZifyBool.
From S2P Require Import Prelude RustInt Types Chan TcpClients TcpProps Timed.
Local Open Scope Z_scope.

Section TcpTimers.
Context `{MpscLaws}.

Definition tcp_looping (w : tcp_world) : list nat :=
  omap (fun kv : nat * tcp_relay => match tr_status kv.2 with TcpLooping => Some kv.1 | _ => None end)
    (map_to_list (tw_relays w)).

Definition tcp_loops (s : tcp_ep_sys) : list (option nat) :=
  match ts_phase s with TepLooping => [None] | _ => [] end ++ map Some (tcp_looping (ts_world s)).

(** Whether an event of [select!] ends the round: a direction that finishes, or the sleep. *)
Definition tcp_round (p : rw_pair) (ev : tcp_event) : bool :=
  match ev with
  | TcpIdle => true
  | TcpPoll d ans => match read_and_write (rw_get d p) ans with Some (RwReady _ _) => true | _ => false end
  end.

Definition tcp_ep_round (s : tcp_ep_sys) (lbl : tcp_ep_label) : option (option nat) :=
  match lbl with
  | TepSelect _ => Some None
  | TepRelay rid (TlSelect ev) =>
      match tw_relays (ts_world s) !! rid with
      | Some r => if tcp_round (tr_rw r) ev then Some (Some rid) else None
      | None => None
      end
  | _ => None
  end.

Definition tcp_idle (lbl : tcp_ep_label) : bool :=
  match lbl with
  | TepSelect TcpEpIdle | TepRelay _ (TlSelect TcpIdle) => true
  | _ => false
  end.

#[export] Instance tcp_timers : Timers tcp_ep_sys tcp_ep_label (option nat) := {|
  tm_step := tcp_ep_step;
  tm_loops := tcp_loops;
  tm_round := tcp_ep_round;
  tm_idle := tcp_idle
|}.

Definition tcp_clock (port : Z) (e : Endpoint) : timed tcp_ep_sys (option nat) :=
  timed_init (tcp_ep_init port e).

Lemma tcp_loops_elem s k :
  k ∈ tcp_loops s <->
  match k with
  | None => ts_phase s = TepLooping
  | Some rid => exists r, tw_relays (ts_world s) !! rid = Some r /\ tr_status r = TcpLooping
  end.
Proof.
  unfold tcp_loops. rewrite elem_of_app, list_elem_of_fmap. destruct k as [rid|].
  - split.
    + intros [Hin|(x & [= ->] & Hx)]; [by destruct (ts_phase s); set_solver|].
      apply list_elem_of_omap in Hx as ([k r] & Hin%elem_of_map_to_list & Hs). cbn in Hs.
      destruct (tr_status r) eqn:E; simplify_eq. eauto.
    + intros (r & Hl & Hs). right. exists rid. split; [done|]. apply list_elem_of_omap.
      exists (rid, r). rewrite elem_of_map_to_list. cbn. by rewrite Hs.
  - split; [|intros ->; left; set_solver].
    intros [Hin|(x & [=] & _)]. by destruct (ts_phase s); set_solver.
Qed.

Lemma tcp_ripe_fires timeout (t : timed tcp_ep_sys (option nat)) k :
  k ∈ tcp_loops (td_state t) -> ripe timeout t k = true ->
  exists lbl t', tcp_idle lbl = true /\ timed_step timeout t (Act lbl) = Some t'.
Proof.
  rewrite tcp_loops_elem. intros Hk Hr. destruct k as [rid|].
  - destruct Hk as (r & Hl & Hs). exists (TepRelay rid (TlSelect TcpIdle)). eexists. split; [done|].
    cbn. rewrite Hl, Hr. cbn. rewrite Hs. done.
  - exists (TepSelect TcpEpIdle). eexists. split; [done|]. cbn. rewrite Hr, Hk. cbn. done.
Qed.

(** A relay that was spawned is not started again. *)
Definition tcp_started (rid : nat) (s : tcp_ep_sys) : Prop := (rid < tw_next (ts_world s))%nat.

Lemma tcp_relay_step_status r lbl tx r' tx' :
  tcp_relay_step r lbl tx = Some (r', tx') -> tr_status r' = TcpLooping -> tr_status r = TcpLooping.
Proof.
  unfold tcp_relay_step. intros Hs Hl. by destruct lbl, (tr_status r) eqn:E; repeat case_match; simplify_eq/=.
Qed.

Lemma tcp_ep_select_steady self w ev ctl w' e rid :
  tcp_ep_select self w ev = Some (Ret (ctl, w', e)) -> (rid < tw_next w)%nat ->
  (rid < tw_next w')%nat /\ tw_relays w' !! rid = tw_relays w !! rid.
Proof.
  intros Hs Hrid. destruct ev as [[addr|err] ans| |]; cbn in Hs; [| |destruct (mpsc_recv _) as [[]| |]|];
    try by simplify_eq.
  destruct (ProxyTcpClient_new _ _ _) as [[[c effs]|]|]; simplify_eq; [|done].
  cbn. split; [lia|]. by rewrite lookup_insert_ne by lia.
Qed.

Lemma tcp_ep_step_steady rid s lbl s' :
  tcp_started rid s -> tcp_ep_step s lbl = Some s' ->
  tcp_started rid s' /\ (Some rid ∈ tcp_loops s' -> Some rid ∈ tcp_loops s).
Proof.
  unfold tcp_started. intros Hst Hs. rewrite !tcp_loops_elem. destruct lbl as [ev|sent| |k l]; cbn in Hs.
  - destruct (ts_phase s); [|done..].
    destruct (tcp_ep_select _ _ _) as [[[[[self|self] w] e]|]|] eqn:E; simplify_eq/=; [..|done];
      by destruct (tcp_ep_select_steady _ _ _ _ _ _ rid E Hst) as [? ->].
  - by destruct (ts_phase s); simplify_eq/=.
  - by destruct (ts_phase s); simplify_eq/=.
  - destruct (tw_relays (ts_world s) !! k) as [r|] eqn:El; [|done].
    destruct (tcp_relay_step r l _) as [[r' ch]|] eqn:Er; [|done]. simplify_eq/=. split; [done|].
    intros (r1 & Hl & Hlp). rewrite lookup_insert in Hl. case_decide; simplify_eq; [|by eauto].
    exists r. split; [done|]. by eapply tcp_relay_step_status.
Qed.

(** The branch of a relay's sleep ends its loop. *)
Lemma tcp_idle_leaves s lbl s' rid :
  tcp_ep_step s lbl = Some s' -> tcp_ep_round s lbl = Some (Some rid) -> tcp_idle lbl = true ->
  Some rid ∉ tcp_loops s'.
Proof.
  intros Hs Hround Hi. destruct lbl as [ev|sent| |k [[d ans|]|]]; try done. cbn in Hround, Hs.
  destruct (tw_relays (ts_world s) !! k) as [r|] eqn:El; [|done]. simplify_eq.
  destruct (tr_status r); [|done..]. simplify_eq. rewrite tcp_loops_elem. cbn.
  intros (r1 & Hl & Hlp). rewrite lookup_insert_eq in Hl. by simplify_eq.
Qed.

(** C31: a TCP connection none of whose directions finishes a round for longer than the timeout is
    over: a relay that neither finishes a write nor finds a stream without anything to read
    ([WouldBlock], which moves nothing but restarts the sleep), has left its loop, even when it holds
    bytes that its peer does not take; and time never gets stuck. *)
Theorem silent_connection_ends timeout (t0 t : timed tcp_ep_sys (option nat)) rid lbls :
  0 <= timeout -> timed_ok timeout t0 -> (rid < tw_next (ts_world (td_state t0)))%nat ->
  run (quiet_step timeout (Some rid)) t0 lbls = Some t -> timeout < elapsed lbls ->
  (forall r, tw_relays (ts_world (td_state t)) !! rid = Some r -> tr_status r <> TcpLooping) /\
  (is_Some (timed_step timeout t (Elapse 1)) \/
   exists lbl t', tcp_idle lbl = true /\ timed_step timeout t (Act lbl) = Some t').
Proof.
  intros Ht Hok Hrid Hr Hlong. split.
  - intros r Hl Hlp. enough (elapsed lbls <= timeout) by lia.
    apply (quiet_run_is_short timeout (tcp_started rid) (Some rid) t0 lbls t); try done.
    + intros s l s'. apply tcp_ep_step_steady.
    + intros s l s'. apply tcp_idle_leaves.
    + apply tcp_loops_elem. eauto.
  - apply quiet_run_timed in Hr. pose proof (timed_run_ok _ _ _ _ Ht Hok Hr) as Hok1.
    destruct (time_passes timeout t Hok1) as [|(k & Hk & Hripe)]; [by left|right].
    by eapply tcp_ripe_fires.
Qed.

(** ** Connections that carry traffic *)

(** The bytes a relay has written to its two streams. *)
Definition written (rid : nat) (s : tcp_ep_sys) : nat :=
  match tw_relays (ts_world s) !! rid with
  | Some r => length (wrote_bytes ClientSide (tr_log r)) + length (wrote_bytes ServerSide (tr_log r))
  | None => 0
  end.

(** A step carries traffic of a relay when it writes bytes to one of its streams, and of the listener
    when it opens a connection; no traffic waits. *)
Definition tcp_carries (k : option nat) (s s' : tcp_ep_sys) : bool :=
  match k with
  | Some rid => (written rid s <? written rid s')%nat
  | None => (tw_next (ts_world s) <? tw_next (ts_world s'))%nat
  end.

#[export] Instance tcp_flow : Flow tcp_ep_sys tcp_ep_label (option nat) := {|
  fl_carries := fun k s _ s' => tcp_carries k s s';
  fl_due := fun _ _ => false
|}.

(** A relay that writes makes a round. *)
Lemma write_is_round r ev tx r' tx' :
  tcp_relay_step r (TlSelect ev) tx = Some (r', tx') ->
  tcp_round (tr_rw r) ev = true \/
  forall d, wrote_bytes d (tr_log r') = wrote_bytes d (tr_log r).
Proof.
  unfold tcp_relay_step, tcp_select, tcp_round. destruct (tr_status r); [|done..].
  destruct ev as [d ans|]; [|by left].
  destruct (read_and_write _ ans) as [[f|[] data]|]; [|by left..|done].
  intros [= <- _]. right. intros d'. cbn [tr_log]. rewrite wrote_bytes_app.
  unfold read_effect. by destruct (rw_get d (tr_rw r)), ans as [|[]| |]; cbn; rewrite ?app_nil_r.
Qed.

Lemma tcp_carries_round port e s lbl s' k :
  tcp_ep_ok port e s -> tcp_ep_step s lbl = Some s' -> k ∈ tcp_loops s ->
  tcp_carries k s s' = true -> tcp_ep_round s lbl = Some k.
Proof.
  intros (_ & _ & Hrel & _) Hs Hin Hc. destruct lbl as [ev|sent| |i l]; cbn in Hs.
  - destruct k as [rid|]; [|done]. exfalso. apply tcp_loops_elem in Hin as (r & Hl & _).
    apply Nat.ltb_lt in Hc. unfold written in Hc. destruct (Hrel _ _ Hl) as [Hlt _].
    destruct (ts_phase s); [|done..].
    destruct (tcp_ep_select _ _ _) as [[[[[self|self] w] effs]|]|] eqn:E; simplify_eq/=; [..|by apply Nat.lt_irrefl in Hc];
      destruct (tcp_ep_select_steady _ _ _ _ _ _ rid E Hlt) as [_ Heq]; rewrite Heq in Hc; by apply Nat.lt_irrefl in Hc.
  - exfalso. destruct (ts_phase s); simplify_eq; destruct k; apply Nat.ltb_lt in Hc; by apply Nat.lt_irrefl in Hc.
  - exfalso. destruct (ts_phase s); simplify_eq; destruct k; apply Nat.ltb_lt in Hc; by apply Nat.lt_irrefl in Hc.
  - destruct (tw_relays (ts_world s) !! i) as [r|] eqn:El; [|done].
    destruct (tcp_relay_step r l _) as [[r' ch]|] eqn:Er; [|done]. simplify_eq.
    destruct k as [rid|]; [|by apply Nat.ltb_lt in Hc; cbn in Hc; lia].
    apply Nat.ltb_lt in Hc. unfold written in Hc. cbn in Hc.
    destruct (decide (i = rid)) as [->|]; [|rewrite lookup_insert_ne in Hc by done; by apply Nat.lt_irrefl in Hc].
    rewrite lookup_insert_eq, El in Hc. destruct l as [ev|]; cbn.
    + rewrite El. destruct (write_is_round _ _ _ _ _ Er) as [->|Hsame]; [done|].
      rewrite !Hsame in Hc. by apply Nat.lt_irrefl in Hc.
    + cbn in Er. destruct (tr_status r); [done| |done].
      by destruct (mpsc_send _ _); simplify_eq; apply Nat.lt_irrefl in Hc.
Qed.

(** C33: a TCP connection is not cut off as idle while it moves bytes.  While, from its opening on,
    there is never a time as long as the timeout in which its relay writes no byte to either of its
    streams, the branch of the relay's sleep is not taken; and neither is the listener's while it
    opens a connection within every timeout. *)
Theorem busy_connection_is_kept timeout port e k lbls t last l :
  0 < timeout ->
  run (busy_step timeout k) (tcp_clock port e, 0) lbls = Some (t, last) ->
  tcp_ep_round (td_state t) l = Some k -> tcp_idle l = true ->
  timed_step timeout t (Act l) = None.
Proof.
  intros Ht Hr Hround Hidle. destruct (decide (k ∈ tcp_loops (td_state t))) as [Hin|Hout].
  - refine (busy_loop_is_kept timeout k (tcp_ep_ok port e) Ht _ _ _ _ lbls (t, last) l _ _ Hr Hin Hround Hidle).
    + intros s lbl s' Hok Hs. by apply (tcp_ep_step_ok _ _ _ _ _ Hok Hs).
    + intros s lbl s' Hok Hs Hk _ Hc. left. by eapply tcp_carries_round.
    + done.
    + apply tcp_ep_reachable_ok. constructor.
    + intros _. cbn. lia.
  - destruct (timed_step _ _ _) as [t'|] eqn:E; [|done]. exfalso. apply Hout. apply tcp_loops_elem. cbn in E.
    destruct l as [[]| | |rid [[]|]]; try done; cbn in Hround.
    + simplify_eq. cbn in E. destruct (ripe _ _ _); [|done]. by destruct (ts_phase _).
    + destruct (tw_relays _ !! rid) as [r|] eqn:El; [|done]. cbn in E. rewrite El in E. simplify_eq/=.
      destruct (ripe _ _ _); [|done]. destruct (tr_status r) eqn:Est; [|done..]. eauto.
Qed.
End TcpTimers.
