(* ===== verification/Scenarios.v ===== *)
(** * Concrete runs

    Small runs of the endpoints over the channels of [queue_mpsc], evaluated by the kernel: they
    show that the hypotheses of the theorems on endpoints are met by real states, and one of them
    is a counterexample. *)

From S2P Require Import Prelude RustInt Stun Types Chan UdpClient RelayInv UdpPooled PooledInv.
From S2P Require Import PooledProps UdpClientProps RelayLeaks.

#[local] Existing Instance queue_mpsc.
#[local] Existing Instance queue_mpsc_laws.

Definition alice : SocketAddr := SocketAddrV4 0x0A000001 1111.
Definition bob : SocketAddr := SocketAddrV4 0x0A000002 2222.
Definition target1 : SocketAddr := SocketAddrV4 0x0B000001 9001.
Definition target2 : SocketAddr := SocketAddrV4 0x0B000002 9002.
Definition pool_socket : UdpSocket := mkUdpSocket 4000 None.

(** A datagram on which nothing of the system fails. *)
Definition all_well : datagram_answers := mkAnswers (Ok tt) (mkAlloc (Ok 5001%Z) (Ok tt)) (Ok tt).

Definition hello (username : string) : list byte :=
  binding_request (String.list_byte_of_string username).
Definition hello_u1 : list byte := hello "u1:peer".
Definition media : list byte := [Byte.x80; Byte.x01; Byte.x02].

(** ** The pooled endpoint *)

Definition pooled_at (ls : list pooled_label) : pooled_sys :=
  default (pooled_init pool_socket) (run pooled_step (pooled_init pool_socket) ls).

(** One session, one flow of [alice]. *)
Definition one_flow : list pooled_label :=
  [LControl (Some (AddRoute "s1" "u1" target1)); LDatagram hello_u1 alice all_well].

(** The relay of that flow has left its loop, and has reported. *)
Definition relay_left : list pooled_label := one_flow ++ [LRelay 0 (RlSelect RelayIdle)].
Definition relay_over : list pooled_label := relay_left ++ [LRelay 0 RlReport].

(** [alice] was already routed afresh when the old relay's end is still in the channel. *)
Definition rerouted : list pooled_label := relay_over ++ [LDatagram hello_u1 alice all_well].

(** Ten datagrams in a row that the relay did not count yet. *)
Definition full_relay : list pooled_label := one_flow ++ replicate 9 (LDatagram media alice all_well).

Definition alice_client : PooledClient :=
  mkPooledClient (mkProxyClientHandler (mkUdpSocket 5001 (Some target1)) 0 0) "u1".

(** A control channel. *)
Definition control (items : list ProxyClientMsg) (closed : bool)
  : @chan queue_mpsc ProxyClientMsg := mkQueue items 10 closed.

Definition alice_relay (port : Z) (control : @chan queue_mpsc ProxyClientMsg) : ProxyClient :=
  mkProxyClient (mkUdpSocket port (Some target1)) pool_socket alice control.

Lemma pooled_at_run ls :
  is_Some (run pooled_step (pooled_init pool_socket) ls) ->
  run pooled_step (pooled_init pool_socket) ls = Some (pooled_at ls).
Proof. unfold pooled_at. intros [s ->]. done. Qed.

Lemma pooled_at_reachable ls :
  is_Some (run pooled_step (pooled_init pool_socket) ls) ->
  reachable pooled_step (pooled_init pool_socket) (pooled_at ls).
Proof. intros Hr. eapply run_reachable. by apply pooled_at_run. Qed.

Lemma forwarding_is_authorized_witness :
  exists effs, ps_log (pooled_at (one_flow ++ [LDatagram media alice all_well]))
               = ps_log (pooled_at one_flow) ++ effs /\
  forall sk to data, UdpSend sk to data ∈ effs ->
    exists d addr u t sid, Some (media, alice) = Some (d, addr) /\ data = recv_buf d
      /\ to = Some t /\ us_peer sk = Some t
      /\ pu_routes (ps_self (pooled_at one_flow)) !! u = Some t
      /\ pu_sessions (ps_self (pooled_at one_flow)) !! sid = Some u
      /\ admitted_by (one_flow ++ [LDatagram media alice all_well]) addr u.
Proof.
  apply (forwarding_is_authorized pool_socket one_flow (pooled_at one_flow)
           (LDatagram media alice all_well)).
  - by vm_compute.
  - by vm_compute.
  - done.
Defined.

Lemma tables_refine_history_witness :
  (forall sid, pu_sessions (ps_self (pooled_at one_flow)) !! sid
               = session_spec (controls one_flow) sid) /\
  (forall u t, pu_routes (ps_self (pooled_at one_flow)) !! u = Some t <->
     (exists sid, session_spec (controls one_flow) sid = Some u)
     /\ target_spec (controls one_flow) u = Some t).
Proof. apply (tables_refine_history pool_socket). by vm_compute. Defined.

Lemma reachable_consistent_witness :
  exists t r, pu_routes (ps_self (pooled_at one_flow)) !! "u1"%string = Some t
    /\ w_relays (ps_world (pooled_at one_flow)) !! 0 = Some r
    /\ us_peer (pc_socket (rl_client r)) = Some t /\ rl_aborted r = false.
Proof.
  destruct (reachable_consistent pool_socket (pooled_at one_flow)) as [_ Hc].
  { apply pooled_at_reachable. eexists. by vm_compute. }
  destruct (Hc alice alice_client) as (t & r & ? & ? & ? & ? & ? & ? & ? & ? & ?); [by vm_compute|].
  exists t, r. by split_and!.
Defined.

Lemma remove_last_session_witness :
  exists s', pooled_step (pooled_at one_flow) (LControl (Some (RemoveSession "s1"))) = Some s' /\
    pu_clients (ps_self s') !! alice = None /\ aborted (ps_world s') 0.
Proof.
  destruct (remove_last_session (pooled_at one_flow) "s1" "u1") as (s' & Hs & _ & _ & Hc).
  - by vm_compute.
  - by vm_compute.
  - replace (pu_sessions (ps_self (pooled_at one_flow)))
      with ({["s1" := "u1"]} : gmap string string) by by vm_compute.
    intros sid' Hl. by apply lookup_singleton_Some in Hl as [<- _].
  - exists s'. split; [done|]. destruct (Hc alice alice_client) as [Hu _]; [by vm_compute|].
    by apply Hu.
Defined.

Lemma remove_shared_session_witness :
  let s := pooled_at (one_flow ++ [LControl (Some (AddRoute "s2" "u1" target1))]) in
  pooled_step s (LControl (Some (RemoveSession "s1"))) =
  Some (mkPooledSys (set_sessions (ps_self s) (delete "s1"%string (pu_sessions (ps_self s))))
          (ps_world s) true (ps_log s)).
Proof.
  apply (remove_shared_session (pooled_at (one_flow ++ [LControl (Some (AddRoute "s2" "u1" target1))]))
           "s1" "s2" "u1"); by vm_compute.
Defined.

Lemma add_route_effect_witness :
  exists s', pooled_step (pooled_at one_flow) (LControl (Some (AddRoute "s2" "u1" target2))) = Some s'
    /\ pu_routes (ps_self s') !! "u1"%string = Some target2
    /\ pu_clients (ps_self s') !! alice = None /\ aborted (ps_world s') 0.
Proof.
  destruct (add_route_effect (pooled_at one_flow) "s2" "u1" target2)
    as (s' & Hs & _ & Hr & Hc & _); [by vm_compute|].
  exists s'. split; [done|]. split; [done|].
  apply (Hc alice alice_client); [by vm_compute..|]. exists target1. by vm_compute.
Defined.

Lemma ended_relay_is_reported_witness :
  ClientEnded alice ∈ chan_contents (w_client (ps_world (pooled_at relay_over))).
Proof.
  destruct (ended_relay_is_reported pool_socket (pooled_at relay_over) alice alice_client
    (mkRelay (alice_relay 5001 (control [DataSent] true)) Finished false)) as [Hf|Hin].
  - apply pooled_at_reachable. eexists. by vm_compute.
  - by vm_compute.
  - by vm_compute.
  - done.
  - done.
  - done.
Defined.

Lemma stale_end_is_harmless_witness :
  exists s', pooled_step (pooled_at rerouted) LClient = Some s' /\
    is_Some (pu_clients (ps_self s') !! alice) /\
    exists r, w_relays (ps_world s') !! 1 = Some r /\ rl_status r = Looping /\ rl_aborted r = false.
Proof.
  eexists. split; [by vm_compute|].
  destruct (stale_end_is_harmless pool_socket (pooled_at rerouted)
    (pooled_at (rerouted ++ [LClient])) alice
    (mkPooledClient (mkProxyClientHandler (mkUdpSocket 5001 (Some target1)) 1 1) "u1")
    (mkRelay (alice_relay 5001 (control [DataSent] false)) Looping false)) as [Hc Hr].
  - apply pooled_at_reachable. eexists. by vm_compute.
  - by vm_compute.
  - by vm_compute.
  - by vm_compute.
  - done.
  - split; [eexists; exact Hc|]. eexists. split; [exact Hr|]. split; reflexivity.
Defined.

Lemma open_flow_is_forwarded_witness :
  exists s', pooled_step (pooled_at one_flow) (LDatagram media alice all_well) = Some s' /\
    ps_self s' = ps_self (pooled_at one_flow) /\
    ps_log s' = ps_log (pooled_at one_flow) ++ [Count IN_CLIENT_UDP_MESSAGE;
      UdpSend (mkUdpSocket 5001 (Some target1)) (Some target1) media].
Proof.
  apply (open_flow_is_forwarded pool_socket (pooled_at one_flow) alice alice_client
    (mkRelay (alice_relay 5001 (control [DataSent] false)) Looping false) media all_well).
  - apply pooled_at_reachable. eexists. by vm_compute.
  - done.
  - by vm_compute.
  - by vm_compute.
  - done.
  - cbn. lia.
  - done.
Defined.

Lemma binding_request_opens_flow_witness :
  exists s' h, pooled_step (pooled_at one_flow) (LDatagram hello_u1 bob all_well) = Some s' /\
    h_socket h = mkUdpSocket 5001 (Some target1) /\
    pu_clients (ps_self s') !! bob = Some (mkPooledClient h "u1").
Proof.
  destruct (binding_request_opens_flow (pooled_at one_flow) bob hello_u1 all_well "u1" target1 5001)
    as (s' & h & Hs & Hh & Hc & _); [by vm_compute..|].
  exists s', h. split; [done|]. split; [done|]. by rewrite Hc.
Defined.

Lemma unroutable_is_dropped_witness :
  let s := pooled_at one_flow in
  pooled_step s (LDatagram (hello "u2:peer") bob all_well) =
  Some (mkPooledSys (ps_self s) (ps_world s) true
          (ps_log s ++ [Count IN_CLIENT_UDP_MESSAGE; Count UNROUTED_POOLED_UDP_MESSAGE])).
Proof.
  apply (unroutable_is_dropped (pooled_at one_flow) bob (hello "u2:peer") all_well).
  - by vm_compute.
  - by vm_compute.
  - intros u Hu. assert (u = "u2"%string) as -> by (vm_compute in Hu; congruence). by vm_compute.
Defined.

Lemma blocked_datagram_progresses_witness :
  pooled_step (pooled_at full_relay) (LDatagram media alice all_well) = None /\
  exists c s1 s2, pu_clients (ps_self (pooled_at full_relay)) !! alice = Some c /\
    pooled_step (pooled_at full_relay) (LRelay (h_handler (pcl_handler c)) (RlSelect RelayControl))
      = Some s1 /\
    pooled_step s1 (LDatagram media alice all_well) = Some s2.
Proof.
  split; [by vm_compute|].
  apply (blocked_datagram_progresses pool_socket (pooled_at full_relay) media alice all_well).
  - apply pooled_at_reachable. eexists. by vm_compute.
  - by vm_compute.
  - by vm_compute.
Defined.

Lemma pooled_endpoint_leaks_no_relay_witness :
  exists r, w_relays (ps_world (pooled_at (one_flow ++ [LControl (Some (RemoveSession "s1"))]))) !! 0
            = Some r /\ rl_aborted r = true.
Proof.
  eexists. split; [by vm_compute|].
  destruct (pooled_endpoint_leaks_no_relay pool_socket
    (pooled_at (one_flow ++ [LControl (Some (RemoveSession "s1"))])) 0
    (mkRelay (alice_relay 5001 (control [DataSent] false)) Looping true)) as [Ha|(_ & a & c & Hc & _)].
  - apply pooled_at_reachable. eexists. by vm_compute.
  - by vm_compute.
  - exact Ha.
  - replace (pu_clients _) with (∅ : gmap SocketAddr PooledClient) in Hc by by vm_compute.
    by rewrite lookup_empty in Hc.
Defined.

(** ** The per-session endpoint *)

Definition session_ep : Endpoint := mkEndpoint 9001 "11.0.0.1" "s1".

Definition ep_start : ep_sys := ep_init pool_socket session_ep target1.

Definition ep_at (ls : list ep_label) : ep_sys := default ep_start (run ep_step ep_start ls).

Lemma ep_at_reachable ls : is_Some (run ep_step ep_start ls) -> reachable ep_step ep_start (ep_at ls).
Proof. intros [s Hs]. unfold ep_at. rewrite Hs. by eapply run_reachable. Qed.

Definition receives (d : list byte) (addr : SocketAddr) : ep_label :=
  EsSelect (EpRecv (Ok (d, addr)) (mkAlloc (Ok 5001%Z) (Ok tt)) (Ok tt)).

(** [alice] and [bob] have flows, relays 0 and 1. *)
Definition two_flows : list ep_label := [receives media alice; receives media bob].

(** The relay of [alice] idled out and reported it. *)
Definition alice_idled : list ep_label :=
  two_flows ++ [EsRelay 0 (RlSelect RelayIdle); EsRelay 0 RlReport].

Definition alice_handler : ProxyClientHandler :=
  mkProxyClientHandler (mkUdpSocket 5001 (Some target1)) 0 0.

Lemma session_forwards_to_its_target_witness :
  exists effs, es_log (ep_at two_flows) = es_log (ep_at [receives media alice]) ++ effs /\
  forall sk to data, UdpSend sk to data ∈ effs ->
    to = Some target1 /\ exists d addr, Some (media, bob) = Some (d, addr) /\ data = recv_buf d.
Proof.
  apply (session_forwards_to_its_target pool_socket session_ep target1 _
           (EsSelect (EpRecv (Ok (media, bob)) (mkAlloc (Ok 5001%Z) (Ok tt)) (Ok tt)))).
  - apply (ep_at_reachable [receives media alice]). eexists. by vm_compute.
  - by vm_compute.
  - done.
Defined.

Lemma endpoint_end_is_told_once_witness :
  exists s', ep_step (ep_at [EsSelect EpIdle]) (EsReport true) = Some s' /\
     es_phase s' = EpFinished /\ tells (es_log s') = [TellManager (UdpEndpointEnded session_ep)].
Proof.
  destruct (endpoint_end_is_told_once pool_socket session_ep target1 (ep_at [EsSelect EpIdle]))
    as [_ Hr]; [apply ep_at_reachable; eexists; by vm_compute|].
  apply Hr. by vm_compute.
Defined.

Lemma client_end_is_processed_witness :
  exists s', ep_step (ep_at alice_idled) (EsSelect EpClientMsg) = Some s' /\
    pe_clients (es_self s') = delete alice (pe_clients (es_self (ep_at alice_idled))) /\
    aborted (es_world s') 0.
Proof.
  destruct (client_end_is_processed (ep_at alice_idled) alice (control [] false))
    as (s' & Hs & Hc & Ha & _); [by vm_compute..|].
  exists s'. split; [exact Hs|]. split; [exact Hc|]. apply (Ha alice_handler). by vm_compute.
Defined.

Lemma first_datagram_opens_session_flow_witness :
  exists s' h, ep_step (ep_at [receives media alice]) (receives media bob) = Some s' /\
    pe_clients (es_self s')
    = <[bob := h]> (pe_clients (es_self (ep_at [receives media alice]))).
Proof.
  destruct (first_datagram_opens_session_flow (ep_at [receives media alice]) bob media 5001)
    as (s' & h & Hs & _ & _ & Hc & _); [by vm_compute..|].
  exists s', h. split; [exact Hs|exact Hc].
Defined.

Lemma session_endpoint_leaks_no_relay_witness :
  exists r, w_relays (es_world (ep_at (two_flows ++ [EsCancel AtSelect]))) !! 0 = Some r /\ rl_aborted r = true.
Proof.
  eexists. split; [by vm_compute|].
  destruct (session_endpoint_leaks_no_relay pool_socket session_ep target1
    (ep_at (two_flows ++ [EsCancel AtSelect])) 0
    (mkRelay (alice_relay 5001 (control [DataSent] false)) Looping true)) as [Ha|[Hf _]].
  - apply ep_at_reachable. eexists. by vm_compute.
  - by vm_compute.
  - exact Ha.
  - exfalso. apply Hf. by vm_compute.
Defined.

Lemma relay_answers_its_client_witness :
  pool_socket = pool_socket /\ Some alice = Some (pc_addr (alice_relay 5001 (control [] false))) /\
  exists answer, RelayRecv (Ok media) (Ok tt) = RelayRecv (Ok answer) (Ok tt) /\
    media = recv_buf answer /\
    Continue (alice_relay 5001 (control [] false)) = Continue (alice_relay 5001 (control [] false)) /\
    (length answer <= BUF_LEN -> media = answer).
Proof.
  apply (relay_answers_its_client (alice_relay 5001 (control [] false)) (RelayRecv (Ok media) (Ok tt))
    _ [Count IN_MS_UDP_MESSAGE; UdpSend pool_socket (Some alice) media]).
  - by vm_compute.
  - apply elem_of_cons. right. apply elem_of_cons. by left.
Defined.

Lemma relay_life_cycle_witness :
  exists r', relay_step (mkRelay (alice_relay 5001 (control [] false)) Looping false)
               (RlSelect RelayIdle) (control [] false)
             = Some (r', control [] false, [Count IDLE_OUT_UDP_SOCKET]) /\
    rl_status r' = Reporting /\ mpsc_is_closed (pc_control (rl_client r')) = true.
Proof.
  eexists. split; [by vm_compute|].
  destruct (relay_life_cycle (mkRelay (alice_relay 5001 (control [] false)) Looping false)
    (RlSelect RelayIdle) (control [] false)
    (mkRelay (alice_relay 5001 (control [] true)) Reporting false)
    (control [] false) [Count IDLE_OUT_UDP_SOCKET]) as (_ & _ & _ & _ & Hst).
  - split; [|split; cbn; lia]. cbn. naive_solver.
  - done.
  - by vm_compute.
  - destruct Hst as [Hl|Hr]; [discriminate Hl|exact Hr].
Defined.

(** ** A stale end kills a live flow

    Unlike the pooled endpoint, the per-session endpoint takes every [ClientEnded] for the current
    relay of the address. *)

(** [alice]'s datagram finds the old relay's channel closed and only removes the old relay, the
    next one opens a new relay, and the old relay's end is still waiting. *)
Definition alice_is_back : list ep_label :=
  alice_idled ++ [receives media alice; receives media alice].

(** C34: the per-session endpoint can kill a running flow: after a relay of an address idled out
    and a new one serves that address, the end of the old one makes the endpoint remove the new
    client and abort its relay, which was running and had just forwarded a datagram. *)
Theorem stale_end_kills_live_relay :
  exists s s' h r,
    run ep_step ep_start alice_is_back = Some s /\
    pe_clients (es_self s) !! alice = Some h /\
    w_relays (es_world s) !! h_handler h = Some r /\
    rl_status r = Looping /\ rl_aborted r = false /\ sender_is_closed h (es_world s) = false /\
    ep_step s (EsSelect EpClientMsg) = Some s' /\
    pe_clients (es_self s') !! alice = None /\
    rl_aborted <$> (w_relays (es_world s') !! h_handler h) = Some true.
Proof.
  exists (ep_at alice_is_back), (ep_at (alice_is_back ++ [EsSelect EpClientMsg])),
    (mkProxyClientHandler (mkUdpSocket 5001 (Some target1)) 2 2),
    (mkRelay (alice_relay 5001 (control [DataSent] false)) Looping false).
  split_and!; by vm_compute.
Qed.

(** In the per-session mode one datagram of a client is counted twice in
    [udp_client_income_message_total]: when it arrives, and when its relay takes [DataSent]. *)
Theorem datagram_is_counted_twice :
  exists s, run ep_step ep_start [receives media alice; EsRelay 0 (RlSelect RelayControl)] = Some s /\
    counted IN_CLIENT_UDP_MESSAGE (es_log s) = 2.
Proof.
  exists (ep_at [receives media alice; EsRelay 0 (RlSelect RelayControl)]). split; by vm_compute.
Qed.
