(* ===== verification/SystemScenarios.v ===== *)
(** * Concrete runs of the TCP endpoints, the manager and the agent

    Witnesses for the theorems on those components, over the channels of [queue_mpsc], and a
    counterexample on endpoints whose task is gone. *)

From S2P Require Import Prelude RustInt Stun Types Chan UdpClient RelayInv UdpPooled PooledInv.
From S2P Require Import UdpClientProps TcpClients TcpProps Manager ManagerProps.
From S2P Require Import Register.
Local Open Scope Z_scope.

#[local] Existing Instance queue_mpsc.
#[local] Existing Instance queue_mpsc_laws.

(** ** TCP relays and endpoints *)

Definition carol : SocketAddr := SocketAddrV4 0x0A000003 3333.
Definition tcp_target : SocketAddr := SocketAddrV4 0x0B000001 9443.
Definition tcp_endpoint : Endpoint := mkEndpoint 9443 "11.0.0.1" "s1".

(** Two bytes each way, every write taken whole. *)
Definition clean_copy : list tcp_event :=
  [TcpPoll ClientSide (TryRead (Ok [Byte.x01; Byte.x02]));
   TcpPoll ClientSide (TryWrite (Err WouldBlock)); TcpPoll ClientSide (TryWrite (Ok 2%nat));
   TcpPoll ServerSide (TryRead (Ok [Byte.x03; Byte.x04])); TcpPoll ServerSide (TryWrite (Ok 2%nat))].

Definition clean_log : list tcp_effect :=
  [ReadFrom ClientSide [Byte.x01; Byte.x02]; WroteTo ServerSide [Byte.x01; Byte.x02];
   TcpCount IN_CLIENT_TCP_MESSAGE;
   ReadFrom ServerSide [Byte.x03; Byte.x04]; WroteTo ClientSide [Byte.x03; Byte.x04];
   TcpCount IN_MS_TCP_MESSAGE].

Lemma tcp_relay_only_copies_witness :
  sublist (wrote_bytes (other ClientSide) clean_log ++ held ClientSide fresh_pair)
    (read_bytes ClientSide clean_log).
Proof. apply (tcp_relay_only_copies clean_copy). reflexivity. Defined.

Lemma tcp_relay_is_transparent_witness :
  wrote_bytes (other ServerSide) clean_log ++ held ServerSide fresh_pair
  = read_bytes ServerSide clean_log.
Proof.
  apply (tcp_relay_is_transparent clean_copy).
  - reflexivity.
  - vm_compute. tauto.
Defined.

(** Every name resolves to the target, which answers; no name resolves. *)
Definition target_up : new_answers := mkNew (fun _ => Ok [tcp_target]) (fun _ => Ok tt).
Definition no_such_host : new_answers := mkNew (fun _ => Ok []) (fun _ => Ok tt).

Definition tcp_at (ls : list tcp_ep_label) : tcp_ep_sys :=
  default (tcp_ep_init 5002 tcp_endpoint) (run tcp_ep_step (tcp_ep_init 5002 tcp_endpoint) ls).

Lemma tcp_at_reachable ls :
  is_Some (run tcp_ep_step (tcp_ep_init 5002 tcp_endpoint) ls) ->
  reachable tcp_ep_step (tcp_ep_init 5002 tcp_endpoint) (tcp_at ls).
Proof. intros [s Hs]. unfold tcp_at. rewrite Hs. by eapply run_reachable. Qed.

Definition carol_connects : tcp_ep_label := TepSelect (TcpAccept (Ok carol) target_up).

Lemma tcp_endpoint_spares_relays_witness :
  tw_relays (ts_world (tcp_at [carol_connects; TepCancel])) !! 0%nat
  = Some (tcp_spawned (mkProxyTcpClient tcp_endpoint carol) [TcpCount TCP_CONNECTION_TO_SRV]).
Proof.
  apply (tcp_endpoint_spares_relays 5002 tcp_endpoint (tcp_at [carol_connects]) TepCancel).
  - apply tcp_at_reachable. eexists. reflexivity.
  - reflexivity.
  - intros rid' l. discriminate.
  - reflexivity.
Defined.

Lemma unresolvable_target_silences_endpoint_witness :
  ts_phase (tcp_at [carol_connects; TepSelect (TcpAccept (Ok carol) no_such_host)]) = TepPanicked /\
  tcp_tells (ts_log (tcp_at [carol_connects; TepSelect (TcpAccept (Ok carol) no_such_host)])) = [].
Proof.
  apply (unresolvable_target_silences_endpoint 5002 tcp_endpoint (tcp_at [carol_connects]) carol
           no_such_host []).
  - apply tcp_at_reachable. eexists. reflexivity.
  - reflexivity.
  - left. reflexivity.
  - reflexivity.
Defined.

(** ** The manager *)

Definition udp_endpoint : Endpoint := mkEndpoint 9001 "11.0.0.1" "s1".
Definition udp_target : SocketAddr := SocketAddrV4 0x0B000001 9001.

(** The system resolves every name and gives the port. *)
Definition on_port (port : Z) : create_answers := mkCreate (fun _ _ => Ok [udp_target]) (Ok port).

Definition sys_at (ls : list sys_label) : proxy_sys := default sys_init (run sys_step sys_init ls).

Lemma sys_at_reachable ls :
  is_Some (run sys_step sys_init ls) -> reachable sys_step sys_init (sys_at ls).
Proof. intros [s Hs]. unfold sys_at. rewrite Hs. by eapply run_reachable. Qed.

Definition both_created : list sys_label :=
  [SyCall (CreateUdpProxy udp_endpoint); SyCall (CreateTcpProxy tcp_endpoint);
   SyHandle (on_port 5001); SyHandle (on_port 5002)].

(** The UDP endpoint idled out and reported it. *)
Definition udp_over_run : list sys_label :=
  both_created ++ [SyUdp 0 (EsSelect EpIdle); SyUdp 0 (EsReport true)].

Lemma manager_tracks_udp_endpoints_witness :
  UdpEndpointEnded udp_endpoint ∈ chan_contents (sy_queue (sys_at udp_over_run)).
Proof.
  destruct (manager_tracks_udp_endpoints (sys_at udp_over_run)) as [Hr _].
  { apply sys_at_reachable. eexists. by vm_compute. }
  destruct (Hr udp_endpoint (mkHandler 5001 0)) as (t & ans & remote & Ht & _ & _ & _ & _ & _ & _ & _ & Hend);
    [by vm_compute|].
  apply Hend. vm_compute in Ht. injection Ht as <-. reflexivity.
Defined.

Lemma manager_tracks_tcp_endpoints_witness :
  exists t, tcp_tasks (sy_manager (sys_at both_created)) !! 1%nat = Some t /\
    sp_killed t = false /\ te_endpoint (ts_self (sp_task t)) = tcp_endpoint /\
    te_tcp_listener (ts_self (sp_task t)) = 5002.
Proof.
  destruct (manager_tracks_tcp_endpoints (sys_at both_created)) as [Hr _].
  { apply sys_at_reachable. eexists. by vm_compute. }
  destruct (Hr tcp_endpoint (mkHandler 5002 1)) as (t & ans & Ht & Hk & _ & _ & _ & He & Hl & _); [by vm_compute|].
  exists t. split; [exact Ht|]. split; [exact Hk|]. split; [exact He|exact Hl].
Defined.

Lemma finished_endpoint_is_forgotten_witness :
  exists n s', (n <= length (chan_contents (sy_queue (sys_at udp_over_run))))%nat /\
    run sys_step (sys_at udp_over_run) (replicate n (SyHandle (on_port 5003))) = Some s' /\
    udp_proxy (sy_manager s') !! udp_endpoint = None.
Proof.
  destruct (udp_tasks (sy_manager (sys_at udp_over_run)) !! 0%nat) as [t|] eqn:Et;
    [|by vm_compute in Et].
  apply (finished_endpoint_is_forgotten (sys_at udp_over_run) udp_endpoint (mkHandler 5001 0) t).
  - apply sys_at_reachable. eexists. by vm_compute.
  - by vm_compute.
  - exact Et.
  - vm_compute in Et. injection Et as <-. reflexivity.
Defined.

Lemma create_udp_contract_witness :
  exists m' h, handle_msg (CreateUdpProxy udp_endpoint) (on_port 5001) manager_init
               = (m', Some (CreateUdpProxyRs 5001)) /\
    udp_proxy m' !! udp_endpoint = Some h /\
    handle_msg (CreateUdpProxy udp_endpoint) (on_port 7777) m' = (m', Some (CreateUdpProxyRs 5001)).
Proof.
  destruct (handle_msg (CreateUdpProxy udp_endpoint) (on_port 5001) manager_init) as [m' reply] eqn:Eh.
  destruct (create_udp_contract udp_endpoint (on_port 5001) manager_init m' reply)
    as (_ & _ & _ & [(h & Hr & Hl & Hagain)|(err & Hr & _)]).
  - intros tid t Ht. cbn in Ht. by rewrite lookup_empty in Ht.
  - exact Eh.
  - cbn in Eh. injection Eh as <- <-. exists (handle_msg (CreateUdpProxy udp_endpoint) (on_port 5001) manager_init).1, h.
    split; [reflexivity|]. split; [exact Hl|]. exact (Hagain (on_port 7777)).
  - exfalso. cbn in Eh. injection Eh as <- <-. discriminate Hr.
Defined.

(** The UDP endpoint has left its loop, but the manager was not told yet; the TCP endpoint's task
    panicked on a name that does not resolve. *)
Definition both_gone : list sys_label :=
  both_created ++ [SyUdp 0 (EsSelect EpIdle); SyTcp 1 (TepSelect (TcpAccept (Ok carol) no_such_host))].

(** C38: an allocation can be answered with the port of an endpoint that serves no one: asked for an
    endpoint it still lists, the manager answers its port although the UDP task has left its loop,
    or the TCP task has panicked; in the TCP case nothing will ever make the manager forget it. *)
Theorem dead_endpoints_are_handed_out :
  let s := sys_at both_gone in
  run sys_step sys_init both_gone = Some s /\ chan_contents (sy_queue s) = [] /\
  (es_phase ∘ sp_task) <$> (udp_tasks (sy_manager s) !! 0%nat) = Some EpReporting /\
  (ts_phase ∘ sp_task) <$> (tcp_tasks (sy_manager s) !! 1%nat) = Some TepPanicked /\
  (handle_msg (CreateUdpProxy udp_endpoint) (on_port 7777) (sy_manager s)).2
    = Some (CreateUdpProxyRs 5001) /\
  (handle_msg (CreateTcpProxy tcp_endpoint) (on_port 7777) (sy_manager s)).2
    = Some (CreateTcpProxyRs 5002).
Proof. split_and!; by vm_compute. Qed.

(** ** The agent *)

(** Two attempts are configured, and nothing else. *)
Definition two_attempts (name : string) : result unit string :=
  if bool_decide (name = "MAX_REGISTRATION_ATTEMPTS"%string) then Ok "2"%string else Err tt.

Definition agent : agent_config := mkAgentConfig false true two_attempts "guid".

(** A refused connection, a connection that takes one report before the load fails, a refused one. *)
Definition three_failures : list attempt :=
  [mkAttempt Refused [] false;
   mkAttempt (Registered 1 1) [mkTick (Ok 7) true; mkTick (Err "no load"%string) true] true;
   mkAttempt Refused [] false].

Lemma registration_is_bounded_witness :
  (RegisterAgent_run agent (RegisterAgent_new "ws://registrar") three_failures).1.2
    = Some (Ret (Err "error during registration happened"%string)) /\
  length (RegisterAgent_run agent (RegisterAgent_new "ws://registrar") three_failures).1.1 = 3%nat.
Proof.
  pose proof (registration_is_bounded agent "ws://registrar" [] three_failures) as Hb.
  unfold RegisterAgent_new.
  destruct (RegisterAgent_run agent (mkRegisterAgent "ws://registrar" (Some [])) three_failures) as [[sents r] self'].
  destruct Hb as (Hr & Hl & _); [reflexivity|reflexivity|].
  split; [exact Hr|exact Hl].
Defined.
