(* ===== verification/TimedScenarios.v ===== *)
(** * Concrete runs in time

    Witnesses for the theorems on idle timeouts, with the default timeout of 5 seconds, and a
    counterexample: a per-session flow that is cut off while it carries traffic, where a pooled one is
    not. *)

From S2P Require Import Prelude RustInt Types Chan UdpClient UdpClientProps UdpPooled TcpClients Timed.
From S2P Require Import RelayTimers EndpointTimers PooledTimers TcpTimers Scenarios SystemScenarios.
Local Open Scope Z_scope.

#[local] Existing Instance queue_mpsc.
#[local] Existing Instance queue_mpsc_laws.

Definition second : timed_label ep_label := Elapse 1.
Definition act (lbl : ep_label) : timed_label ep_label := Act lbl.
Definition idles : ep_label := EsSelect EpIdle.

Definition clock0 : ep_timed := timed_init ep_start.

Definition timed_at (lbls : list (timed_label ep_label)) : ep_timed :=
  default clock0 (run (timed_step 5) clock0 lbls).

(** Alice's flow, and then nothing: the relay ends, its end is reported, and so does the endpoint. *)
Definition one_datagram : ep_timed := timed_at [act (receives media alice)].

Definition runs_out : list (timed_label ep_label) :=
  [act (EsRelay 0 (RlSelect RelayControl)); Elapse 4; second; act (EsRelay 0 (RlSelect RelayIdle));
   act (EsRelay 0 RlReport); act (EsSelect EpClientMsg); Elapse 6].

Lemma silent_endpoint_ends_witness :
  exists t, run (timed_step 5) one_datagram runs_out = Some t /\ es_phase (td_state t) <> EpLooping.
Proof.
  destruct (run (timed_step 5) one_datagram runs_out) as [t|] eqn:Er; [|by vm_compute in Er].
  exists t. split; [reflexivity|].
  apply (silent_endpoint_ends 5 one_datagram t runs_out).
  - discriminate.
  - apply (timed_run_ok 5 [act (receives media alice)] clock0); [discriminate|by apply timed_init_ok|].
    reflexivity.
  - exact Er.
  - reflexivity.
  - reflexivity.
Defined.

(** The media server answers every second; alice sent one datagram. *)
Definition answers : ep_label := EsRelay 0 (RlSelect (RelayRecv (Ok media) (Ok tt))).
Definition one_way : list (timed_label ep_label) :=
  act (receives media alice) :: concat (replicate 5 [second; act answers]).

(** C36: a flow that only goes to the client is cut off while it carries traffic: the endpoint's sleep
    starts anew only with its own rounds, which a relay's answers are not.  One datagram opens
    alice's flow, and the server answers every second; after 5 seconds, in the same second as the
    last answer was passed on, the endpoint leaves its loop as idle, and alice's relay, which is
    still looping, is aborted. *)
Theorem one_way_flow_is_cut :
  exists t t', run (timed_step 5) clock0 one_way = Some t /\
    run (timed_step 5) t [act idles; act (EsReport true)] = Some t' /\
    td_now t' = 5 /\ td_since t (Some 0%nat) = 5 /\
    counted IN_MS_UDP_MESSAGE (es_log (td_state t)) = 5%nat /\
    (fun r => (rl_status r, rl_aborted r)) <$> (w_relays (es_world (td_state t')) !! 0%nat)
      = Some (Looping, true) /\
    TellManager (UdpEndpointEnded session_ep) ∈ es_log (td_state t').
Proof.
  exists (timed_at one_way), (timed_at (one_way ++ [act idles; act (EsReport true)])).
  split_and!; try by vm_compute.
  apply list_elem_of_lookup. exists (pred (length (es_log (td_state
    (timed_at (one_way ++ [act idles; act (EsReport true)])))))). by vm_compute.
Qed.

(** ** Pooled flows *)

Definition pooled_run_at (lbls : list (timed_label pooled_label)) : timed pooled_sys nat :=
  default (pooled_clock pool_socket) (run (timed_step 5) (pooled_clock pool_socket) lbls).

Definition pooled_answers : pooled_label := LRelay 0 (RlSelect (RelayRecv (Ok media) (Ok tt))).
Definition pooled_open : list (timed_label pooled_label) := map Act one_flow.
Definition pooled_sleep : pooled_label := LRelay 0 (RlSelect RelayIdle).

(** Alice and the media server talk for 20 seconds, each of them every four: a datagram of hers is
    taken note of by her relay at once. *)
Definition alice_talks : list (timed_label pooled_label) :=
  [Act (LDatagram media alice all_well); Act (LRelay 0 (RlSelect RelayControl))].
Definition conversation : list (timed_label pooled_label) :=
  pooled_open ++ [Act (LRelay 0 (RlSelect RelayControl))]
  ++ concat (replicate 5 (Elapse 2 :: alice_talks ++ [Elapse 2; Act pooled_answers])) ++ [Elapse 4].

Lemma busy_flow_is_kept_witness :
  exists b, run (busy_step 5 0%nat) (pooled_clock pool_socket, 0) conversation = Some b /\
    td_now b.1 = 24 /\ timed_step 5 b.1 (Act pooled_sleep) = None.
Proof.
  destruct (run (busy_step 5 0%nat) (pooled_clock pool_socket, 0) conversation) as [[t last]|] eqn:Er;
    [|by vm_compute in Er].
  exists (t, last). split; [reflexivity|]. split.
  - vm_compute in Er. injection Er as <- _. reflexivity.
  - apply (busy_flow_is_kept 5 pool_socket 0 conversation t last).
    + reflexivity.
    + exact Er.
Defined.

(** The flow that a per-session endpoint cuts off outlives a pooled endpoint's timeouts: alice sent
    one datagram, and the media server answers every second for a minute. *)
Lemma pooled_one_way_flow_lasts :
  exists t, run (timed_step 5) (pooled_clock pool_socket)
      (pooled_open ++ concat (replicate 60 [Elapse 1; Act pooled_answers])) = Some t /\
    td_now t = 60 /\ looping (ps_world (td_state t)) = [0%nat].
Proof. eexists. split; [by vm_compute|]. by vm_compute. Qed.

Lemma silent_flow_ends_witness :
  exists t, run (quiet_step 5 0%nat) (pooled_run_at pooled_open) [Elapse 5; Act pooled_sleep; Elapse 1] = Some t
    /\ 0%nat ∉ looping (ps_world (td_state t)).
Proof.
  destruct (run (quiet_step 5 0%nat) (pooled_run_at pooled_open) [Elapse 5; Act pooled_sleep; Elapse 1])
    as [t|] eqn:Er; [|by vm_compute in Er].
  exists t. split; [reflexivity|].
  apply (silent_flow_ends 5 (pooled_run_at pooled_open) t 0 [Elapse 5; Act pooled_sleep; Elapse 1]).
  - discriminate.
  - apply (timed_run_ok 5 pooled_open (pooled_clock pool_socket)); [discriminate|by apply timed_init_ok|].
    reflexivity.
  - vm_compute. lia.
  - exact Er.
  - reflexivity.
Defined.

(** ** TCP connections *)

Definition tcp_run_at (lbls : list (timed_label tcp_ep_label)) : timed tcp_ep_sys (option nat) :=
  default (tcp_clock 5002 tcp_endpoint) (run (timed_step 5) (tcp_clock 5002 tcp_endpoint) lbls).

Definition carol_polls (ans : rw_answer) : timed_label tcp_ep_label :=
  Act (TepRelay 0 (TlSelect (TcpPoll ClientSide ans))).
Definition carol_sends : timed_label tcp_ep_label := carol_polls (TryRead (Ok [Byte.x01])).
Definition target_takes : timed_label tcp_ep_label := carol_polls (TryWrite (Ok 1%nat)).
Definition target_is_full : timed_label tcp_ep_label := carol_polls (TryWrite (Err WouldBlock)).
Definition carol_sleep : tcp_ep_label := TepRelay 0 (TlSelect TcpIdle).

(** Carol sends a byte that the target never takes. *)
Definition stuck_write : list (timed_label tcp_ep_label) :=
  [carol_sends; Elapse 4; target_is_full; Elapse 1; Act carol_sleep; Act (TepSelect TcpEpIdle); Elapse 1].

Lemma silent_connection_ends_witness :
  exists t, run (quiet_step 5 (Some 0%nat)) (tcp_run_at [Act carol_connects]) stuck_write = Some t /\
    forall r, tw_relays (ts_world (td_state t)) !! 0%nat = Some r -> tr_status r <> TcpLooping.
Proof.
  destruct (run (quiet_step 5 (Some 0%nat)) (tcp_run_at [Act carol_connects]) stuck_write)
    as [t|] eqn:Er; [|by vm_compute in Er].
  exists t. split; [reflexivity|].
  apply (silent_connection_ends 5 (tcp_run_at [Act carol_connects]) t 0 stuck_write).
  - discriminate.
  - apply (timed_run_ok 5 [Act carol_connects] (tcp_clock 5002 tcp_endpoint));
      [discriminate|by apply timed_init_ok|]. reflexivity.
  - vm_compute. lia.
  - exact Er.
  - reflexivity.
Defined.

(** Carol's bytes are taken one by one, also after the listener has left. *)
Definition carol_stays : list (timed_label tcp_ep_label) :=
  [Act carol_connects; Elapse 2; carol_sends; Elapse 2; target_takes; Elapse 1; Act (TepSelect TcpEpIdle)]
  ++ concat (replicate 5 [Elapse 1; carol_sends; Elapse 2; target_takes]) ++ [Elapse 4].

Lemma busy_connection_is_kept_witness :
  exists b, run (busy_step 5 (Some 0%nat)) (tcp_clock 5002 tcp_endpoint, 0) carol_stays = Some b /\
    td_now b.1 = 24 /\ timed_step 5 b.1 (Act carol_sleep) = None.
Proof.
  destruct (run (busy_step 5 (Some 0%nat)) (tcp_clock 5002 tcp_endpoint, 0) carol_stays) as [[t last]|] eqn:Er;
    [|by vm_compute in Er].
  exists (t, last). split; [reflexivity|]. split.
  - vm_compute in Er. injection Er as <- _. reflexivity.
  - apply (busy_connection_is_kept 5 5002 tcp_endpoint (Some 0%nat) carol_stays t last carol_sleep).
    + reflexivity.
    + exact Er.
    + vm_compute in Er. injection Er as <- _. reflexivity.
    + reflexivity.
Defined.
