(* ===== verification/FrontScenarios.v ===== *)
(** * Concrete runs of the front and the services

    Witnesses for the theorems on the front, in either mode, and on the services, on the backends of
    PooledHandler.v and ManagerBackend.v over the channels of [queue_mpsc]; and counterexamples on
    requests that are dropped. *)

From S2P Require Import Prelude RustInt Stun Types Chan Rpc UdpClient RelayInv UdpPooled PooledInv.
From S2P Require Import PooledProps UdpClientProps TcpClients Manager ManagerProps ProxyManager.
From S2P Require Import FrontLaws ProxyProps PooledFront PooledHandler ManagerBackend.
From S2P Require Import EndpointApi Register Services SystemScenarios.
Local Open Scope Z_scope.

#[local] Existing Instance queue_mpsc.
#[local] Existing Instance queue_mpsc_laws.

(** ** The front *)

Definition front : Type := ProxyManager backend PooledUdpEndpointHandler.

Definition request1 : AllocateRequest :=
  mkAllocateRequest "9001" "9443" "0" "11.0.0.1" "s1" (Some "u1"%string).

Definition resolver : string -> Z -> result string (list SocketAddr) := fun _ _ => Ok [udp_target].

(** A client's datagram reaches the UDP endpoint. *)
Definition media_arrives : sys_label :=
  SyUdp 0 (EsSelect (EpRecv (Ok ([Byte.x80], carol)) (mkAlloc (Ok 6001) (Ok tt)) (Ok tt))).

(** A per-session front whose system gives the ports 5001 and 5002.  A first request for the UDP
    endpoint of another session is dropped once it was sent, and handled while the next one is
    under way; while the TCP endpoint is asked for, the UDP one already relays. *)
Definition other_endpoint : Endpoint := mkEndpoint 9009 "11.0.0.9" "s9".

Definition fresh_front : front :=
  ProxyManager_new (mkBackend sys_init
    [mkScript [] [] DropsAfterSend; mkScript [] [SyHandle (on_port 5009); SyHandle (on_port 5001)] Waits;
     mkScript [media_arrives] [SyHandle (on_port 5002)] Waits] []).

Definition session_front : front := (create_udp_proxy_internal other_endpoint fresh_front).2.

Lemma fresh_front_ok : backend_inv (bk_sys (pm_tx fresh_front)).
Proof. constructor. Qed.

Lemma session_front_ok : backend_inv (bk_sys (pm_tx session_front)).
Proof.
  destruct (create_udp_proxy_internal other_endpoint fresh_front) as [r s] eqn:E.
  pose proof (create_udp_internal_spec (M := backend) other_endpoint fresh_front r s) as Hs.
  destruct (Hs fresh_front_ok E) as (Hok & _). unfold session_front. rewrite E. exact Hok.
Qed.

Definition allocated_front : front := (create_proxy resolver request1 session_front).2.

Lemma allocation_is_served_witness :
  exists tid t, udp_tasks (sy_manager (bk_sys (pm_tx allocated_front))) !! tid = Some t /\
    sp_killed t = false /\ us_port (pe_udp_socket (es_self (sp_task t))) = 5001 /\
    exists ans, socket_addr (ca_lookup ans) udp_endpoint = Ok (pe_remote_addr (es_self (sp_task t))).
Proof.
  destruct (allocation_is_served resolver request1 session_front
    (mkAllocateResponse 5001 5002 0) allocated_front)
    as (udp & tcp & ssl & Hu & _ & _ & _ & Hserved & _);
    [exact session_front_ok|reflexivity|by vm_compute|].
  vm_compute in Hu. injection Hu as <-. destruct Hserved as [(tid & t & ans & Ht & Hk & _ & Hrem & _ & _ & Hp & _)|Hlt].
  - exists tid, t. split; [exact Ht|]. split; [exact Hk|]. split; [exact Hp|]. exists ans. exact Hrem.
  - exfalso. vm_compute in Hlt. by apply Nat.nle_succ_0 in Hlt.
Defined.

Lemma allocated_front_ok : backend_inv (bk_sys (pm_tx allocated_front)).
Proof.
  pose proof (create_proxy_serves_session (M := backend) resolver request1 session_front
    (mkAllocateResponse 5001 5002 0) allocated_front) as Hs.
  destruct Hs as (udp & tcp & ssl & _ & _ & _ & Hok & _);
    [exact session_front_ok|reflexivity|by vm_compute|exact Hok].
Qed.

Lemma create_proxy_panics_iff_witness :
  (create_proxy resolver (mkAllocateRequest "90001" "0" "0" "11.0.0.1" "s1" None) session_front).1
  = Panicked.
Proof. apply create_proxy_panics_iff; [intros [=]|reflexivity]. Defined.

Lemma bad_tcp_port_leaves_udp_endpoint_witness :
  exists self', create_proxy resolver (mkAllocateRequest "9001" "tcp" "0" "11.0.0.1" "s1" None)
                  session_front = (Returned (Err "invalid digit found in string"%string), self') /\
    listed Udp (pm_tx self') udp_endpoint = Some 5001 /\
    pm_udp_endpoints self' !! mkSession 5001 "s1" = Some udp_endpoint.
Proof.
  apply (bad_tcp_port_leaves_udp_endpoint (M := backend) resolver
    (mkAllocateRequest "9001" "tcp" "0" "11.0.0.1" "s1" None) session_front 9001 InvalidDigit 5001
    (backend_call (pm_tx session_front) (CreateUdpProxy udp_endpoint)).2);
    first [exact session_front_ok|by vm_compute].
Defined.

Lemma session_delete_contract_witness :
  (delete_udp_proxy 5001 "s1" allocated_front).1 = Returned (Ok tt) /\
  listed Udp (pm_tx (delete_udp_proxy 5001 "s1" allocated_front).2) udp_endpoint = None.
Proof.
  assert (Hk : pm_udp_endpoints allocated_front !! mkSession 5001 "s1" = Some udp_endpoint)
    by by vm_compute.
  assert (Hr : (delete_udp_proxy 5001 "s1" allocated_front).1 = Returned (Ok tt)) by by vm_compute.
  pose proof (session_delete_contract 5001 "s1" allocated_front) as Hd.
  destruct (delete_udp_proxy 5001 "s1" allocated_front) as [r self']. cbn in Hr. rewrite Hk in Hd.
  destruct Hd as (_ & [[_ Hl]|[Hr' _]] & _); [exact allocated_front_ok|by vm_compute| |congruence].
  split; [exact Hr|exact Hl].
Defined.

Lemma session_table_only_grows_witness :
  table_grows allocated_front (perform (DeleteUdp 5001 "s1") allocated_front).
Proof. apply (session_table_only_grows (DeleteUdp 5001 "s1") allocated_front); by vm_compute. Defined.

(** A deletion over HTTP, with axum's matching of its path. *)
Definition delete_over_http : HttpRequest :=
  mkHttpRequest (Some "/proxy/{port}/{session}"%string) "/proxy/5002/s1" "DELETE".

Lemma service_answers_witness :
  exists response, (AllocatorService_new "/metrics" resolver (fun _ => ToDelete 5002 "s1")
     delete_over_http (mkAdmission false (Answer tt) false) allocated_front).1.1 = Returned response /\
  (response = handle_error Elapsed \/ response = Status OK).
Proof.
  pose proof (service_answers (M := backend) "/metrics" resolver (fun _ => ToDelete 5002 "s1")
    delete_over_http (mkAdmission false (Answer tt) false) allocated_front) as Ha.
  assert (Hr : (AllocatorService_new "/metrics" resolver (fun _ => ToDelete 5002 "s1")
     delete_over_http (mkAdmission false (Answer tt) false) allocated_front).1.1 = Returned (Status OK))
    by by vm_compute.
  destruct (AllocatorService_new _ _ _ _ _ _) as [[f mgr'] recorded]. cbn in Hr. subst f.
  destruct Ha as [[Ha _] _]; [exact allocated_front_ok|by vm_compute|]. cbn in Ha.
  exists (Status OK). split; [reflexivity|]. destruct Ha as [Ha|Ha]; [by left|by right].
Defined.

(** ** The pooled front *)

(** What each pooled socket's binding answers: every call succeeds, the port is the one asked for. *)
Definition bind_well (port : Z) : bind_answers :=
  mkBind (Ok tt) (Ok tt) (Ok tt) (Ok tt) (Ok tt) (Ok port).

(** Pooled sockets on the ports from 4000 on, with what happens meanwhile. *)
Definition bind_all (scripts : list (script control_label)) (i : nat)
  : Z -> result string PooledUdpEndpointHandler :=
  PooledUdpEndpointHandler_bind scripts (bind_well (4000 + Z.of_nat i)).

Definition no_backend : backend := mkBackend sys_init [] [].

Definition pooled_front_with (scripts : list (script control_label)) (n : nat) : front :=
  match with_udp_pool no_backend (bind_all scripts) n 4000 with Ok s => s | Err _ => session_front end.

Definition pooled_front : front := pooled_front_with [] 2.

Lemma with_udp_pool_spec_witness :
  with_udp_pool no_backend (bind_all []) 2 65535 = Err "udp pool exceeds the port range"%string.
Proof. rewrite (with_udp_pool_spec no_backend (bind_all []) 2 65535); [reflexivity|discriminate]. Defined.

Lemma pooled_front_binds scripts n :
  is_ok (with_udp_pool no_backend (bind_all scripts) n 4000) = true ->
  with_udp_pool no_backend (bind_all scripts) n 4000 = Ok (pooled_front_with scripts n).
Proof. unfold pooled_front_with. by destruct (with_udp_pool _ _ _ _). Qed.

Lemma pooled_front_starts scripts n :
  is_ok (with_udp_pool no_backend (bind_all scripts) n 4000) = true -> (0 < n)%nat ->
  pool_wf (pooled_front_with scripts n) /\ pm_udp_mode (pooled_front_with scripts n) = Pooled /\
  pm_udp_endpoints (pooled_front_with scripts n) = ∅.
Proof.
  intros Hb%pooled_front_binds Hn.
  by apply (bound_pool_ok no_backend (fun _ => scripts) (fun i => bind_well (4000 + Z.of_nat i)) n 4000).
Qed.

Lemma pooled_front_wf : pool_wf pooled_front.
Proof. apply pooled_front_starts; [by vm_compute|lia]. Qed.

Definition routed_front : front :=
  (create_pooled_udp_proxy resolver udp_endpoint (Some "u1"%string) pooled_front).2.

Lemma pooled_allocation_routes_session_witness :
  exists p', pool_route p' "s1" = Some ("u1"%string, udp_target) /\ pool_port p' = 4000 /\
    pm_udp_endpoints routed_front = <[mkSession 4000 "s1" := udp_endpoint]> (pm_udp_endpoints pooled_front).
Proof.
  destruct (pooled_allocation_routes_session (M := backend) resolver udp_endpoint (Some "u1"%string) pooled_front 4000
    routed_front) as (u & t & p' & Hu & _ & Ht & Hr & Hp & _ & _ & Ht' & _).
  - exact pooled_front_wf.
  - by vm_compute.
  - exists p'. injection Hu as <-. cbn in Ht. injection Ht as <-. split_and!; [exact Hr|exact Hp|exact Ht'].
Defined.

Lemma pooled_front_ports : NoDup (pooled_udp_ports pooled_front).
Proof.
  change (pooled_udp_ports pooled_front) with [4000; 4001].
  apply NoDup_cons. split; [|apply NoDup_singleton]. rewrite list_elem_of_singleton. discriminate.
Qed.

Lemma pooled_delete_undoes_allocation_witness :
  exists self'' p'', delete_udp_proxy 4000 "s1" routed_front = (Returned (Ok tt), self'') /\
    delete_udp_proxy 4000 "s1" self'' = (Returned (Err "No such endpoint"%string), self'') /\
    pm_udp_pool self'' !! 0%nat = Some p'' /\ pool_route p'' "s1" = None.
Proof.
  pose proof (pooled_delete_undoes_allocation (M := backend) resolver udp_endpoint (Some "u1"%string)
    pooled_front 4000 routed_front) as Hd.
  assert (Hr : (delete_udp_proxy 4000 "s1" routed_front).1 = Returned (Ok tt)) by by vm_compute.
  cbn [e_session_id udp_endpoint] in Hd. cbv zeta in Hd.
  destruct (delete_udp_proxy 4000 "s1" routed_front) as [r self'']. cbn in Hr. subst r.
  destruct Hd as (_ & _ & _ & Hagain & Hroutes);
    [exact pooled_front_wf|reflexivity|exact pooled_front_ports|by vm_compute|].
  destruct Hroutes as (ufrag & p & p'' & _ & Hp & _ & Hpool & Hgone & _); [discriminate|].
  exists self'', p''. split; [reflexivity|]. split; [exact Hagain|]. split; [|exact Hgone].
  rewrite Hpool. change (next_index pooled_front) with 0%nat in *.
  apply list_lookup_insert_eq. by eapply lookup_lt_Some.
Defined.

Lemma known_sessions_stay_routed_witness :
  exists p u, p ∈ pm_udp_pool routed_front /\ pool_port p = 4000 /\ session_spec (pool_asked p) "s1" = Some u.
Proof.
  destruct (known_sessions_stay_routed (M := backend)
    [Allocate resolver request1] pooled_front 4000 "s1" udp_endpoint) as (p & u & Hp & Hpp & Hu).
  - exact pooled_front_wf.
  - reflexivity.
  - exact pooled_front_ports.
  - reflexivity.
  - by vm_compute.
  - assert (E : pm_udp_pool (fold_left (fun s r => perform r s) [Allocate resolver request1] pooled_front)
              = pm_udp_pool routed_front) by by vm_compute.
    rewrite E in Hp. exists p, u. split_and!; [exact Hp|exact Hpp|exact Hu].
Defined.


(** The pool is bound, a session is allocated and deleted, and allocated again, which puts it on the
    second socket; there, receiving a datagram fails once. *)
Definition earlier_requests : list request :=
  [Allocate resolver request1; DeleteUdp 4000 "s1"].
Definition earlier_front : front := fold_left (fun s r => perform r s) earlier_requests pooled_front.
Definition served_front : front :=
  (create_pooled_udp_proxy resolver udp_endpoint (Some "u1"%string) earlier_front).2.
Lemma pooled_allocation_is_served_witness :
  exists h, h ∈ pm_udp_pool served_front /\ ph_local_port h = 4001 /\
    pu_udp_socket (ps_self (cs_endpoint (try_steps (ph_server h) [CtOther LRecvError])))
      = mkUdpSocket 4001 None.
Proof.
  destruct (pooled_allocation_is_served (M := backend) no_backend (fun _ => [])
    (fun i => bind_well (4000 + Z.of_nat i)) 2 4000 pooled_front earlier_requests
    resolver udp_endpoint (Some "u1"%string) 4001 served_front [CtOther LRecvError])
    as (ufrag & target & h & _ & _ & Hh & Hp & Hs & _).
  - discriminate.
  - lia.
  - apply (pooled_front_binds [] 2). by vm_compute.
  - exact pooled_front_ports.
  - by vm_compute.
  - exists h. split; [exact Hh|]. split; [exact Hp|exact Hs].
Defined.

(** ** Requests that are dropped *)

(** A pooled socket whose first allocation is answered, whose first deletion is dropped before it is
    sent, and whose second allocation is dropped after. *)
Definition cut_short : list (script control_label) :=
  [undisturbed; mkScript [] [] DropsBeforeSend; mkScript [] [CtTake] DropsAfterSend].






(** A deletion that is dropped, and then deletions and an allocation of another session. *)
Definition stranded_front : front := fold_left (fun s r => perform r s)
  [Allocate resolver request1; DeleteUdp 4000 "s1"] (pooled_front_with cut_short 1).

Lemma stranded_front_stranded : stranded 0 "s1" "u1" stranded_front.
Proof.
  destruct (pooled_front_starts cut_short 1) as (Hwf & Hmode & Hempty); [by vm_compute|lia|]. split.
  - apply pooled_requests_keep. split_and!; [done|done| |].
    + change (pooled_udp_ports (pooled_front_with cut_short 1)) with [4000]. apply NoDup_singleton.
    + intros port sid. rewrite Hempty, lookup_empty. by intros [].
  - assert (Hno : pm_udp_endpoints stranded_front = ∅) by by vm_compute.
    split; [intros port; by rewrite Hno|]. by vm_compute; eexists.
Qed.

Definition later_requests : list request :=
  [DeleteUdp 4000 "s1"; Allocate resolver (mkAllocateRequest "9001" "0" "0" "11.0.0.1" "s2" (Some "u2"%string));
   DeleteUdp 4000 "s2"].

Lemma forgotten_session_stays_routed_witness :
  exists p, pm_udp_pool (fold_left (fun s r => perform r s) later_requests stranded_front) !! 0%nat = Some p /\
    session_spec (pool_asked p) "s1" = Some "u1"%string.
Proof.
  apply (forgotten_session_stays_routed later_requests 0 "s1" "u1" stranded_front).
  - exact stranded_front_stranded.
  - unfold later_requests. repeat constructor.
Defined.
